(** * RemoveLayoutConversions: layout propagation, conflict resolution,
      rematerialization and the dot-accumulator pattern

    A shallow embedding of
    [lib/Dialect/TritonGPU/Transforms/RemoveLayoutConversions.cpp].  The
    program under transformation is an arena of operations kept in walk
    order; values are handles whose types live in a table, as the pass mutates
    types in place.  Queries of the host IR that the pass only calls
    ([inferDstEncoding], [isExpensiveLoadOrStore], [getForwardSlice],
    [getConvertBackwardSlice], ...) are section variables. *)

From stdpp Require Import base decidable option list gmap.
From Stdlib Require Import Lia.

Set Default Proof Using "Type".

(** ** Data model *)

(** An SSA value: a handle compared by identity. *)
Abbreviation Value := nat (only parsing).

(** Modelled from the spec: the catalogue of layout descriptors is declared in
    the dialect headers, outside the sources at hand.  The pass only tests the
    family of an encoding ([isa<...>]), compares encodings for equality and
    reads the major version of an MMA encoding; the remaining parameters of an
    encoding are folded into [tag]. *)
Inductive Attribute : Type :=
  | BlockedEncodingAttr (tag : nat)
  | NvidiaMmaEncodingAttr (versionMajor : nat) (tag : nat)
  | DotOperandEncodingAttr (tag : nat)
  | SharedEncodingAttr (tag : nat)
  | SliceEncodingAttr (tag : nat)
  | OtherEncodingAttr (tag : nat).

#[global] Instance Attribute_eq_dec : EqDecision Attribute.
Proof. solve_decision. Defined.

Definition Attribute_to_tuple (e : Attribute) : nat * nat * nat :=
  match e with
  | BlockedEncodingAttr t => (0, 0, t)
  | NvidiaMmaEncodingAttr major t => (1, major, t)
  | DotOperandEncodingAttr t => (2, 0, t)
  | SharedEncodingAttr t => (3, 0, t)
  | SliceEncodingAttr t => (4, 0, t)
  | OtherEncodingAttr t => (5, 0, t)
  end.

Definition Attribute_of_tuple (p : nat * nat * nat) : Attribute :=
  match p with
  | (0, _, t) => BlockedEncodingAttr t
  | (1, major, t) => NvidiaMmaEncodingAttr major t
  | (2, _, t) => DotOperandEncodingAttr t
  | (3, _, t) => SharedEncodingAttr t
  | (4, _, t) => SliceEncodingAttr t
  | (_, _, t) => OtherEncodingAttr t
  end.

#[global] Instance Attribute_countable : Countable Attribute.
Proof.
  apply (inj_countable' Attribute_to_tuple Attribute_of_tuple).
  intros []; reflexivity.
Defined.

Definition isaBlockedEncodingAttr (e : Attribute) : bool :=
  match e with BlockedEncodingAttr _ => true | _ => false end.
Definition isaNvidiaMmaEncodingAttr (e : Attribute) : bool :=
  match e with NvidiaMmaEncodingAttr _ _ => true | _ => false end.
Definition isaDotOperandEncodingAttr (e : Attribute) : bool :=
  match e with DotOperandEncodingAttr _ => true | _ => false end.
Definition isaSharedEncodingAttr (e : Attribute) : bool :=
  match e with SharedEncodingAttr _ => true | _ => false end.

(** [encoding.cast<NvidiaMmaEncodingAttr>().getVersionMajor()]: the cast
    asserts, hence the option. *)
Definition getVersionMajor (e : Attribute) : option nat :=
  match e with NvidiaMmaEncodingAttr major _ => Some major | _ => None end.

(** The type of a value: a ranked tensor with its encoding, or anything else. *)
Inductive Ty : Type :=
  | RankedTensorType (shape : list nat) (elementType : nat) (encoding : Attribute)
  | ScalarType (tag : nat).

#[global] Instance Ty_eq_dec : EqDecision Ty.
Proof. solve_decision. Defined.

Definition isaRankedTensorType (t : Ty) : bool :=
  match t with RankedTensorType _ _ _ => true | ScalarType _ => false end.

Definition getEncoding (t : Ty) : option Attribute :=
  match t with RankedTensorType _ _ e => Some e | ScalarType _ => None end.

Definition getElementType (t : Ty) : option nat :=
  match t with RankedTensorType _ elt _ => Some elt | ScalarType _ => None end.

(** [RankedTensorType::get(t.getShape(), t.getElementType(), encoding)]. *)
Definition withEncoding (t : Ty) (encoding : Attribute) : option Ty :=
  match t with
  | RankedTensorType shape elt _ => Some (RankedTensorType shape elt encoding)
  | ScalarType _ => None
  end.

(** The operation classes the pass tells apart with [isa]/[dyn_cast]. *)
Inductive OpKind : Type :=
  | LoadOp | StoreOp | DotOp | AtomicRMWOp | AtomicCASOp
  | ReshapeOp | ConvertLayoutOp
  | ForOp | WhileOp | IfOp | YieldOp | ConditionOp
  | ReduceOp | ExpandDimsOp | JoinOp | SplitOp
  | ExtractSliceOp | AllocTensorOp | InsertSliceAsyncOp
  | ConstantOp | SplatOp | AddFOp
  | OtherOp (tag : nat).

#[global] Instance OpKind_eq_dec : EqDecision OpKind.
Proof. solve_decision. Defined.

(** An operation of the arena.  [opRegionArgs] lists, per region, the
    arguments of its entry block; [opParent] is [getParentOp] and [opRegion]
    the index of the parent's region that holds the operation. *)
Record Operation : Type := mkOperation {
  opId : nat;
  opKind : OpKind;
  opOperands : list Value;
  opResults : list Value;
  opRegionArgs : list (list Value);
  opParent : option nat;
  opRegion : nat;
  opAllowReorder : bool;
  opSameOperandsAndResultEncoding : bool;
  opElementwise : bool;
  opAttrs : list nat
}.

#[global] Instance Operation_eq_dec : EqDecision Operation.
Proof. solve_decision. Defined.

(** The function being transformed: its operations in walk order (an
    operation precedes the operations nested in its regions), the table of
    value types and the function's arguments. *)
Record IR : Type := mkIR {
  irOps : list Operation;
  irTypes : gmap Value Ty;
  irArgs : list Value
}.

Definition getType (ir : IR) (v : Value) : option Ty := irTypes ir !! v.

Definition isRankedTensor (ir : IR) (v : Value) : bool :=
  match getType ir v with Some t => isaRankedTensorType t | None => false end.

Definition getValueEncoding (ir : IR) (v : Value) : option Attribute :=
  getType ir v ≫= getEncoding.

Definition definesValue (v : Value) (op : Operation) : bool :=
  bool_decide (v ∈ opResults op).

(** [v.getDefiningOp()]: null for a block argument. *)
Definition getDefiningOp (ir : IR) (v : Value) : option Operation :=
  snd <$> list_find (fun op => definesValue v op = true) (irOps ir).

Definition getOp (ir : IR) (id : nat) : option Operation :=
  snd <$> list_find (fun op => opId op = id) (irOps ir).

Definition getParentOp (ir : IR) (op : Operation) : option Operation :=
  opParent op ≫= getOp ir.

(** The operand slots of [op] that hold [v], as operand numbers. *)
Fixpoint operandNumbersOf (v : Value) (operands : list Value) (n : nat) : list nat :=
  match operands with
  | [] => []
  | x :: rest =>
      if bool_decide (x = v) then n :: operandNumbersOf v rest (S n)
      else operandNumbersOf v rest (S n)
  end.

(** [value.getUses()]: every (owner, operand number) whose operand is [v].
    A use list hands out its newest use first, and the uses of a program
    are made in walk order, operand by operand: the list runs against the
    walk. *)
Definition getUses (ir : IR) (v : Value) : list (Operation * nat) :=
  reverse (flat_map (fun op => map (pair op) (operandNumbersOf v (opOperands op) 0)) (irOps ir)).

(** ** The value-layout map *)

(** [llvm::SmallSetVector<Attribute, 8>]: insertion-ordered, no repeats;
    [insert] reports whether the element is new. *)
Definition SetVector_insert {A} `{EqDecision A} (x : A) (s : list A) : bool * list A :=
  if bool_decide (x ∈ s) then (false, s) else (true, s ++ [x]).

Record LayoutInfo : Type := mkLayoutInfo { encodings : list Attribute }.

#[global] Instance LayoutInfo_eq_dec : EqDecision LayoutInfo.
Proof. solve_decision. Defined.

(** [llvm::MapVector<Value, LayoutInfo>]: an association list in insertion
    order. *)
Definition Layouts := list (Value * LayoutInfo).

Fixpoint layouts_find (v : Value) (layouts : Layouts) : option LayoutInfo :=
  match layouts with
  | [] => None
  | (k, info) :: rest => if bool_decide (k = v) then Some info else layouts_find v rest
  end.

Fixpoint layouts_set (v : Value) (info : LayoutInfo) (layouts : Layouts) : Layouts :=
  match layouts with
  | [] => []
  | (k, old) :: rest =>
      if bool_decide (k = v) then (k, info) :: rest
      else (k, old) :: layouts_set v info rest
  end.

(** [layouts[v]]: the entry of [v], default-constructed at the end of the map
    when [v] has none. *)
Definition layouts_index (v : Value) (layouts : Layouts) : LayoutInfo * Layouts :=
  match layouts_find v layouts with
  | Some info => (info, layouts)
  | None => (mkLayoutInfo [], layouts ++ [(v, mkLayoutInfo [])])
  end.

(** [layouts.insert({v, info})]: no effect when [v] is already a key. *)
Definition layouts_insert (v : Value) (info : LayoutInfo) (layouts : Layouts) : Layouts :=
  match layouts_find v layouts with
  | Some _ => layouts
  | None => layouts ++ [(v, info)]
  end.

(** [layouts[v].encodings.insert(e)]. *)
Definition insertEncoding (v : Value) (e : Attribute) (layouts : Layouts) : bool * Layouts :=
  let '(info, layouts1) := layouts_index v layouts in
  let '(isNew, encs) := SetVector_insert e (encodings info) in
  (isNew, layouts_set v (mkLayoutInfo encs) layouts1).

(** ** Conflict resolution *)

(** The loop of [resolveConflicts] over the candidates: the first candidate
    of the preferred family wins, [encoding] stays when there is none. *)
Fixpoint pickEncoding (memoryOp : bool) (encoding : Attribute)
    (candidates : list Attribute) : Attribute :=
  match candidates with
  | [] => encoding
  | e :: rest =>
      if (memoryOp && isaBlockedEncodingAttr e)
         || (negb memoryOp && isaNvidiaMmaEncodingAttr e)
      then e
      else pickEncoding memoryOp encoding rest
  end.

Definition isaLoadStoreOrAtomic (op : Operation) : bool :=
  match opKind op with
  | LoadOp | StoreOp | AtomicRMWOp | AtomicCASOp => true
  | _ => false
  end.

(** [op && isa<LoadOp, StoreOp, AtomicRMWOp, AtomicCASOp>(op)] for the
    defining operation of [v]. *)
Definition isLoadOrStore (ir : IR) (v : Value) : bool :=
  match getDefiningOp ir v with
  | Some op => isaLoadStoreOrAtomic op
  | None => false
  end.

Definition resolveEntry (ir : IR) (entry : Value * LayoutInfo) : Value * LayoutInfo :=
  let '(v, info) := entry in
  if length (encodings info) <=? 1 then (v, info)
  else
    match encodings info with
    | [] => (v, info)
    | first :: _ =>
        (v, mkLayoutInfo [pickEncoding (isLoadOrStore ir v) first (encodings info)])
    end.

Definition resolveConflicts (ir : IR) (layouts : Layouts) : Layouts :=
  map (resolveEntry ir) layouts.

(** ** Results of loops and of asserting code *)

(** A run either finishes with a value, trips an assertion of the host IR
    (a null or out-of-range access, a failed [cast]), or exhausts the fuel the
    model gives to a [while] loop. *)
Inductive Outcome (A : Type) : Type :=
  | Finished (a : A)
  | Aborted
  | OutOfFuel.
Arguments Finished {A} a.
Arguments Aborted {A}.
Arguments OutOfFuel {A}.

Definition assertSome {A} (o : option A) : Outcome A :=
  match o with Some a => Finished a | None => Aborted end.

#[global] Instance Outcome_ret : MRet Outcome := fun A a => Finished a.
#[global] Instance Outcome_bind : MBind Outcome := fun A B f m =>
  match m with
  | Finished a => f a
  | Aborted => Aborted
  | OutOfFuel => OutOfFuel
  end.

(** ** Mutation primitives of the host IR *)

(** Every value handle the program mentions. *)
Definition irValues (ir : IR) : list Value :=
  (map_to_list (irTypes ir)).*1 ++ irArgs ir ++
  flat_map (fun op => opOperands op ++ opResults op ++ concat (opRegionArgs op)) (irOps ir).

Definition freshValue (ir : IR) : Value := fresh (irValues ir).
Definition freshOpId (ir : IR) : nat := fresh (opId <$> irOps ir).

(** Is the operation whose id is [ancestor] a proper ancestor of [op]? *)
Fixpoint isProperAncestor (fuel : nat) (ir : IR) (ancestor : nat) (op : Operation) : bool :=
  match fuel with
  | 0 => false
  | S fuel' =>
      match opParent op with
      | None => false
      | Some p =>
          bool_decide (p = ancestor) ||
          match getOp ir p with
          | Some parent => isProperAncestor fuel' ir ancestor parent
          | None => false
          end
      end
  end.

Definition isInside (ir : IR) (ancestor : nat) (op : Operation) : bool :=
  isProperAncestor (length (irOps ir)) ir ancestor op.

(** The longest prefix whose elements satisfy [p], and the rest. *)
Fixpoint span {A} (p : A -> bool) (l : list A) : list A * list A :=
  match l with
  | [] => ([], [])
  | x :: rest =>
      if p x then let '(inner, outer) := span p rest in (x :: inner, outer)
      else ([], l)
  end.

(** The operations nested in [op]: in walk order they follow it directly. *)
Fixpoint nestedOps (ir : IR) (id : nat) (ops : list Operation) : list Operation :=
  match ops with
  | [] => []
  | op :: rest =>
      if bool_decide (opId op = id) then (span (isInside ir id) rest).1
      else nestedOps ir id rest
  end.

(** Where a builder inserts: before an operation, after the definition of a
    value ([setInsertionPointAfterValue]), which for a block argument is the
    start of its block. *)
Inductive InsertionPoint : Type :=
  | BeforeOp (id : nat)
  | AfterValue (v : Value).

(** The operation and region whose entry block has [v] as an argument. *)
Definition getBlockArgOwner (ir : IR) (v : Value) : option (Operation * nat) :=
  owner ← snd <$> list_find (fun op => v ∈ concat (opRegionArgs op)) (irOps ir);
  region ← fst <$> list_find (fun args => v ∈ args) (opRegionArgs owner);
  Some (owner, region).

(** The block (parent operation and region index) an insertion point lies
    in. *)
Definition blockOfPoint (ir : IR) (point : InsertionPoint) : option (option nat * nat) :=
  match point with
  | BeforeOp id => (fun op => (opParent op, opRegion op)) <$> getOp ir id
  | AfterValue v =>
      match getDefiningOp ir v with
      | Some def => Some (opParent def, opRegion def)
      | None =>
          match getBlockArgOwner ir v with
          | Some (owner, region) => Some (Some (opId owner), region)
          | None => if bool_decide (v ∈ irArgs ir) then Some (None, 0) else None
          end
      end
  end.

Fixpoint insertBeforeOp (id : nat) (new ops : list Operation) : option (list Operation) :=
  match ops with
  | [] => None
  | op :: rest =>
      if bool_decide (opId op = id) then Some (new ++ op :: rest)
      else (op ::.) <$> insertBeforeOp id new rest
  end.

Fixpoint insertAfterOp (ir : IR) (id : nat) (new ops : list Operation) : option (list Operation) :=
  match ops with
  | [] => None
  | op :: rest =>
      if bool_decide (opId op = id) then
        let '(inner, outer) := span (isInside ir id) rest in
        Some (op :: inner ++ new ++ outer)
      else (op ::.) <$> insertAfterOp ir id new rest
  end.

Fixpoint insertAtBlockStart (parent : nat) (region : nat) (new ops : list Operation)
    : option (list Operation) :=
  match ops with
  | [] => None
  | op :: rest =>
      if bool_decide (opParent op = Some parent) && bool_decide (opRegion op = region)
      then Some (new ++ op :: rest)
      else (op ::.) <$> insertAtBlockStart parent region new rest
  end.

Definition insertAt (ir : IR) (point : InsertionPoint) (new : list Operation)
    : option (list Operation) :=
  match point with
  | BeforeOp id => insertBeforeOp id new (irOps ir)
  | AfterValue v =>
      match getDefiningOp ir v with
      | Some def => insertAfterOp ir (opId def) new (irOps ir)
      | None =>
          match getBlockArgOwner ir v with
          | Some (owner, region) => insertAtBlockStart (opId owner) region new (irOps ir)
          | None => if bool_decide (v ∈ irArgs ir) then Some (new ++ irOps ir) else None
          end
      end
  end.

(** Fresh values of the given types. *)
Fixpoint allocValues (ir : IR) (tys : list Ty) : IR * list Value :=
  match tys with
  | [] => (ir, [])
  | ty :: rest =>
      let v := freshValue ir in
      let '(ir', vs) :=
        allocValues (mkIR (irOps ir) (<[v := ty]> (irTypes ir)) (irArgs ir)) rest in
      (ir', v :: vs)
  end.

(** [builder.create<Op>(...)]: a new operation without regions at the
    insertion point, with fresh results of the given types. *)
Definition createOp (ir : IR) (point : InsertionPoint) (kind : OpKind)
    (operands : list Value) (resultTypes : list Ty) (elementwise : bool)
    (attrs : list nat) : Outcome (IR * Operation) :=
  block ← assertSome (blockOfPoint ir point);
  let '(ir1, results) := allocValues ir resultTypes in
  let op := mkOperation (freshOpId ir) kind operands results [] block.1 block.2
              false elementwise elementwise attrs in
  ops ← assertSome (insertAt ir point [op]);
  Finished (mkIR ops (irTypes ir1) (irArgs ir1), op).

(** [op->erase()]: the operation goes, with the operations nested in it. *)
Definition eraseOp (ir : IR) (id : nat) : IR :=
  mkIR (filter (fun op => opId op ≠ id ∧ isInside ir id op = false) (irOps ir))
       (irTypes ir) (irArgs ir).

Definition replaceValue (old new : Value) (v : Value) : Value :=
  if bool_decide (v = old) then new else v.

(** [old.replaceAllUsesWith(new)]. *)
Definition replaceAllUsesWith (ir : IR) (old new : Value) : IR :=
  mkIR (map (fun op =>
          mkOperation (opId op) (opKind op) (replaceValue old new <$> opOperands op)
            (opResults op) (opRegionArgs op) (opParent op) (opRegion op)
            (opAllowReorder op) (opSameOperandsAndResultEncoding op)
            (opElementwise op) (opAttrs op)) (irOps ir))
       (irTypes ir) (irArgs ir).

Fixpoint replaceAllUsesWithEach (ir : IR) (olds news : list Value) : IR :=
  match olds, news with
  | old :: olds', new :: news' => replaceAllUsesWithEach (replaceAllUsesWith ir old new) olds' news'
  | _, _ => ir
  end.

(** [v.setType(ty)]. *)
Definition setType (ir : IR) (v : Value) (ty : Ty) : IR :=
  mkIR (irOps ir) (<[v := ty]> (irTypes ir)) (irArgs ir).

(** [IRMapping], on values. *)
Definition IRMapping := gmap Value Value.

Definition lookupOrDefault (mapping : IRMapping) (v : Value) : Value :=
  default v (mapping !! v).

Fixpoint mapEach (mapping : IRMapping) (olds news : list Value) : IRMapping :=
  match olds, news with
  | old :: olds', new :: news' => mapEach (<[old := new]> mapping) olds' news'
  | _, _ => mapping
  end.

(** The state of a clone in progress: the program with the values allocated
    so far, the value mapping, the ids given to the operations cloned so far
    and the clones themselves. *)
Record CloneState : Type := mkCloneState {
  csIR : IR;
  csMapping : IRMapping;
  csIds : gmap nat nat;
  csOps : list Operation
}.

Definition cloneRegionArgs (st : IR * IRMapping) (args : list Value)
    : option (IR * IRMapping * list Value) :=
  tys ← mapM (getType st.1) args;
  let '(ir', news) := allocValues st.1 tys in
  Some (ir', mapEach st.2 args news, news).

Fixpoint cloneRegionsArgs (st : IR * IRMapping) (regions : list (list Value))
    : option (IR * IRMapping * list (list Value)) :=
  match regions with
  | [] => Some (st, [])
  | args :: rest =>
      '(ir1, mapping1, news) ← cloneRegionArgs st args;
      '(ir2, mapping2, newss) ← cloneRegionsArgs (ir1, mapping1) rest;
      Some (ir2, mapping2, news :: newss)
  end.

(** The clone of one operation of the cloned subtree: operands through the
    mapping, fresh results and block arguments of the same types. *)
Definition cloneOne (root : Operation) (block : option nat * nat) (base : nat)
    (st : CloneState) (op : Operation) : option CloneState :=
  let id := base + length (csOps st) in
  tys ← mapM (getType (csIR st)) (opResults op);
  let '(ir1, results) := allocValues (csIR st) tys in
  '(ir2, mapping2, regionArgs) ← cloneRegionsArgs (ir1, csMapping st) (opRegionArgs op);
  parent ←
    (if bool_decide (opId op = opId root) then Some block.1
     else p ← opParent op; Some <$> csIds st !! p);
  let region := if bool_decide (opId op = opId root) then block.2 else opRegion op in
  let new := mkOperation id (opKind op) (lookupOrDefault (csMapping st) <$> opOperands op)
               results regionArgs parent region (opAllowReorder op)
               (opSameOperandsAndResultEncoding op) (opElementwise op) (opAttrs op) in
  Some (mkCloneState ir2 (mapEach mapping2 (opResults op) results)
          (<[opId op := id]> (csIds st)) (csOps st ++ [new])).

Fixpoint cloneAll (root : Operation) (block : option nat * nat) (base : nat)
    (st : CloneState) (ops : list Operation) : option CloneState :=
  match ops with
  | [] => Some st
  | op :: rest => st' ← cloneOne root block base st op; cloneAll root block base st' rest
  end.

(** [builder.clone] with a mapping: the operation and everything nested in it
    are copied to the insertion point; the mapping learns the new results. *)
Definition cloneOp (ir : IR) (point : InsertionPoint) (op : Operation) (mapping : IRMapping)
    : Outcome (IR * Operation * IRMapping) :=
  block ← assertSome (blockOfPoint ir point);
  st ← assertSome (cloneAll op block (freshOpId ir) (mkCloneState ir mapping ∅ [])
                     (op :: nestedOps ir (opId op) (irOps ir)));
  new ← assertSome (head (csOps st));
  ops ← assertSome (insertAt ir point (csOps st));
  Finished (mkIR ops (irTypes (csIR st)) (irArgs ir), new, csMapping st).

(** ** The rewrite phase: [getValueAs] *)

(** [DenseMap<std::pair<Value, Attribute>, Value>]. *)
Definition RewriteMapping := gmap (Value * Attribute) Value.

(** The value [getValueAs] starts from: [value] itself, or what the rewrite
    mapping holds for the encoding picked at resolve time.  The two
    assertions of the source abort. *)
Definition getRewrittenValue (layouts : Layouts) (rewriteMapping : RewriteMapping)
    (value : Value) (valueEncoding : Attribute) : Outcome Value :=
  match layouts_find value layouts with
  | None => Finished value
  | Some info =>
      match encodings info with
      | [encodingPicked] =>
          if bool_decide (encodingPicked = valueEncoding) then Finished value
          else assertSome (rewriteMapping !! (value, encodingPicked))
      | _ => Aborted
      end
  end.

(** [getValueAs(value, encoding)]: the program after the call and the value
    returned.  Nothing is cached: whenever the rewritten value has another
    encoding, a [ConvertLayoutOp] is created after it. *)
Definition getValueAs (ir : IR) (layouts : Layouts) (rewriteMapping : RewriteMapping)
    (value : Value) (encoding : Attribute) : Outcome (IR * Value) :=
  match getType ir value with
  | Some (RankedTensorType shape elementType valueEncoding) =>
      rewrittenValue ← getRewrittenValue layouts rewriteMapping value valueEncoding;
      rewrittenEncoding ← assertSome (getValueEncoding ir rewrittenValue);
      if bool_decide (rewrittenEncoding = encoding) then Finished (ir, rewrittenValue)
      else
        let tmpType := RankedTensorType shape elementType encoding in
        '(ir', cvt) ← createOp ir (AfterValue rewrittenValue) ConvertLayoutOp
                        [rewrittenValue] [tmpType] false [];
        converted ← assertSome (opResults cvt !! 0);
        Finished (ir', converted)
  | _ => Finished (ir, value)
  end.

(** The layout conversions present in the program. *)
Definition convertOps (ir : IR) : list Operation :=
  filter (fun op => opKind op = ConvertLayoutOp) (irOps ir).

(** ** The dot-accumulator pattern *)

Inductive LogicalResult : Type := success | failure.

#[global] Instance LogicalResult_eq_dec : EqDecision LogicalResult.
Proof. solve_decision. Defined.

Definition failed (r : LogicalResult) : bool :=
  match r with failure => true | success => false end.

(** [v.getDefiningOp<Op>()]. *)
Definition getDefiningOpOfKind (ir : IR) (v : Value) (kind : OpKind) : option Operation :=
  match getDefiningOp ir v with
  | Some op => if bool_decide (opKind op = kind) then Some op else None
  | None => None
  end.

(** [std::distance(op->user_begin(), op->user_end())]: one per use of a
    result. *)
Definition numUsers (ir : IR) (op : Operation) : nat :=
  length (flat_map (getUses ir) (opResults op)).

(** The rewrite of [ConvertDotConvert::matchAndRewrite] once the pattern
    matched; the rewriter inserts before [op]. *)
Definition rewriteDotConvert (ir : IR) (op dotOp : Operation) (dstTy : Ty)
    (loaded : Value) : Outcome (LogicalResult * IR) :=
  let point := BeforeOp (opId op) in
  elementType ← assertSome (getElementType dstTy);
  dotResult ← assertSome (opResults dotOp !! 0);
  dotTy ← assertSome (getType ir dotResult);
  a ← assertSome (opOperands dotOp !! 0);
  b ← assertSome (opOperands dotOp !! 1);
  '(ir1, zeroF) ← createOp ir point ConstantOp [] [ScalarType elementType] false [0];
  zeroFResult ← assertSome (opResults zeroF !! 0);
  '(ir2, zero) ← createOp ir1 point SplatOp [zeroFResult] [dotTy] false [];
  zeroResult ← assertSome (opResults zero !! 0);
  '(ir3, newDot) ← createOp ir2 point DotOp [a; b; zeroResult] [dotTy] false (opAttrs dotOp);
  newDotResult ← assertSome (opResults newDot !! 0);
  '(ir4, newCvt) ← createOp ir3 point ConvertLayoutOp [newDotResult] [dstTy] false [];
  newCvtResult ← assertSome (opResults newCvt !! 0);
  '(ir5, add) ← createOp ir4 point AddFOp [newCvtResult; loaded] [dstTy] true [];
  let ir6 := replaceAllUsesWithEach ir5 (opResults op) (opResults add) in
  Finished (success, eraseOp ir6 (opId op)).

(** [ConvertDotConvert::matchAndRewrite]: the verdict and the program after
    the call.  [op] is the conversion the pattern is tried on. *)
Definition matchAndRewrite (ir : IR) (op : Operation) : Outcome (LogicalResult * IR) :=
  if negb (bool_decide (opKind op = ConvertLayoutOp)) then Aborted
  else
    src ← assertSome (opOperands op !! 0);
    match getDefiningOpOfKind ir src DotOp with
    | None => Finished (failure, ir)
    | Some dotOp =>
        if negb (numUsers ir op =? 1) || negb (numUsers ir dotOp =? 1)
        then Finished (failure, ir)
        else
          acc ← assertSome (opOperands dotOp !! 2);
          match getDefiningOpOfKind ir acc ConvertLayoutOp with
          | None => Finished (failure, ir)
          | Some cvtOp =>
              loaded ← assertSome (opOperands cvtOp !! 0);
              match getDefiningOpOfKind ir loaded LoadOp with
              | None => Finished (failure, ir)
              | Some _ =>
                  dst ← assertSome (opResults op !! 0);
                  dstTy ← assertSome (getType ir dst);
                  srcTy ← assertSome (getType ir loaded);
                  if negb (bool_decide (dstTy = srcTy)) then Finished (failure, ir)
                  else rewriteDotConvert ir op dotOp dstTy loaded
              end
          end
    end.

Section Pass.

(** ** Queries answered outside the pass *)

(** [inferDstEncoding(op, encoding)], from the transforms' utilities. *)
Variable inferDstEncoding : Operation -> Attribute -> option Attribute.

(** [isExpensiveLoadOrStore(op)]: the cost model; it reads the types of the
    operation's operands. *)
Variable isExpensiveLoadOrStore : IR -> Operation -> bool.

(** MLIR's [getForwardSlice(value, &forwardSlice)]: the slice accumulated so
    far comes in, the extended slice comes out. *)
Variable getForwardSlice : IR -> Value -> list Operation -> list Operation.

(** ** Forward propagation *)

(** The destination encoding [setEncoding] derives from a candidate: the
    candidate itself through a conversion (the pass tries to remove it),
    what [inferDstEncoding] says otherwise. *)
Definition dstEncodingOf (op : Operation) (encoding : Attribute) : option Attribute :=
  if bool_decide (opKind op = ConvertLayoutOp) then Some encoding
  else inferDstEncoding op encoding.

(** One candidate of [info] for one value, the body of the inner loop of
    [setEncoding]. *)
Definition setEncodingStep (op : Operation) (value : Value)
    (acc : bool * Layouts) (encoding : Attribute) : bool * Layouts :=
  let '(hasChanged, layouts) := acc in
  match dstEncodingOf op encoding with
  | Some dst =>
      let '(isNew, layouts') := insertEncoding value dst layouts in
      (hasChanged || isNew, layouts')
  | None => (hasChanged, layouts)
  end.

Definition setEncodingValue (ir : IR) (info : LayoutInfo) (op : Operation)
    (st : Layouts * list Value) (value : Value) : Layouts * list Value :=
  if negb (isRankedTensor ir value) then st
  else
    let '(hasChanged, layouts') :=
      fold_left (setEncodingStep op value) (encodings info) (false, st.1) in
    (layouts', if hasChanged then st.2 ++ [value] else st.2).

(** [setEncoding(values, info, changed, op)] on the pair (layouts, changed). *)
Definition setEncoding (ir : IR) (values : list Value) (info : LayoutInfo)
    (st : Layouts * list Value) (op : Operation) : Layouts * list Value :=
  fold_left (setEncodingValue ir info op) values st.

(** A [scf.for] has three control operands (bounds and step) before its
    inits and one induction variable before its iteration arguments. *)
Definition numControlOperands : nat := 3.
Definition numInductionVars : nat := 1.

Definition getRegionIterArgs (forOp : Operation) : list Value :=
  drop numInductionVars (default [] (opRegionArgs forOp !! 0)).

Definition getRegionIterArg (forOp : Operation) (i : nat) : option Value :=
  getRegionIterArgs forOp !! i.

Definition getInitArgs (forOp : Operation) : list Value :=
  drop numControlOperands (opOperands forOp).

(** Null when the use is not one of the inits. *)
Definition getTiedLoopRegionIterArg (forOp : Operation) (operandNumber : nat) : option Value :=
  if operandNumber <? numControlOperands then None
  else getRegionIterArg forOp (operandNumber - numControlOperands).

Definition getTiedLoopResult (forOp : Operation) (operandNumber : nat) : option Value :=
  if operandNumber <? numControlOperands then None
  else opResults forOp !! (operandNumber - numControlOperands).

Definition getBeforeArguments (whileOp : Operation) : list Value :=
  default [] (opRegionArgs whileOp !! 0).
Definition getAfterArguments (whileOp : Operation) : list Value :=
  default [] (opRegionArgs whileOp !! 1).

Definition propagatesThrough (user : Operation) : bool :=
  opSameOperandsAndResultEncoding user || opElementwise user ||
  match opKind user with
  | ReduceOp | ExpandDimsOp | ReshapeOp | JoinOp | SplitOp | ConvertLayoutOp => true
  | _ => false
  end.

(** The body of the loop of [propagateToUsers] for one use. *)
Definition propagateToUse (ir : IR) (info : LayoutInfo) (use : Operation * nat)
    (st : Layouts * list Value) : option (Layouts * list Value) :=
  let '(user, operandNumber) := use in
  match opKind user with
  | ForOp =>
      arg ← getTiedLoopRegionIterArg user operandNumber;
      result ← getTiedLoopResult user operandNumber;
      Some (setEncoding ir [arg; result] info st user)
  | WhileOp =>
      arg ← getBeforeArguments user !! operandNumber;
      Some (setEncoding ir [arg] info st user)
  | YieldOp =>
      parent ← getParentOp ir user;
      match opKind parent with
      | ForOp =>
          result ← opResults parent !! operandNumber;
          arg ← getRegionIterArg parent operandNumber;
          Some (setEncoding ir [result; arg] info st user)
      | IfOp =>
          result ← opResults parent !! operandNumber;
          Some (setEncoding ir [result] info st user)
      | WhileOp =>
          arg ← getBeforeArguments parent !! operandNumber;
          operand ← opOperands parent !! operandNumber;
          Some (setEncoding ir [arg; operand] info st user)
      | _ => Some st
      end
  | ConditionOp =>
      whileOp ← getParentOp ir user;
      if bool_decide (opKind whileOp = WhileOp) then
        if operandNumber =? 0 then None
        else
          let argIndex := operandNumber - 1 in
          afterArg ← getAfterArguments whileOp !! argIndex;
          result ← opResults whileOp !! argIndex;
          Some (setEncoding ir [afterArg; result] info st user)
      else None
  | _ =>
      if propagatesThrough user then Some (setEncoding ir (opResults user) info st user)
      else Some st
  end.

Fixpoint propagateToUses (ir : IR) (info : LayoutInfo) (uses : list (Operation * nat))
    (st : Layouts * list Value) : option (Layouts * list Value) :=
  match uses with
  | [] => Some st
  | use :: rest => st' ← propagateToUse ir info use st; propagateToUses ir info rest st'
  end.

(** [propagateToUsers(value, info)]: the new layouts and the [changed]
    vector. *)
Definition propagateToUsers (ir : IR) (value : Value) (info : LayoutInfo)
    (layouts : Layouts) : option (Layouts * list Value) :=
  propagateToUses ir info (getUses ir value) (layouts, []).

(** The work queue is a vector used as a stack; the model keeps its back at
    the head of the list. *)
Definition pushAll (changed queue : list Value) : list Value := reverse changed ++ queue.

(** One turn of the [while] loop of [propagateLayout]; [None] when the queue
    is empty. *)
Definition propagateStep (ir : IR) (st : list Value * Layouts)
    : option (Outcome (list Value * Layouts)) :=
  match st.1 with
  | [] => None
  | currentValue :: queue =>
      let '(info, layouts1) := layouts_index currentValue st.2 in
      Some (match propagateToUsers ir currentValue info layouts1 with
            | None => Aborted
            | Some (layouts2, changed) => Finished (pushAll changed queue, layouts2)
            end)
  end.

Fixpoint propagateLoop (fuel : nat) (ir : IR) (st : list Value * Layouts) : Outcome Layouts :=
  match propagateStep ir st with
  | None => Finished st.2
  | Some next =>
      match fuel with
      | 0 => OutOfFuel
      | S fuel' => st' ← next; propagateLoop fuel' ir st'
      end
  end.

Definition initialQueue (layouts : Layouts) : list Value := reverse layouts.*1.

Definition propagateLayout (fuel : nat) (ir : IR) (layouts : Layouts) : Outcome Layouts :=
  propagateLoop fuel ir (initialQueue layouts, layouts).

(** ** Anchor discovery *)

(** What the scan of one operation of the forward slice says about a
    conversion: [Some b] when [hasConvertToMMATransisitiveUse] returns [b]
    there, [None] when the scan goes on. *)
Definition convertVerdict (ir : IR) (encoding : Attribute) (op : Operation)
    : option (option bool) :=
  if bool_decide (opKind op = ConvertLayoutOp) then
    result ← opResults op !! 0;
    dstEncoding ← getValueEncoding ir result;
    match dstEncoding with
    | NvidiaMmaEncodingAttr major _ =>
        Some (Some (if 1 <? major then true else bool_decide (dstEncoding = encoding)))
    | DotOperandEncodingAttr _ =>
        major ← getVersionMajor encoding; Some (Some (1 <? major))
    | _ => Some None
    end
  else Some None.

(** The loop over the operands of a [scf.yield] whose parent is [forOp]: a
    yielded value defined inside the slice and not seen before sends the
    search to the matching iteration argument. *)
Fixpoint scanYieldOperands (ir : IR) (forOp : Operation) (forwardSlice : list Operation)
    (operands : list Value) (operandNumber : nat)
    (queue : list Value) (seen : gset Value) : option (list Value * gset Value) :=
  match operands with
  | [] => Some (queue, seen)
  | operand :: rest =>
      match getDefiningOp ir operand with
      | Some def =>
          if bool_decide (def ∈ forwardSlice) && negb (bool_decide (operand ∈ seen)) then
            arg ← getRegionIterArg forOp operandNumber;
            scanYieldOperands ir forOp forwardSlice rest (S operandNumber)
              (arg :: queue) ({[operand]} ∪ seen)
          else scanYieldOperands ir forOp forwardSlice rest (S operandNumber) queue seen
      | None => scanYieldOperands ir forOp forwardSlice rest (S operandNumber) queue seen
      end
  end.

Inductive Scan : Type :=
  | ScanReturn (b : bool)
  | ScanContinue (queue : list Value) (seen : gset Value).

(** The [for] loop over the accumulated forward slice; [verdict] is the test
    made on each operation before the yield is looked at. *)
Fixpoint scanSlice (verdict : Operation -> option (option bool)) (ir : IR)
    (forwardSlice ops : list Operation)
    (queue : list Value) (seen : gset Value) : option Scan :=
  match ops with
  | [] => Some (ScanContinue queue seen)
  | op :: rest =>
      found ← verdict op;
      match found with
      | Some b => Some (ScanReturn b)
      | None =>
          if bool_decide (opKind op = YieldOp) then
            parent ← getParentOp ir op;
            if bool_decide (opKind parent = ForOp) then
              next ← scanYieldOperands ir parent forwardSlice (opOperands op) 0 queue seen;
              scanSlice verdict ir forwardSlice rest next.1 next.2
            else scanSlice verdict ir forwardSlice rest queue seen
          else scanSlice verdict ir forwardSlice rest queue seen
      end
  end.

(** The [while] loop of [hasConvertToMMATransisitiveUse]; the queue keeps its
    back at the head of the list. *)
Fixpoint searchLoop (fuel : nat) (verdict : Operation -> option (option bool)) (ir : IR)
    (queue : list Value) (forwardSlice : list Operation) (seen : gset Value) : Outcome bool :=
  match queue with
  | [] => Finished false
  | currentValue :: queue' =>
      match fuel with
      | 0 => OutOfFuel
      | S fuel' =>
          let forwardSlice' := getForwardSlice ir currentValue forwardSlice in
          match scanSlice verdict ir forwardSlice' forwardSlice' queue' seen with
          | None => Aborted
          | Some (ScanReturn b) => Finished b
          | Some (ScanContinue queue'' seen') =>
              searchLoop fuel' verdict ir queue'' forwardSlice' seen'
          end
      end
  end.

(** The values some operation of the program defines. *)
Definition definedValues (ir : IR) : gset Value :=
  list_to_set (flat_map opResults (irOps ir)).

(** Fuel that the search never exhausts: every turn pops a value, and a value
    is pushed only for a defined value entering [seen]. *)
Definition searchFuel (ir : IR) : nat := 2 + size (definedValues ir).

Definition hasConvertToMMATransisitiveUse (ir : IR) (op : Operation)
    (encoding : Attribute) : Outcome bool :=
  result ← assertSome (opResults op !! 0);
  searchLoop (searchFuel ir) (convertVerdict ir encoding) ir [result] [] ∅.

Definition isLayoutAnchor (ir : IR) (op : Operation) : bool :=
  match opKind op with
  | LoadOp | StoreOp => isExpensiveLoadOrStore ir op
  | DotOp | AtomicRMWOp | AtomicCASOp => true
  | ReshapeOp => opAllowReorder op
  | _ => false
  end.

(** The lambda [maybeAddAnchor] of [initAnchorLayout]. *)
Definition maybeAddAnchor (ir : IR) (layouts : Layouts) (v : Value)
    : Outcome Layouts :=
  match getType ir v with
  | Some (RankedTensorType _ _ encoding) =>
      skip ←
        (if isaNvidiaMmaEncodingAttr encoding then
           match getDefiningOp ir v with
           | Some def =>
               found ← hasConvertToMMATransisitiveUse ir def encoding;
               Finished (negb found)
           | None => Finished false
           end
         else Finished false);
      if skip : bool then Finished layouts
      else Finished (layouts_insert v (mkLayoutInfo [encoding]) layouts)
  | _ => Finished layouts
  end.

Fixpoint maybeAddAnchors (ir : IR) (layouts : Layouts) (values : list Value)
    : Outcome Layouts :=
  match values with
  | [] => Finished layouts
  | v :: rest =>
      layouts' ← maybeAddAnchor ir layouts v;
      maybeAddAnchors ir layouts' rest
  end.

(** The values offered to [maybeAddAnchor], in the order of the two loops:
    the function's arguments, then the results of every anchor operation.
    The walk visits the operations without regions in program order, and
    every anchor operation is one of them. *)
Definition anchorCandidates (ir : IR) : list Value :=
  irArgs ir ++ flat_map (fun op => if isLayoutAnchor ir op then opResults op else []) (irOps ir).

Definition initAnchorLayout (ir : IR) : Outcome Layouts :=
  maybeAddAnchors ir [] (anchorCandidates ir).

(** ** Backward rematerialization *)

(** [getConvertBackwardSlice(root, slice, rootEncoding, layout,
    stopPropagation)], from the transforms' utilities: an analysis that only
    reads the program and fills the two containers it is given empty. *)
Variable getConvertBackwardSlice :
  IR -> Value -> Attribute -> option (Operation -> bool) ->
  LogicalResult * list Value * gmap Value Attribute.

(** [multiRootTopologicalSort], from the analysis utilities. *)
Variable multiRootTopologicalSort : IR -> list Operation -> list Operation.

(** [replaceForOpWithNewSignature(builder, forOp, newOperands)], from the
    transforms' utilities: the program with the new loop, and the new loop. *)
Variable replaceForOpWithNewSignature :
  IR -> Operation -> list Value -> Outcome (IR * Operation).

(** [hasSharedEncoding(value)], from the dialect: whether the type of the
    value carries an encoding of the shared-memory family. *)
Variable hasSharedEncoding : IR -> Value -> bool.

Definition canBeRemat (ir : IR) (op : Operation) : bool :=
  match opKind op with
  | LoadOp | StoreOp => negb (isExpensiveLoadOrStore ir op)
  | ExtractSliceOp | AllocTensorOp | InsertSliceAsyncOp
  | AtomicRMWOp | AtomicCASOp | DotOp => false
  | IfOp | WhileOp | ConditionOp => false
  | _ => true
  end.

(** The check of [getRematerializableSlice] on one slice member. *)
Definition sliceMemberCanBeRemat (ir : IR) (v : Value) : bool :=
  match getDefiningOp ir v with
  | Some op => canBeRemat ir op
  | None => true
  end.

Definition getRematerializableSlice (ir : IR) (root : Value) (rootEncoding : Attribute)
    (stopPropagation : option (Operation -> bool))
    : LogicalResult * list Value * gmap Value Attribute :=
  let '(result, slice, layout) :=
    getConvertBackwardSlice ir root rootEncoding stopPropagation in
  if failed result || bool_decide (slice = []) then (failure, slice, layout)
  else if forallb (sliceMemberCanBeRemat ir) slice then (success, slice, layout)
  else (failure, slice, layout).

(** [block->getTerminator()] for the entry block of a region. *)
Definition getTerminator (ir : IR) (owner region : nat) : option Operation :=
  last (filter (fun op => opParent op = Some owner ∧ opRegion op = region) (irOps ir)).

(** The operations one slice member asks [rewriteSlice] to rewrite: its
    defining operation, or for a block argument the operation that owns the
    block and the block's terminator.  A function argument has no owner in
    the arena; the backward slice never holds one. *)
Definition opsOfSliceValue (ir : IR) (v : Value) : option (list Operation) :=
  match getDefiningOp ir v with
  | Some def => Some [def]
  | None =>
      '(owner, region) ← getBlockArgOwner ir v;
      terminator ← getTerminator ir (opId owner) region;
      Some [owner; terminator]
  end.

Definition insertAll {A} `{EqDecision A} (xs : list A) (s : list A) : list A :=
  fold_left (fun acc x => (SetVector_insert x acc).2) xs s.

Fixpoint collectOpsToRewrite (ir : IR) (slice : list Value) (opsToRewrite : list Operation)
    : option (list Operation) :=
  match slice with
  | [] => Some opsToRewrite
  | v :: rest =>
      ops ← opsOfSliceValue ir v;
      collectOpsToRewrite ir rest (insertAll ops opsToRewrite)
  end.

(** What [rewriteSlice] carries through its loop. *)
Record RewriteState : Type := mkRewriteState {
  rsIR : IR;
  rsMapping : IRMapping;
  rsDeadLoops : list nat
}.

(** The loop over the iteration arguments of a [scf.for] of the slice: the
    pairs (old result number, new result number) and the new inits. *)
Fixpoint forArgMapping (slice : list Value) (mapping : IRMapping)
    (iterArgs inits : list Value) (index numInits : nat)
    (argMapping : list (nat * nat)) (newOperands : list Value)
    : option (list (nat * nat) * list Value) :=
  match iterArgs with
  | [] => Some (argMapping, newOperands)
  | arg :: rest =>
      if bool_decide (arg ∈ slice) then
        initVal ← inits !! index;
        new ← mapping !! initVal;
        forArgMapping slice mapping rest inits (S index) numInits
          (argMapping ++ [(index, numInits + length newOperands)]) (newOperands ++ [new])
      else forArgMapping slice mapping rest inits (S index) numInits argMapping newOperands
  end.

Fixpoint mapLoopArgs (newForOp : Operation) (argMapping : list (nat * nat))
    (mapping : IRMapping) : option IRMapping :=
  match argMapping with
  | [] => Some mapping
  | (old, new) :: rest =>
      oldResult ← opResults newForOp !! old;
      newResult ← opResults newForOp !! new;
      let body := default [] (opRegionArgs newForOp !! 0) in
      oldArg ← body !! (old + numInductionVars);
      newArg ← body !! (new + numInductionVars);
      mapLoopArgs newForOp rest (<[oldArg := newArg]> (<[oldResult := newResult]> mapping))
  end.

Definition rewriteSliceFor (slice : list Value) (st : RewriteState) (forOp : Operation)
    : Outcome RewriteState :=
  '(argMapping, newOperands) ←
    assertSome (forArgMapping slice (rsMapping st) (getRegionIterArgs forOp)
                  (getInitArgs forOp) 0 (length (getInitArgs forOp)) [] []);
  '(ir', newForOp) ← replaceForOpWithNewSignature (rsIR st) forOp newOperands;
  mapping' ← assertSome (mapLoopArgs newForOp argMapping (rsMapping st));
  Finished (mkRewriteState ir' mapping' (rsDeadLoops st ++ [opId forOp])).

Definition rewriteSliceYield (slice : list Value) (st : RewriteState) (yieldOp : Operation)
    : Outcome RewriteState :=
  extra ← assertSome (mapM (fun operand => rsMapping st !! operand)
                        (filter (fun operand => operand ∈ slice) (opOperands yieldOp)));
  '(ir', _) ← createOp (rsIR st) (BeforeOp (opId yieldOp)) YieldOp
                (opOperands yieldOp ++ extra) [] false [];
  Finished (mkRewriteState (eraseOp ir' (opId yieldOp)) (rsMapping st) (rsDeadLoops st)).

Definition rewriteSliceConstant (layout : gmap Value Attribute) (st : RewriteState)
    (op : Operation) : Outcome RewriteState :=
  let point := BeforeOp (opId op) in
  '(ir1, newOp, _) ← cloneOp (rsIR st) point op ∅;
  result ← assertSome (opResults op !! 0);
  tensorType ← assertSome (getType ir1 result);
  encoding ← assertSome (layout !! result);
  newType ← assertSome (withEncoding tensorType encoding);
  newResult ← assertSome (opResults newOp !! 0);
  '(ir2, cvt) ← createOp ir1 point ConvertLayoutOp [newResult] [newType] false [];
  cvtResult ← assertSome (opResults cvt !! 0);
  Finished (mkRewriteState ir2 (<[result := cvtResult]> (rsMapping st)) (rsDeadLoops st)).

(** The retyping of the results of a clone, for the results the slice gives
    a layout. *)
Fixpoint retypeResults (layout : gmap Value Attribute) (ir : IR) (olds news : list Value)
    : option IR :=
  match olds, news with
  | old :: olds', new :: news' =>
      match layout !! old with
      | None => retypeResults layout ir olds' news'
      | Some encoding =>
          oldType ← getType ir old;
          newType ← withEncoding oldType encoding;
          retypeResults layout (setType ir new newType) olds' news'
      end
  | _, _ => Some ir
  end.

Definition rewriteSliceClone (layout : gmap Value Attribute) (st : RewriteState)
    (op : Operation) : Outcome RewriteState :=
  '(ir1, newOp, mapping') ← cloneOp (rsIR st) (BeforeOp (opId op)) op (rsMapping st);
  ir2 ← assertSome (retypeResults layout ir1 (opResults op) (opResults newOp));
  Finished (mkRewriteState ir2 mapping' (rsDeadLoops st)).

(** The body of the loop of [rewriteSlice] for the operation whose id is
    [id], read from the program as it is by then. *)
Definition rewriteSliceOp (slice : list Value) (layout : gmap Value Attribute)
    (st : RewriteState) (id : nat) : Outcome RewriteState :=
  op ← assertSome (getOp (rsIR st) id);
  match opKind op with
  | ForOp => rewriteSliceFor slice st op
  | YieldOp => rewriteSliceYield slice st op
  | ConstantOp => rewriteSliceConstant layout st op
  | _ => rewriteSliceClone layout st op
  end.

Fixpoint rewriteSliceOps (slice : list Value) (layout : gmap Value Attribute)
    (st : RewriteState) (ids : list nat) : Outcome RewriteState :=
  match ids with
  | [] => Finished st
  | id :: rest => st' ← rewriteSliceOp slice layout st id; rewriteSliceOps slice layout st' rest
  end.

(** [rewriteSlice(slice, layout, convertOp, mapping)].  Operations are
    pointers in the source: the loop and the final replacement read them
    from the program as it is by then.  The builder takes nothing but the
    context from the slice, and the arena has one context. *)
Definition rewriteSlice (ir : IR) (slice : list Value) (layout : gmap Value Attribute)
    (convertOp : Operation) (mapping : IRMapping) : Outcome IR :=
  opsToRewrite ← assertSome (collectOpsToRewrite ir slice []);
  st ← rewriteSliceOps slice layout (mkRewriteState ir mapping [])
         (opId <$> multiRootTopologicalSort ir opsToRewrite);
  convertOp' ← assertSome (getOp (rsIR st) (opId convertOp));
  src ← assertSome (opOperands convertOp' !! 0);
  replacement ← assertSome (rsMapping st !! src);
  result ← assertSome (opResults convertOp' !! 0);
  let ir1 := replaceAllUsesWith (rsIR st) result replacement in
  let ir2 := eraseOp ir1 (opId convertOp) in
  Finished (fold_left eraseOp (rsDeadLoops st) ir2).

(** [backwardRematerialization(convertOp)]. *)
Definition backwardRematerialization (ir : IR) (convertOp : Operation) : Outcome IR :=
  result ← assertSome (opResults convertOp !! 0);
  src ← assertSome (opOperands convertOp !! 0);
  if hasSharedEncoding ir result || hasSharedEncoding ir src then Finished ir
  else
    targetEncoding ← assertSome (getValueEncoding ir result);
    if isaDotOperandEncodingAttr targetEncoding then Finished ir
    else
      let '(result, slice, layout) :=
        getRematerializableSlice ir src targetEncoding None in
      if failed result then Finished ir
      else rewriteSlice ir slice layout convertOp ∅.

(** ** The rewrite phase: mapped values, terminators and scalar reductions *)

(** [LayoutPropagation::map(old, newV)]: [newV] becomes the rewritten form of
    [old] in the encoding [newV] has; the cast of its type asserts. *)
Definition LayoutPropagation_map (ir : IR) (rewriteMapping : RewriteMapping)
    (old newV : Value) : Outcome RewriteMapping :=
  encoding ← assertSome (getValueEncoding ir newV);
  Finished (<[(old, encoding) := newV]> rewriteMapping).

Definition withOperands (op : Operation) (operands : list Value) : Operation :=
  mkOperation (opId op) (opKind op) operands (opResults op) (opRegionArgs op)
    (opParent op) (opRegion op) (opAllowReorder op)
    (opSameOperandsAndResultEncoding op) (opElementwise op) (opAttrs op).

(** [op->setOperand(n, v)] for the operation whose id is [id]. *)
Definition setOperand (ir : IR) (id n : nat) (v : Value) : IR :=
  mkIR ((fun op => if bool_decide (opId op = id)
                   then withOperands op (<[n := v]> (opOperands op)) else op) <$> irOps ir)
       (irTypes ir) (irArgs ir).

(** A loop over operand or result numbers of one operation, whose body
    rewrites the program. *)
Fixpoint forEachIndex (body : IR -> nat -> Outcome IR) (ir : IR) (numbers : list nat)
    : Outcome IR :=
  match numbers with
  | [] => Finished ir
  | n :: rest => ir' ← body ir n; forEachIndex body ir' rest
  end.

(** The type [rewriteYieldOp] wants operand [n] of the yield to have: the
    type of the parent's result for a [scf.for] or a [scf.if], the type of
    the argument of the "before" region for a [scf.while], the operand's own
    type under any other parent. *)
Definition yieldType (ir : IR) (parentOp : Operation) (operand : Value) (n : nat)
    : Outcome (option Ty) :=
  match opKind parentOp with
  | ForOp | IfOp =>
      result ← assertSome (opResults parentOp !! n);
      Finished (getType ir result)
  | WhileOp =>
      arg ← assertSome (getBeforeArguments parentOp !! n);
      Finished (getType ir arg)
  | _ => Finished (getType ir operand)
  end.

(** The body of the loop of [rewriteYieldOp] for operand [n]; the yield and
    its parent are read from the program as it is by then. *)
Definition rewriteYieldOperand (layouts : Layouts) (rewriteMapping : RewriteMapping)
    (id : nat) (ir : IR) (n : nat) : Outcome IR :=
  yieldOp ← assertSome (getOp ir id);
  operand ← assertSome (opOperands yieldOp !! n);
  parentOp ← assertSome (getParentOp ir yieldOp);
  wanted ← yieldType ir parentOp operand n;
  match wanted with
  | Some (RankedTensorType _ _ encoding) =>
      '(ir', newOperand) ← getValueAs ir layouts rewriteMapping operand encoding;
      Finished (setOperand ir' id n newOperand)
  | _ => Finished ir
  end.

(** [rewriteYieldOp(yieldOp)]. *)
Definition rewriteYieldOp (ir : IR) (layouts : Layouts) (rewriteMapping : RewriteMapping)
    (yieldOp : Operation) : Outcome IR :=
  forEachIndex (rewriteYieldOperand layouts rewriteMapping (opId yieldOp)) ir
    (seq 0 (length (opOperands yieldOp))).

(** The body of the loop of [rewriteConditionOp] for operand [i], which the
    loop forwards as result [i - 1] of the [scf.while]. *)
Definition rewriteConditionOperand (layouts : Layouts) (rewriteMapping : RewriteMapping)
    (id : nat) (ir : IR) (i : nat) : Outcome IR :=
  conditionOp ← assertSome (getOp ir id);
  operand ← assertSome (opOperands conditionOp !! i);
  whileOp ← assertSome (getParentOp ir conditionOp);
  result ← assertSome (opResults whileOp !! (i - 1));
  match getType ir result with
  | Some (RankedTensorType _ _ encoding) =>
      '(ir', newOperand) ← getValueAs ir layouts rewriteMapping operand encoding;
      Finished (setOperand ir' id i newOperand)
  | _ => Finished ir
  end.

(** [rewriteConditionOp(conditionOp)]: the cast of the parent to a
    [scf.while] asserts; operand 0, the condition, is left alone. *)
Definition rewriteConditionOp (ir : IR) (layouts : Layouts) (rewriteMapping : RewriteMapping)
    (conditionOp : Operation) : Outcome IR :=
  whileOp ← assertSome (getParentOp ir conditionOp);
  if negb (bool_decide (opKind whileOp = WhileOp)) then Aborted
  else
    forEachIndex (rewriteConditionOperand layouts rewriteMapping (opId conditionOp)) ir
      (seq 1 (length (opOperands conditionOp) - 1)).

(** The first loop of [rewriteReduceToScalar]: the encoding picked for the
    first operand that has an entry in the map, [encodings[0]] asserting on
    an empty set. *)
Fixpoint firstMappedEncoding (layouts : Layouts) (operands : list Value)
    : Outcome (option Attribute) :=
  match operands with
  | [] => Finished None
  | operand :: rest =>
      match layouts_find operand layouts with
      | Some info => encoding ← assertSome (encodings info !! 0); Finished (Some encoding)
      | None => firstMappedEncoding layouts rest
      end
  end.

Definition rewriteReduceOperand (layouts : Layouts) (rewriteMapping : RewriteMapping)
    (srcEncoding : Attribute) (id : nat) (ir : IR) (n : nat) : Outcome IR :=
  reduceOp ← assertSome (getOp ir id);
  operand ← assertSome (opOperands reduceOp !! n);
  '(ir', newOperand) ← getValueAs ir layouts rewriteMapping operand srcEncoding;
  Finished (setOperand ir' id n newOperand).

(** [rewriteReduceToScalar(reduceOp)]: every operand is asked for in the
    encoding of the first mapped one; without a mapped operand nothing is
    done. *)
Definition rewriteReduceToScalar (ir : IR) (layouts : Layouts)
    (rewriteMapping : RewriteMapping) (reduceOp : Operation) : Outcome IR :=
  srcEncoding ← firstMappedEncoding layouts (opOperands reduceOp);
  match srcEncoding with
  | None => Finished ir
  | Some encoding =>
      forEachIndex (rewriteReduceOperand layouts rewriteMapping encoding (opId reduceOp)) ir
        (seq 0 (length (opOperands reduceOp)))
  end.

(** ** Hoisting a conversion above an extension or broadcast *)

(** [inferSrcEncoding(op, encoding)], from the transforms' utilities. *)
Variable inferSrcEncoding : Operation -> Attribute -> option Attribute.

(** The operation classes [hoistConvertOnTopOfExtOrBroadcast] tells apart
    besides those of the catalogue: the sign-, zero- and float-extensions of
    [arith] and [tt.broadcast].  They live under [OtherOp], with these
    tags. *)
Definition ExtSIOp : OpKind := OtherOp 1.
Definition ExtUIOp : OpKind := OtherOp 2.
Definition ExtFOp : OpKind := OtherOp 3.
Definition BroadcastOp : OpKind := OtherOp 4.

Definition isExtOrBroadcastOp (op : Operation) : bool :=
  bool_decide (opKind op ∈ [ExtSIOp; ExtUIOp; ExtFOp; BroadcastOp; ExpandDimsOp]).

(** What the loop over the slice carries: the slice and the layouts, which
    grow, and the one extension found that cannot be rematerialized. *)
Definition HoistState : Type := list Value * gmap Value Attribute * option Operation.

(** The body of the loop of [hoistConvertOnTopOfExtOrBroadcast] for the
    slice member [v]; [None] stands for the [return]s of the source.  A
    member without a layout would hand a null attribute to
    [inferSrcEncoding]; the model aborts there. *)
Definition hoistScanStep (ir : IR) (st : HoistState) (v : Value) : Outcome (option HoistState) :=
  let '(slice, layout, extOrBroadcatOp) := st in
  match getDefiningOp ir v with
  | None => Finished (Some st)
  | Some op =>
      if isExtOrBroadcastOp op then
        encoding ← assertSome (layout !! v);
        match inferSrcEncoding op encoding with
        | None => Finished None
        | Some srcEncoding =>
            operand ← assertSome (opOperands op !! 0);
            let '(result, tempSlice, tempLayout) :=
              getRematerializableSlice ir operand srcEncoding None in
            if negb (failed result) then
              Finished (Some (insertAll tempSlice slice, layout ∪ tempLayout, extOrBroadcatOp))
            else
              match extOrBroadcatOp with
              | Some _ => Finished None
              | None => Finished (Some (slice, layout, Some op))
              end
        end
      else Finished (Some st)
  end.

Fixpoint hoistScan (ir : IR) (st : HoistState) (members : list Value)
    : Outcome (option HoistState) :=
  match members with
  | [] => Finished (Some st)
  | v :: rest =>
      next ← hoistScanStep ir st v;
      match next with
      | None => Finished None
      | Some st' => hoistScan ir st' rest
      end
  end.

(** The end of [hoistConvertOnTopOfExtOrBroadcast]: the conversion goes
    before the extension, the extension is cloned onto it and the rest of
    the slice is rewritten. *)
Definition hoistRewrite (ir : IR) (slice : list Value) (layout : gmap Value Attribute)
    (convertOp extOrBroadcatOp : Operation) (srcEncoding dstEncoding : Attribute)
    : Outcome IR :=
  let point := BeforeOp (opId extOrBroadcatOp) in
  operand ← assertSome (opOperands extOrBroadcatOp !! 0);
  tensorType ← assertSome (getType ir operand);
  newType ← assertSome (withEncoding tensorType srcEncoding);
  '(ir1, newConvertOp) ← createOp ir point ConvertLayoutOp [operand] [newType] false [];
  '(ir2, newExtOrBroadcast, _) ← cloneOp ir1 point extOrBroadcatOp ∅;
  converted ← assertSome (opResults newConvertOp !! 0);
  let ir3 := setOperand ir2 (opId newExtOrBroadcast) 0 converted in
  oldResult ← assertSome (opResults extOrBroadcatOp !! 0);
  oldExtOrBroadcastType ← assertSome (getType ir3 oldResult);
  newExtOrBroadcastType ← assertSome (withEncoding oldExtOrBroadcastType dstEncoding);
  newResult ← assertSome (opResults newExtOrBroadcast !! 0);
  let ir4 := setType ir3 newResult newExtOrBroadcastType in
  rewriteSlice ir4 (filter (fun v => v ≠ oldResult) slice) layout convertOp
    {[oldResult := newResult]}.

(** [hoistConvertOnTopOfExtOrBroadcast(convertOp)]. *)
Definition hoistConvertOnTopOfExtOrBroadcast (ir : IR) (convertOp : Operation) : Outcome IR :=
  result ← assertSome (opResults convertOp !! 0);
  src ← assertSome (opOperands convertOp !! 0);
  if hasSharedEncoding ir result || hasSharedEncoding ir src then Finished ir
  else
    targetEncoding ← assertSome (getValueEncoding ir result);
    if isaDotOperandEncodingAttr targetEncoding then Finished ir
    else
      let '(result, slice, layout) :=
        getRematerializableSlice ir src targetEncoding (Some isExtOrBroadcastOp) in
      if failed result then Finished ir
      else
        scanned ← hoistScan ir (slice, layout, None) slice;
        match scanned with
        | None => Finished ir
        | Some (_, _, None) => Finished ir
        | Some (slice', layout', Some extOrBroadcatOp) =>
            oldResult ← assertSome (opResults extOrBroadcatOp !! 0);
            dstEncoding ← assertSome (layout' !! oldResult);
            match inferSrcEncoding extOrBroadcatOp dstEncoding with
            | None => Finished ir
            | Some srcEncoding =>
                hoistRewrite ir slice' layout' convertOp extOrBroadcatOp
                  srcEncoding dstEncoding
            end
        end.

(** ** The rewrite of an elementwise operation *)

(** The body of the first loop of [cloneElementwise]: operand [n] of the
    clone becomes the operand of [op] in the encoding inferred for the
    operands; dereferencing an empty [operandEnc] asserts. *)
Definition cloneElementwiseOperand (layouts : Layouts) (rewriteMapping : RewriteMapping)
    (operandEnc : option Attribute) (op : Operation) (newId : nat) (ir : IR) (n : nat)
    : Outcome IR :=
  operand ← assertSome (opOperands op !! n);
  encoding ← assertSome operandEnc;
  '(ir', newOperand) ← getValueAs ir layouts rewriteMapping operand encoding;
  Finished (setOperand ir' newId n newOperand).

(** The body of the second loop: result [i] of the clone takes the type of
    result [i] of [op] with the new encoding, when that is a tensor type. *)
Definition retypeCloneResult (encoding : Attribute) (op newOp : Operation) (ir : IR) (i : nat)
    : Outcome IR :=
  old ← assertSome (opResults op !! i);
  match getType ir old with
  | Some (RankedTensorType shape elementType _) =>
      new ← assertSome (opResults newOp !! i);
      Finished (setType ir new (RankedTensorType shape elementType encoding))
  | _ => Finished ir
  end.

(** [cloneElementwise(rewriter, op, encoding)], the builder inserting at
    [point]: the program after the call and the clone. *)
Definition cloneElementwise (ir : IR) (layouts : Layouts) (rewriteMapping : RewriteMapping)
    (point : InsertionPoint) (op : Operation) (encoding : Attribute)
    : Outcome (IR * Operation) :=
  '(ir1, newOp, _) ← cloneOp ir point op ∅;
  operandEnc ←
    (if 0 <? length (opOperands op) then
       inferred ← assertSome (inferSrcEncoding op encoding); Finished (Some inferred)
     else Finished None);
  ir2 ← forEachIndex
          (cloneElementwiseOperand layouts rewriteMapping operandEnc op (opId newOp))
          ir1 (seq 0 (length (opOperands op)));
  ir3 ← forEachIndex (retypeCloneResult encoding op newOp) ir2
          (seq 0 (length (opResults op)));
  newOp' ← assertSome (getOp ir3 (opId newOp));
  Finished (ir3, newOp').

(** ** The rewrite phase: operations *)

(** [canFoldIntoConversion(op, encoding)], from the transforms' utilities. *)
Variable canFoldIntoConversion : IR -> Operation -> Attribute -> bool.

(** What the rewrite phase carries along: the program, the rewritten forms
    of the values and [opToDelete], the operations to erase when the walk is
    over. *)
Record RewritePhase : Type := mkRewritePhase {
  rpIR : IR;
  rpMapping : RewriteMapping;
  rpToDelete : list nat
}.

(** Fresh block arguments for the regions of a new operation. *)
Fixpoint allocRegions (ir : IR) (regions : list (list Ty)) : IR * list (list Value) :=
  match regions with
  | [] => (ir, [])
  | tys :: rest =>
      let '(ir1, args) := allocValues ir tys in
      let '(ir2, argss) := allocRegions ir1 rest in
      (ir2, args :: argss)
  end.

(** [builder.create<Op>(...)] for an operation with regions: fresh results
    and, per region, an entry block with fresh arguments of the given
    types. *)
Definition createOpWithRegions (ir : IR) (point : InsertionPoint) (kind : OpKind)
    (operands : list Value) (resultTypes : list Ty) (regionArgTypes : list (list Ty))
    (attrs : list nat) : Outcome (IR * Operation) :=
  block ← assertSome (blockOfPoint ir point);
  let '(ir1, results) := allocValues ir resultTypes in
  let '(ir2, regionArgs) := allocRegions ir1 regionArgTypes in
  let op := mkOperation (freshOpId ir) kind operands results regionArgs block.1 block.2
              false false false attrs in
  ops ← assertSome (insertAt ir point [op]);
  Finished (mkIR ops (irTypes ir2) (irArgs ir2), op).

(** [ForOp::ensureTerminator]: the builder of [scf.for] closes the body of a
    loop that has no iteration argument with an empty [scf.yield]. *)
Definition ensureTerminator (ir : IR) (forOp : Operation) : Outcome IR :=
  let yieldOp := mkOperation (freshOpId ir) YieldOp [] [] [] (Some (opId forOp)) 0
                   false false false [] in
  ops ← assertSome (insertAfterOp ir (opId forOp) [yieldOp] (irOps ir));
  Finished (mkIR ops (irTypes ir) (irArgs ir)).

Definition withParent (op : Operation) (parent : nat) : Operation :=
  mkOperation (opId op) (opKind op) (opOperands op) (opResults op) (opRegionArgs op)
    (Some parent) (opRegion op) (opAllowReorder op)
    (opSameOperandsAndResultEncoding op) (opElementwise op) (opAttrs op).

(** The operations of the regions of [from] move, region by region, to the
    front of the regions of [to], an operation created right before [from]
    ([splice] of the operations of a block; [takeBody], the regions of a new
    [scf.if] holding no operation). *)
Fixpoint spliceBodies (ir : IR) (from to : nat) (ops : list Operation)
    : option (list Operation) :=
  match ops with
  | [] => None
  | new :: rest =>
      if bool_decide (opId new = to) then
        let '(own, rest1) := span (isInside ir to) rest in
        match rest1 with
        | old :: rest2 =>
            if bool_decide (opId old = from) then
              let '(nested, outer) := span (isInside ir from) rest2 in
              Some (new :: ((fun op => if bool_decide (opParent op = Some from)
                                       then withParent op to else op) <$> nested)
                        ++ own ++ old :: outer)
            else None
        | [] => None
        end
      else (new ::.) <$> spliceBodies ir from to rest
  end.

Definition takeBodies (ir : IR) (from to : nat) : Outcome IR :=
  ops ← assertSome (spliceBodies ir from to (irOps ir));
  Finished (mkIR ops (irTypes ir) (irArgs ir)).

(** The lambda [remapArg] of [rewriteWhileOp], which the other rewrites of
    control flow spell out: the uses of the old value go to the new one when
    the types agree, the new value is recorded as its rewritten form
    otherwise. *)
Definition remapArg (st : IR * RewriteMapping) (oldVal newVal : Value)
    : Outcome (IR * RewriteMapping) :=
  if bool_decide (getType st.1 oldVal = getType st.1 newVal)
  then Finished (replaceAllUsesWith st.1 oldVal newVal, st.2)
  else rewriteMapping ← LayoutPropagation_map st.1 st.2 oldVal newVal;
       Finished (st.1, rewriteMapping).

(** [remapArg] over [llvm::zip(olds, news)]. *)
Fixpoint remapArgs (st : IR * RewriteMapping) (olds news : list Value)
    : Outcome (IR * RewriteMapping) :=
  match olds, news with
  | old :: olds', new :: news' => st' ← remapArg st old new; remapArgs st' olds' news'
  | _, _ => Finished st
  end.

(** The first loop of [rewriteForOp] and of [rewriteWhileOp]: an operand
    whose tied value (the result, the argument of the "before" region) has
    an entry in the map is asked for in the first encoding of the entry. *)
Fixpoint convertTiedOperands (ir : IR) (layouts : Layouts) (rewriteMapping : RewriteMapping)
    (operands tied : list Value) : Outcome (IR * list Value) :=
  match operands, tied with
  | operand :: operands', value :: tied' =>
      '(ir1, convertedOperand) ←
        match layouts_find value layouts with
        | Some info =>
            encoding ← assertSome (head (encodings info));
            getValueAs ir layouts rewriteMapping operand encoding
        | None => Finished (ir, operand)
        end;
      '(ir2, rest) ← convertTiedOperands ir1 layouts rewriteMapping operands' tied';
      Finished (ir2, convertedOperand :: rest)
  | _, _ => Finished (ir, [])
  end.

(** The type of a result of a rewritten [scf.while] or [scf.if]: the type of
    the old result, with the first encoding of its entry when it has one. *)
Definition rewrittenResultType (ir : IR) (layouts : Layouts) (result : Value) : Outcome Ty :=
  origType ← assertSome (getType ir result);
  match layouts_find result layouts with
  | None => Finished origType
  | Some info =>
      encoding ← assertSome (head (encodings info));
      assertSome (withEncoding origType encoding)
  end.

Fixpoint rewrittenResultTypes (ir : IR) (layouts : Layouts) (results : list Value)
    : Outcome (list Ty) :=
  match results with
  | [] => Finished []
  | result :: rest =>
      ty ← rewrittenResultType ir layouts result;
      tys ← rewrittenResultTypes ir layouts rest;
      Finished (ty :: tys)
  end.

(** [rewriteForOp(forOp)]: the new loop takes the converted inits, the
    attributes and the body of the old one. *)
Definition rewriteForOp (layouts : Layouts) (st : RewritePhase) (forOp : Operation)
    : Outcome (RewritePhase * Operation) :=
  '(ir1, operands) ← convertTiedOperands (rpIR st) layouts (rpMapping st)
                       (getInitArgs forOp) (opResults forOp);
  lowerBound ← assertSome (opOperands forOp !! 0);
  upperBound ← assertSome (opOperands forOp !! 1);
  step ← assertSome (opOperands forOp !! 2);
  boundType ← assertSome (getType ir1 lowerBound);
  types ← assertSome (mapM (getType ir1) operands);
  '(ir2, newForOp) ← createOpWithRegions ir1 (BeforeOp (opId forOp)) ForOp
                       ([lowerBound; upperBound; step] ++ operands) types
                       [boundType :: types] (opAttrs forOp);
  ir3 ← (if bool_decide (operands = []) then ensureTerminator ir2 newForOp
         else Finished ir2);
  ir4 ← takeBodies ir3 (opId forOp) (opId newForOp);
  st5 ← remapArgs (ir4, rpMapping st) (opResults forOp) (opResults newForOp);
  st6 ← remapArgs st5 (default [] (opRegionArgs forOp !! 0))
                      (default [] (opRegionArgs newForOp !! 0));
  newForOp' ← assertSome (getOp st6.1 (opId newForOp));
  Finished (mkRewritePhase st6.1 st6.2 (rpToDelete st), newForOp').

(** [rewriteWhileOp(whileOp)]. *)
Definition rewriteWhileOp (layouts : Layouts) (st : RewritePhase) (whileOp : Operation)
    : Outcome (RewritePhase * Operation) :=
  '(ir1, operands) ← convertTiedOperands (rpIR st) layouts (rpMapping st)
                       (opOperands whileOp) (getBeforeArguments whileOp);
  returnTypes ← rewrittenResultTypes ir1 layouts (opResults whileOp);
  argsTypesBefore ← assertSome (mapM (getType ir1) operands);
  '(ir2, newWhileOp) ← createOpWithRegions ir1 (BeforeOp (opId whileOp)) WhileOp
                         operands returnTypes [argsTypesBefore; returnTypes] [];
  ir3 ← takeBodies ir2 (opId whileOp) (opId newWhileOp);
  st4 ← remapArgs (ir3, rpMapping st) (opResults whileOp) (opResults newWhileOp);
  st5 ← remapArgs st4 (getBeforeArguments whileOp) (getBeforeArguments newWhileOp);
  st6 ← remapArgs st5 (getAfterArguments whileOp) (getAfterArguments newWhileOp);
  newWhileOp' ← assertSome (getOp st6.1 (opId newWhileOp));
  Finished (mkRewritePhase st6.1 st6.2 (rpToDelete st), newWhileOp').

(** [rewriteIfOp(ifOp)]. *)
Definition rewriteIfOp (layouts : Layouts) (st : RewritePhase) (ifOp : Operation)
    : Outcome (RewritePhase * Operation) :=
  newResultTypes ← rewrittenResultTypes (rpIR st) layouts (opResults ifOp);
  condition ← assertSome (opOperands ifOp !! 0);
  '(ir1, newIfOp) ← createOpWithRegions (rpIR st) (BeforeOp (opId ifOp)) IfOp
                      [condition] newResultTypes [[]; []] [];
  ir2 ← takeBodies ir1 (opId ifOp) (opId newIfOp);
  st3 ← remapArgs (ir2, rpMapping st) (opResults ifOp) (opResults newIfOp);
  newIfOp' ← assertSome (getOp st3.1 (opId newIfOp));
  Finished (mkRewritePhase st3.1 st3.2 (rpToDelete st), newIfOp').

(** [map] over [llvm::zip(olds, news)]. *)
Fixpoint mapEachResult (ir : IR) (rewriteMapping : RewriteMapping) (olds news : list Value)
    : Outcome RewriteMapping :=
  match olds, news with
  | old :: olds', new :: news' =>
      rewriteMapping' ← LayoutPropagation_map ir rewriteMapping old new;
      mapEachResult ir rewriteMapping' olds' news'
  | _, _ => Finished rewriteMapping
  end.

(** The tail shared by two branches of [rewriteOp]: a layout conversion of
    [src] to the type of [result] with the picked encoding, created before
    [op] and recorded as the rewritten form of [result]. *)
Definition convertAndMap (st : RewritePhase) (op : Operation) (result src : Value)
    (encoding : Attribute) : Outcome (RewritePhase * Operation) :=
  tensorType ← assertSome (getType (rpIR st) result);
  newType ← assertSome (withEncoding tensorType encoding);
  '(ir1, cvt) ← createOp (rpIR st) (BeforeOp (opId op)) ConvertLayoutOp [src] [newType]
                  false [];
  cvtResult ← assertSome (opResults cvt !! 0);
  rewriteMapping ← LayoutPropagation_map ir1 (rpMapping st) result cvtResult;
  Finished (mkRewritePhase ir1 rewriteMapping (rpToDelete st), cvt).

(** [rewriteOp(op)]: the operation is noted for deletion and a new one is
    built before it; the new operation is returned. *)
Definition rewriteOp (layouts : Layouts) (st0 : RewritePhase) (op : Operation)
    : Outcome (RewritePhase * Operation) :=
  let st := mkRewritePhase (rpIR st0) (rpMapping st0)
              (SetVector_insert (opId op) (rpToDelete st0)).2 in
  if bool_decide (opKind op = ForOp) then rewriteForOp layouts st op
  else if bool_decide (opKind op = WhileOp) then rewriteWhileOp layouts st op
  else if bool_decide (opKind op = IfOp) then rewriteIfOp layouts st op
  else
    result ← assertSome (opResults op !! 0);
    encoding ← assertSome (layouts_find result layouts ≫= fun info => head (encodings info));
    if bool_decide (opKind op = ConvertLayoutOp) then
      convertSrc ← assertSome (opOperands op !! 0);
      ownEncoding ← assertSome (getValueEncoding (rpIR st) convertSrc);
      srcEncoding ←
        match layouts_find convertSrc layouts with
        | Some info => assertSome (head (encodings info))
        | None => Finished ownEncoding
        end;
      '(ir1, src) ← getValueAs (rpIR st) layouts (rpMapping st) convertSrc srcEncoding;
      convertAndMap (mkRewritePhase ir1 (rpMapping st) (rpToDelete st)) op result src
        encoding
    else if canFoldIntoConversion (rpIR st) op encoding then
      '(ir1, newOp, _) ← cloneOp (rpIR st) (BeforeOp (opId op)) op ∅;
      newResult ← assertSome (opResults newOp !! 0);
      convertAndMap (mkRewritePhase ir1 (rpMapping st) (rpToDelete st)) op result
        newResult encoding
    else if propagatesThrough op then
      '(ir1, newOp) ← cloneElementwise (rpIR st) layouts (rpMapping st)
                        (BeforeOp (opId op)) op encoding;
      rewriteMapping ← mapEachResult ir1 (rpMapping st) (opResults op) (opResults newOp);
      Finished (mkRewritePhase ir1 rewriteMapping (rpToDelete st), newOp)
    else Aborted.

(** ** The rewrite phase: the walk *)

(** [reduceToScalar(op)]. *)
Definition reduceToScalar (ir : IR) (op : Operation) : Outcome bool :=
  if bool_decide (opKind op = ReduceOp) then
    result ← assertSome (opResults op !! 0);
    Finished (negb (isRankedTensor ir result))
  else Finished false.

(** A region of the program: the operation that holds it, none for the body
    of the function, and its number. *)
Definition Region : Type := option nat * nat.

Definition inRegion (region : Region) (op : Operation) : bool :=
  bool_decide (opParent op = region.1) && bool_decide (opRegion op = region.2).

Definition getRegions (op : Operation) : list Region :=
  (fun i => (Some (opId op), i)) <$> seq 0 (length (opRegionArgs op)).

(** Where the iteration over the operations of a region starts, and where it
    goes from an operation: to the next operation of the same block in the
    program as it is by then. *)
Definition firstOpOf (ir : IR) (region : Region) : option Operation :=
  snd <$> list_find (fun op => inRegion region op = true) (irOps ir).

Definition nextOpAfter (ir : IR) (id : nat) : option Operation :=
  '(i, op) ← list_find (fun op => opId op = id) (irOps ir);
  snd <$> list_find (fun next => inRegion (opParent op, opRegion op) next = true)
            (drop (S i) (irOps ir)).

(** The loop of [rewriteRegion] over the results of an operation: a mapped
    result must have been resolved to one encoding, and asks for a rewrite
    when that is not the encoding it has. *)
Fixpoint needRewrite (ir : IR) (layouts : Layouts) (results : list Value) : Outcome bool :=
  match results with
  | [] => Finished false
  | result :: rest =>
      match layouts_find result layouts with
      | None => needRewrite ir layouts rest
      | Some info =>
          if negb (length (encodings info) =? 1) then Aborted
          else
            encoding ← assertSome (getValueEncoding ir result);
            others ← needRewrite ir layouts rest;
            Finished (negb (bool_decide (head (encodings info) = Some encoding)) || others)
      end
  end.

(** The body of the loop that remaps the operands of an operation that is
    not rewritten: a mapped operand is asked for in the encoding it has. *)
Definition remapOperand (layouts : Layouts) (rewriteMapping : RewriteMapping)
    (id : nat) (ir : IR) (n : nat) : Outcome IR :=
  op ← assertSome (getOp ir id);
  operand ← assertSome (opOperands op !! n);
  match layouts_find operand layouts with
  | None => Finished ir
  | Some _ =>
      encoding ← assertSome (getValueEncoding ir operand);
      '(ir', newOperand) ← getValueAs ir layouts rewriteMapping operand encoding;
      Finished (setOperand ir' id n newOperand)
  end.

Definition withIR (st : RewritePhase) (ir : IR) : RewritePhase :=
  mkRewritePhase ir (rpMapping st) (rpToDelete st).

(** The body of the loop of [rewriteRegion] over the operations of a region;
    the work list has its back first. *)
Definition rewriteRegionOp (layouts : Layouts) (st : RewritePhase) (queue : list Region)
    (op : Operation) : Outcome (RewritePhase * list Region) :=
  need ← needRewrite (rpIR st) layouts (opResults op);
  if (need : bool) then
    '(st', newOp) ← rewriteOp layouts st op;
    Finished (st', reverse (getRegions newOp) ++ queue)
  else if bool_decide (opKind op = YieldOp) then
    ir' ← rewriteYieldOp (rpIR st) layouts (rpMapping st) op;
    Finished (withIR st ir', queue)
  else if bool_decide (opKind op = ConditionOp) then
    ir' ← rewriteConditionOp (rpIR st) layouts (rpMapping st) op;
    Finished (withIR st ir', queue)
  else
    scalar ← reduceToScalar (rpIR st) op;
    if (scalar : bool) then
      ir' ← rewriteReduceToScalar (rpIR st) layouts (rpMapping st) op;
      Finished (withIR st ir', queue)
    else
      ir' ← forEachIndex (remapOperand layouts (rpMapping st) (opId op)) (rpIR st)
              (seq 0 (length (opOperands op)));
      Finished (withIR st ir', reverse (getRegions op) ++ queue).

(** The two nested loops of [rewriteRegion]: [current] is the operation the
    inner loop is at, none when the region at hand is done and the next one
    is popped. *)
Fixpoint rewriteRegionLoop (fuel : nat) (layouts : Layouts) (st : RewritePhase)
    (queue : list Region) (current : option Operation) : Outcome RewritePhase :=
  match fuel with
  | 0 => OutOfFuel
  | S fuel' =>
      match current with
      | Some op =>
          '(st', queue') ← rewriteRegionOp layouts st queue op;
          rewriteRegionLoop fuel' layouts st' queue' (nextOpAfter (rpIR st') (opId op))
      | None =>
          match queue with
          | [] => Finished st
          | region :: queue' =>
              rewriteRegionLoop fuel' layouts st queue' (firstOpOf (rpIR st) region)
          end
      end
  end.

(** [rewriteRegion(region)], the rewrite mapping and the operations to
    delete being those left by what ran before: when the walk is over the
    operations noted for deletion are erased, last one first. *)
Definition rewriteRegion (fuel : nat) (layouts : Layouts) (st : RewritePhase)
    (region : Region) : Outcome IR :=
  st' ← rewriteRegionLoop fuel layouts st [region] None;
  Finished (foldl eraseOp (rpIR st') (reverse (rpToDelete st'))).

(** [LayoutPropagation::rewrite()]. *)
Definition LayoutPropagation_rewrite (fuel : nat) (ir : IR) (layouts : Layouts) : Outcome IR :=
  rewriteRegion fuel layouts (mkRewritePhase ir ∅ []) (None, 0).

(** The first step of [runOnOperation], for one function: the forward
    propagation of layouts; the two loops that need it get their fuel. *)
Definition propagateLayoutsForward (fuel rewriteTurns : nat) (ir : IR) : Outcome IR :=
  anchors ← initAnchorLayout ir;
  layouts ← propagateLayout fuel ir anchors;
  LayoutPropagation_rewrite rewriteTurns ir (resolveConflicts ir layouts).

(** ** The spec's wording of the choices the claims describe *)

(** The spec's conflict-resolution rule: the first candidate of the family
    preferred for the value (blocked when a load, store or atomic defines it,
    MMA otherwise), else the first candidate. *)
Definition specResolvedEncoding (definedByMemoryOp : bool) (candidates : list Attribute)
    : option Attribute :=
  let preferred :=
    if definedByMemoryOp then isaBlockedEncodingAttr else isaNvidiaMmaEncodingAttr in
  match List.find preferred candidates with
  | Some e => Some e
  | None => head candidates
  end.

(** The spec's exception to anchor seeding, in its words: the forward search
    "finds an eventual conversion into that same accelerator layout family",
    that is, some conversion it meets produces an MMA encoding. *)
Definition specConvertVerdict (ir : IR) (op : Operation) : option (option bool) :=
  if bool_decide (opKind op = ConvertLayoutOp) then
    result ← opResults op !! 0;
    dstEncoding ← getValueEncoding ir result;
    Some (if isaNvidiaMmaEncodingAttr dstEncoding then Some true else None)
  else Some None.

(** The spec's search starts at the value itself and follows the same loop
    back-edges. *)
Definition specFindsConvertToMma (ir : IR) (v : Value) : Outcome bool :=
  searchLoop (searchFuel ir) (specConvertVerdict ir) ir [v] [] ∅.

(** The spec's anchor rule: a ranked-tensor value that is a function
    parameter or a result of an anchor-kind operation, except that a result
    with an MMA encoding needs the search to succeed. *)
Definition specIsSeeded (ir : IR) (v : Value) : Outcome bool :=
  if isRankedTensor ir v &&
     (bool_decide (v ∈ irArgs ir) ||
      existsb (fun op => isLayoutAnchor ir op && bool_decide (v ∈ opResults op)) (irOps ir))
  then
    match getValueEncoding ir v, getDefiningOp ir v with
    | Some encoding, Some _ =>
        if isaNvidiaMmaEncodingAttr encoding then specFindsConvertToMma ir v
        else Finished true
    | _, _ => Finished true
    end
  else Finished false.

(** The test [maybeAddAnchor] makes before it seeds a value: the value has a
    tensor encoding, and when that is an MMA encoding and an operation
    defines the value, [hasConvertToMMATransisitiveUse] says yes. *)
Definition admitsAnchor (ir : IR) (v : Value) : Prop :=
  exists encoding,
    getValueEncoding ir v = Some encoding ∧
    (isaNvidiaMmaEncodingAttr encoding = true ->
     forall def, getDefiningOp ir v = Some def ->
                 hasConvertToMMATransisitiveUse ir def encoding = Finished true).

(** The operation kinds the spec excludes from rematerialization whatever
    the cost model says: tensor-slice, allocate and insert-async operations,
    matrix-multiply, atomics, and the conditional, while and condition
    constructs. *)
Definition neverRematerialized : list OpKind :=
  [ExtractSliceOp; AllocTensorOp; InsertSliceAsyncOp; DotOp; AtomicRMWOp; AtomicCASOp;
   IfOp; WhileOp; ConditionOp].

Definition isaLoadOrStore (op : Operation) : bool :=
  match opKind op with LoadOp | StoreOp => true | _ => false end.

(** The operations that use a result of [op], each listed once: the users
    of [op], where [numUsers] counts its uses. *)
Definition getUsers (ir : IR) (op : Operation) : list nat :=
  remove_dups ((fun use => opId use.1) <$> flat_map (getUses ir) (opResults op)).

(** The shape the dot-accumulator pattern looks for around the conversion
    [op]: the source is a dot whose accumulator comes from a conversion of
    the loaded value [loaded], and the dot and [op] each count one under
    [count]. *)
Definition dotConvertShape (count : Operation -> nat) (ir : IR) (op : Operation)
    (loaded : Value) : Prop :=
  exists src dotOp acc cvtOp loadOp,
    opOperands op !! 0 = Some src ∧
    getDefiningOp ir src = Some dotOp ∧ opKind dotOp = DotOp ∧
    count op = 1 ∧ count dotOp = 1 ∧
    opOperands dotOp !! 2 = Some acc ∧
    getDefiningOp ir acc = Some cvtOp ∧ opKind cvtOp = ConvertLayoutOp ∧
    opOperands cvtOp !! 0 = Some loaded ∧
    getDefiningOp ir loaded = Some loadOp ∧ opKind loadOp = LoadOp.

(** The spec's condition for the pattern to fire: the shape, the dot and the
    conversion having a single user each. *)
Definition specDotConvertMatches (ir : IR) (op : Operation) : Prop :=
  exists loaded, dotConvertShape (fun user => length (getUsers ir user)) ir op loaded.

(** The condition of the code: the shape, the dot and the conversion having
    a single use each, and the conversion produces the very type of the
    loaded value. *)
Definition dotConvertMatches (ir : IR) (op : Operation) : Prop :=
  exists loaded dst ty,
    dotConvertShape (numUsers ir) ir op loaded ∧
    opResults op !! 0 = Some dst ∧ getType ir dst = Some ty ∧ getType ir loaded = Some ty.

(** What the pattern leaves, as the code builds it.  Right before the
    conversion [op] stand, in this order, a zero constant, its splat in the
    type of the dot, a dot of operands 0 and 1 of [dotOp] on that zero
    accumulator, a conversion of the new dot to [dstTy] and the addition of
    that conversion and [loaded]; no value of [ir] has changed its type;
    then every use of the result of [op] has become a use of the addition,
    and [op] is erased. *)
Definition rewrittenToAdd (ir : IR) (op dotOp : Operation) (loaded : Value) (dstTy : Ty)
    (ir' : IR) : Prop :=
  exists l1 next l2 a b dotResult dotTy elementType
         zeroF zeroFResult zero zeroResult newDot newDotResult newCvt newCvtResult add sum ir5,
    irOps ir = l1 ++ next :: l2 ∧ opId next = opId op ∧
    (forall old, old ∈ l1 -> opId old ≠ opId op) ∧
    irOps ir5 = l1 ++ [zeroF; zero; newDot; newCvt; add] ++ next :: l2 ∧
    (forall v t, getType ir v = Some t -> getType ir5 v = Some t) ∧
    opOperands dotOp !! 0 = Some a ∧ opOperands dotOp !! 1 = Some b ∧
    opResults dotOp !! 0 = Some dotResult ∧ getType ir dotResult = Some dotTy ∧
    getElementType dstTy = Some elementType ∧
    opKind zeroF = ConstantOp ∧ opOperands zeroF = [] ∧ opAttrs zeroF = [0] ∧
    opResults zeroF = [zeroFResult] ∧
    getType ir5 zeroFResult = Some (ScalarType elementType) ∧
    opKind zero = SplatOp ∧ opOperands zero = [zeroFResult] ∧
    opResults zero = [zeroResult] ∧ getType ir5 zeroResult = Some dotTy ∧
    opKind newDot = DotOp ∧ opOperands newDot = [a; b; zeroResult] ∧
    opAttrs newDot = opAttrs dotOp ∧
    opResults newDot = [newDotResult] ∧ getType ir5 newDotResult = Some dotTy ∧
    opKind newCvt = ConvertLayoutOp ∧ opOperands newCvt = [newDotResult] ∧
    opResults newCvt = [newCvtResult] ∧ getType ir5 newCvtResult = Some dstTy ∧
    opKind add = AddFOp ∧ opOperands add = [newCvtResult; loaded] ∧
    opResults add = [sum] ∧ getType ir5 sum = Some dstTy ∧
    ir' = eraseOp (replaceAllUsesWithEach ir5 (opResults op) [sum]) (opId op).



(** The candidates the map holds for a value, none when it has no entry. *)
Definition candidates (layouts : Layouts) (v : Value) : list Attribute :=
  default [] (encodings <$> layouts_find v layouts).

(** The number of candidates the map holds, over all values. *)
Definition totalCandidates (layouts : Layouts) : nat :=
  sum_list_with (fun entry => length (encodings entry.2)) layouts.

(** A sequence of [layouts[v].encodings.insert(e)]. *)
Definition applyInserts (inserts : list (Value * Attribute)) (layouts : Layouts) : Layouts :=
  fold_left (fun acc p => (insertEncoding p.1 p.2 acc).2) inserts layouts.

(** What a piece of the propagation does to the pair (layouts, changed): it
    performs insertions of pairs satisfying [Q] and pushes values, each push
    paid for by a new candidate and naming a key of the map. *)
Definition propagates (Q : Value -> Attribute -> Prop) (st st' : Layouts * list Value) : Prop :=
  exists inserts extra,
    st'.1 = applyInserts inserts st.1 ∧
    Forall (fun p => Q p.1 p.2) inserts ∧
    st'.2 = st.2 ++ extra ∧
    length extra + totalCandidates st.1 <= totalCandidates st'.1 ∧
    (forall v, v ∈ extra -> v ∈ st'.1.*1).

(** The invariant of the work loop: queued values are keys, keys are unique
    tensor values, candidate sets are non-empty, duplicate-free and within
    [U]. *)
Definition stateOk (U : Attribute -> Prop) (ir : IR) (st : list Value * Layouts) : Prop :=
  (forall v, v ∈ st.1 -> v ∈ st.2.*1) ∧
  NoDup st.2.*1 ∧
  (forall v, v ∈ st.2.*1 -> isRankedTensor ir v = true) ∧
  Forall (fun entry => NoDup (encodings entry.2) ∧ encodings entry.2 ≠ [] ∧
                       (forall e, e ∈ encodings entry.2 -> U e)) st.2.

(** ** Notions the proofs use *)

(** The insertions of [setEncoding] for [op] and [info]: each gives a tensor
    value the destination encoding of one of the candidates of [info]. *)
Definition derivedFor (ir : IR) (info : LayoutInfo) (op : Operation)
    (v : Value) (d : Attribute) : Prop :=
  isRankedTensor ir v = true ∧ exists e, e ∈ encodings info ∧ dstEncodingOf op e = Some d.

(** The insertions of [propagateToUsers] for [info]. *)
Definition derivedFrom (ir : IR) (info : LayoutInfo) (v : Value) (d : Attribute) : Prop :=
  exists op, derivedFor ir info op v d.

(** The oracle never leaves [U]. *)
Definition closedUnder (U : Attribute -> Prop) : Prop :=
  forall op e d, U e -> inferDstEncoding op e = Some d -> U d.

(** What [initAnchorLayout] guarantees of the map it builds: keys are unique
    tensor values, each with its own encoding as only candidate. *)
Definition anchorsOk (ir : IR) (layouts : Layouts) : Prop :=
  NoDup layouts.*1 ∧
  Forall (fun entry => exists e, encodings entry.2 = [e] ∧
                                 getValueEncoding ir entry.1 = Some e) layouts.

(** The quantity the search consumes: queued values plus defined values not
    yet seen. *)
Definition searchMeasure (ir : IR) (queue : list Value) (seen : gset Value) : nat :=
  length queue + size (definedValues ir ∖ seen).

(** The values a use hands to [setEncoding] in the loop of
    [propagateToUsers]; the empty list when the user lets no layout
    through. *)
Definition useTargets (ir : IR) (use : Operation * nat) : option (list Value) :=
  let '(user, operandNumber) := use in
  match opKind user with
  | ForOp =>
      arg ← getTiedLoopRegionIterArg user operandNumber;
      result ← getTiedLoopResult user operandNumber;
      Some [arg; result]
  | WhileOp =>
      arg ← getBeforeArguments user !! operandNumber;
      Some [arg]
  | YieldOp =>
      parent ← getParentOp ir user;
      match opKind parent with
      | ForOp =>
          result ← opResults parent !! operandNumber;
          arg ← getRegionIterArg parent operandNumber;
          Some [result; arg]
      | IfOp =>
          result ← opResults parent !! operandNumber;
          Some [result]
      | WhileOp =>
          arg ← getBeforeArguments parent !! operandNumber;
          operand ← opOperands parent !! operandNumber;
          Some [arg; operand]
      | _ => Some []
      end
  | ConditionOp =>
      whileOp ← getParentOp ir user;
      if bool_decide (opKind whileOp = WhileOp) then
        if operandNumber =? 0 then None
        else
          afterArg ← getAfterArguments whileOp !! (operandNumber - 1);
          result ← opResults whileOp !! (operandNumber - 1);
          Some [afterArg; result]
      else None
  | _ => if propagatesThrough user then Some (opResults user) else Some []
  end.

(** A value is settled in a map when the values its uses propagate to
    already hold whatever its own candidates derive. *)
Definition settled (ir : IR) (layouts : Layouts) (v : Value) : Prop :=
  forall use, use ∈ getUses ir v ->
    exists targets,
      useTargets ir use = Some targets ∧
      forall t e d,
        t ∈ targets -> isRankedTensor ir t = true ->
        e ∈ candidates layouts v -> dstEncodingOf use.1 e = Some d ->
        d ∈ candidates layouts t.

(** A piece of propagation names in [changed] every value whose entry it
    touched or created. *)
Definition tracks (st st' : Layouts * list Value) : Prop :=
  exists extra,
    st'.2 = st.2 ++ extra ∧
    forall v, v ∉ extra ->
      candidates st'.1 v = candidates st.1 v ∧ (v ∈ st'.1.*1 -> v ∈ st.1.*1).

(** The invariant of the work queue: a key that is not queued is settled. *)
Definition workInv (ir : IR) (st : list Value * Layouts) : Prop :=
  forall v, v ∈ st.2.*1 -> v ∈ st.1 ∨ settled ir st.2 v.

(** The shape the loops of the terminator rewrites share: operand [n] of
    the operation [id] is asked for in the encoding [choose] names, if it
    names one. *)
Definition convertOperandTo (layouts : Layouts) (rewriteMapping : RewriteMapping)
    (choose : IR -> Operation -> Value -> nat -> Outcome (option Attribute))
    (id : nat) (ir : IR) (n : nat) : Outcome IR :=
  op ← assertSome (getOp ir id);
  operand ← assertSome (opOperands op !! n);
  wanted ← choose ir op operand n;
  match wanted with
  | Some encoding =>
      '(ir', newOperand) ← getValueAs ir layouts rewriteMapping operand encoding;
      Finished (setOperand ir' id n newOperand)
  | None => Finished ir
  end.

Definition tensorEncoding (ty : option Ty) : option Attribute :=
  match ty with
  | Some (RankedTensorType _ _ encoding) => Some encoding
  | _ => None
  end.

(** The program [ir'] comes from [ir] by additions and by changes to the
    operands of the operation [id] alone. *)
Definition evolves (id : nat) (ir ir' : IR) : Prop :=
  (forall v t, getType ir v = Some t -> getType ir' v = Some t) ∧
  (forall id' op, id' ≠ id -> getOp ir id' = Some op -> getOp ir' id' = Some op) ∧
  (forall op, getOp ir id = Some op ->
     exists operands,
       getOp ir' id = Some (withOperands op operands) ∧
       length operands = length (opOperands op)).

(** The encodings the three terminator rewrites ask for. *)
Definition chooseYield (ir : IR) (op : Operation) (operand : Value) (n : nat)
    : Outcome (option Attribute) :=
  parentOp ← assertSome (getParentOp ir op);
  wanted ← yieldType ir parentOp operand n;
  Finished (tensorEncoding wanted).

Definition chooseCondition (ir : IR) (op : Operation) (operand : Value) (i : nat)
    : Outcome (option Attribute) :=
  whileOp ← assertSome (getParentOp ir op);
  result ← assertSome (opResults whileOp !! (i - 1));
  Finished (tensorEncoding (getType ir result)).

Definition chooseFixed (encoding : Attribute) (ir : IR) (op : Operation) (operand : Value)
    (n : nat) : Outcome (option Attribute) :=
  Finished (Some encoding).

(** A piece of propagation keeps what every value holds as a prefix of what
    it holds afterwards, and pushes a value only when that value gained a
    candidate. *)
Definition grows (st st' : Layouts * list Value) : Prop :=
  (forall v, candidates st.1 v `prefix_of` candidates st'.1 v) ∧
  exists extra,
    st'.2 = st.2 ++ extra ∧
    forall v, v ∈ extra -> length (candidates st.1 v) < length (candidates st'.1 v).

(** The rewrite mapping holds, for [value] in [encoding], a value that has
    that encoding. *)
Definition recorded (ir : IR) (rewriteMapping : RewriteMapping) (value : Value)
    (encoding : Attribute) : Prop :=
  exists new,
    rewriteMapping !! (value, encoding) = Some new ∧ getValueEncoding ir new = Some encoding.

(** [op'] is the operation [op], up to its operands and its place. *)
Definition sameOperation (op op' : Operation) : Prop :=
  opId op' = opId op ∧ opKind op' = opKind op ∧ opResults op' = opResults op ∧
  opRegionArgs op' = opRegionArgs op.

(** The program [ir'] keeps what [ir] has: every typed value its type, every
    operation its identity, kind, results and block arguments. *)
Definition keeps (ir ir' : IR) : Prop :=
  (forall v t, getType ir v = Some t -> getType ir' v = Some t) ∧
  (forall op, op ∈ irOps ir -> exists op', op' ∈ irOps ir' ∧ sameOperation op op').

(** The encoding an operand keeps when its user is not rewritten. *)
Definition chooseOwn (layouts : Layouts) (ir : IR) (op : Operation) (operand : Value)
    (n : nat) : Outcome (option Attribute) :=
  match layouts_find operand layouts with
  | None => Finished None
  | Some _ => encoding ← assertSome (getValueEncoding ir operand); Finished (Some encoding)
  end.

(** What a rewrite of an operation leaves besides the new operation: the
    program keeps what it had, the new operation is in it under an id no
    operation had, the operations to delete are untouched and what was
    recorded stays recorded. *)
Definition builtBeside (st st' : RewritePhase) (newOp : Operation) : Prop :=
  keeps (rpIR st) (rpIR st') ∧
  rpToDelete st' = rpToDelete st ∧
  newOp ∈ irOps (rpIR st') ∧
  (forall old, old ∈ irOps (rpIR st) -> opId old ≠ opId newOp) ∧
  (forall v e, recorded (rpIR st) (rpMapping st) v e ->
               recorded (rpIR st') (rpMapping st') v e).

(** What the verifier of the host IR guarantees of a program and the walk of
    the rewrite phase relies on.  Operations precede what is nested in
    them: no operation up to and including [op] has [op] for parent. *)
Fixpoint parentsFirst (before ops : list Operation) : bool :=
  match ops with
  | [] => true
  | op :: rest =>
      forallb (fun o => negb (bool_decide (opParent o = Some (opId op)))) (op :: before) &&
      parentsFirst (op :: before) rest
  end.

(** A tensor operand of a terminator has the encoding of the type it
    feeds. *)
Definition operandAgrees (ir : IR) (operand : Value) (ty : option Ty) : bool :=
  match getType ir operand, ty with
  | Some (RankedTensorType _ _ encoding), Some (RankedTensorType _ _ wanted) =>
      bool_decide (encoding = wanted)
  | _, _ => true
  end.

(** A [scf.yield] has a parent whose results (arguments of the "before"
    region, for a [scf.while]) match its operands; a [scf.condition] is in a
    [scf.while] whose results match the operands it forwards; a reduction
    has a result. *)
Definition terminatorVerified (ir : IR) (op : Operation) : bool :=
  match opKind op with
  | YieldOp =>
      match getParentOp ir op with
      | Some parentOp =>
          forallb (fun n =>
                     match opOperands op !! n with
                     | Some operand =>
                         match yieldType ir parentOp operand n with
                         | Finished ty => operandAgrees ir operand ty
                         | _ => false
                         end
                     | None => true
                     end) (seq 0 (length (opOperands op)))
      | None => false
      end
  | ConditionOp =>
      match getParentOp ir op with
      | Some whileOp =>
          bool_decide (opKind whileOp = WhileOp) &&
          forallb (fun i =>
                     match opOperands op !! i, opResults whileOp !! (i - 1) with
                     | Some operand, Some result => operandAgrees ir operand (getType ir result)
                     | _, _ => false
                     end) (seq 1 (length (opOperands op) - 1))
      | None => false
      end
  | ReduceOp => bool_decide (is_Some (opResults op !! 0))
  | _ => true
  end.

(** A verified program: the operations have distinct ids and precede what
    is nested in them, and every terminator and reduction is verified. *)
Definition verified (ir : IR) : bool :=
  bool_decide (NoDup (opId <$> irOps ir)) && parentsFirst [] (irOps ir) &&
  forallb (terminatorVerified ir) (irOps ir).

(** The turns the walk of the rewrite phase takes at most on a region: one
    per operation in it and, for each of the regions of these operations,
    one to pop it and those it takes in turn. *)
Definition regionWeight (weighted : list (Operation * nat)) (region : Region) : nat :=
  sum_list (snd <$> filter (fun ow => inRegion region ow.1 = true) weighted).

Fixpoint weigh (ops : list Operation) : list (Operation * nat) :=
  match ops with
  | [] => []
  | op :: rest =>
      let weighted := weigh rest in
      (op, 1 + sum_list ((fun region => 1 + regionWeight weighted region) <$> getRegions op))
      :: weighted
  end.

(** The turns that are enough for the walk of a function nothing is changed
    in: those of its body, one to pop the body and one to find the work list
    empty. *)
Definition rewriteFuel (ir : IR) : nat := 2 + regionWeight (weigh (irOps ir)) (None, 0).

(** The turns the regions still in the work list take at most. *)
Definition queueWeight (weighted : list (Operation * nat)) (queue : list Region) : nat :=
  sum_list ((fun region => 1 + regionWeight weighted region) <$> queue).

(** The conversion [convertOp] has been eliminated by rewriting [slice]:
    the loop of [rewriteSlice] has run from [mapping] over the operations
    collected for the slice, sorted, and left the state [st]; [ir'] is the
    program of [st] with every use of the conversion's result turned into a
    use of [replacement], the value the mapping holds by then for the
    conversion's source, and without the conversion and the loops left
    dead.  So the conversion is gone from [ir'], every operation of [ir']
    is an operation the loop left, its uses redirected, and unless the
    replacement is the conversion's result itself nothing uses that result
    any more. *)
Definition eliminatedBySlice (ir : IR) (slice : list Value) (layout : gmap Value Attribute)
    (convertOp : Operation) (mapping : IRMapping) (ir' : IR) : Prop :=
  exists opsToRewrite st convertOp' src result replacement,
    collectOpsToRewrite ir slice [] = Some opsToRewrite ∧
    rewriteSliceOps slice layout (mkRewriteState ir mapping [])
      (opId <$> multiRootTopologicalSort ir opsToRewrite) = Finished st ∧
    getOp (rsIR st) (opId convertOp) = Some convertOp' ∧
    opOperands convertOp' !! 0 = Some src ∧
    opResults convertOp' !! 0 = Some result ∧
    rsMapping st !! src = Some replacement ∧
    ir' = fold_left eraseOp (rsDeadLoops st)
            (eraseOp (replaceAllUsesWith (rsIR st) result replacement) (opId convertOp)) ∧
    getOp ir' (opId convertOp) = None ∧
    (forall op', op' ∈ irOps ir' ->
       exists op, op ∈ irOps (rsIR st) ∧ opId op ≠ opId convertOp ∧
                  op' = withOperands op (replaceValue result replacement <$> opOperands op)) ∧
    (replacement ≠ result -> forall op', op' ∈ irOps ir' -> result ∉ opOperands op').

(** The conversion has been hoisted above [extOrBroadcatOp]: [ir4] is [ir]
    with two operations more, right before the operation: a conversion of
    its operand 0 to [srcEncoding], and a clone of the operation (followed
    by the clones of what is nested in it) that takes the new conversion for
    operand 0 and whose result 0, [newResult], has [dstEncoding].  No value
    of [ir] has changed its type. *)
Definition hoistedAbove (ir : IR) (extOrBroadcatOp : Operation)
    (srcEncoding dstEncoding : Attribute) (ir4 : IR) (newResult : Value) : Prop :=
  exists l1 next l2 operand newConvertOp converted newExtOrBroadcast nested,
    irOps ir = l1 ++ next :: l2 ∧ opId next = opId extOrBroadcatOp ∧
    irOps ir4 = l1 ++ newConvertOp :: newExtOrBroadcast :: nested ++ next :: l2 ∧
    opOperands extOrBroadcatOp !! 0 = Some operand ∧
    opKind newConvertOp = ConvertLayoutOp ∧
    opOperands newConvertOp = [operand] ∧
    opResults newConvertOp = [converted] ∧
    getValueEncoding ir4 converted = Some srcEncoding ∧
    opKind newExtOrBroadcast = opKind extOrBroadcatOp ∧
    opOperands newExtOrBroadcast = <[0 := converted]> (opOperands extOrBroadcatOp) ∧
    opResults newExtOrBroadcast !! 0 = Some newResult ∧
    getValueEncoding ir4 newResult = Some dstEncoding ∧
    (forall v t, getType ir v = Some t -> getType ir4 v = Some t).

(** ** Worked programs *)

(** Oracles for the examples. *)

(** An inference that hands every encoding on unchanged. *)
Definition sameEncoding (op : Operation) (e : Attribute) : option Attribute := Some e.

(** A cost model that calls every load and store expensive. *)
Definition alwaysExpensive (ir : IR) (op : Operation) : bool := true.

(** A forward slice for the examples: the transitive users of the value and
    the operations nested in them, in walk order, joined to the slice that
    comes in. *)
Definition sliceStep (acc : list Value * list Operation) (op : Operation)
    : list Value * list Operation :=
  if existsb (fun operand => bool_decide (operand ∈ acc.1)) (opOperands op)
     || existsb (fun parent => bool_decide (opParent op = Some (opId parent))) acc.2
  then (acc.1 ++ opResults op ++ concat (opRegionArgs op), acc.2 ++ [op])
  else acc.

Definition walkForwardSlice (ir : IR) (root : Value) (forwardSlice : list Operation)
    : list Operation :=
  insertAll (fold_left sliceStep (irOps ir) ([root], [])).2 forwardSlice.

(** A backward slice for the examples: the root alone, in the wanted
    encoding. *)
Definition rootOnlySlice (ir : IR) (root : Value) (rootEncoding : Attribute)
    (stopPropagation : option (Operation -> bool))
    : LogicalResult * list Value * gmap Value Attribute :=
  (success, [root], {[root := rootEncoding]}).

Definition keepOrder (ir : IR) (ops : list Operation) : list Operation := ops.

Definition sharedByType (ir : IR) (v : Value) : bool :=
  match getValueEncoding ir v with
  | Some e => isaSharedEncodingAttr e
  | None => false
  end.

Definition noLoopResignature (ir : IR) (forOp : Operation) (newOperands : list Value)
    : Outcome (IR * Operation) := Aborted.

(** A loop fed by a function argument and a load. *)

Definition tensorOf (e : Attribute) : Ty := RankedTensorType [16; 16] 0 e.
Definition indexType : Ty := ScalarType 0.
Definition pointerType : Ty := ScalarType 1.

Definition plainOp (id : nat) (kind : OpKind) (operands results : list Value)
    (parent : option nat) : Operation :=
  mkOperation id kind operands results [] parent 0 false false false [].

(** [[
    func(%0: tensor<#blocked0>, %1, %2, %3: index, %4: ptr) {
      %5 = load %4 : tensor<#blocked1>
      %20 = scf.for %30 = %1 to %2 step %3 iter_args(%31 = %0) {
        %32 = elementwise %31, %5
        scf.yield %32
      }
      %21 = convert_layout %20 : tensor<#mma>
    }
    ]] *)
Definition loopProgram : IR :=
  mkIR
    [ plainOp 10 LoadOp [4] [5] None;
      mkOperation 11 ForOp [1; 2; 3; 0] [20] [[30; 31]] None 0 false false false [];
      mkOperation 12 (OtherOp 0) [31; 5] [32] [] (Some 11) 0 false false true [];
      plainOp 13 YieldOp [32] [] (Some 11);
      plainOp 14 ConvertLayoutOp [20] [21] None ]
    (list_to_map
       [ (0, tensorOf (BlockedEncodingAttr 0)); (1, indexType); (2, indexType);
         (3, indexType); (4, pointerType); (5, tensorOf (BlockedEncodingAttr 1));
         (20, tensorOf (BlockedEncodingAttr 0)); (30, indexType);
         (31, tensorOf (BlockedEncodingAttr 0)); (32, tensorOf (BlockedEncodingAttr 0));
         (21, tensorOf (NvidiaMmaEncodingAttr 2 0)) ])
    [0; 1; 2; 3; 4].


Definition loopAnchors : Layouts :=
  [ (0, mkLayoutInfo [BlockedEncodingAttr 0]); (5, mkLayoutInfo [BlockedEncodingAttr 1]) ].

Definition loopLayouts : Layouts :=
  [ (0, mkLayoutInfo [BlockedEncodingAttr 0]);
    (5, mkLayoutInfo [BlockedEncodingAttr 1]);
    (32, mkLayoutInfo [BlockedEncodingAttr 1; BlockedEncodingAttr 0]);
    (20, mkLayoutInfo [BlockedEncodingAttr 1; BlockedEncodingAttr 0]);
    (31, mkLayoutInfo [BlockedEncodingAttr 1; BlockedEncodingAttr 0]);
    (21, mkLayoutInfo [BlockedEncodingAttr 1; BlockedEncodingAttr 0]) ].

(** The load result [%5] asked for in the encoding of the argument: the
    program after one call of [getValueAs] and the value it returned. *)
Definition loopProgramOnce : Outcome (IR * Value) :=
  getValueAs loopProgram [] ∅ 5 (BlockedEncodingAttr 0).

(** Candidate sets in conflict, on the values of the loop program. *)
Definition conflictLayouts : Layouts :=
  [ (32, mkLayoutInfo [BlockedEncodingAttr 1; NvidiaMmaEncodingAttr 2 0; BlockedEncodingAttr 0]);
    (5, mkLayoutInfo [NvidiaMmaEncodingAttr 2 0; BlockedEncodingAttr 0; BlockedEncodingAttr 1]) ].

(** A dot whose result is only converted to a dot-operand encoding. *)

(** [[
    func(%0: tensor<#dot_op0>, %1: tensor<#dot_op1>, %2: tensor<#mma>) {
      %3 = dot %0, %1, %2 : tensor<#mma>
      %4 = convert_layout %3 : tensor<#dot_op0>
    }
    ]] *)
Definition dotOperandProgram : IR :=
  mkIR
    [ plainOp 10 DotOp [0; 1; 2] [3] None;
      plainOp 11 ConvertLayoutOp [3] [4] None ]
    (list_to_map
       [ (0, tensorOf (DotOperandEncodingAttr 0)); (1, tensorOf (DotOperandEncodingAttr 1));
         (2, tensorOf (NvidiaMmaEncodingAttr 2 0)); (3, tensorOf (NvidiaMmaEncodingAttr 2 0));
         (4, tensorOf (DotOperandEncodingAttr 0)) ])
    [0; 1; 2].

(** A dot accumulating into a loaded tensor. *)

(** [[
    func(%0, %1: tensor<#dot_op>, %2: ptr) {
      %3 = load %2 : tensor<#blocked0>
      %4 = convert_layout %3 : tensor<#mma>
      %5 = dot %0, %1, %4 : tensor<#mma>
      %6 = convert_layout %5 : tensor<resultEncoding>
      store %2, %6
    }
    ]] *)
Definition accumulatorProgram (resultEncoding : Attribute) : IR :=
  mkIR
    [ plainOp 10 LoadOp [2] [3] None;
      plainOp 11 ConvertLayoutOp [3] [4] None;
      plainOp 12 DotOp [0; 1; 4] [5] None;
      plainOp 13 ConvertLayoutOp [5] [6] None;
      plainOp 14 StoreOp [2; 6] [] None ]
    (list_to_map
       [ (0, tensorOf (DotOperandEncodingAttr 0)); (1, tensorOf (DotOperandEncodingAttr 1));
         (2, pointerType); (3, tensorOf (BlockedEncodingAttr 0));
         (4, tensorOf (NvidiaMmaEncodingAttr 2 0)); (5, tensorOf (NvidiaMmaEncodingAttr 2 0));
         (6, tensorOf resultEncoding) ])
    [0; 1; 2].

Definition accumulatorConvert : Operation := plainOp 13 ConvertLayoutOp [5] [6] None.

(** The accumulator program with the converted product added to itself:
    the conversion has one user, which uses it twice.

    [[
    func(%0, %1: tensor<#dot_op>, %2: ptr) {
      %3 = load %2 : tensor<#blocked0>
      %4 = convert_layout %3 : tensor<#mma>
      %5 = dot %0, %1, %4 : tensor<#mma>
      %6 = convert_layout %5 : tensor<#blocked0>
      %7 = arith.addf %6, %6 : tensor<#blocked0>
      store %2, %7
    }
    ]] *)
Definition doubledProgram : IR :=
  mkIR
    [ plainOp 10 LoadOp [2] [3] None;
      plainOp 11 ConvertLayoutOp [3] [4] None;
      plainOp 12 DotOp [0; 1; 4] [5] None;
      plainOp 13 ConvertLayoutOp [5] [6] None;
      mkOperation 14 AddFOp [6; 6] [7] [] None 0 false false true [];
      plainOp 15 StoreOp [2; 7] [] None ]
    (list_to_map
       [ (0, tensorOf (DotOperandEncodingAttr 0)); (1, tensorOf (DotOperandEncodingAttr 1));
         (2, pointerType); (3, tensorOf (BlockedEncodingAttr 0));
         (4, tensorOf (NvidiaMmaEncodingAttr 2 0)); (5, tensorOf (NvidiaMmaEncodingAttr 2 0));
         (6, tensorOf (BlockedEncodingAttr 0)); (7, tensorOf (BlockedEncodingAttr 0)) ])
    [0; 1; 2].

(** A constant behind a conversion. *)

(** [[
    func(%0: ptr) {
      %1 = arith.constant : tensor<#blocked0>
      %2 = convert_layout %1 : tensor<targetEncoding>
      store %0, %2
    }
    ]] *)
Definition constantProgram (targetEncoding : Attribute) : IR :=
  mkIR
    [ plainOp 10 ConstantOp [] [1] None;
      plainOp 11 ConvertLayoutOp [1] [2] None;
      plainOp 12 StoreOp [0; 2] [] None ]
    (list_to_map
       [ (0, pointerType); (1, tensorOf (BlockedEncodingAttr 0));
         (2, tensorOf targetEncoding) ])
    [0].

Definition constantConvert : Operation := plainOp 11 ConvertLayoutOp [1] [2] None.

(** Further oracles for the examples. *)

(** An inference that derives nothing. *)
Definition noInference (op : Operation) (e : Attribute) : option Attribute := None.

(** A backward slice for the examples: the chain of tensor definitions
    behind the root, cut at the operations [stopPropagation] names, every
    member in the encoding of the root. *)
Fixpoint chainFrom (fuel : nat) (ir : IR) (stopPropagation : option (Operation -> bool))
    (v : Value) : list Value :=
  match fuel with
  | 0 => []
  | S fuel' =>
      if isRankedTensor ir v then
        v :: match getDefiningOp ir v with
             | Some op =>
                 if match stopPropagation with Some stop => stop op | None => false end
                 then []
                 else flat_map (chainFrom fuel' ir stopPropagation) (opOperands op)
             | None => []
             end
      else []
  end.

Definition chainSlice (ir : IR) (root : Value) (rootEncoding : Attribute)
    (stopPropagation : option (Operation -> bool))
    : LogicalResult * list Value * gmap Value Attribute :=
  let slice := remove_dups (chainFrom (length (irOps ir)) ir stopPropagation root) in
  (success, slice, list_to_map ((fun v => (v, rootEncoding)) <$> slice)).

(** A [scf.while] whose "before" argument and whose results may have been
    given other encodings than its operand. *)

(** [[
    func(%0: tensor<#blocked0>, %1: ptr) {
      %20 = scf.while (%30 = %0) : tensor<resultEncoding> {
        %31 = "test" %30 : i1
        scf.condition(%31) %30
      } do {
      ^bb0(%40: tensor<resultEncoding>):
        %41 = elementwise %40 : tensor<#blocked0>
        scf.yield %41
      }
      store %1, %20
    }
    ]]
    with [%30 : tensor<beforeEncoding>]. *)
Definition whileCondition : Operation := plainOp 12 ConditionOp [31; 30] [] (Some 10).
Definition whileYield : Operation :=
  mkOperation 14 YieldOp [41] [] [] (Some 10) 1 false false false [].
Definition whileLoop : Operation :=
  mkOperation 10 WhileOp [0] [20] [[30]; [40]] None 0 false false false [].

Definition whileProgram (beforeEncoding resultEncoding : Attribute) : IR :=
  mkIR
    [ whileLoop;
      plainOp 11 (OtherOp 0) [30] [31] (Some 10);
      whileCondition;
      mkOperation 13 (OtherOp 0) [40] [41] [] (Some 10) 1 false false true [];
      whileYield;
      plainOp 15 StoreOp [1; 20] [] None ]
    (list_to_map
       [ (0, tensorOf (BlockedEncodingAttr 0)); (1, pointerType);
         (20, tensorOf resultEncoding); (30, tensorOf beforeEncoding);
         (31, ScalarType 2); (40, tensorOf resultEncoding);
         (41, tensorOf (BlockedEncodingAttr 0)) ])
    [0; 1].

(** An atomic whose operands carry other layouts than its result. *)

(** [[
    func(%0: tensor<#blocked1>, %1: tensor<#mma>) {
      %2 = atomic_rmw %0, %1 : tensor<#blocked0>
    }
    ]] *)
Definition atomicProgram : IR :=
  mkIR
    [ mkOperation 10 AtomicRMWOp [0; 1] [2] [] None 0 false true false [] ]
    (list_to_map
       [ (0, tensorOf (BlockedEncodingAttr 1)); (1, tensorOf (NvidiaMmaEncodingAttr 2 0));
         (2, tensorOf (BlockedEncodingAttr 0)) ])
    [0; 1].

Definition atomicAnchors : Layouts :=
  [ (0, mkLayoutInfo [BlockedEncodingAttr 1]);
    (1, mkLayoutInfo [NvidiaMmaEncodingAttr 2 0]);
    (2, mkLayoutInfo [BlockedEncodingAttr 0]) ].

Definition atomicLayouts : Layouts :=
  [ (0, mkLayoutInfo [BlockedEncodingAttr 1]);
    (1, mkLayoutInfo [NvidiaMmaEncodingAttr 2 0]);
    (2, mkLayoutInfo [BlockedEncodingAttr 0; NvidiaMmaEncodingAttr 2 0;
                      BlockedEncodingAttr 1]) ].

(** A reduction to a scalar. *)

(** [[
    func(%0: tensor<#blocked0>, %1: tensor<#blocked1>, %3: tensor<#mma>,
         %4: tensor<#blocked1>) {
      %2 = "tt.reduce" %0, %1 : f32
    }
    ]] *)
Definition scalarReduce : Operation := plainOp 10 ReduceOp [0; 1] [2] None.

Definition reduceProgram : IR :=
  mkIR
    [ scalarReduce ]
    (list_to_map
       [ (0, tensorOf (BlockedEncodingAttr 0)); (1, tensorOf (BlockedEncodingAttr 1));
         (2, ScalarType 3); (3, tensorOf (NvidiaMmaEncodingAttr 2 0));
         (4, tensorOf (BlockedEncodingAttr 1)) ])
    [0; 1; 3; 4].

(** Both operands of the reduction mapped, the second one first in the map:
    [%0] to [#blocked1], rewritten as [%4], and [%1] to [#mma], rewritten as
    [%3]. *)
Definition reduceLayouts : Layouts :=
  [ (1, mkLayoutInfo [NvidiaMmaEncodingAttr 2 0]); (0, mkLayoutInfo [BlockedEncodingAttr 1]) ].

Definition reduceMapping : RewriteMapping :=
  {[ (1, NvidiaMmaEncodingAttr 2 0) := 3; (0, BlockedEncodingAttr 1) := 4 ]}.

(** An extension between an expensive load and a conversion. *)

(** [[
    func(%0: ptr) {
      %1 = load %0 : tensor<#blocked0>
      %2 = arith.extf %1 : tensor<#blocked0>
      %3 = elementwise %2 : tensor<#blocked0>
      %4 = convert_layout %3 : tensor<#blocked1>
      store %0, %4
    }
    ]] *)
Definition extConvert : Operation := plainOp 13 ConvertLayoutOp [3] [4] None.

Definition extProgram : IR :=
  mkIR
    [ plainOp 10 LoadOp [0] [1] None;
      mkOperation 11 ExtFOp [1] [2] [] None 0 false false true [];
      mkOperation 12 (OtherOp 0) [2] [3] [] None 0 false false true [];
      extConvert;
      plainOp 14 StoreOp [0; 4] [] None ]
    (list_to_map
       [ (0, pointerType); (1, tensorOf (BlockedEncodingAttr 0));
         (2, tensorOf (BlockedEncodingAttr 0)); (3, tensorOf (BlockedEncodingAttr 0));
         (4, tensorOf (BlockedEncodingAttr 1)) ])
    [0].

(** A [canFoldIntoConversion] that folds nothing. *)
Definition neverFolds (ir : IR) (op : Operation) (encoding : Attribute) : bool := false.

(** The loop of the loop program, its body and the map once resolved. *)
Definition loopFor : Operation :=
  mkOperation 11 ForOp [1; 2; 3; 0] [20] [[30; 31]] None 0 false false false [].

Definition loopBody : Operation :=
  mkOperation 12 (OtherOp 0) [31; 5] [32] [] (Some 11) 0 false false true [].

Definition loopResolved : Layouts := resolveConflicts loopProgram loopLayouts.

(** A function without anchors. *)

(** [[
    func(%0: i1, %1: index) {
      %2 = splat %1 : tensor<#blocked0>
      %3 = scf.if %0 -> tensor<#blocked0> {
        %4 = elementwise %2
        scf.yield %4
      } else {
        scf.yield %2
      }
    }
    ]] *)
Definition selectProgram : IR :=
  mkIR
    [ plainOp 10 SplatOp [1] [2] None;
      mkOperation 11 IfOp [0] [3] [[]; []] None 0 false false false [];
      mkOperation 12 (OtherOp 0) [2] [4] [] (Some 11) 0 false false true [];
      plainOp 13 YieldOp [4] [] (Some 11);
      mkOperation 14 YieldOp [2] [] [] (Some 11) 1 false false false [] ]
    (list_to_map
       [ (0, ScalarType 2); (1, indexType); (2, tensorOf (BlockedEncodingAttr 0));
         (3, tensorOf (BlockedEncodingAttr 0)); (4, tensorOf (BlockedEncodingAttr 0)) ])
    [0; 1].

(** A conversion right behind an extension of a loaded value.

    [[
    func(%0: ptr) {
      %1 = load %0 : tensor<#blocked0>
      %2 = arith.extf %1 : tensor<#blocked0>
      %3 = convert_layout %2 : tensor<#blocked1>
      store %0, %3
    }
    ]] *)
Definition hoistConvert : Operation := plainOp 12 ConvertLayoutOp [2] [3] None.

Definition hoistProgram : IR :=
  mkIR
    [ plainOp 10 LoadOp [0] [1] None;
      mkOperation 11 ExtFOp [1] [2] [] None 0 false false true [];
      hoistConvert;
      plainOp 13 StoreOp [0; 3] [] None ]
    (list_to_map
       [ (0, pointerType); (1, tensorOf (BlockedEncodingAttr 0));
         (2, tensorOf (BlockedEncodingAttr 0)); (3, tensorOf (BlockedEncodingAttr 1)) ])
    [0].

(** * Properties *)

(** ** The value-layout map *)

Lemma layouts_find_Some_elem v info (layouts : Layouts) :
  layouts_find v layouts = Some info -> (v, info) ∈ layouts.
Proof.
  induction layouts as [|[k i] rest IH]; simpl; [done|].
  case_bool_decide; intros Hfind.
  - simplify_eq. left.
  - right. auto.
Qed.

Lemma layouts_find_None v (layouts : Layouts) :
  layouts_find v layouts = None <-> v ∉ layouts.*1.
Proof.
  induction layouts as [|[k i] rest IH]; simpl.
  - split; [intros _; apply not_elem_of_nil|done].
  - case_bool_decide as Hkv; rewrite not_elem_of_cons; simpl.
    + split; [done|]. intros [? _]. congruence.
    + rewrite IH. split; [intros ?; split; [congruence|done]|by intros [_ ?]].
Qed.

Lemma layouts_find_is_Some v (layouts : Layouts) :
  is_Some (layouts_find v layouts) <-> v ∈ layouts.*1.
Proof.
  destruct (layouts_find v layouts) eqn:E.
  - split; [|eauto]. intros _.
    apply layouts_find_Some_elem in E. apply list_elem_of_fmap. by exists (v, l).
  - split; [by intros [? ?]|]. intros ?. by apply layouts_find_None in E.
Qed.

Lemma layouts_find_map (f : Value * LayoutInfo -> Value * LayoutInfo) v (layouts : Layouts) :
  (forall entry, (f entry).1 = entry.1) ->
  layouts_find v (map f layouts) =
  (fun info => (f (v, info)).2) <$> layouts_find v layouts.
Proof.
  intros Hf. induction layouts as [|[k i] rest IH]; simpl; [done|].
  pose proof (Hf (k, i)) as Hk. destruct (f (k, i)) as [k' i'] eqn:E.
  simpl in Hk. subst k'. simpl.
  case_bool_decide as Hkv; [|done]. simpl. by rewrite <- Hkv, E.
Qed.

(** ** Conflict resolution *)

Lemma resolveEntry_key ir entry : (resolveEntry ir entry).1 = entry.1.
Proof.
  destruct entry as [v info]. unfold resolveEntry.
  destruct (length (encodings info) <=? 1); [done|].
  by destruct (encodings info).
Qed.

Lemma layouts_find_resolveConflicts ir v layouts :
  layouts_find v (resolveConflicts ir layouts) =
  (fun info => (resolveEntry ir (v, info)).2) <$> layouts_find v layouts.
Proof. apply layouts_find_map, resolveEntry_key. Qed.

Lemma pickEncoding_find memoryOp first candidates :
  pickEncoding memoryOp first candidates =
  default first
    (List.find (if memoryOp then isaBlockedEncodingAttr else isaNvidiaMmaEncodingAttr)
       candidates).
Proof.
  induction candidates as [|e rest IH]; simpl; [done|].
  destruct memoryOp; simpl in *;
    [destruct (isaBlockedEncodingAttr e)|destruct (isaNvidiaMmaEncodingAttr e)];
    simpl; done.
Qed.

Lemma pickEncoding_elem memoryOp first candidates :
  pickEncoding memoryOp first candidates = first ∨
  pickEncoding memoryOp first candidates ∈ candidates.
Proof.
  induction candidates as [|e rest IH]; simpl; [by left|].
  destruct (_ || _).
  - right. left.
  - destruct IH; [by left|right; by right].
Qed.

Lemma resolveEntry_several ir v info :
  1 < length (encodings info) ->
  exists first rest,
    encodings info = first :: rest ∧
    resolveEntry ir (v, info) =
    (v, mkLayoutInfo [pickEncoding (isLoadOrStore ir v) first (encodings info)]).
Proof.
  intros Hlen. unfold resolveEntry.
  destruct (Nat.leb_spec (length (encodings info)) 1); [lia|].
  destruct (encodings info) as [|first rest] eqn:E; [simpl in *; lia|].
  by exists first, rest.
Qed.

(** C4. When a value has several candidates, [resolveConflicts] keeps exactly
    the encoding the spec's rule names: the first blocked candidate if a
    load, store or atomic defines the value, otherwise the first MMA
    candidate, and in either case the first candidate when the preferred
    family is absent. *)
Theorem resolveConflicts_follows_spec_rule ir (layouts : Layouts) v info :
  layouts_find v layouts = Some info ->
  1 < length (encodings info) ->
  exists e,
    specResolvedEncoding (isLoadOrStore ir v) (encodings info) = Some e ∧
    layouts_find v (resolveConflicts ir layouts) = Some (mkLayoutInfo [e]).
Proof.
  intros Hfind Hlen.
  destruct (resolveEntry_several ir v info Hlen) as (first & rest & Henc & Hres).
  exists (pickEncoding (isLoadOrStore ir v) first (encodings info)). split.
  - rewrite pickEncoding_find. unfold specResolvedEncoding.
    destruct (List.find _ (encodings info)); [done|]. by rewrite Henc.
  - rewrite layouts_find_resolveConflicts, Hfind. cbn -[resolveEntry]. by rewrite Hres.
Qed.

(** C10. The encoding [resolveConflicts] keeps for a value with several
    candidates is one of these candidates, and no entry ever gains an
    encoding it did not hold before the resolution. *)
Theorem resolveConflicts_keeps_a_candidate ir (layouts : Layouts) v info :
  layouts_find v layouts = Some info ->
  (1 < length (encodings info) ->
   exists e, layouts_find v (resolveConflicts ir layouts) = Some (mkLayoutInfo [e]) ∧
             e ∈ encodings info) ∧
  (forall info' e, layouts_find v (resolveConflicts ir layouts) = Some info' ->
                   e ∈ encodings info' -> e ∈ encodings info).
Proof.
  intros Hfind.
  assert (Hone : 1 < length (encodings info) ->
    exists e, resolveEntry ir (v, info) = (v, mkLayoutInfo [e]) ∧ e ∈ encodings info).
  { intros Hlen.
    destruct (resolveEntry_several ir v info Hlen) as (first & rest & Henc & Hres).
    eexists. split; [exact Hres|].
    destruct (pickEncoding_elem (isLoadOrStore ir v) first (encodings info)) as [->|H];
      [rewrite Henc; left|done]. }
  rewrite layouts_find_resolveConflicts, Hfind. cbn -[resolveEntry]. split.
  - intros Hlen. destruct (Hone Hlen) as (e & -> & He). by exists e.
  - intros info' e Hinfo' He.
    assert (info' = (resolveEntry ir (v, info)).2) as -> by congruence.
    destruct (decide (1 < length (encodings info))) as [Hlen|Hlen].
    + destruct (Hone Hlen) as (e' & Heq & He'). rewrite Heq in He.
      apply list_elem_of_singleton in He. by subst.
    + unfold resolveEntry in He.
      destruct (Nat.leb_spec (length (encodings info)) 1); [done|lia].
Qed.

(** ** Insertion of a candidate *)

Lemma layouts_find_app v (l1 l2 : Layouts) :
  layouts_find v (l1 ++ l2) =
  match layouts_find v l1 with Some info => Some info | None => layouts_find v l2 end.
Proof.
  induction l1 as [|[k i] rest IH]; simpl; [done|]. by case_bool_decide.
Qed.

Lemma layouts_set_keys v info (layouts : Layouts) :
  (layouts_set v info layouts).*1 = layouts.*1.
Proof.
  induction layouts as [|[k i] rest IH]; simpl; [done|].
  case_bool_decide; csimpl; by rewrite ?IH.
Qed.

Lemma layouts_set_find v info v' (layouts : Layouts) :
  layouts_find v' (layouts_set v info layouts) =
  if bool_decide (v' = v) then (fun _ => info) <$> layouts_find v layouts
  else layouts_find v' layouts.
Proof.
  induction layouts as [|[k i] rest IH]; simpl.
  - by case_bool_decide.
  - destruct (decide (k = v)) as [->|Hk]; destruct (decide (v' = v)) as [->|Hv'];
      rewrite ?(bool_decide_eq_true_2 (v = v)), ?(bool_decide_eq_false_2 (k = v)),
        ?(bool_decide_eq_false_2 (v' = v)) by done; simpl;
      rewrite ?(bool_decide_eq_true_2 (v = v)), ?(bool_decide_eq_false_2 (k = v)),
        ?(bool_decide_eq_false_2 (v = v')) by done; simpl; [done|done| |].
    + by rewrite IH, bool_decide_eq_true_2.
    + by rewrite IH, (bool_decide_eq_false_2 (v' = v)).
Qed.

Lemma layouts_set_total v info info0 (layouts : Layouts) :
  layouts_find v layouts = Some info0 ->
  totalCandidates (layouts_set v info layouts) + length (encodings info0) =
  totalCandidates layouts + length (encodings info).
Proof.
  unfold totalCandidates.
  induction layouts as [|[k i] rest IH]; simpl; [done|].
  case_bool_decide; simpl; intros Hfind.
  - simplify_eq. lia.
  - specialize (IH Hfind). lia.
Qed.

Lemma layouts_set_Forall (P : Value * LayoutInfo -> Prop) v info (layouts : Layouts) :
  Forall P layouts -> P (v, info) -> Forall P (layouts_set v info layouts).
Proof.
  intros Hall Hnew. induction Hall as [|[k i] rest Hk Hrest IH]; simpl; [done|].
  case_bool_decide; subst; constructor; auto.
Qed.

Lemma layouts_set_app_fresh v info info' (layouts : Layouts) :
  layouts_find v layouts = None ->
  layouts_set v info (layouts ++ [(v, info')]) = layouts ++ [(v, info)].
Proof.
  induction layouts as [|[k i] rest IH]; simpl.
  - by rewrite bool_decide_eq_true_2.
  - case_bool_decide; [done|]. intros Hfind. by rewrite IH.
Qed.

Lemma insertEncoding_found v e info (layouts : Layouts) :
  layouts_find v layouts = Some info ->
  insertEncoding v e layouts =
  ((SetVector_insert e (encodings info)).1,
   layouts_set v (mkLayoutInfo (SetVector_insert e (encodings info)).2) layouts).
Proof.
  intros Hfind. unfold insertEncoding, layouts_index. rewrite Hfind.
  by destruct (SetVector_insert e (encodings info)).
Qed.

Lemma insertEncoding_fresh v e (layouts : Layouts) :
  layouts_find v layouts = None ->
  insertEncoding v e layouts = (true, layouts ++ [(v, mkLayoutInfo [e])]).
Proof.
  intros Hfind. unfold insertEncoding, layouts_index. rewrite Hfind.
  unfold SetVector_insert. simpl. by rewrite layouts_set_app_fresh.
Qed.

Lemma SetVector_insert_elem (e e' : Attribute) s :
  e' ∈ (SetVector_insert e s).2 <-> e' ∈ s ∨ e' = e.
Proof.
  unfold SetVector_insert. case_bool_decide; simpl.
  - split; [by left|]. intros [?| ->]; done.
  - rewrite elem_of_app, list_elem_of_singleton. done.
Qed.

Lemma SetVector_insert_length (e : Attribute) s :
  length (SetVector_insert e s).2 =
  length s + (if (SetVector_insert e s).1 then 1 else 0).
Proof.
  unfold SetVector_insert. case_bool_decide; simpl; [lia|].
  rewrite length_app. simpl. lia.
Qed.

Lemma SetVector_insert_NoDup (e : Attribute) s :
  NoDup s -> NoDup (SetVector_insert e s).2.
Proof.
  unfold SetVector_insert. case_bool_decide; simpl; [done|].
  intros Hs. apply NoDup_app. split_and!; [done| |apply NoDup_singleton].
  intros x Hx Hx'. apply list_elem_of_singleton in Hx'. by subst.
Qed.

(** After an insertion the value holds the candidate, and every candidate
    held before is still held. *)
Lemma insertEncoding_candidates v e (layouts : Layouts) v' e' :
  e' ∈ candidates (insertEncoding v e layouts).2 v' <->
  e' ∈ candidates layouts v' ∨ (v' = v ∧ e' = e).
Proof.
  unfold candidates. destruct (layouts_find v layouts) as [info|] eqn:Hfind.
  - rewrite (insertEncoding_found _ _ _ _ Hfind). simpl.
    rewrite layouts_set_find. case_bool_decide as Hv; simpl.
    + subst v'. rewrite Hfind. simpl. rewrite SetVector_insert_elem.
      split; [intros [?|?]; [by left|by right]|intros [?|[_ ?]]; [by left|by right]].
    + split; [by left|]. intros [?|[? _]]; [done|congruence].
  - rewrite (insertEncoding_fresh _ _ _ Hfind). simpl.
    rewrite layouts_find_app. destruct (layouts_find v' layouts) as [info'|] eqn:Hfind'.
    + simpl. split; [by left|]. intros [?|[-> _]]; [done|congruence].
    + simpl. case_bool_decide as Hv; simpl.
      * subst v'. rewrite list_elem_of_singleton. split; [by right|].
        intros [H|[_ ?]]; [by apply elem_of_nil in H|done].
      * split; [intros H; by apply elem_of_nil in H|]. intros [H|[? _]]; [done|congruence].
Qed.

(** An insertion reports [true] exactly when the candidate is new. *)
Lemma insertEncoding_isNew v e (layouts : Layouts) :
  (insertEncoding v e layouts).1 = negb (bool_decide (e ∈ candidates layouts v)).
Proof.
  unfold candidates. destruct (layouts_find v layouts) as [info|] eqn:Hfind.
  - rewrite (insertEncoding_found _ _ _ _ Hfind). simpl.
    unfold SetVector_insert. by case_bool_decide.
  - by rewrite (insertEncoding_fresh _ _ _ Hfind).
Qed.

Lemma insertEncoding_total v e (layouts : Layouts) :
  totalCandidates (insertEncoding v e layouts).2 =
  totalCandidates layouts + (if (insertEncoding v e layouts).1 then 1 else 0).
Proof.
  destruct (layouts_find v layouts) as [info|] eqn:Hfind.
  - rewrite (insertEncoding_found _ _ _ _ Hfind). simpl.
    pose proof (layouts_set_total v
      (mkLayoutInfo (SetVector_insert e (encodings info)).2) info layouts Hfind) as Ht.
    simpl in Ht. rewrite SetVector_insert_length in Ht. lia.
  - rewrite (insertEncoding_fresh _ _ _ Hfind). simpl.
    unfold totalCandidates. rewrite sum_list_with_app. simpl. lia.
Qed.

Lemma insertEncoding_keys v e (layouts : Layouts) v' :
  v' ∈ (insertEncoding v e layouts).2.*1 <-> v' ∈ layouts.*1 ∨ v' = v.
Proof.
  destruct (layouts_find v layouts) as [info|] eqn:Hfind.
  - rewrite (insertEncoding_found _ _ _ _ Hfind). simpl. rewrite layouts_set_keys.
    split; [by left|]. intros [?| ->]; [done|].
    apply layouts_find_is_Some. by rewrite Hfind.
  - rewrite (insertEncoding_fresh _ _ _ Hfind). simpl.
    rewrite fmap_app, elem_of_app. simpl. by rewrite list_elem_of_singleton.
Qed.

Lemma insertEncoding_keys_NoDup v e (layouts : Layouts) :
  NoDup layouts.*1 -> NoDup (insertEncoding v e layouts).2.*1.
Proof.
  intros Hnd. destruct (layouts_find v layouts) as [info|] eqn:Hfind.
  - rewrite (insertEncoding_found _ _ _ _ Hfind). simpl. by rewrite layouts_set_keys.
  - rewrite (insertEncoding_fresh _ _ _ Hfind). simpl. rewrite fmap_app. simpl.
    apply NoDup_app. split_and!; [done| |apply NoDup_singleton].
    intros x Hx Hx'. apply list_elem_of_singleton in Hx'. subst.
    by apply layouts_find_None in Hfind.
Qed.

(** A property of candidate sets that survives the insertion of [e] holds of
    every entry after the insertion. *)
Lemma insertEncoding_Forall (P : list Attribute -> Prop) v e (layouts : Layouts) :
  Forall (fun entry => P (encodings entry.2)) layouts ->
  (forall s, P s -> P (SetVector_insert e s).2) ->
  P [e] ->
  Forall (fun entry => P (encodings entry.2)) (insertEncoding v e layouts).2.
Proof.
  intros Hall Hins Hone. destruct (layouts_find v layouts) as [info|] eqn:Hfind.
  - rewrite (insertEncoding_found _ _ _ _ Hfind). simpl.
    apply layouts_set_Forall; [done|]. simpl. apply Hins.
    apply layouts_find_Some_elem in Hfind.
    by apply (proj1 (Forall_forall _ _) Hall (v, info)).
  - rewrite (insertEncoding_fresh _ _ _ Hfind). simpl.
    apply Forall_app. split; [done|]. by constructor.
Qed.

(** ** Sequences of insertions *)

Lemma applyInserts_app ins1 ins2 layouts :
  applyInserts (ins1 ++ ins2) layouts = applyInserts ins2 (applyInserts ins1 layouts).
Proof. apply fold_left_app. Qed.

Lemma applyInserts_candidates inserts layouts v e :
  e ∈ candidates (applyInserts inserts layouts) v <->
  e ∈ candidates layouts v ∨ (v, e) ∈ inserts.
Proof.
  revert layouts. induction inserts as [|[v' e'] rest IH]; intros layouts; simpl.
  - rewrite elem_of_nil. tauto.
  - rewrite IH, insertEncoding_candidates, elem_of_cons. simpl.
    split.
    + intros [[?|[-> ->]]|?]; auto.
    + intros [?|[[= -> ->]|?]]; auto.
Qed.

Lemma applyInserts_total inserts layouts :
  totalCandidates layouts <= totalCandidates (applyInserts inserts layouts).
Proof.
  revert layouts. induction inserts as [|[v e] rest IH]; intros layouts; simpl; [done|].
  etrans; [|apply IH]. rewrite insertEncoding_total. lia.
Qed.

Lemma applyInserts_keys inserts layouts v :
  v ∈ (applyInserts inserts layouts).*1 <-> v ∈ layouts.*1 ∨ v ∈ inserts.*1.
Proof.
  revert layouts. induction inserts as [|[v' e'] rest IH]; intros layouts; simpl.
  - rewrite elem_of_nil. tauto.
  - rewrite IH, insertEncoding_keys. csimpl. rewrite elem_of_cons. tauto.
Qed.

Lemma applyInserts_keys_NoDup inserts layouts :
  NoDup layouts.*1 -> NoDup (applyInserts inserts layouts).*1.
Proof.
  revert layouts. induction inserts as [|[v e] rest IH]; intros layouts; simpl; [done|].
  intros Hnd. by apply IH, insertEncoding_keys_NoDup.
Qed.

Lemma applyInserts_Forall (P : list Attribute -> Prop) inserts layouts :
  Forall (fun entry => P (encodings entry.2)) layouts ->
  Forall (fun p => (forall s, P s -> P (SetVector_insert p.2 s).2) ∧ P [p.2]) inserts ->
  Forall (fun entry => P (encodings entry.2)) (applyInserts inserts layouts).
Proof.
  revert layouts. induction inserts as [|[v e] rest IH]; intros layouts; simpl; [done|].
  intros Hall Hins. apply Forall_cons in Hins as [[Hstep Hone] Hrest].
  apply IH; [|done]. by apply insertEncoding_Forall.
Qed.

Lemma propagates_refl Q st : propagates Q st st.
Proof.
  exists [], []. split_and!; simpl; [done|done|by rewrite app_nil_r|lia|].
  intros v Hv. by apply elem_of_nil in Hv.
Qed.

Lemma propagates_trans Q st1 st2 st3 :
  propagates Q st1 st2 -> propagates Q st2 st3 -> propagates Q st1 st3.
Proof.
  intros (ins1 & ex1 & HL1 & HQ1 & Hc1 & Ht1 & Hk1) (ins2 & ex2 & HL2 & HQ2 & Hc2 & Ht2 & Hk2).
  exists (ins1 ++ ins2), (ex1 ++ ex2). split_and!.
  - by rewrite applyInserts_app, <- HL1.
  - by apply Forall_app.
  - by rewrite Hc2, Hc1, app_assoc.
  - rewrite length_app. lia.
  - intros v [Hv|Hv]%elem_of_app; [|by apply Hk2].
    rewrite HL2. apply applyInserts_keys. left. by apply Hk1.
Qed.

Lemma propagates_weaken (Q Q' : Value -> Attribute -> Prop) st st' :
  (forall v e, Q v e -> Q' v e) -> propagates Q st st' -> propagates Q' st st'.
Proof.
  intros HQ (ins & ex & HL & Hins & Hrest). exists ins, ex. split_and!; try tauto.
  eapply Forall_impl; [exact Hins|]. intros [v e]; simpl. apply HQ.
Qed.

(** ** What [setEncoding] and [propagateToUsers] do to the map *)

Lemma setEncodingSteps_spec op value encs b layouts :
  exists inserts,
    (fold_left (setEncodingStep op value) encs (b, layouts)).2 = applyInserts inserts layouts ∧
    Forall (fun p => p.1 = value ∧ exists e, e ∈ encs ∧ dstEncodingOf op e = Some p.2) inserts ∧
    (forall e d, e ∈ encs -> dstEncodingOf op e = Some d -> (value, d) ∈ inserts) ∧
    ((fold_left (setEncodingStep op value) encs (b, layouts)).1 = true ->
     b = true ∨
     (totalCandidates layouts <
        totalCandidates (fold_left (setEncodingStep op value) encs (b, layouts)).2 ∧
      value ∈ (fold_left (setEncodingStep op value) encs (b, layouts)).2.*1)).
Proof.
  revert b layouts. induction encs as [|e rest IH]; intros b layouts; simpl.
  - exists []. split_and!; [done|done| |by left].
    intros e d He. by apply elem_of_nil in He.
  - destruct (dstEncodingOf op e) as [d|] eqn:Hdst.
    + destruct (insertEncoding value d layouts) as [isNew layouts1] eqn:Hins.
      destruct (IH (b || isNew) layouts1) as (ins & HL & HQ & Hfwd & Hchg).
      assert (layouts1 = (insertEncoding value d layouts).2) as HL1 by by rewrite Hins.
      exists ((value, d) :: ins). split_and!.
      * simpl. by rewrite <- HL1.
      * constructor.
        -- simpl. split; [done|]. exists e. split; [left|done].
        -- eapply Forall_impl; [exact HQ|]. intros [v' d'] [? (e' & ? & ?)].
           split; [done|]. exists e'. split; [by right|done].
      * intros e' d' [->|He']%elem_of_cons Hd'.
        -- rewrite Hdst in Hd'. injection Hd' as ->. left.
        -- right. by eapply Hfwd.
      * intros Hr. destruct (Hchg Hr) as [Hb|[Hlt Hkey]].
        -- apply orb_true_iff in Hb as [?|HisNew]; [by left|]. right.
           pose proof (insertEncoding_total value d layouts) as Ht.
           rewrite Hins in Ht. simpl in Ht. rewrite HisNew in Ht.
           pose proof (applyInserts_total ins layouts1) as Hmono. rewrite <- HL in Hmono.
           split; [lia|]. rewrite HL. apply applyInserts_keys. left.
           rewrite HL1. apply insertEncoding_keys. by right.
        -- right. split; [|done].
           pose proof (insertEncoding_total value d layouts) as Ht.
           rewrite Hins in Ht. simpl in Ht. lia.
    + destruct (IH b layouts) as (ins & HL & HQ & Hfwd & Hchg).
      exists ins. split_and!; [done| | |done].
      * eapply Forall_impl; [exact HQ|]. intros [v' d'] [? (e' & ? & ?)].
        split; [done|]. exists e'. split; [by right|done].
      * intros e' d' [->|He']%elem_of_cons Hd'; [congruence|by eapply Hfwd].
Qed.

Lemma setEncodingValue_propagates ir info op st value :
  propagates (derivedFor ir info op) st (setEncodingValue ir info op st value).
Proof.
  unfold setEncodingValue. destruct (isRankedTensor ir value) eqn:Htensor; simpl;
    [|apply propagates_refl].
  destruct (setEncodingSteps_spec op value (encodings info) false st.1)
    as (ins & HL & HQ & _ & Hchg).
  destruct (fold_left _ _ _) as [hasChanged layouts'] eqn:Hfold. simpl in *.
  exists ins, (if hasChanged then [value] else []). split_and!; simpl.
  - done.
  - eapply Forall_impl; [exact HQ|]. intros [v d] [Hv He]. simpl in *. subst v.
    by split.
  - destruct hasChanged; [done|by rewrite app_nil_r].
  - destruct hasChanged; simpl.
    + destruct (Hchg eq_refl) as [?|[? _]]; [done|lia].
    + rewrite HL. apply applyInserts_total.
  - destruct hasChanged; intros v Hv.
    + apply list_elem_of_singleton in Hv as ->.
      destruct (Hchg eq_refl) as [?|[_ ?]]; done.
    + by apply elem_of_nil in Hv.
Qed.

Lemma setEncodingValue_inserts ir info op st value e d :
  isRankedTensor ir value = true ->
  e ∈ encodings info -> dstEncodingOf op e = Some d ->
  d ∈ candidates (setEncodingValue ir info op st value).1 value.
Proof.
  intros Htensor He Hd. unfold setEncodingValue. rewrite Htensor. simpl.
  destruct (setEncodingSteps_spec op value (encodings info) false st.1)
    as (ins & HL & _ & Hfwd & _).
  destruct (fold_left _ _ _) as [hasChanged layouts'] eqn:Hfold. simpl in *.
  rewrite HL. apply applyInserts_candidates. right. by eapply Hfwd.
Qed.

Lemma propagates_candidates Q st st' v e :
  propagates Q st st' -> e ∈ candidates st.1 v -> e ∈ candidates st'.1 v.
Proof.
  intros (ins & ex & HL & _) He. rewrite HL. apply applyInserts_candidates. by left.
Qed.

Lemma setEncoding_propagates ir values info st op :
  propagates (derivedFor ir info op) st (setEncoding ir values info st op).
Proof.
  unfold setEncoding. revert st. induction values as [|value rest IH]; intros st; simpl.
  - apply propagates_refl.
  - eapply propagates_trans; [apply setEncodingValue_propagates|apply IH].
Qed.

(** Every tensor value handed to [setEncoding] ends up holding the
    destination encoding of every candidate of [info]. *)
Lemma setEncoding_inserts ir values info st op value e d :
  value ∈ values -> isRankedTensor ir value = true ->
  e ∈ encodings info -> dstEncodingOf op e = Some d ->
  d ∈ candidates (setEncoding ir values info st op).1 value.
Proof.
  intros Hvalue Htensor He Hd. unfold setEncoding. revert st.
  induction values as [|v rest IH]; intros st; simpl.
  - by apply elem_of_nil in Hvalue.
  - apply elem_of_cons in Hvalue as [->|Hrest].
    + eapply (propagates_candidates _ _ _ _ _ (setEncoding_propagates ir rest info _ op)).
      by eapply setEncodingValue_inserts.
    + by apply IH.
Qed.

Lemma propagateToUse_propagates ir info use st st' :
  propagateToUse ir info use st = Some st' -> propagates (derivedFrom ir info) st st'.
Proof.
  assert (Hset : forall values op,
    propagates (derivedFrom ir info) st (setEncoding ir values info st op)).
  { intros values op. eapply propagates_weaken; [|apply setEncoding_propagates].
    intros v d ?. by exists op. }
  destruct use as [user n]. unfold propagateToUse.
  destruct (opKind user); intros Hst;
    repeat (simplify_option_eq;
            try match goal with
                | H : context [match opKind ?x with _ => _ end] |- _ =>
                    destruct (opKind x) eqn:?
                | H : context [if ?b then _ else _] |- _ => destruct b eqn:?
                end);
    try apply Hset; try apply (Hset [_; _]); try apply (Hset [_]);
    try apply propagates_refl.
Qed.

Lemma propagateToUses_propagates ir info uses st st' :
  propagateToUses ir info uses st = Some st' -> propagates (derivedFrom ir info) st st'.
Proof.
  revert st. induction uses as [|use rest IH]; intros st; simpl.
  - intros [= <-]. apply propagates_refl.
  - destruct (propagateToUse ir info use st) as [st1|] eqn:Huse; simpl; [|done].
    intros Hrest. eapply propagates_trans; [by eapply propagateToUse_propagates|by apply IH].
Qed.

(** ** One turn of the work loop *)

Lemma layouts_index_present v (layouts : Layouts) :
  v ∈ layouts.*1 ->
  layouts_index v layouts = (mkLayoutInfo (candidates layouts v), layouts).
Proof.
  intros Hv. apply layouts_find_is_Some in Hv as [info Hinfo].
  unfold layouts_index, candidates. rewrite Hinfo. by destruct info.
Qed.

Lemma layouts_index_info v (layouts : Layouts) :
  encodings (layouts_index v layouts).1 = candidates layouts v.
Proof.
  unfold layouts_index, candidates. by destruct (layouts_find v layouts).
Qed.

Lemma layouts_index_candidates v (layouts : Layouts) v' :
  candidates (layouts_index v layouts).2 v' = candidates layouts v'.
Proof.
  unfold layouts_index, candidates.
  destruct (layouts_find v layouts) eqn:Hfind; [done|]. simpl.
  rewrite layouts_find_app. destruct (layouts_find v' layouts) eqn:Hfind'; [done|].
  simpl. by case_bool_decide.
Qed.

Lemma layouts_index_total v (layouts : Layouts) :
  totalCandidates (layouts_index v layouts).2 = totalCandidates layouts.
Proof.
  unfold layouts_index, totalCandidates.
  destruct (layouts_find v layouts); [done|]. simpl.
  rewrite sum_list_with_app. simpl. lia.
Qed.

Lemma propagateStep_inv ir st st' :
  propagateStep ir st = Some (Finished st') ->
  exists currentValue queue changed,
    st.1 = currentValue :: queue ∧
    propagateToUsers ir currentValue (layouts_index currentValue st.2).1
      (layouts_index currentValue st.2).2 = Some (st'.2, changed) ∧
    st'.1 = pushAll changed queue.
Proof.
  unfold propagateStep. destruct st as [[|currentValue queue] layouts]; simpl; [done|].
  destruct (layouts_index currentValue layouts) as [info layouts1] eqn:Hindex. simpl.
  destruct (propagateToUsers ir currentValue info layouts1) as [[layouts2 changed]|] eqn:Hp;
    [|done].
  intros [= <-]. exists currentValue, queue, changed. rewrite Hindex. simpl. auto.
Qed.

(** What a turn that goes on does: the insertions are derived from the
    candidates of the popped value, and every pushed value is paid for. *)
Lemma propagateStep_propagates ir st st' :
  propagateStep ir st = Some (Finished st') ->
  exists currentValue queue changed inserts,
    st.1 = currentValue :: queue ∧
    st'.1 = pushAll changed queue ∧
    st'.2 = applyInserts inserts (layouts_index currentValue st.2).2 ∧
    Forall (fun p => derivedFrom ir (mkLayoutInfo (candidates st.2 currentValue)) p.1 p.2)
      inserts ∧
    length changed + totalCandidates st.2 <= totalCandidates st'.2 ∧
    (forall v, v ∈ changed -> v ∈ st'.2.*1).
Proof.
  intros (currentValue & queue & changed & Hq & Hp & Hq')%propagateStep_inv.
  apply propagateToUses_propagates in Hp as (ins & ex & HL & HQ & Hc & Ht & Hk).
  simpl in *. subst ex. rewrite layouts_index_total in Ht.
  exists currentValue, queue, changed, ins. split_and!; try done.
  eapply Forall_impl; [exact HQ|]. intros [v d] (op & Htensor & e & He & Hd).
  exists op. split; [done|]. exists e. split; [|done].
  simpl. by rewrite <- layouts_index_info.
Qed.



Lemma SetVector_insert_nonempty (e : Attribute) s : (SetVector_insert e s).2 ≠ [].
Proof.
  intros Hnil. assert (e ∈ (SetVector_insert e s).2) as He.
  { apply SetVector_insert_elem. by right. }
  rewrite Hnil in He. by apply elem_of_nil in He.
Qed.

Lemma dstEncodingOf_closed U op e d :
  closedUnder U -> U e -> dstEncodingOf op e = Some d -> U d.
Proof.
  intros Hclosed He. unfold dstEncodingOf. case_bool_decide.
  - by intros [= <-].
  - by apply Hclosed.
Qed.

Lemma stateOk_candidates U ir st v e :
  stateOk U ir st -> e ∈ candidates st.2 v -> U e.
Proof.
  intros (_ & _ & _ & Hall) He. unfold candidates in He.
  destruct (layouts_find v st.2) as [info|] eqn:Hfind; simpl in He;
    [|by apply elem_of_nil in He].
  apply layouts_find_Some_elem in Hfind.
  apply (proj1 (Forall_forall _ _) Hall) in Hfind as (_ & _ & HU). by apply HU.
Qed.

Lemma propagateStep_stateOk U ir st st' :
  closedUnder U -> stateOk U ir st ->
  propagateStep ir st = Some (Finished st') -> stateOk U ir st'.
Proof.
  intros Hclosed Hok Hstep.
  destruct (propagateStep_propagates ir st st' Hstep)
    as (cur & queue & changed & ins & Hq & Hq' & HL & HQ & _ & Hk).
  pose proof Hok as (Hqueue & Hnd & Htensor & Hall).
  assert (cur ∈ st.2.*1) as Hcur by (apply Hqueue; rewrite Hq; left).
  rewrite layouts_index_present in HL by done. simpl in HL.
  split_and!.
  - intros v. rewrite Hq'. unfold pushAll.
    rewrite elem_of_app, elem_of_reverse. intros [Hv|Hv]; [by apply Hk|].
    rewrite HL. apply applyInserts_keys. left. apply Hqueue. rewrite Hq. by right.
  - rewrite HL. by apply applyInserts_keys_NoDup.
  - intros v. rewrite HL. intros [Hv|Hv]%applyInserts_keys; [by apply Htensor|].
    apply list_elem_of_fmap in Hv as ([v' d] & -> & Hin).
    apply (proj1 (Forall_forall _ _) HQ) in Hin as (op & ? & _). done.
  - rewrite HL.
    apply (applyInserts_Forall
      (fun s => NoDup s ∧ s ≠ [] ∧ (forall e, e ∈ s -> U e))); [done|].
    eapply Forall_impl; [exact HQ|]. intros [v d] (op & _ & e & He & Hd). simpl in *.
    assert (U d) as HUd.
    { eapply dstEncodingOf_closed; [done| |exact Hd]. by eapply stateOk_candidates. }
    split.
    + intros s (Hs1 & Hs2 & Hs3). split_and!.
      * by apply SetVector_insert_NoDup.
      * apply SetVector_insert_nonempty.
      * intros e' [?| ->]%SetVector_insert_elem; auto.
    + split_and!; [apply NoDup_singleton|done|].
      intros e' ->%list_elem_of_singleton. done.
Qed.

Lemma propagateLoop_stateOk U fuel ir st layouts' :
  closedUnder U -> stateOk U ir st ->
  propagateLoop fuel ir st = Finished layouts' -> stateOk U ir ([], layouts').
Proof.
  intros Hclosed. revert st. induction fuel as [|fuel IH]; intros st Hok; simpl.
  - destruct (propagateStep ir st) eqn:Hstep; [done|]. intros [= <-].
    destruct Hok as (_ & ? & ? & ?). split_and!; try done.
    intros v Hv. by apply elem_of_nil in Hv.
  - destruct (propagateStep ir st) as [[st'| |]|] eqn:Hstep; simpl; try done.
    + intros Hloop. eapply IH; [|exact Hloop]. by eapply propagateStep_stateOk.
    + intros [= <-]. destruct Hok as (_ & ? & ? & ?). split_and!; try done.
      intros v Hv. by apply elem_of_nil in Hv.
Qed.

(** ** The seeded map *)

Lemma layouts_insert_anchorsOk ir v e layouts :
  getValueEncoding ir v = Some e -> anchorsOk ir layouts ->
  anchorsOk ir (layouts_insert v (mkLayoutInfo [e]) layouts).
Proof.
  intros Henc [Hnd Hall]. unfold layouts_insert.
  destruct (layouts_find v layouts) eqn:Hfind; [done|]. split.
  - rewrite fmap_app. apply NoDup_app. split_and!; [done| |apply NoDup_singleton].
    intros x Hx ->%list_elem_of_singleton. by apply layouts_find_None in Hfind.
  - apply Forall_app. split; [done|]. constructor; [|done]. by exists e.
Qed.

Lemma maybeAddAnchor_inv ir layouts v layouts' :
  maybeAddAnchor ir layouts v = Finished layouts' ->
  layouts' = layouts ∨
  exists e, getValueEncoding ir v = Some e ∧
            layouts' = layouts_insert v (mkLayoutInfo [e]) layouts.
Proof.
  unfold maybeAddAnchor, getValueEncoding.
  destruct (getType ir v) as [[shape elt enc|]|]; simpl;
    [|intros [= <-]; by left..].
  destruct (isaNvidiaMmaEncodingAttr enc); simpl.
  - destruct (getDefiningOp ir v) as [def|]; simpl.
    + destruct (hasConvertToMMATransisitiveUse ir def enc) as [[]| |]; simpl;
        try done; intros [= <-]; [right; by exists enc|by left].
    + intros [= <-]. right. by exists enc.
  - intros [= <-]. right. by exists enc.
Qed.

Lemma maybeAddAnchors_anchorsOk ir values layouts layouts' :
  anchorsOk ir layouts ->
  maybeAddAnchors ir layouts values = Finished layouts' -> anchorsOk ir layouts'.
Proof.
  revert layouts. induction values as [|v rest IH]; intros layouts Hok; simpl.
  - by intros [= <-].
  - destruct (maybeAddAnchor ir layouts v) as [layouts1| |] eqn:Hadd; simpl; try done.
    apply IH. apply maybeAddAnchor_inv in Hadd as [->|(e & He & ->)]; [done|].
    by apply layouts_insert_anchorsOk.
Qed.

Lemma initAnchorLayout_anchorsOk ir layouts :
  initAnchorLayout ir = Finished layouts -> anchorsOk ir layouts.
Proof.
  apply maybeAddAnchors_anchorsOk. split; [apply NoDup_nil_2|constructor].
Qed.

Lemma getValueEncoding_isRankedTensor ir v e :
  getValueEncoding ir v = Some e -> isRankedTensor ir v = true.
Proof.
  unfold getValueEncoding, isRankedTensor.
  destruct (getType ir v) as [[]|]; simpl; done.
Qed.

Lemma anchorsOk_stateOk (U : Attribute -> Prop) ir layouts :
  anchorsOk ir layouts ->
  (forall v e, e ∈ candidates layouts v -> U e) ->
  stateOk U ir (initialQueue layouts, layouts).
Proof.
  intros [Hnd Hall] HU. split_and!; simpl.
  - intros v. unfold initialQueue. by rewrite elem_of_reverse.
  - done.
  - intros v ([v' info] & -> & Hin)%list_elem_of_fmap.
    apply (proj1 (Forall_forall _ _) Hall) in Hin as (e & _ & He).
    by eapply getValueEncoding_isRankedTensor.
  - apply Forall_forall. intros [v info] Hin.
    pose proof (proj1 (Forall_forall _ _) Hall _ Hin) as (e & He & _). simpl in *.
    rewrite He. split_and!; [apply NoDup_singleton|done|].
    intros e' ->%list_elem_of_singleton. apply (HU v).
    assert (layouts_find v layouts = Some info) as Hfind.
    { clear -Hnd Hin. induction layouts as [|[k i] rest IH]; [by apply elem_of_nil in Hin|].
      simpl. apply NoDup_cons in Hnd as [Hk Hnd].
      apply elem_of_cons in Hin as [[= <- <-]|Hin].
      - by rewrite bool_decide_eq_true_2.
      - rewrite bool_decide_eq_false_2; [by apply IH|].
        intros <-. apply Hk. apply list_elem_of_fmap. by exists (k, info). }
    unfold candidates. rewrite Hfind. simpl. rewrite He. left.
Qed.

(** ** Termination of the work loop *)



(** C1. On the map that [initAnchorLayout] seeds and [propagateLayout]
    completes, [resolveConflicts] leaves every entry with exactly one
    candidate encoding, which is what the rewrite phase asserts of every
    mapped value. *)
Theorem resolveConflicts_single_layout ir fuel layouts0 layouts' :
  initAnchorLayout ir = Finished layouts0 ->
  propagateLayout fuel ir layouts0 = Finished layouts' ->
  Forall (fun entry => length (encodings entry.2) = 1) (resolveConflicts ir layouts').
Proof.
  intros Hinit Hprop.
  assert (stateOk (fun _ => True) ir ([], layouts')) as (_ & _ & _ & Hall).
  { eapply propagateLoop_stateOk; [by intros ? ? ? ? ?| |exact Hprop].
    apply anchorsOk_stateOk; [by eapply initAnchorLayout_anchorsOk|done]. }
  unfold resolveConflicts. apply Forall_fmap. eapply Forall_impl; [exact Hall|].
  intros [v info] (_ & Hne & _). simpl in *. unfold resolveEntry.
  destruct (Nat.leb_spec (length (encodings info)) 1) as [Hle|Hlt]; simpl.
  - destruct (encodings info); simpl in *; [done|lia].
  - by destruct (encodings info).
Qed.



(** ** Propagation into a loop *)

Lemma propagateToUses_at ir info uses use st st' :
  use ∈ uses -> propagateToUses ir info uses st = Some st' ->
  exists st1 st2,
    propagateToUse ir info use st1 = Some st2 ∧ propagates (derivedFrom ir info) st2 st'.
Proof.
  revert st. induction uses as [|u rest IH]; intros st Hin; simpl.
  - by apply elem_of_nil in Hin.
  - destruct (propagateToUse ir info u st) as [st1|] eqn:Huse; simpl; [|done].
    intros Hrest. apply elem_of_cons in Hin as [->|Hin].
    + exists st, st1. split; [done|]. by eapply propagateToUses_propagates.
    + by eapply IH.
Qed.

(** C6. When [propagateToUsers] meets a use of the value by a [scf.for], the
    use is one of the loop's inits, and for every candidate of [info] the
    destination encoding the oracle derives for the loop is, after the call,
    a candidate of both the tied iteration argument and the tied loop result
    (the same encoding for both). *)
Theorem propagateToUsers_for_init ir value info layouts layouts' changed forOp n :
  propagateToUsers ir value info layouts = Some (layouts', changed) ->
  (forOp, n) ∈ getUses ir value ->
  opKind forOp = ForOp ->
  exists arg result,
    getTiedLoopRegionIterArg forOp n = Some arg ∧
    getTiedLoopResult forOp n = Some result ∧
    forall e d,
      e ∈ encodings info -> inferDstEncoding forOp e = Some d ->
      (isRankedTensor ir arg = true -> d ∈ candidates layouts' arg) ∧
      (isRankedTensor ir result = true -> d ∈ candidates layouts' result).
Proof.
  intros Hprop Huse Hkind.
  destruct (propagateToUses_at _ _ _ _ _ _ Huse Hprop) as (st1 & st2 & Hone & Hrest).
  unfold propagateToUse in Hone. rewrite Hkind in Hone.
  destruct (getTiedLoopRegionIterArg forOp n) as [arg|]; simpl in Hone; [|done].
  destruct (getTiedLoopResult forOp n) as [result|]; simpl in Hone; [|done].
  injection Hone as <-. exists arg, result. split_and!; [done..|].
  intros e d He Hd.
  assert (dstEncodingOf forOp e = Some d) as Hdst.
  { unfold dstEncodingOf. rewrite Hkind. by rewrite bool_decide_eq_false_2. }
  split; intros Htensor;
    apply (propagates_candidates _ _ _ _ _ Hrest);
    apply (setEncoding_inserts ir [arg; result] info st1 forOp _ e d); try done.
  - left.
  - right. left.
Qed.

(** ** Anchor discovery *)

Lemma getDefiningOp_Some ir v def :
  getDefiningOp ir v = Some def -> def ∈ irOps ir ∧ v ∈ opResults def.
Proof.
  unfold getDefiningOp. destruct (list_find _ _) as [[i op]|] eqn:Hfind; [|done].
  simpl. intros [= <-]. apply list_find_Some in Hfind as (Hi & Hdef & _).
  split; [by eapply list_elem_of_lookup_2|].
  unfold definesValue in Hdef. by apply bool_decide_eq_true in Hdef.
Qed.

Lemma getDefiningOp_defined ir v def :
  getDefiningOp ir v = Some def -> v ∈ definedValues ir.
Proof.
  intros [Hop Hv]%getDefiningOp_Some. unfold definedValues.
  apply elem_of_list_to_set, list_elem_of_In, in_flat_map.
  exists def. split; by apply list_elem_of_In.
Qed.

Lemma size_difference_insert (defined seen : gset nat) (x : nat) :
  x ∈ defined -> x ∉ seen ->
  size (defined ∖ seen) = S (size (defined ∖ ({[x]} ∪ seen))).
Proof.
  intros Hdef Hnew.
  assert (defined ∖ seen = {[x]} ∪ defined ∖ ({[x]} ∪ seen)) as ->.
  { apply set_eq. intros y.
    rewrite elem_of_union, !elem_of_difference, elem_of_union, elem_of_singleton.
    destruct (decide (y = x)) as [->|Hy]; split.
    - by left.
    - by intros _.
    - intros [? ?]. right. split; [done|]. by intros [?|?].
    - intros [?|[? Hno]]; [done|]. split; [done|]. intros ?. apply Hno. by right. }
  rewrite size_union, size_singleton; [done|].
  intros y Hy. apply elem_of_singleton in Hy as ->.
  rewrite elem_of_difference, elem_of_union, elem_of_singleton.
  intros [_ Hno]. apply Hno. by left.
Qed.

Lemma searchMeasure_push ir queue seen arg operand :
  operand ∈ definedValues ir -> operand ∉ seen ->
  searchMeasure ir (arg :: queue) ({[operand]} ∪ seen) = searchMeasure ir queue seen.
Proof.
  intros Hdef Hnew. unfold searchMeasure. cbn [length].
  rewrite (size_difference_insert _ seen operand) by done. lia.
Qed.

Lemma scanYieldOperands_measure ir forOp slice operands n queue seen next :
  scanYieldOperands ir forOp slice operands n queue seen = Some next ->
  searchMeasure ir next.1 next.2 = searchMeasure ir queue seen.
Proof.
  revert n queue seen. induction operands as [|operand rest IH]; intros n queue seen; simpl.
  - by intros [= <-].
  - destruct (getDefiningOp ir operand) as [def|] eqn:Hdef; [|apply IH].
    destruct (bool_decide (def ∈ slice) && negb (bool_decide (operand ∈ seen))) eqn:Hcond;
      [|apply IH].
    destruct (getRegionIterArg forOp n) as [arg|]; simpl; [|done].
    intros Hrest. rewrite (IH _ _ _ Hrest). apply searchMeasure_push.
    + by eapply getDefiningOp_defined.
    + apply andb_true_iff in Hcond as [_ Hseen].
      apply negb_true_iff, bool_decide_eq_false in Hseen. done.
Qed.

Lemma scanSlice_measure verdict ir slice ops queue seen queue' seen' :
  scanSlice verdict ir slice ops queue seen = Some (ScanContinue queue' seen') ->
  searchMeasure ir queue' seen' = searchMeasure ir queue seen.
Proof.
  revert queue seen. induction ops as [|op rest IH]; intros queue seen; simpl.
  - by intros [= <- <-].
  - destruct (verdict op) as [[b|]|]; simpl; try done.
    case_bool_decide; [|apply IH].
    destruct (getParentOp ir op) as [parent|]; simpl; [|done].
    case_bool_decide; [|apply IH].
    destruct (scanYieldOperands ir parent slice (opOperands op) 0 queue seen)
      as [next|] eqn:Hyield; simpl; [|done].
    intros Hrest. rewrite (IH _ _ Hrest). by eapply scanYieldOperands_measure.
Qed.

Lemma searchLoop_enough_fuel fuel verdict ir queue slice seen :
  searchMeasure ir queue seen < fuel ->
  searchLoop fuel verdict ir queue slice seen ≠ OutOfFuel.
Proof.
  revert queue slice seen. induction fuel as [|fuel IH]; intros queue slice seen Hfuel; [lia|].
  destruct queue as [|cur queue]; simpl; [done|].
  destruct (scanSlice _ _ _ _ _ _) as [[b|queue' seen']|] eqn:Hscan; try done.
  apply IH. rewrite (scanSlice_measure _ _ _ _ _ _ _ _ Hscan).
  unfold searchMeasure in *. simpl in Hfuel. lia.
Qed.

(** The search of [hasConvertToMMATransisitiveUse] always ends within the
    fuel the model gives it. *)
Lemma hasConvertToMMATransisitiveUse_ends ir op encoding :
  hasConvertToMMATransisitiveUse ir op encoding ≠ OutOfFuel.
Proof.
  unfold hasConvertToMMATransisitiveUse.
  destruct (opResults op !! 0) as [result|]; [|done].
  change (searchLoop (searchFuel ir) (convertVerdict ir encoding) ir [result] [] ∅
          ≠ OutOfFuel).
  apply searchLoop_enough_fuel. unfold searchMeasure, searchFuel. cbn [length].
  assert (size (definedValues ir ∖ ∅) <= size (definedValues ir)); [|lia].
  apply subseteq_size. intros x. rewrite elem_of_difference. by intros [? _].
Qed.

Lemma layouts_insert_keys v info (layouts : Layouts) v' :
  v' ∈ (layouts_insert v info layouts).*1 <-> v' ∈ layouts.*1 ∨ v' = v.
Proof.
  unfold layouts_insert. destruct (layouts_find v layouts) eqn:Hfind.
  - split; [by left|]. intros [?| ->]; [done|].
    apply layouts_find_is_Some. by rewrite Hfind.
  - rewrite fmap_app, elem_of_app. simpl. by rewrite list_elem_of_singleton.
Qed.

Lemma maybeAddAnchor_spec ir layouts v layouts' :
  maybeAddAnchor ir layouts v = Finished layouts' ->
  (admitsAnchor ir v ∧
   exists e, getValueEncoding ir v = Some e ∧
             layouts' = layouts_insert v (mkLayoutInfo [e]) layouts) ∨
  (¬ admitsAnchor ir v ∧ layouts' = layouts).
Proof.
  unfold maybeAddAnchor, admitsAnchor, getValueEncoding.
  destruct (getType ir v) as [[shape elt enc|]|]; simpl;
    [|intros [= <-]; right; split; [by intros (? & ? & _)|done]..].
  destruct (isaNvidiaMmaEncodingAttr enc) eqn:Hmma; simpl.
  - destruct (getDefiningOp ir v) as [def|]; simpl.
    + destruct (hasConvertToMMATransisitiveUse ir def enc) as [[]| |] eqn:Hsearch; simpl;
        try done; intros [= <-].
      * left. split; [|by exists enc]. exists enc. split; [done|].
        intros _ def' Hdef'. by injection Hdef' as <-.
      * right. split; [|done]. intros (e & [= <-] & Hadm).
        specialize (Hadm Hmma def eq_refl). congruence.
    + intros [= <-]. left. split; [|by exists enc]. by exists enc.
  - intros [= <-]. left. split; [|by exists enc]. exists enc. split; [done|].
    intros ?. congruence.
Qed.

Lemma maybeAddAnchors_keys ir values layouts layouts' :
  maybeAddAnchors ir layouts values = Finished layouts' ->
  forall v, v ∈ layouts'.*1 <-> v ∈ layouts.*1 ∨ (v ∈ values ∧ admitsAnchor ir v).
Proof.
  revert layouts. induction values as [|x rest IH]; intros layouts; simpl.
  - intros [= <-] v. split; [by left|]. intros [?|[Hv _]]; [done|].
    by apply elem_of_nil in Hv.
  - destruct (maybeAddAnchor ir layouts x) as [layouts1| |] eqn:Hadd; simpl; try done.
    intros Hrest v. rewrite (IH _ Hrest v), elem_of_cons.
    apply maybeAddAnchor_spec in Hadd as [(Hadm & e & _ & ->)|(Hno & ->)].
    + rewrite layouts_insert_keys. split.
      * intros [[?| ->]|[? ?]]; auto.
      * intros [?|[[->|?] ?]]; auto.
    + split.
      * intros [?|[? ?]]; auto.
      * intros [?|[[->|?] ?]]; auto. done.
Qed.

Lemma anchorCandidates_elem ir v :
  v ∈ anchorCandidates ir <->
  v ∈ irArgs ir ∨
  exists op, op ∈ irOps ir ∧ isLayoutAnchor ir op = true ∧ v ∈ opResults op.
Proof.
  unfold anchorCandidates. rewrite elem_of_app. apply or_iff_compat_l.
  rewrite list_elem_of_In, in_flat_map.
  split; intros (op & Hop & Hv); exists op.
  - apply list_elem_of_In in Hop.
    destruct (isLayoutAnchor ir op); [|done]. by apply list_elem_of_In in Hv.
  - destruct Hv as [-> Hv]. split; by apply list_elem_of_In.
Qed.

(** C5, as the code has it.  [initAnchorLayout] seeds exactly the values
    that have a tensor encoding, are a function argument or a result of an
    anchor operation (a dot, an atomic, a load or store the cost model calls
    expensive, a reshape that allows reordering), and, when that encoding is
    an MMA encoding of a value some operation defines, pass
    [hasConvertToMMATransisitiveUse]; each seeded value has its own encoding
    as only candidate. *)
Theorem initAnchorLayout_seeds ir layouts :
  initAnchorLayout ir = Finished layouts ->
  forall v,
    (v ∈ layouts.*1 <->
     exists encoding,
       getValueEncoding ir v = Some encoding ∧
       (v ∈ irArgs ir ∨
        exists op, op ∈ irOps ir ∧ isLayoutAnchor ir op = true ∧ v ∈ opResults op) ∧
       (isaNvidiaMmaEncodingAttr encoding = true ->
        forall def, getDefiningOp ir v = Some def ->
                    hasConvertToMMATransisitiveUse ir def encoding = Finished true)) ∧
    (forall info, layouts_find v layouts = Some info ->
                  exists encoding, encodings info = [encoding] ∧
                                   getValueEncoding ir v = Some encoding).
Proof.
  intros Hinit v. split.
  - rewrite (maybeAddAnchors_keys _ _ _ _ Hinit v), anchorCandidates_elem.
    unfold admitsAnchor. split.
    + intros [Hnil|[Hcand (enc & Henc & Hadm)]]; [by apply elem_of_nil in Hnil|].
      by exists enc.
    + intros (enc & Henc & Hcand & Hadm). right. split; [done|]. by exists enc.
  - intros info Hfind. apply layouts_find_Some_elem in Hfind.
    destruct (initAnchorLayout_anchorsOk _ _ Hinit) as [_ Hall].
    by apply (proj1 (Forall_forall _ _) Hall) in Hfind.
Qed.

(** ** The mutation primitives *)

Lemma span_app {A} (p : A -> bool) (l : list A) :
  l = (span p l).1 ++ (span p l).2.
Proof.
  induction l as [|x rest IH]; simpl; [done|].
  destruct (p x); [|done]. destruct (span p rest) as [inner outer]. simpl in *.
  by rewrite <- IH.
Qed.

Lemma insertBeforeOp_split id new ops ops' :
  insertBeforeOp id new ops = Some ops' ->
  exists l1 l2, ops = l1 ++ l2 ∧ ops' = l1 ++ new ++ l2.
Proof.
  revert ops'. induction ops as [|op rest IH]; intros ops'; simpl; [done|].
  case_bool_decide.
  - intros [= <-]. by exists [], (op :: rest).
  - destruct (insertBeforeOp id new rest) as [ops1|]; simpl; [|done].
    intros [= <-]. destruct (IH _ eq_refl) as (l1 & l2 & -> & ->).
    by exists (op :: l1), l2.
Qed.

Lemma insertAfterOp_split ir id new ops ops' :
  insertAfterOp ir id new ops = Some ops' ->
  exists l1 l2, ops = l1 ++ l2 ∧ ops' = l1 ++ new ++ l2.
Proof.
  revert ops'. induction ops as [|op rest IH]; intros ops'; simpl; [done|].
  case_bool_decide.
  - pose proof (span_app (isInside ir id) rest) as Hspan.
    destruct (span (isInside ir id) rest) as [inner outer]. simpl in Hspan.
    intros [= <-]. exists (op :: inner), outer. split; [by rewrite Hspan|done].
  - destruct (insertAfterOp ir id new rest) as [ops1|]; simpl; [|done].
    intros [= <-]. destruct (IH _ eq_refl) as (l1 & l2 & -> & ->).
    by exists (op :: l1), l2.
Qed.

Lemma insertAtBlockStart_split parent region new ops ops' :
  insertAtBlockStart parent region new ops = Some ops' ->
  exists l1 l2, ops = l1 ++ l2 ∧ ops' = l1 ++ new ++ l2.
Proof.
  revert ops'. induction ops as [|op rest IH]; intros ops'; simpl; [done|].
  destruct (_ && _).
  - intros [= <-]. by exists [], (op :: rest).
  - destruct (insertAtBlockStart parent region new rest) as [ops1|]; simpl; [|done].
    intros [= <-]. destruct (IH _ eq_refl) as (l1 & l2 & -> & ->).
    by exists (op :: l1), l2.
Qed.

(** An insertion leaves the operations of the program in place, in order. *)
Lemma insertAt_split ir point new ops' :
  insertAt ir point new = Some ops' ->
  exists l1 l2, irOps ir = l1 ++ l2 ∧ ops' = l1 ++ new ++ l2.
Proof.
  unfold insertAt. destruct point as [id|v].
  - apply insertBeforeOp_split.
  - destruct (getDefiningOp ir v) as [def|]; [apply insertAfterOp_split|].
    destruct (getBlockArgOwner ir v) as [[owner region]|];
      [apply insertAtBlockStart_split|].
    case_bool_decide; [|done]. intros [= <-]. by exists [], (irOps ir).
Qed.

Lemma insertBeforeOp_first id new ops ops' :
  insertBeforeOp id new ops = Some ops' ->
  exists l1 next l2,
    ops = l1 ++ next :: l2 ∧ opId next = id ∧
    (forall op, op ∈ l1 -> opId op ≠ id) ∧ ops' = l1 ++ new ++ next :: l2.
Proof.
  revert ops'. induction ops as [|op rest IH]; intros ops'; simpl; [done|].
  case_bool_decide as Hid.
  - intros [= <-]. exists [], op, rest. split_and!; try done.
    intros op' Hin. by apply elem_of_nil in Hin.
  - destruct (insertBeforeOp id new rest) as [ops1|]; simpl; [|done].
    intros [= <-]. destruct (IH _ eq_refl) as (l1 & next & l2 & -> & Hnext & Hl1 & ->).
    exists (op :: l1), next, l2. split_and!; try done.
    intros op' [->|Hin]%elem_of_cons; [done|by apply Hl1].
Qed.

Lemma insertBeforeOp_app id new l1 next l2 :
  (forall op, op ∈ l1 -> opId op ≠ id) -> opId next = id ->
  insertBeforeOp id new (l1 ++ next :: l2) = Some (l1 ++ new ++ next :: l2).
Proof.
  intros Hl1 Hnext. induction l1 as [|op rest IH]; simpl.
  - by rewrite bool_decide_eq_true_2.
  - rewrite bool_decide_eq_false_2; [|apply Hl1; left].
    rewrite IH; [done|]. intros op' Hin. apply Hl1. by right.
Qed.

Lemma insertBeforeOp_is_Some id new ops :
  is_Some (insertBeforeOp id new ops) <-> exists op, op ∈ ops ∧ opId op = id.
Proof.
  induction ops as [|op rest IH]; simpl.
  - split; [by intros [? ?]|]. intros (op & Hop & _). by apply elem_of_nil in Hop.
  - case_bool_decide as Hid.
    + split; [|by eauto]. intros _. exists op. split; [left|done].
    + rewrite fmap_is_Some, IH. split.
      * intros (op' & ? & ?). exists op'. split; [by right|done].
      * intros (op' & [->|?]%elem_of_cons & ?); [done|by exists op'].
Qed.

Lemma insertAfterOp_is_Some ir id new ops :
  is_Some (insertAfterOp ir id new ops) <-> exists op, op ∈ ops ∧ opId op = id.
Proof.
  induction ops as [|op rest IH]; simpl.
  - split; [by intros [? ?]|]. intros (op & Hop & _). by apply elem_of_nil in Hop.
  - case_bool_decide as Hid.
    + destruct (span (isInside ir id) rest). split; [|by eauto].
      intros _. exists op. split; [left|done].
    + rewrite fmap_is_Some, IH. split.
      * intros (op' & ? & ?). exists op'. split; [by right|done].
      * intros (op' & [->|?]%elem_of_cons & ?); [done|by exists op'].
Qed.

Lemma insertAtBlockStart_is_Some parent region new ops :
  is_Some (insertAtBlockStart parent region new ops) <->
  exists op, op ∈ ops ∧ opParent op = Some parent ∧ opRegion op = region.
Proof.
  induction ops as [|op rest IH]; simpl.
  - split; [by intros [? ?]|]. intros (op & Hop & _). by apply elem_of_nil in Hop.
  - destruct (bool_decide (opParent op = Some parent) && bool_decide (opRegion op = region))
      eqn:Hcond.
    + apply andb_true_iff in Hcond as [?%bool_decide_eq_true ?%bool_decide_eq_true].
      split; [|by eauto]. intros _. exists op. split; [left|done].
    + rewrite fmap_is_Some, IH. split.
      * intros (op' & ? & ?). exists op'. split; [by right|done].
      * intros (op' & [->|?]%elem_of_cons & Hp & Hr); [|by exists op'].
        rewrite !bool_decide_eq_true_2 in Hcond by done. done.
Qed.

Lemma freshValue_fresh ir : freshValue ir ∉ irValues ir.
Proof. apply infinite_is_fresh. Qed.

Lemma freshValue_untyped ir : irTypes ir !! freshValue ir = None.
Proof.
  destruct (irTypes ir !! freshValue ir) as [t|] eqn:Ht; [|done].
  destruct (freshValue_fresh ir). unfold irValues. apply elem_of_app. left.
  apply list_elem_of_fmap. exists (freshValue ir, t). split; [done|].
  by apply elem_of_map_to_list.
Qed.

Lemma freshOpId_fresh ir op : op ∈ irOps ir -> opId op ≠ freshOpId ir.
Proof.
  intros Hop Heq. apply (infinite_is_fresh (opId <$> irOps ir)).
  fold (freshOpId ir). rewrite <- Heq. by apply list_elem_of_fmap_2.
Qed.

(** The creation of an operation with one result. *)
Lemma createOp_one ir point kind operands ty elementwise attrs ir' op :
  createOp ir point kind operands [ty] elementwise attrs = Finished (ir', op) ->
  exists block l1 l2,
    blockOfPoint ir point = Some block ∧
    op = mkOperation (freshOpId ir) kind operands [freshValue ir] [] block.1 block.2
           false elementwise elementwise attrs ∧
    irOps ir = l1 ++ l2 ∧
    insertAt ir point [op] = Some (l1 ++ [op] ++ l2) ∧
    ir' = mkIR (l1 ++ [op] ++ l2) (<[freshValue ir := ty]> (irTypes ir)) (irArgs ir).
Proof.
  unfold createOp. destruct (blockOfPoint ir point) as [block|]; simpl; [|done].
  destruct (insertAt ir point _) as [ops|] eqn:Hins; simpl; [|done].
  intros [= <- <-]. pose proof Hins as (l1 & l2 & Hops & ->)%insertAt_split.
  by exists block, l1, l2.
Qed.

(** An operation created before the operation [id], seen from the place of
    that operation in the walk. *)
Lemma createOp_before ir id kind operands ty elementwise attrs ir' op l1 next l2 :
  createOp ir (BeforeOp id) kind operands [ty] elementwise attrs = Finished (ir', op) ->
  irOps ir = l1 ++ next :: l2 -> opId next = id ->
  (forall old, old ∈ l1 -> opId old ≠ id) ->
  irOps ir' = (l1 ++ [op]) ++ next :: l2 ∧
  (forall old, old ∈ l1 ++ [op] -> opId old ≠ id) ∧
  opKind op = kind ∧ opOperands op = operands ∧ opResults op = [freshValue ir] ∧
  opAttrs op = attrs ∧
  getType ir' (freshValue ir) = Some ty ∧
  (forall v t, getType ir v = Some t -> getType ir' v = Some t).
Proof.
  intros Hcreate Hops Hnext Hl1.
  destruct (createOp_one _ _ _ _ _ _ _ _ _ Hcreate)
    as (block & k1 & k2 & _ & Hop & _ & Hins & Hir').
  simpl in Hins. rewrite Hops, (insertBeforeOp_app _ _ _ _ _ Hl1 Hnext) in Hins.
  injection Hins as Hsplit.
  assert (irOps ir' = (l1 ++ [op]) ++ next :: l2) as Hops'.
  { rewrite Hir'. simpl. simpl in Hsplit. rewrite <- Hsplit. by rewrite <- app_assoc. }
  split_and!; try (by rewrite Hop).
  - done.
  - intros old [Hold|Hold%list_elem_of_singleton]%elem_of_app; [by apply Hl1|].
    subst old. rewrite <- Hnext. intros Heq.
    assert (opId op = freshOpId ir) as Hid by (by rewrite Hop).
    rewrite Hid in Heq. symmetry in Heq. revert Heq.
    apply freshOpId_fresh. rewrite Hops, elem_of_app. right. left.
  - rewrite Hir'. unfold getType. simpl. apply lookup_insert_eq.
  - intros v t Hv. rewrite Hir'. unfold getType in *. simpl.
    rewrite lookup_insert_ne; [done|]. intros <-. by rewrite freshValue_untyped in Hv.
Qed.

Lemma convertOps_insert l1 l2 op types args :
  length (convertOps (mkIR (l1 ++ [op] ++ l2) types args)) =
  length (convertOps (mkIR (l1 ++ l2) types args)) +
  (if bool_decide (opKind op = ConvertLayoutOp) then 1 else 0).
Proof.
  unfold convertOps. simpl. rewrite !filter_app, !length_app. simpl.
  rewrite filter_cons. case_bool_decide.
  - rewrite decide_True by done. simpl. lia.
  - rewrite decide_False by done. simpl. lia.
Qed.

(** ** [getValueAs] does not cache *)

Lemma list_find_skip {A} (P : A -> Prop) `{forall x, Decision (P x)} (l1 l2 : list A) x :
  ¬ P x -> snd <$> list_find P (l1 ++ x :: l2) = snd <$> list_find P (l1 ++ l2).
Proof.
  intros Hx. induction l1 as [|y l1 IH]; simpl.
  - rewrite decide_False by done. by destruct (list_find P l2) as [[? ?]|].
  - destruct (decide (P y)); [done|].
    destruct (list_find P (l1 ++ x :: l2)) as [[? ?]|],
             (list_find P (l1 ++ l2)) as [[? ?]|]; simpl in *; congruence.
Qed.

Lemma getDefiningOp_insert l1 l2 new types types' args args' v :
  v ∉ opResults new ->
  getDefiningOp (mkIR (l1 ++ [new] ++ l2) types args) v =
  getDefiningOp (mkIR (l1 ++ l2) types' args') v.
Proof.
  intros Hv. unfold getDefiningOp. simpl. apply list_find_skip.
  unfold definesValue. by rewrite bool_decide_eq_true.
Qed.

Lemma getBlockArgOwner_insert l1 l2 new types types' args args' v :
  opRegionArgs new = [] ->
  getBlockArgOwner (mkIR (l1 ++ [new] ++ l2) types args) v =
  getBlockArgOwner (mkIR (l1 ++ l2) types' args') v.
Proof.
  intros Hnew. unfold getBlockArgOwner. simpl. rewrite list_find_skip; [done|].
  rewrite Hnew. simpl. apply not_elem_of_nil.
Qed.

Lemma getOp_elem ir id op : getOp ir id = Some op -> op ∈ irOps ir ∧ opId op = id.
Proof.
  unfold getOp. destruct (list_find _ _) as [[i op']|] eqn:Hfind; [|done].
  simpl. intros [= <-]. apply list_find_Some in Hfind as (Hi & Hid & _).
  split; [by eapply list_elem_of_lookup_2|done].
Qed.

Lemma getBlockArgOwner_elem ir v owner region :
  getBlockArgOwner ir v = Some (owner, region) -> owner ∈ irOps ir.
Proof.
  unfold getBlockArgOwner.
  destruct (list_find _ (irOps ir)) as [[i op]|] eqn:Hfind; simpl; [|done].
  destruct (list_find _ (opRegionArgs op)) as [[j args]|]; simpl; [|done].
  intros [= <- <-]. apply list_find_Some in Hfind as (Hi & _).
  by eapply list_elem_of_lookup_2.
Qed.

(** Where an insertion after a value is possible, it stays possible once an
    operation without regions, defining other values, has been inserted. *)
Lemma insertAt_AfterValue_again l1 l2 new types types' args v ops1 (added1 added2 : list Operation) :
  v ∉ opResults new -> opRegionArgs new = [] ->
  insertAt (mkIR (l1 ++ l2) types args) (AfterValue v) added1 = Some ops1 ->
  is_Some (insertAt (mkIR (l1 ++ [new] ++ l2) types' args) (AfterValue v) added2).
Proof.
  intros Hv Hnew. unfold insertAt.
  rewrite (getDefiningOp_insert l1 l2 new types' types args args v Hv).
  rewrite (getBlockArgOwner_insert l1 l2 new types' types args args v Hnew).
  assert (forall op : Operation, op ∈ l1 ++ l2 -> op ∈ l1 ++ [new] ++ l2) as Hsub.
  { intros op. rewrite !elem_of_app. intros [?|?]; auto. }
  simpl. destruct (getDefiningOp _ v) as [def|].
  - intros Hfirst. apply insertAfterOp_is_Some.
    assert (is_Some (insertAfterOp (mkIR (l1 ++ l2) types args) (opId def) added1 (l1 ++ l2)))
      as (op & Hop & Hid)%insertAfterOp_is_Some by eauto.
    exists op. split; [by apply Hsub|done].
  - destruct (getBlockArgOwner _ v) as [[owner region]|].
    + intros Hfirst. apply insertAtBlockStart_is_Some.
      assert (is_Some (insertAtBlockStart (opId owner) region added1 (l1 ++ l2)))
        as (op & Hop & Hrest)%insertAtBlockStart_is_Some by eauto.
      exists op. split; [by apply Hsub|done].
    + case_bool_decide; [eauto|done].
Qed.

Lemma blockOfPoint_AfterValue_again l1 l2 new types types' args v :
  v ∉ opResults new -> opRegionArgs new = [] ->
  blockOfPoint (mkIR (l1 ++ [new] ++ l2) types' args) (AfterValue v) =
  blockOfPoint (mkIR (l1 ++ l2) types args) (AfterValue v).
Proof.
  intros Hv Hnew. unfold blockOfPoint.
  rewrite (getDefiningOp_insert l1 l2 new types' types args args v Hv).
  by rewrite (getBlockArgOwner_insert l1 l2 new types' types args args v Hnew).
Qed.

(** What a call of [getValueAs] that inserts a conversion looks like. *)
Lemma getValueAs_inv ir layouts rewriteMapping value encoding ir' converted :
  getValueAs ir layouts rewriteMapping value encoding = Finished (ir', converted) ->
  ir' = ir ∨
  exists shape elementType valueEncoding rewrittenValue rewrittenEncoding cvt,
    getType ir value = Some (RankedTensorType shape elementType valueEncoding) ∧
    getRewrittenValue layouts rewriteMapping value valueEncoding = Finished rewrittenValue ∧
    getValueEncoding ir rewrittenValue = Some rewrittenEncoding ∧
    rewrittenEncoding ≠ encoding ∧
    createOp ir (AfterValue rewrittenValue) ConvertLayoutOp [rewrittenValue]
      [RankedTensorType shape elementType encoding] false [] = Finished (ir', cvt) ∧
    opResults cvt !! 0 = Some converted.
Proof.
  unfold getValueAs.
  destruct (getType ir value) as [[shape elt venc|]|] eqn:Hty;
    [|intros [= <- <-]; by left..].
  destruct (getRewrittenValue layouts rewriteMapping value venc) as [rv| |] eqn:Hrv;
    simpl; try done.
  destruct (getValueEncoding ir rv) as [renc|] eqn:Hrenc; simpl; [|done].
  case_bool_decide as Henc; [intros [= <- <-]; by left|].
  destruct (createOp ir (AfterValue rv) _ _ _ _ _) as [[ir1 cvt]| |] eqn:Hcreate;
    simpl; try done.
  destruct (opResults cvt !! 0) as [r|] eqn:Hr; simpl; [|done].
  intros [= <- <-]. right. by exists shape, elt, venc, rv, renc, cvt.
Qed.

(** A second creation at the same point, after the same value. *)
Lemma createOp_AfterValue_again ir v kind ty elementwise attrs ir1 op1 :
  createOp ir (AfterValue v) kind [v] [ty] elementwise attrs = Finished (ir1, op1) ->
  is_Some (getType ir v) ->
  exists ir2 op2, createOp ir1 (AfterValue v) kind [v] [ty] elementwise attrs
                  = Finished (ir2, op2).
Proof.
  intros Hfirst [t Hv].
  apply createOp_one in Hfirst as (block & l1 & l2 & Hblock & Hop1 & Hops & Hins & Hir1).
  assert (v ∉ opResults op1) as Hfresh.
  { rewrite Hop1. simpl. intros ->%list_elem_of_singleton.
    unfold getType in Hv. by rewrite freshValue_untyped in Hv. }
  assert (opRegionArgs op1 = []) as Hargs by by rewrite Hop1.
  destruct ir as [ops types args]. simpl in Hops. subst ops.
  unfold createOp. rewrite Hir1.
  rewrite (blockOfPoint_AfterValue_again l1 l2 op1 types _ args v Hfresh Hargs).
  rewrite Hblock. cbn -[insertAt freshOpId freshValue].
  match goal with
  | |- context [insertAt ?ir' ?point ?new] =>
      destruct (insertAt_AfterValue_again l1 l2 op1 types (irTypes ir') args v _ [op1] new
                  Hfresh Hargs Hins) as [ops2 Hsecond]
  end.
  simpl in Hsecond |- *. rewrite Hsecond. simpl. eauto.
Qed.

(** C2, as the code has it.  [getValueAs] keeps no record of the conversions
    it inserts: after a call that inserted a conversion for (value,
    encoding), a second call with the same pair finishes as well, inserts
    one more conversion and returns a different value. *)
Theorem getValueAs_converts_again ir layouts rewriteMapping value encoding ir1 converted :
  getValueAs ir layouts rewriteMapping value encoding = Finished (ir1, converted) ->
  length (convertOps ir1) = S (length (convertOps ir)) ->
  exists ir2 converted',
    getValueAs ir1 layouts rewriteMapping value encoding = Finished (ir2, converted') ∧
    length (convertOps ir2) = S (length (convertOps ir1)) ∧
    converted' ≠ converted.
Proof.
  intros Hfirst Hcount.
  apply getValueAs_inv in Hfirst as [->|Hfirst]; [lia|].
  destruct Hfirst
    as (shape & elt & venc & rv & renc & cvt & Hty & Hrv & Hrenc & Hne & Hcreate & Hres).
  assert (is_Some (getType ir rv)) as Hrvty.
  { unfold getValueEncoding in Hrenc. destruct (getType ir rv); [eauto|done]. }
  destruct (createOp_AfterValue_again _ _ _ _ _ _ _ _ Hcreate Hrvty) as (ir2 & cvt2 & Hsecond).
  apply createOp_one in Hcreate as (block & l1 & l2 & Hblock & Hcvt & Hops & _ & Hir1).
  assert (converted = freshValue ir) as ->.
  { rewrite Hcvt in Hres. by injection Hres as <-. }
  assert (forall v t, getType ir v = Some t -> getType ir1 v = Some t) as Hkeep.
  { intros v t Hv. rewrite Hir1. unfold getType. simpl.
    rewrite lookup_insert_ne; [done|]. intros <-.
    unfold getType in Hv. by rewrite freshValue_untyped in Hv. }
  exists ir2, (freshValue ir1). split_and!.
  - unfold getValueAs. rewrite (Hkeep _ _ Hty), Hrv. simpl.
    unfold getValueEncoding in *. destruct Hrvty as [t Ht].
    rewrite (Hkeep _ _ Ht). rewrite Ht in Hrenc. simpl in *. rewrite Hrenc. simpl.
    rewrite bool_decide_eq_false_2 by done. rewrite Hsecond. simpl.
    apply createOp_one in Hsecond as (? & ? & ? & _ & -> & _). done.
  - apply createOp_one in Hsecond as (? & l1' & l2' & _ & Hcvt2 & Hops' & _ & ->).
    rewrite convertOps_insert.
    rewrite bool_decide_eq_true_2 by (by rewrite Hcvt2).
    unfold convertOps. simpl. rewrite <- Hops'. lia.
  - intros Heq. pose proof (freshValue_untyped ir1) as Hfresh. rewrite Heq, Hir1 in Hfresh.
    simpl in Hfresh. by rewrite lookup_insert_eq in Hfresh.
Qed.

(** ** Rematerialization *)

Lemma canBeRemat_kinds ir op :
  canBeRemat ir op = true ->
  ¬ (opKind op ∈ neverRematerialized) ∧
  (isaLoadOrStore op = true -> isExpensiveLoadOrStore ir op = false).
Proof.
  unfold canBeRemat, neverRematerialized, isaLoadOrStore.
  destruct (opKind op) eqn:Hkind; intros Hremat; try done;
    (split; [|try done; intros _; by apply negb_true_iff]);
    rewrite !elem_of_cons, elem_of_nil; intros Hin;
    repeat (destruct Hin as [Hin|Hin]; [discriminate Hin|]); done.
Qed.

Lemma insertAll_elem {A} `{EqDecision A} (xs s : list A) x :
  x ∈ insertAll xs s <-> x ∈ s ∨ x ∈ xs.
Proof.
  unfold insertAll. revert s. induction xs as [|y rest IH]; intros s; simpl.
  - rewrite elem_of_nil. tauto.
  - rewrite IH, elem_of_cons. unfold SetVector_insert. case_bool_decide; simpl.
    + split; [intros [?|?]; auto|]. intros [?|[->|?]]; auto.
    + rewrite elem_of_app, list_elem_of_singleton. tauto.
Qed.

Lemma collectOpsToRewrite_elem ir slice acc opsToRewrite op :
  collectOpsToRewrite ir slice acc = Some opsToRewrite ->
  op ∈ opsToRewrite ->
  op ∈ acc ∨ exists v ops, v ∈ slice ∧ opsOfSliceValue ir v = Some ops ∧ op ∈ ops.
Proof.
  revert acc. induction slice as [|v rest IH]; intros acc; simpl.
  - intros [= <-] Hop. by left.
  - destruct (opsOfSliceValue ir v) as [ops|] eqn:Hops; simpl; [|done].
    intros Hrest Hop. destruct (IH _ Hrest Hop) as [Hacc|(v' & ops' & Hv' & Hops' & Hin)].
    + apply insertAll_elem in Hacc as [?|?]; [by left|].
      right. exists v, ops. split; [left|done].
    + right. exists v', ops'. split; [by right|done].
Qed.

(** C7. A slice that [getRematerializableSlice] accepts has only members
    whose defining operation passes [canBeRemat]: it is none of the kinds the
    pass never rematerializes (tensor-slice, allocate, insert-async, dot,
    atomic, if, while, condition) and, if a load or store, not an expensive
    one.  Of the operations [rewriteSlice] then collects, the only ones that
    may fail [canBeRemat] are those it reaches through a block argument of
    the slice (the owner of the block and its terminator), never the
    definition of a slice member; and when the block arguments of the slice
    are iteration arguments of [scf.for] loops closed by a [scf.yield], as
    the backward slice has them, no collected operation is of a kind that is
    never rematerialized. *)
Theorem getRematerializableSlice_sound ir root rootEncoding stopPropagation slice layout :
  getRematerializableSlice ir root rootEncoding stopPropagation = (success, slice, layout) ->
  (forall v op,
     v ∈ slice -> getDefiningOp ir v = Some op ->
     canBeRemat ir op = true ∧
     ¬ (opKind op ∈ neverRematerialized) ∧
     (isaLoadOrStore op = true -> isExpensiveLoadOrStore ir op = false)) ∧
  (forall opsToRewrite op,
     collectOpsToRewrite ir slice [] = Some opsToRewrite -> op ∈ opsToRewrite ->
     canBeRemat ir op = true ∨
     exists v owner region,
       v ∈ slice ∧ getDefiningOp ir v = None ∧
       getBlockArgOwner ir v = Some (owner, region) ∧
       (op = owner ∨ getTerminator ir (opId owner) region = Some op)) ∧
  ((forall v owner region,
      v ∈ slice -> getDefiningOp ir v = None ->
      getBlockArgOwner ir v = Some (owner, region) ->
      opKind owner = ForOp ∧
      forall terminator, getTerminator ir (opId owner) region = Some terminator ->
                         opKind terminator = YieldOp) ->
   forall opsToRewrite op,
     collectOpsToRewrite ir slice [] = Some opsToRewrite -> op ∈ opsToRewrite ->
     ¬ (opKind op ∈ neverRematerialized)).
Proof.
  unfold getRematerializableSlice.
  destruct (getConvertBackwardSlice ir root rootEncoding stopPropagation)
    as [[result slice0] layout0].
  destruct (failed result || bool_decide (slice0 = [])); [done|].
  destruct (forallb (sliceMemberCanBeRemat ir) slice0) eqn:Hall; [|done].
  intros [= <- <-].
  assert (forall v op, v ∈ slice0 -> getDefiningOp ir v = Some op -> canBeRemat ir op = true)
    as Hremat.
  { intros v op Hv Hdef.
    apply list_elem_of_In in Hv. apply (proj1 (forallb_forall _ _) Hall) in Hv.
    unfold sliceMemberCanBeRemat in Hv. by rewrite Hdef in Hv. }
  assert (forall opsToRewrite op,
    collectOpsToRewrite ir slice0 [] = Some opsToRewrite -> op ∈ opsToRewrite ->
    canBeRemat ir op = true ∨
    exists v owner region,
      v ∈ slice0 ∧ getDefiningOp ir v = None ∧
      getBlockArgOwner ir v = Some (owner, region) ∧
      (op = owner ∨ getTerminator ir (opId owner) region = Some op)) as Hcollected.
  { intros opsToRewrite op Hcollect Hop.
    destruct (collectOpsToRewrite_elem _ _ _ _ _ Hcollect Hop)
      as [Hnil|(v & ops & Hv & Hops & Hin)]; [by apply elem_of_nil in Hnil|].
    unfold opsOfSliceValue in Hops. destruct (getDefiningOp ir v) as [def|] eqn:Hdef.
    - injection Hops as <-. apply list_elem_of_singleton in Hin as ->.
      left. by eapply Hremat.
    - right. destruct (getBlockArgOwner ir v) as [[owner region]|] eqn:Howner;
        simpl in Hops; [|done].
      destruct (getTerminator ir (opId owner) region) as [terminator|] eqn:Hterm;
        simpl in Hops; [|done].
      injection Hops as <-. exists v, owner, region. split_and!; try done.
      apply elem_of_cons in Hin as [->|Hin]; [by left|].
      apply list_elem_of_singleton in Hin as ->. by right. }
  split_and!.
  - intros v op Hv Hdef. pose proof (Hremat v op Hv Hdef) as Hop.
    split; [done|]. by apply canBeRemat_kinds.
  - exact Hcollected.
  - intros Hloops opsToRewrite op Hcollect Hop.
    destruct (Hcollected _ _ Hcollect Hop)
      as [Hok|(v & owner & region & Hv & Hdef & Howner & Hwhich)];
      [by apply canBeRemat_kinds in Hok as [? _]|].
    destruct (Hloops _ _ _ Hv Hdef Howner) as [Hfor Hyield].
    assert (opKind op = ForOp ∨ opKind op = YieldOp) as Hkind.
    { destruct Hwhich as [->|Hterm]; [by left|right; by apply Hyield]. }
    unfold neverRematerialized. rewrite !elem_of_cons, elem_of_nil.
    destruct Hkind as [-> | ->]; intros Hin;
      repeat (destruct Hin as [Hin|Hin]; [discriminate Hin|]); done.
Qed.

Lemma eraseOp_elem ir id op :
  op ∈ irOps (eraseOp ir id) -> op ∈ irOps ir ∧ opId op ≠ id.
Proof.
  unfold eraseOp. simpl. rewrite list_elem_of_filter. intros [[? _] ?]. done.
Qed.

Lemma fold_eraseOp_elem ids ir op :
  op ∈ irOps (fold_left eraseOp ids ir) -> op ∈ irOps ir.
Proof.
  revert ir. induction ids as [|id rest IH]; intros ir; simpl; [done|].
  intros Hop. apply IH in Hop. by apply eraseOp_elem in Hop as [? _].
Qed.

Lemma getOp_None ir id :
  (forall op, op ∈ irOps ir -> opId op ≠ id) -> getOp ir id = None.
Proof.
  intros Hall. unfold getOp.
  destruct (list_find _ _) as [[i op]|] eqn:Hfind; [|done].
  apply list_find_Some in Hfind as (Hi & Hid & _).
  destruct (Hall op); [by eapply list_elem_of_lookup_2|done].
Qed.

Lemma getOp_erased ids ir id : getOp (fold_left eraseOp ids (eraseOp ir id)) id = None.
Proof.
  apply getOp_None. intros op Hop%fold_eraseOp_elem. by apply eraseOp_elem in Hop as [_ ?].
Qed.

(** A [rewriteSlice] that finishes has erased the conversion. *)
Lemma rewriteSlice_erases ir slice layout convertOp mapping ir' :
  rewriteSlice ir slice layout convertOp mapping = Finished ir' ->
  getOp ir' (opId convertOp) = None.
Proof.
  unfold rewriteSlice.
  destruct (collectOpsToRewrite ir slice []) as [opsToRewrite|]; simpl; [|done].
  destruct (rewriteSliceOps _ _ _ _) as [st| |]; simpl; try done.
  destruct (getOp (rsIR st) (opId convertOp)) as [convertOp'|]; simpl; [|done].
  destruct (opOperands convertOp' !! 0) as [src|]; simpl; [|done].
  destruct (rsMapping st !! src) as [replacement|]; simpl; [|done].
  destruct (opResults convertOp' !! 0) as [result|]; simpl; [|done].
  intros [= <-]. apply getOp_erased.
Qed.

Lemma replaceAllUsesWith_inv ir old new op' :
  op' ∈ irOps (replaceAllUsesWith ir old new) ->
  exists op, op ∈ irOps ir ∧ op' = withOperands op (replaceValue old new <$> opOperands op).
Proof.
  unfold replaceAllUsesWith. simpl.
  intros Hop'. apply list_elem_of_In, in_map_iff in Hop' as (op & <- & Hop).
  exists op. split; [by apply list_elem_of_In|done].
Qed.

Lemma replaceValue_gone (old new : Value) (operands : list Value) :
  new ≠ old -> old ∉ (replaceValue old new <$> operands).
Proof.
  intros Hne (v & Hv & _)%list_elem_of_fmap. unfold replaceValue in Hv.
  case_bool_decide; congruence.
Qed.

(** What a [rewriteSlice] that finishes has done. *)
Lemma rewriteSlice_inv ir slice layout convertOp mapping ir' :
  rewriteSlice ir slice layout convertOp mapping = Finished ir' ->
  eliminatedBySlice ir slice layout convertOp mapping ir'.
Proof.
  intros Hrun. pose proof (rewriteSlice_erases _ _ _ _ _ _ Hrun) as Hgone.
  unfold rewriteSlice in Hrun.
  destruct (collectOpsToRewrite ir slice []) as [opsToRewrite|] eqn:Hcollect;
    simpl in Hrun; [|done].
  destruct (rewriteSliceOps _ _ _ _) as [st| |] eqn:Hloop; simpl in Hrun; try done.
  destruct (getOp (rsIR st) (opId convertOp)) as [convertOp'|] eqn:Hcvt;
    simpl in Hrun; [|done].
  destruct (opOperands convertOp' !! 0) as [src|] eqn:Hsrc; simpl in Hrun; [|done].
  destruct (rsMapping st !! src) as [replacement|] eqn:Hmapped; simpl in Hrun; [|done].
  destruct (opResults convertOp' !! 0) as [result|] eqn:Hresult; simpl in Hrun; [|done].
  injection Hrun as Hir'.
  assert (forall op', op' ∈ irOps ir' ->
            exists op, op ∈ irOps (rsIR st) ∧ opId op ≠ opId convertOp ∧
                       op' = withOperands op (replaceValue result replacement <$> opOperands op))
    as Hredirected.
  { intros op' Hop'. rewrite <- Hir' in Hop'. apply fold_eraseOp_elem in Hop'.
    apply eraseOp_elem in Hop' as [Hop' Hid].
    apply replaceAllUsesWith_inv in Hop' as (op & Hop & ->).
    exists op. by split_and!. }
  exists opsToRewrite, st, convertOp', src, result, replacement.
  split_and!; try done.
  intros Hne op' Hop'. destruct (Hredirected op' Hop') as (op & _ & _ & ->).
  simpl. by apply replaceValue_gone.
Qed.

(** C8. [backwardRematerialization] declines without touching the program
    when the conversion has a shared encoding on either side, targets a
    dot-operand encoding, or has no rematerializable slice; and whenever it
    finishes, the program is either the one it was given, or the one in
    which the conversion has been eliminated by rewriting the
    rematerializable slice of its source: the operations of the slice have
    been rewritten, every use of the conversion's result has become a use of
    the rewritten source, and the conversion has been erased. *)
Theorem backwardRematerialization_all_or_nothing ir convertOp :
  (forall result src,
     opResults convertOp !! 0 = Some result -> opOperands convertOp !! 0 = Some src ->
     hasSharedEncoding ir result = true ∨ hasSharedEncoding ir src = true ∨
     (exists targetEncoding,
        getValueEncoding ir result = Some targetEncoding ∧
        (isaDotOperandEncodingAttr targetEncoding = true ∨
         (getRematerializableSlice ir src targetEncoding None).1.1 = failure)) ->
     backwardRematerialization ir convertOp = Finished ir) ∧
  (forall ir',
     backwardRematerialization ir convertOp = Finished ir' ->
     ir' = ir ∨
     exists result src targetEncoding slice layout,
       opResults convertOp !! 0 = Some result ∧ opOperands convertOp !! 0 = Some src ∧
       getValueEncoding ir result = Some targetEncoding ∧
       getRematerializableSlice ir src targetEncoding None = (success, slice, layout) ∧
       eliminatedBySlice ir slice layout convertOp ∅ ir' ∧
       getOp ir' (opId convertOp) = None).
Proof.
  unfold backwardRematerialization. split.
  - intros result src -> ->. simpl.
    destruct (hasSharedEncoding ir result) eqn:Hres; simpl; [done|].
    destruct (hasSharedEncoding ir src) eqn:Hsrc; simpl; [done|].
    intros [?|[?|(enc & -> & Hdecl)]]; try done. simpl.
    destruct (isaDotOperandEncodingAttr enc) eqn:Hdot; [done|].
    destruct Hdecl as [?|Hslice]; [done|].
    destruct (getRematerializableSlice ir src enc None) as [[r slice] layout].
    simpl in Hslice. by subst r.
  - intros ir'.
    destruct (opResults convertOp !! 0) as [result|]; simpl; [|done].
    destruct (opOperands convertOp !! 0) as [src|]; simpl; [|done].
    destruct (hasSharedEncoding ir result || hasSharedEncoding ir src);
      [intros [= <-]; by left|].
    destruct (getValueEncoding ir result) as [enc|] eqn:Henc; simpl; [|done].
    destruct (isaDotOperandEncodingAttr enc); [intros [= <-]; by left|].
    destruct (getRematerializableSlice ir src enc None) as [[r slice] layout] eqn:Hslice.
    destruct r; simpl; [|intros [= <-]; by left].
    intros Hrewrite. right. exists result, src, enc, slice, layout.
    split_and!; try done.
    + by apply rewriteSlice_inv.
    + by eapply rewriteSlice_erases.
Qed.

(** ** The dot-accumulator pattern *)

Lemma getDefiningOpOfKind_Some ir v kind op :
  getDefiningOpOfKind ir v kind = Some op <->
  getDefiningOp ir v = Some op ∧ opKind op = kind.
Proof.
  unfold getDefiningOpOfKind. destruct (getDefiningOp ir v) as [def|].
  - case_bool_decide; split.
    + by intros [= <-].
    + by intros [[= <-] _].
    + done.
    + intros [[= <-] ?]. done.
  - split; [done|by intros [? _]].
Qed.

Lemma getDefiningOpOfKind_None ir v kind op :
  getDefiningOpOfKind ir v kind = None -> getDefiningOp ir v = Some op -> opKind op ≠ kind.
Proof.
  intros Hnone Hdef Hkind.
  assert (getDefiningOpOfKind ir v kind = Some op) as Hsome
    by by apply getDefiningOpOfKind_Some.
  congruence.
Qed.

Lemma replaceAllUsesWithEach_one ir old olds new :
  replaceAllUsesWithEach ir (old :: olds) [new] = replaceAllUsesWith ir old new.
Proof. simpl. by destruct olds. Qed.

(** Once the pattern matched, the rewrite can only succeed, and it builds
    the addition in the place of the conversion. *)
Lemma rewriteDotConvert_inv ir op dotOp dstTy loaded r ir' dst :
  rewriteDotConvert ir op dotOp dstTy loaded = Finished (r, ir') ->
  opResults op !! 0 = Some dst -> getType ir dst = Some dstTy ->
  r = success ∧ rewrittenToAdd ir op dotOp loaded dstTy ir' ∧
  getOp ir' (opId op) = None ∧
  forall op', op' ∈ irOps ir' -> dst ∉ opOperands op'.
Proof.
  unfold rewriteDotConvert.
  destruct (getElementType dstTy) as [elementType|] eqn:Helt; simpl; [|done].
  destruct (opResults dotOp !! 0) as [dotResult|] eqn:HdotResult; simpl; [|done].
  destruct (getType ir dotResult) as [dotTy|] eqn:HdotTy; simpl; [|done].
  destruct (opOperands dotOp !! 0) as [a|] eqn:Ha; simpl; [|done].
  destruct (opOperands dotOp !! 1) as [b|] eqn:Hb; simpl; [|done].
  destruct (createOp ir _ ConstantOp _ _ _ _) as [[ir1 zeroF]| |] eqn:H1; simpl; try done.
  destruct (opResults zeroF !! 0) as [zeroFResult|] eqn:Hz1; simpl; [|done].
  destruct (createOp ir1 _ SplatOp _ _ _ _) as [[ir2 zero]| |] eqn:H2; simpl; try done.
  destruct (opResults zero !! 0) as [zeroResult|] eqn:Hz2; simpl; [|done].
  destruct (createOp ir2 _ DotOp _ _ _ _) as [[ir3 newDot]| |] eqn:H3; simpl; try done.
  destruct (opResults newDot !! 0) as [newDotResult|] eqn:Hz3; simpl; [|done].
  destruct (createOp ir3 _ ConvertLayoutOp _ _ _ _) as [[ir4 newCvt]| |] eqn:H4;
    simpl; try done.
  destruct (opResults newCvt !! 0) as [newCvtResult|] eqn:Hz4; simpl; [|done].
  destruct (createOp ir4 _ AddFOp _ _ _ _) as [[ir5 add]| |] eqn:H5; simpl; try done.
  intros [= <- <-] Hdst HdstTy.
  destruct (createOp_one _ _ _ _ _ _ _ _ _ H1) as (_ & k1 & k2 & _ & _ & _ & Hins & _).
  simpl in Hins. apply insertBeforeOp_first in Hins
    as (l1 & next & l2 & Hops & Hnext & Hl1 & _). clear k1 k2.
  destruct (createOp_before _ _ _ _ _ _ _ _ _ _ _ _ H1 Hops Hnext Hl1)
    as (Hops1 & Hl1_1 & Hk1 & Ho1 & Hr1 & Ha1 & Ht1 & Hkept1).
  destruct (createOp_before _ _ _ _ _ _ _ _ _ _ _ _ H2 Hops1 Hnext Hl1_1)
    as (Hops2 & Hl1_2 & Hk2 & Ho2 & Hr2 & _ & Ht2 & Hkept2).
  destruct (createOp_before _ _ _ _ _ _ _ _ _ _ _ _ H3 Hops2 Hnext Hl1_2)
    as (Hops3 & Hl1_3 & Hk3 & Ho3 & Hr3 & Ha3 & Ht3 & Hkept3).
  destruct (createOp_before _ _ _ _ _ _ _ _ _ _ _ _ H4 Hops3 Hnext Hl1_3)
    as (Hops4 & Hl1_4 & Hk4 & Ho4 & Hr4 & _ & Ht4 & Hkept4).
  destruct (createOp_before _ _ _ _ _ _ _ _ _ _ _ _ H5 Hops4 Hnext Hl1_4)
    as (Hops5 & _ & Hk5 & Ho5 & Hr5 & _ & Ht5 & Hkept5).
  rewrite Hr1 in Hz1. injection Hz1 as <-.
  rewrite Hr2 in Hz2. injection Hz2 as <-.
  rewrite Hr3 in Hz3. injection Hz3 as <-.
  rewrite Hr4 in Hz4. injection Hz4 as <-.
  assert (freshValue ir4 ≠ dst) as Hnew.
  { intros Heq. apply Hkept1, Hkept2, Hkept3, Hkept4 in HdstTy.
    unfold getType in HdstTy. by rewrite <- Heq, freshValue_untyped in HdstTy. }
  split; [done|]. split; [|split].
  - exists l1, next, l2, a, b, dotResult, dotTy, elementType,
      zeroF, (freshValue ir), zero, (freshValue ir1), newDot, (freshValue ir2),
      newCvt, (freshValue ir3), add, (freshValue ir4), ir5.
    rewrite Hr5. split_and!; try done.
    + rewrite Hops5, <- !app_assoc. done.
    + intros v t Hv. by apply Hkept5, Hkept4, Hkept3, Hkept2, Hkept1.
    + by apply Hkept5, Hkept4, Hkept3, Hkept2.
    + by apply Hkept5, Hkept4, Hkept3.
    + by apply Hkept5, Hkept4.
    + by apply Hkept5.
  - apply (getOp_erased []).
  - intros op' Hop'. apply eraseOp_elem in Hop' as [Hop' _].
    rewrite Hr5 in Hop'. destruct (opResults op) as [|dst' rest]; [done|].
    injection Hdst as ->. rewrite replaceAllUsesWithEach_one in Hop'.
    apply replaceAllUsesWith_inv in Hop' as (op0 & _ & ->). simpl.
    by apply replaceValue_gone.
Qed.

Lemma matchAndRewrite_inv ir op r ir' :
  matchAndRewrite ir op = Finished (r, ir') ->
  (r = failure ∧ ir' = ir ∧ ¬ dotConvertMatches ir op) ∨
  (r = success ∧ dotConvertMatches ir op ∧
   exists src dotOp acc cvtOp loaded dst dstTy,
     opOperands op !! 0 = Some src ∧ getDefiningOp ir src = Some dotOp ∧
     opOperands dotOp !! 2 = Some acc ∧ getDefiningOp ir acc = Some cvtOp ∧
     opOperands cvtOp !! 0 = Some loaded ∧
     opResults op !! 0 = Some dst ∧ getType ir dst = Some dstTy ∧
     rewrittenToAdd ir op dotOp loaded dstTy ir' ∧
     getOp ir' (opId op) = None ∧
     forall op', op' ∈ irOps ir' -> dst ∉ opOperands op').
Proof.
  unfold matchAndRewrite. case_bool_decide as Hkind; simpl; [|done].
  destruct (opOperands op !! 0) as [src|] eqn:Hsrc; simpl; [|done].
  destruct (getDefiningOpOfKind ir src DotOp) as [dotOp|] eqn:Hdot.
  2:{ intros [= <- <-]. left. split_and!; try done.
      intros (loaded & dst & ty & (src' & dotOp & acc & cvtOp & loadOp & Hp) & _).
      destruct Hp as (Hsrc' & Hdef & Hk & _). simplify_eq.
      by eapply getDefiningOpOfKind_None. }
  apply getDefiningOpOfKind_Some in Hdot as [Hdotdef Hdotkind].
  destruct (negb (numUsers ir op =? 1) || negb (numUsers ir dotOp =? 1)) eqn:Husers.
  { intros [= <- <-]. left. split_and!; try done.
    intros (loaded & dst & ty & (src' & dotOp' & acc & cvtOp & loadOp & Hp) & _).
    destruct Hp as (Hsrc' & Hdef & _ & Hu1 & Hu2 & _). simplify_eq.
    rewrite Hu1, Hu2 in Husers. done. }
  apply orb_false_iff in Husers as [Hu1 Hu2].
  apply negb_false_iff, Nat.eqb_eq in Hu1, Hu2.
  destruct (opOperands dotOp !! 2) as [acc|] eqn:Hacc; simpl; [|done].
  destruct (getDefiningOpOfKind ir acc ConvertLayoutOp) as [cvtOp|] eqn:Hcvt.
  2:{ intros [= <- <-]. left. split_and!; try done.
      intros (loaded & dst & ty & (src' & dotOp' & acc' & cvtOp & loadOp & Hp) & _).
      destruct Hp as (Hsrc' & Hdef & _ & _ & _ & Hacc' & Hcvtdef & Hcvtkind & _).
      simplify_eq. by eapply getDefiningOpOfKind_None. }
  apply getDefiningOpOfKind_Some in Hcvt as [Hcvtdef Hcvtkind].
  destruct (opOperands cvtOp !! 0) as [loaded|] eqn:Hloaded; simpl; [|done].
  destruct (getDefiningOpOfKind ir loaded LoadOp) as [loadOp|] eqn:Hload.
  2:{ intros [= <- <-]. left. split_and!; try done.
      intros (loaded' & dst & ty & (src' & dotOp' & acc' & cvtOp' & loadOp & Hp) & _).
      destruct Hp as (Hsrc' & Hdef & _ & _ & _ & Hacc' & Hcvtdef' & _ & Hl & Hld & Hlk).
      simplify_eq. by eapply getDefiningOpOfKind_None. }
  apply getDefiningOpOfKind_Some in Hload as [Hloaddef Hloadkind].
  assert (dotConvertShape (numUsers ir) ir op loaded) as Hshape.
  { exists src, dotOp, acc, cvtOp, loadOp. split_and!; done. }
  destruct (opResults op !! 0) as [dst|] eqn:Hdst; simpl; [|done].
  destruct (getType ir dst) as [dstTy|] eqn:HdstTy; simpl; [|done].
  destruct (getType ir loaded) as [srcTy|] eqn:HsrcTy; simpl; [|done].
  case_bool_decide as Hty; simpl.
  - subst srcTy. intros Hrewrite.
    destruct (rewriteDotConvert_inv _ _ _ _ _ _ _ _ Hrewrite Hdst HdstTy)
      as (-> & Hbuilt & Herased & Hunused).
    right. split_and!; try done; [by exists loaded, dst, dstTy|].
    exists src, dotOp, acc, cvtOp, loaded, dst, dstTy. by split_and!.
  - intros [= <- <-]. left. split_and!; try done.
    intros (loaded' & dst' & ty & (src' & dotOp' & acc' & cvtOp' & loadOp' & Hp) & Hd & Ht1 & Ht2).
    destruct Hp as (Hsrc' & Hdef & _ & _ & _ & Hacc' & Hcvtdef' & _ & Hl & _).
    simplify_eq.
Qed.

(** C9, as the code has it.  Whenever [matchAndRewrite] returns, it
    succeeds exactly when the conversion has the shape the spec lists, the
    dot and the conversion having one use each, and, in addition, produces
    the very type of the loaded value.  On failure the program is the one it
    was given.  On success the conversion has become the addition of a
    conversion of the dot on a zero accumulator and the loaded value: a zero
    constant, its splat, the new dot, its conversion and the addition stand
    where the conversion stood, the uses of the conversion are uses of the
    addition, and the conversion is gone. *)
Theorem matchAndRewrite_exact ir op r ir' :
  matchAndRewrite ir op = Finished (r, ir') ->
  (r = success <-> dotConvertMatches ir op) ∧
  (r = failure -> ir' = ir) ∧
  (r = success ->
   exists src dotOp acc cvtOp loaded dst dstTy,
     opOperands op !! 0 = Some src ∧ getDefiningOp ir src = Some dotOp ∧
     opOperands dotOp !! 2 = Some acc ∧ getDefiningOp ir acc = Some cvtOp ∧
     opOperands cvtOp !! 0 = Some loaded ∧
     opResults op !! 0 = Some dst ∧ getType ir dst = Some dstTy ∧
     rewrittenToAdd ir op dotOp loaded dstTy ir' ∧
     getOp ir' (opId op) = None ∧
     forall op', op' ∈ irOps ir' -> dst ∉ opOperands op').
Proof.
  intros [(-> & -> & Hno)|(-> & Hyes & Hbuilt)]%matchAndRewrite_inv.
  - split_and!; [split; [done|by intros ?]|done|done].
  - split_and!; [done|done|done].
Qed.

(** * Further properties of the pass *)

(** ** Propagation only appends *)

Lemma layouts_set_same v info (layouts : Layouts) :
  layouts_find v layouts = Some info -> layouts_set v info layouts = layouts.
Proof.
  induction layouts as [|[k i] rest IH]; simpl; [done|].
  case_bool_decide; [by intros [= ->]|]. intros Hfind. by rewrite IH.
Qed.

(** Inserting a candidate the value already holds leaves the map as it
    is. *)
Lemma insertEncoding_present v e (layouts : Layouts) :
  e ∈ candidates layouts v -> insertEncoding v e layouts = (false, layouts).
Proof.
  unfold candidates. destruct (layouts_find v layouts) as [info|] eqn:Hfind; simpl;
    [|by intros ?%elem_of_nil].
  intros He. rewrite (insertEncoding_found _ _ _ _ Hfind).
  unfold SetVector_insert. rewrite bool_decide_eq_true_2 by done. simpl.
  f_equal. apply layouts_set_same. by destruct info.
Qed.

Lemma insertEncoding_other v e (layouts : Layouts) v' :
  v' ≠ v -> candidates (insertEncoding v e layouts).2 v' = candidates layouts v'.
Proof.
  intros Hne. unfold candidates.
  destruct (layouts_find v layouts) as [info|] eqn:Hfind.
  - rewrite (insertEncoding_found _ _ _ _ Hfind). simpl.
    by rewrite layouts_set_find, bool_decide_eq_false_2.
  - rewrite (insertEncoding_fresh _ _ _ Hfind). simpl. rewrite layouts_find_app.
    destruct (layouts_find v' layouts); [done|]. simpl.
    by rewrite bool_decide_eq_false_2.
Qed.

Lemma insertEncoding_prefix v e (layouts : Layouts) v' :
  candidates layouts v' `prefix_of` candidates (insertEncoding v e layouts).2 v'.
Proof.
  destruct (decide (v' = v)) as [->|Hne]; [|by rewrite insertEncoding_other].
  unfold candidates. destruct (layouts_find v layouts) as [info|] eqn:Hfind.
  - rewrite (insertEncoding_found _ _ _ _ Hfind). simpl.
    rewrite layouts_set_find, bool_decide_eq_true_2, Hfind by done. simpl.
    unfold SetVector_insert. case_bool_decide; simpl; [done|]. by apply prefix_app_r.
  - simpl. apply prefix_nil.
Qed.

Lemma applyInserts_prefix inserts layouts v :
  candidates layouts v `prefix_of` candidates (applyInserts inserts layouts) v.
Proof.
  revert layouts. induction inserts as [|[x e] rest IH]; intros layouts; [done|].
  etrans; [apply (insertEncoding_prefix x e)|apply IH].
Qed.

Lemma propagateLoop_prefix fuel ir st layouts' v :
  propagateLoop fuel ir st = Finished layouts' ->
  candidates st.2 v `prefix_of` candidates layouts' v.
Proof.
  revert st. induction fuel as [|fuel IH]; intros st; simpl.
  - destruct (propagateStep ir st); [done|]. by intros [= <-].
  - destruct (propagateStep ir st) as [[st'| |]|] eqn:Hstep; simpl; try done.
    + intros Hrest. etrans; [|by apply IH].
      destruct (propagateStep_propagates ir st st' Hstep)
        as (cur & queue & changed & ins & _ & _ & -> & _).
      rewrite <- (layouts_index_candidates cur st.2 v). apply applyInserts_prefix.
    + by intros [= <-].
Qed.

(** X1. The candidates a value holds when [propagateLayout] starts are, in the
    same order, the first candidates it holds when the propagation ends:
    the propagation appends candidates and never removes or reorders
    them. *)
Theorem propagateLayout_appends ir fuel layouts0 layouts' v :
  propagateLayout fuel ir layouts0 = Finished layouts' ->
  candidates layouts0 v `prefix_of` candidates layouts' v.
Proof. apply (propagateLoop_prefix fuel ir (initialQueue layouts0, layouts0)). Qed.

Lemma anchorsOk_candidates ir layouts v :
  anchorsOk ir layouts -> v ∈ layouts.*1 ->
  exists e, getValueEncoding ir v = Some e ∧ candidates layouts v = [e].
Proof.
  intros [_ Hall] [info Hfind]%layouts_find_is_Some.
  pose proof (layouts_find_Some_elem _ _ _ Hfind) as Hin.
  apply (proj1 (Forall_forall _ _) Hall) in Hin as (e & He & Henc). simpl in *.
  exists e. split; [done|]. unfold candidates. by rewrite Hfind.
Qed.

(** X2. An anchor whose own encoding is of the family [resolveConflicts]
    prefers for it keeps that encoding through the whole analysis: a blocked
    encoding for a result of a load, store or atomic, an MMA encoding for
    any other anchor. *)
Theorem anchor_keeps_preferred_encoding ir fuel layouts0 layouts' v e :
  initAnchorLayout ir = Finished layouts0 ->
  propagateLayout fuel ir layouts0 = Finished layouts' ->
  v ∈ layouts0.*1 ->
  getValueEncoding ir v = Some e ->
  (if isLoadOrStore ir v then isaBlockedEncodingAttr e else isaNvidiaMmaEncodingAttr e) = true ->
  layouts_find v (resolveConflicts ir layouts') = Some (mkLayoutInfo [e]).
Proof.
  intros Hinit Hprop Hkey Henc Hfamily.
  destruct (anchorsOk_candidates ir layouts0 v (initAnchorLayout_anchorsOk _ _ Hinit) Hkey)
    as (e' & He' & Hcands).
  assert (e' = e) as -> by congruence.
  pose proof (propagateLoop_prefix fuel ir (initialQueue layouts0, layouts0) layouts' v Hprop) as [rest Hrest].
  simpl in Hrest. rewrite Hcands in Hrest. simpl in Hrest.
  rewrite layouts_find_resolveConflicts. unfold candidates in Hrest.
  destruct (layouts_find v layouts') as [info|]; simpl in *; [|done].
  destruct info as [encs]. simpl in *. subst encs. unfold resolveEntry. simpl.
  destruct rest as [|e2 rest]; simpl; [done|].
  destruct (isLoadOrStore ir v); simpl in *; by rewrite Hfamily.
Qed.

(** ** The propagation ends at a fixpoint *)

Lemma propagateToUse_useTargets ir info use st :
  propagateToUse ir info use st =
  targets ← useTargets ir use; Some (setEncoding ir targets info st use.1).
Proof.
  destruct use as [user n]. unfold propagateToUse, useTargets. simpl.
  destruct (opKind user); simpl;
    repeat match goal with
           | |- context [if ?b then _ else _] => destruct b; simpl
           | |- context [match opKind ?x with _ => _ end] => destruct (opKind x); simpl
           | |- context [mbind _ ?o] => destruct o; simpl
           end; done.
Qed.

Lemma setEncodingSteps_tracks op value encs b layouts :
  (forall v, v ≠ value ->
     candidates (fold_left (setEncodingStep op value) encs (b, layouts)).2 v =
     candidates layouts v ∧
     (v ∈ (fold_left (setEncodingStep op value) encs (b, layouts)).2.*1 -> v ∈ layouts.*1)) ∧
  (b = true -> (fold_left (setEncodingStep op value) encs (b, layouts)).1 = true) ∧
  ((fold_left (setEncodingStep op value) encs (b, layouts)).1 = false ->
   (fold_left (setEncodingStep op value) encs (b, layouts)).2 = layouts).
Proof.
  revert b layouts. induction encs as [|e rest IH]; intros b layouts; simpl.
  - split_and!; [done|done|done].
  - destruct (dstEncodingOf op e) as [d|]; [|apply IH].
    destruct (insertEncoding value d layouts) as [isNew layouts1] eqn:Hins.
    assert (layouts1 = (insertEncoding value d layouts).2) as HL1 by by rewrite Hins.
    assert (isNew = (insertEncoding value d layouts).1) as HisNew by by rewrite Hins.
    destruct (IH (b || isNew) layouts1) as (Hother & Hmono & Hsame).
    split_and!.
    + intros v Hv. destruct (Hother v Hv) as [Hc Hk]. split.
      * by rewrite Hc, HL1, insertEncoding_other.
      * intros Hin. apply Hk in Hin. rewrite HL1 in Hin.
        apply insertEncoding_keys in Hin as [?|?]; done.
    + intros ->. by apply Hmono.
    + intros Hfalse. rewrite (Hsame Hfalse).
      destruct (b || isNew) eqn:Hb; [by rewrite Hmono in Hfalse|].
      apply orb_false_iff in Hb as [_ ->].
      rewrite insertEncoding_isNew in HisNew.
      symmetry in HisNew. apply negb_false_iff, bool_decide_eq_true in HisNew.
      by rewrite HL1, insertEncoding_present.
Qed.

Lemma tracks_refl st : tracks st st.
Proof. exists []. split; [by rewrite app_nil_r|done]. Qed.

Lemma tracks_trans st1 st2 st3 : tracks st1 st2 -> tracks st2 st3 -> tracks st1 st3.
Proof.
  intros (ex1 & Hc1 & H1) (ex2 & Hc2 & H2). exists (ex1 ++ ex2). split.
  - by rewrite Hc2, Hc1, app_assoc.
  - intros v Hv. rewrite elem_of_app in Hv.
    destruct (H1 v) as [Hc Hk]; [by auto|]. destruct (H2 v) as [Hc' Hk']; [by auto|].
    split; [by rewrite Hc', Hc|auto].
Qed.

Lemma setEncodingValue_tracks ir info op st value :
  tracks st (setEncodingValue ir info op st value).
Proof.
  unfold setEncodingValue. destruct (isRankedTensor ir value); simpl; [|apply tracks_refl].
  destruct (setEncodingSteps_tracks op value (encodings info) false st.1)
    as (Hother & _ & Hsame).
  destruct (fold_left _ _ _) as [hasChanged layouts'] eqn:Hfold. simpl in *.
  destruct hasChanged.
  - exists [value]. split; [done|]. intros v Hv. apply Hother.
    intros ->. apply Hv. left.
  - rewrite (Hsame eq_refl). destruct st. apply tracks_refl.
Qed.

Lemma setEncoding_tracks ir values info st op :
  tracks st (setEncoding ir values info st op).
Proof.
  unfold setEncoding. revert st. induction values as [|value rest IH]; intros st; simpl.
  - apply tracks_refl.
  - eapply tracks_trans; [apply setEncodingValue_tracks|apply IH].
Qed.

Lemma propagateToUses_tracks ir info uses st st' :
  propagateToUses ir info uses st = Some st' -> tracks st st'.
Proof.
  revert st. induction uses as [|use rest IH]; intros st; simpl.
  - intros [= <-]. apply tracks_refl.
  - rewrite propagateToUse_useTargets.
    destruct (useTargets ir use) as [targets|]; simpl; [|done].
    intros Hrest. eapply tracks_trans; [apply setEncoding_tracks|by apply IH].
Qed.

Lemma setEncodingSteps_present op value encs b layouts :
  (forall e d, e ∈ encs -> dstEncodingOf op e = Some d -> d ∈ candidates layouts value) ->
  fold_left (setEncodingStep op value) encs (b, layouts) = (b, layouts).
Proof.
  induction encs as [|e rest IH]; intros Hall; simpl; [done|].
  destruct (dstEncodingOf op e) as [d|] eqn:Hd.
  - rewrite insertEncoding_present by (eapply Hall; [left|done]).
    rewrite orb_false_r. apply IH. intros e' d' He'. apply Hall. by right.
  - apply IH. intros e' d' He'. apply Hall. by right.
Qed.

(** [setEncoding] on values that already hold what [info] derives for them
    changes nothing. *)
Lemma setEncoding_present ir values info st op :
  (forall t e d, t ∈ values -> isRankedTensor ir t = true ->
                 e ∈ encodings info -> dstEncodingOf op e = Some d ->
                 d ∈ candidates st.1 t) ->
  setEncoding ir values info st op = st.
Proof.
  unfold setEncoding. induction values as [|value rest IH]; intros Hall; simpl; [done|].
  assert (setEncodingValue ir info op st value = st) as ->.
  { unfold setEncodingValue. destruct (isRankedTensor ir value) eqn:Htensor; simpl; [|done].
    rewrite setEncodingSteps_present; [by destruct st|].
    intros e d He Hd. eapply Hall; [left|done..]. }
  apply IH. intros t e d Ht. apply Hall. by right.
Qed.

Lemma propagateToUses_present ir info uses st :
  (forall use, use ∈ uses ->
     exists targets,
       useTargets ir use = Some targets ∧
       forall t e d, t ∈ targets -> isRankedTensor ir t = true ->
                     e ∈ encodings info -> dstEncodingOf use.1 e = Some d ->
                     d ∈ candidates st.1 t) ->
  propagateToUses ir info uses st = Some st.
Proof.
  induction uses as [|use rest IH]; intros Hall; simpl; [done|].
  destruct (Hall use) as (targets & Htargets & Hheld); [left|].
  rewrite propagateToUse_useTargets, Htargets. simpl.
  rewrite setEncoding_present by done. apply IH. intros use' Huse'. apply Hall. by right.
Qed.

Lemma layouts_index_keys v (layouts : Layouts) v' :
  v' ∈ (layouts_index v layouts).2.*1 -> v' ∈ layouts.*1 ∨ v' = v.
Proof.
  unfold layouts_index. destruct (layouts_find v layouts); simpl; [by left|].
  rewrite fmap_app, elem_of_app. simpl. rewrite list_elem_of_singleton. done.
Qed.

Lemma propagateStep_workInv ir st st' :
  workInv ir st -> propagateStep ir st = Some (Finished st') -> workInv ir st'.
Proof.
  intros Hinv Hstep.
  destruct (propagateStep_inv ir st st' Hstep) as (cur & queue & changed & Hq & Hp & Hq').
  unfold propagateToUsers in Hp.
  pose proof (propagateToUses_tracks _ _ _ _ _ Hp) as (extra & Hextra & Htracks).
  pose proof (propagateToUses_propagates _ _ _ _ _ Hp) as Hgrow.
  simpl in Hextra, Htracks. subst extra.
  assert (Hmono : forall v e, e ∈ candidates st.2 v -> e ∈ candidates st'.2 v).
  { intros v e He. apply (propagates_candidates _ _ _ _ _ Hgrow). simpl.
    by rewrite layouts_index_candidates. }
  intros v Hv. rewrite Hq'. unfold pushAll. rewrite elem_of_app, elem_of_reverse.
  destruct (decide (v ∈ changed)) as [?|Hnot]; [by left; left|].
  destruct (Htracks v Hnot) as [Hsame Hkey]. rewrite layouts_index_candidates in Hsame.
  destruct (decide (v = cur)) as [->|Hne].
  - right. intros use Huse.
    destruct (propagateToUses_at _ _ _ _ _ _ Huse Hp) as (st1 & st2 & Hone & Hrest).
    rewrite propagateToUse_useTargets in Hone.
    destruct (useTargets ir use) as [targets|]; simpl in Hone; [|done].
    injection Hone as <-. exists targets. split; [done|].
    intros t e d Ht Htensor He Hd. rewrite Hsame, <- layouts_index_info in He.
    apply (propagates_candidates _ _ _ _ _ Hrest).
    by apply (setEncoding_inserts ir targets _ st1 use.1 t e d).
  - apply Hkey, layouts_index_keys in Hv as [Hv|?]; [|done].
    destruct (Hinv v Hv) as [Hqueued|Hsettled].
    + rewrite Hq in Hqueued. apply elem_of_cons in Hqueued as [?|?]; [done|by left; right].
    + right. intros use Huse. destruct (Hsettled use Huse) as (targets & Htargets & Hheld).
      exists targets. split; [done|]. intros t e d Ht Htensor He Hd.
      rewrite Hsame in He. by apply Hmono, (Hheld t e d).
Qed.

Lemma propagateLoop_workInv fuel ir st layouts' :
  workInv ir st -> propagateLoop fuel ir st = Finished layouts' ->
  forall v, v ∈ layouts'.*1 -> settled ir layouts' v.
Proof.
  revert st. induction fuel as [|fuel IH]; intros st Hinv; simpl.
  - destruct (propagateStep ir st) eqn:Hstep; [done|]. intros [= <-] v Hv.
    destruct (Hinv v Hv) as [Hq|?]; [|done].
    unfold propagateStep in Hstep. destruct st.1; [by apply elem_of_nil in Hq|].
    by destruct (layouts_index _ _).
  - destruct (propagateStep ir st) as [[st'| |]|] eqn:Hstep; simpl; try done.
    + apply IH. by eapply propagateStep_workInv.
    + intros [= <-] v Hv. destruct (Hinv v Hv) as [Hq|?]; [|done].
      unfold propagateStep in Hstep. destruct st.1; [by apply elem_of_nil in Hq|].
      by destruct (layouts_index _ _).
Qed.

(** X3. Whatever map it starts from, [propagateLayout] ends at a fixpoint of the
    propagation: running [propagateToUsers] once more for any value of the
    final map, with the candidates the value holds there, leaves the map as
    it is and reports no changed value. *)
Theorem propagateLayout_fixpoint ir fuel layouts0 layouts' v info :
  propagateLayout fuel ir layouts0 = Finished layouts' ->
  layouts_find v layouts' = Some info ->
  propagateToUsers ir v info layouts' = Some (layouts', []).
Proof.
  intros Hrun Hfind.
  assert (settled ir layouts' v) as Hsettled.
  { eapply (propagateLoop_workInv fuel ir (initialQueue layouts0, layouts0)); [|done|].
    - intros x Hx. left. simpl. unfold initialQueue. by rewrite elem_of_reverse.
    - apply layouts_find_is_Some. by rewrite Hfind. }
  apply propagateToUses_present. intros use Huse.
  destruct (Hsettled use Huse) as (targets & Htargets & Hheld).
  exists targets. split; [done|]. intros t e d Ht Htensor He Hd.
  apply (Hheld t e d); try done. unfold candidates. by rewrite Hfind.
Qed.

(** ** Where the propagation goes *)

(** What [propagateToUsers] has done for one use of the value when it
    returns. *)
Lemma propagateToUsers_targets ir value info layouts layouts' changed use :
  propagateToUsers ir value info layouts = Some (layouts', changed) ->
  use ∈ getUses ir value ->
  exists targets,
    useTargets ir use = Some targets ∧
    forall t e d,
      t ∈ targets -> isRankedTensor ir t = true ->
      e ∈ encodings info -> dstEncodingOf use.1 e = Some d ->
      d ∈ candidates layouts' t.
Proof.
  intros Hp Huse.
  destruct (propagateToUses_at _ _ _ _ _ _ Huse Hp) as (st1 & st2 & Hone & Hrest).
  rewrite propagateToUse_useTargets in Hone.
  destruct (useTargets ir use) as [targets|]; simpl in Hone; [|done].
  injection Hone as <-. exists targets. split; [done|].
  intros t e d Ht Htensor He Hd.
  apply (propagates_candidates _ _ _ _ _ Hrest).
  by apply (setEncoding_inserts ir targets _ st1 use.1 t e d).
Qed.

(** X4. Through a layout conversion the candidates go unchanged: every
    candidate of the converted value becomes a candidate of the conversion's
    result, whatever the inference of destination encodings says. *)
Theorem propagateToUsers_through_convert ir value info layouts layouts' changed
    cvt n result e :
  propagateToUsers ir value info layouts = Some (layouts', changed) ->
  (cvt, n) ∈ getUses ir value ->
  opKind cvt = ConvertLayoutOp ->
  result ∈ opResults cvt ->
  isRankedTensor ir result = true ->
  e ∈ encodings info ->
  e ∈ candidates layouts' result.
Proof.
  intros Hp Huse Hkind Hresult Htensor He.
  destruct (propagateToUsers_targets _ _ _ _ _ _ _ Hp Huse) as (targets & Htargets & Hheld).
  unfold useTargets, propagatesThrough in Htargets. rewrite Hkind in Htargets.
  rewrite !orb_true_r in Htargets. injection Htargets as <-.
  apply (Hheld result e e); try done.
  unfold dstEncodingOf. simpl. by rewrite Hkind, bool_decide_eq_true_2.
Qed.

(** X5. A value used only by operations that let no layout through (neither a
    loop construct or terminator, nor an operation with the
    same-encoding or elementwise trait, nor a reduce, expand-dims, reshape,
    join, split or conversion) propagates nothing: the map is unchanged and
    no value is reported changed. *)
Theorem propagateToUsers_stops ir value info layouts :
  (forall user n, (user, n) ∈ getUses ir value ->
     propagatesThrough user = false ∧
     ¬ (opKind user ∈ [ForOp; WhileOp; YieldOp; ConditionOp])) ->
  propagateToUsers ir value info layouts = Some (layouts, []).
Proof.
  intros Hall. apply propagateToUses_present. intros [user n] Huse.
  destruct (Hall user n Huse) as [Hthrough Hkind].
  exists []. split; [|by intros t e d ?%elem_of_nil].
  unfold useTargets. rewrite Hthrough.
  destruct (opKind user); try done; exfalso; apply Hkind;
    repeat first [left; done | right].
Qed.

(** X6. A use by a [scf.yield] sends every destination encoding to the values
    the parent ties to the yielded operand: the result and the iteration
    argument of a [scf.for], the result of a [scf.if], and for a
    [scf.while] the argument of the "before" region together with the
    operand of the loop itself. *)
Theorem propagateToUsers_yield ir value info layouts layouts' changed yieldOp n parent t e d :
  propagateToUsers ir value info layouts = Some (layouts', changed) ->
  (yieldOp, n) ∈ getUses ir value ->
  opKind yieldOp = YieldOp ->
  getParentOp ir yieldOp = Some parent ->
  (opKind parent = ForOp ∧
     (opResults parent !! n = Some t ∨ getRegionIterArg parent n = Some t)) ∨
  (opKind parent = IfOp ∧ opResults parent !! n = Some t) ∨
  (opKind parent = WhileOp ∧
     (getBeforeArguments parent !! n = Some t ∨ opOperands parent !! n = Some t)) ->
  isRankedTensor ir t = true ->
  e ∈ encodings info ->
  inferDstEncoding yieldOp e = Some d ->
  d ∈ candidates layouts' t.
Proof.
  intros Hp Huse Hkind Hparent Hwhich Htensor He Hd.
  destruct (propagateToUsers_targets _ _ _ _ _ _ _ Hp Huse) as (targets & Htargets & Hheld).
  assert (dstEncodingOf yieldOp e = Some d) as Hdst.
  { unfold dstEncodingOf. by rewrite Hkind, bool_decide_eq_false_2. }
  apply (Hheld t e d); try done.
  unfold useTargets in Htargets. rewrite Hkind, Hparent in Htargets. simpl in Htargets.
  destruct Hwhich as [[Hk Ht]|[[Hk Ht]|[Hk Ht]]]; rewrite Hk in Htargets.
  - destruct (opResults parent !! n) as [result|]; simpl in Htargets; [|done].
    destruct (getRegionIterArg parent n) as [arg|]; simpl in Htargets; [|done].
    injection Htargets as <-. destruct Ht as [[= ->]|[= ->]]; [left|right; left].
  - rewrite Ht in Htargets. injection Htargets as <-. left.
  - destruct (getBeforeArguments parent !! n) as [arg|]; simpl in Htargets; [|done].
    destruct (opOperands parent !! n) as [operand|]; simpl in Htargets; [|done].
    injection Htargets as <-. destruct Ht as [[= ->]|[= ->]]; [left|right; left].
Qed.

(** X7. A use by a [scf.condition] as forwarded operand number [n] sends every
    destination encoding to the argument of the "after" region and to the
    result of the enclosing [scf.while] at position [n - 1]: operand 0 is
    the condition. *)
Theorem propagateToUsers_condition ir value info layouts layouts' changed
    conditionOp n whileOp t e d :
  propagateToUsers ir value info layouts = Some (layouts', changed) ->
  (conditionOp, n) ∈ getUses ir value ->
  opKind conditionOp = ConditionOp ->
  getParentOp ir conditionOp = Some whileOp ->
  getAfterArguments whileOp !! (n - 1) = Some t ∨ opResults whileOp !! (n - 1) = Some t ->
  isRankedTensor ir t = true ->
  e ∈ encodings info ->
  inferDstEncoding conditionOp e = Some d ->
  0 < n ∧ opKind whileOp = WhileOp ∧ d ∈ candidates layouts' t.
Proof.
  intros Hp Huse Hkind Hparent Hwhich Htensor He Hd.
  destruct (propagateToUsers_targets _ _ _ _ _ _ _ Hp Huse) as (targets & Htargets & Hheld).
  assert (dstEncodingOf conditionOp e = Some d) as Hdst.
  { unfold dstEncodingOf. by rewrite Hkind, bool_decide_eq_false_2. }
  unfold useTargets in Htargets. rewrite Hkind, Hparent in Htargets. simpl in Htargets.
  case_bool_decide as Hwhile; [|done].
  destruct (Nat.eqb_spec n 0) as [?|Hn]; [done|].
  destruct (getAfterArguments whileOp !! (n - 1)) as [afterArg|]; simpl in Htargets; [|done].
  destruct (opResults whileOp !! (n - 1)) as [result|]; simpl in Htargets; [|done].
  injection Htargets as <-. split_and!; [lia|done|].
  apply (Hheld t e d); try done.
  destruct Hwhich as [[= ->]|[= ->]]; [left|right; left].
Qed.

(** X8. A use as operand [n] of a [scf.while] sends every destination encoding
    to argument [n] of the "before" region. *)
Theorem propagateToUsers_while_init ir value info layouts layouts' changed whileOp n :
  propagateToUsers ir value info layouts = Some (layouts', changed) ->
  (whileOp, n) ∈ getUses ir value ->
  opKind whileOp = WhileOp ->
  exists arg,
    getBeforeArguments whileOp !! n = Some arg ∧
    forall e d,
      isRankedTensor ir arg = true ->
      e ∈ encodings info -> inferDstEncoding whileOp e = Some d ->
      d ∈ candidates layouts' arg.
Proof.
  intros Hp Huse Hkind.
  destruct (propagateToUsers_targets _ _ _ _ _ _ _ Hp Huse) as (targets & Htargets & Hheld).
  unfold useTargets in Htargets. rewrite Hkind in Htargets.
  destruct (getBeforeArguments whileOp !! n) as [arg|]; simpl in Htargets; [|done].
  injection Htargets as <-. exists arg. split; [done|].
  intros e d Htensor He Hd. apply (Hheld arg e d); try done; [left|].
  unfold dstEncodingOf. simpl. by rewrite Hkind, bool_decide_eq_false_2.
Qed.

(** ** The contract of [getValueAs] *)

Lemma getType_fresh_insert ir ty v t :
  getType ir v = Some t ->
  <[freshValue ir := ty]> (irTypes ir) !! v = Some t.
Proof.
  intros Hv. rewrite lookup_insert_ne; [done|]. intros <-.
  unfold getType in Hv. by rewrite freshValue_untyped in Hv.
Qed.

Lemma getValueAs_tensor ir layouts rewriteMapping value encoding ir' returned :
  isRankedTensor ir value = true ->
  getValueAs ir layouts rewriteMapping value encoding = Finished (ir', returned) ->
  getValueEncoding ir' returned = Some encoding.
Proof.
  unfold isRankedTensor, getValueAs.
  destruct (getType ir value) as [[shape elt venc|]|] eqn:Hty; try done. intros _.
  destruct (getRewrittenValue layouts rewriteMapping value venc) as [rv| |]; simpl; try done.
  destruct (getValueEncoding ir rv) as [renc|] eqn:Hrenc; simpl; [|done].
  case_bool_decide as Henc; [by intros [= <- <-]; subst|].
  destruct (createOp ir (AfterValue rv) _ _ _ _ _) as [[ir1 cvt]| |] eqn:Hcreate;
    simpl; try done.
  apply createOp_one in Hcreate as (block & l1 & l2 & _ & -> & _ & _ & ->). simpl.
  intros [= <- <-]. unfold getValueEncoding, getType. simpl.
  by rewrite lookup_insert_eq.
Qed.

(** X9. Whenever [getValueAs] returns for a tensor value, what it returns
    carries the encoding that was asked for; for a value that is no tensor
    it returns the value itself and leaves the program alone. *)
Theorem getValueAs_encoding ir layouts rewriteMapping value encoding ir' returned :
  getValueAs ir layouts rewriteMapping value encoding = Finished (ir', returned) ->
  if isRankedTensor ir value then getValueEncoding ir' returned = Some encoding
  else ir' = ir ∧ returned = value.
Proof.
  intros Hcall. destruct (isRankedTensor ir value) eqn:Htensor.
  - by eapply getValueAs_tensor.
  - unfold isRankedTensor in Htensor. unfold getValueAs in Hcall.
    destruct (getType ir value) as [[shape elt venc|]|]; try done;
      by injection Hcall as <- <-.
Qed.

(** X10. [getValueAs] only ever adds to the program: the operations that were
    there stay, in order and unchanged, every typed value keeps its type,
    and what is added is at most one layout conversion.  That conversion
    converts the rewritten form of the value, and its result, the value
    returned, is new and has the shape and element type of the value with
    the encoding asked for. *)
Theorem getValueAs_only_adds ir layouts rewriteMapping value encoding ir' returned :
  getValueAs ir layouts rewriteMapping value encoding = Finished (ir', returned) ->
  (exists l1 added l2,
     irOps ir = l1 ++ l2 ∧ irOps ir' = l1 ++ added ++ l2 ∧
     (added = [] ∨
      exists cvt source shape elementType valueEncoding,
        added = [cvt] ∧ opKind cvt = ConvertLayoutOp ∧
        opOperands cvt = [source] ∧ opResults cvt = [returned] ∧
        getType ir returned = None ∧
        getType ir value = Some (RankedTensorType shape elementType valueEncoding) ∧
        getRewrittenValue layouts rewriteMapping value valueEncoding = Finished source ∧
        getType ir' returned = Some (RankedTensorType shape elementType encoding))) ∧
  irArgs ir' = irArgs ir ∧
  (forall v t, getType ir v = Some t -> getType ir' v = Some t).
Proof.
  intros [->|Hcvt]%getValueAs_inv.
  - split_and!; [|done|done]. exists [], [], (irOps ir). split_and!; [done|done|by left].
  - destruct Hcvt as (shape & elt & venc & rv & renc & cvt & Hty & Hrv & _ & _ & Hcreate & Hres).
    apply createOp_one in Hcreate as (block & l1 & l2 & _ & Hcvt & Hops & _ & ->).
    rewrite Hcvt in Hres. injection Hres as <-. simpl. split_and!; [|done|].
    + exists l1, [cvt], l2. split_and!; [done|by rewrite Hcvt|].
      right. exists cvt, rv, shape, elt, venc. rewrite Hcvt. simpl.
      split_and!; try done; [apply freshValue_untyped|].
      unfold getType. simpl. by rewrite lookup_insert_eq.
    + intros v t Hv. by apply getType_fresh_insert.
Qed.

(** X11. The two assertions of [getValueAs]: it aborts on a tensor value whose
    entry was not resolved to a single encoding, and on one whose picked
    encoding differs from its own while no rewritten form has been mapped
    for it. *)
Theorem getValueAs_asserts ir layouts rewriteMapping value encoding info :
  isRankedTensor ir value = true ->
  layouts_find value layouts = Some info ->
  length (encodings info) ≠ 1 ∨
  (exists picked,
     encodings info = [picked] ∧ getValueEncoding ir value ≠ Some picked ∧
     rewriteMapping !! (value, picked) = None) ->
  getValueAs ir layouts rewriteMapping value encoding = Aborted.
Proof.
  unfold isRankedTensor, getValueAs, getRewrittenValue, getValueEncoding.
  destruct (getType ir value) as [[shape elt venc|]|] eqn:Hty; try done.
  intros _ -> [Hlen|(picked & Hone & Hne & Hnone)].
  - destruct (encodings info) as [|e [|e' rest]]; simpl in *; done.
  - rewrite Hone. simpl in Hne. rewrite bool_decide_eq_false_2 by congruence.
    by rewrite Hnone.
Qed.

(** X12. Once [map] has recorded the rewritten form of a value in the encoding
    picked for it, [getValueAs] hands that form out for the picked encoding
    and inserts nothing. *)
Theorem getValueAs_after_map ir layouts rewriteMapping old newV picked rewriteMapping' :
  isRankedTensor ir old = true ->
  layouts_find old layouts = Some (mkLayoutInfo [picked]) ->
  getValueEncoding ir old ≠ Some picked ->
  getValueEncoding ir newV = Some picked ->
  LayoutPropagation_map ir rewriteMapping old newV = Finished rewriteMapping' ->
  getValueAs ir layouts rewriteMapping' old picked = Finished (ir, newV).
Proof.
  unfold isRankedTensor, getValueAs, getRewrittenValue, LayoutPropagation_map.
  destruct (getType ir old) as [[shape elt venc|]|] eqn:Hty; try done.
  intros _ -> Hne HnewV. rewrite HnewV. simpl. intros [= <-].
  unfold getValueEncoding in Hne. rewrite Hty in Hne. simpl in Hne.
  rewrite bool_decide_eq_false_2 by congruence.
  unfold RewriteMapping in *. rewrite lookup_insert_eq. simpl. rewrite HnewV. simpl.
  by rewrite bool_decide_eq_true_2.
Qed.

(** ** The rewrites of terminators and scalar reductions *)

Lemma withOperands_operands op operands : opOperands (withOperands op operands) = operands.
Proof. done. Qed.

Lemma withOperands_twice op operands operands' :
  withOperands (withOperands op operands) operands' = withOperands op operands'.
Proof. done. Qed.

Lemma withOperands_same op : withOperands op (opOperands op) = op.
Proof. by destruct op. Qed.

Lemma getOp_cons op ops types args id :
  getOp (mkIR (op :: ops) types args) id =
  if bool_decide (opId op = id) then Some op else getOp (mkIR ops types args) id.
Proof.
  unfold getOp. simpl. destruct (decide (opId op = id)) as [Hid|Hid].
  - by rewrite bool_decide_eq_true_2.
  - rewrite bool_decide_eq_false_2 by done. by destruct (list_find _ ops) as [[? ?]|].
Qed.

Lemma getOp_setOperand ir id n v id' :
  getOp (setOperand ir id n v) id' =
  (fun op => if bool_decide (opId op = id)
             then withOperands op (<[n := v]> (opOperands op)) else op) <$> getOp ir id'.
Proof.
  destruct ir as [ops types args]. unfold setOperand. simpl.
  induction ops as [|op rest IH]; [done|]. csimpl. rewrite !getOp_cons.
  assert (opId (if bool_decide (opId op = id)
                then withOperands op (<[n := v]> (opOperands op)) else op) = opId op) as ->
    by by case_bool_decide.
  case_bool_decide; [done|]. apply IH.
Qed.

Lemma getOp_insert l1 l2 new types types' args args' id :
  opId new ≠ id ->
  getOp (mkIR (l1 ++ [new] ++ l2) types args) id = getOp (mkIR (l1 ++ l2) types' args') id.
Proof. intros Hid. unfold getOp. simpl. by apply list_find_skip. Qed.

Lemma evolves_refl id ir : evolves id ir ir.
Proof.
  split_and!; [done|done|]. intros op Hop. exists (opOperands op).
  by rewrite withOperands_same.
Qed.

Lemma evolves_trans id ir1 ir2 ir3 : evolves id ir1 ir2 -> evolves id ir2 ir3 -> evolves id ir1 ir3.
Proof.
  intros (Ht1 & Ho1 & Hs1) (Ht2 & Ho2 & Hs2). split_and!.
  - intros v t Hv. by apply Ht2, Ht1.
  - intros id' op Hne Hop. by apply Ho2, Ho1.
  - intros op Hop. destruct (Hs1 op Hop) as (operands1 & Hop1 & Hlen1).
    destruct (Hs2 _ Hop1) as (operands2 & Hop2 & Hlen2).
    exists operands2. split; [done|]. simpl in Hlen2. lia.
Qed.

Lemma getValueAs_keeps_ops ir layouts rewriteMapping value encoding ir' returned id op :
  getValueAs ir layouts rewriteMapping value encoding = Finished (ir', returned) ->
  getOp ir id = Some op -> getOp ir' id = Some op.
Proof.
  intros [->|Hcvt]%getValueAs_inv Hop; [done|].
  destruct Hcvt as (shape & elt & venc & rv & renc & cvt & _ & _ & _ & _ & Hcreate & _).
  apply createOp_one in Hcreate as (block & l1 & l2 & _ & Hcvt & Hops & _ & ->).
  destruct ir as [ops types args]. simpl in Hops. subst ops.
  rewrite (getOp_insert l1 l2 cvt _ types args args); [done|].
  rewrite Hcvt. simpl. apply getOp_elem in Hop as [Hin <-].
  intros Heq. by apply (freshOpId_fresh _ _ Hin).
Qed.

Lemma getValueAs_evolves id ir layouts rewriteMapping value encoding ir' returned :
  getValueAs ir layouts rewriteMapping value encoding = Finished (ir', returned) ->
  evolves id ir ir'.
Proof.
  intros Hcall. split_and!.
  - intros v t Hv. apply getValueAs_inv in Hcall as [->|Hcvt]; [done|].
    destruct Hcvt as (shape & elt & venc & rv & renc & cvt & _ & _ & _ & _ & Hcreate & _).
    apply createOp_one in Hcreate as (block & l1 & l2 & _ & _ & _ & _ & ->).
    by apply getType_fresh_insert.
  - intros id' op _ Hop. by eapply getValueAs_keeps_ops.
  - intros op Hop. exists (opOperands op). rewrite withOperands_same.
    split; [by eapply getValueAs_keeps_ops|done].
Qed.

Lemma setOperand_evolves ir id n v : evolves id ir (setOperand ir id n v).
Proof.
  split_and!.
  - done.
  - intros id' op Hne Hop. rewrite getOp_setOperand, Hop. simpl.
    apply getOp_elem in Hop as [_ Hid]. by rewrite bool_decide_eq_false_2 by congruence.
  - intros op Hop. exists (<[n := v]> (opOperands op)).
    rewrite getOp_setOperand, Hop. simpl. apply getOp_elem in Hop as [_ Hid].
    rewrite bool_decide_eq_true_2 by done. by rewrite length_insert.
Qed.

Lemma evolves_encoding id ir ir' v e :
  evolves id ir ir' -> getValueEncoding ir v = Some e -> getValueEncoding ir' v = Some e.
Proof.
  intros (Ht & _) Hv. unfold getValueEncoding in *.
  destruct (getType ir v) as [t|] eqn:Hty; [|done]. by rewrite (Ht _ _ Hty).
Qed.

Lemma evolves_tensor id ir ir' v :
  evolves id ir ir' -> isRankedTensor ir v = true -> isRankedTensor ir' v = true.
Proof.
  intros (Ht & _). unfold isRankedTensor.
  destruct (getType ir v) as [t|] eqn:Hty; [|done]. by rewrite (Ht _ _ Hty).
Qed.

(** One turn of a loop that converts operands. *)
Lemma convertOperandTo_step layouts rewriteMapping choose id ir n ir' op :
  convertOperandTo layouts rewriteMapping choose id ir n = Finished ir' ->
  getOp ir id = Some op ->
  evolves id ir ir' ∧
  exists operand wanted,
    opOperands op !! n = Some operand ∧
    choose ir op operand n = Finished wanted ∧
    match wanted with
    | Some encoding =>
        exists new,
          getOp ir' id = Some (withOperands op (<[n := new]> (opOperands op))) ∧
          (isRankedTensor ir operand = true -> getValueEncoding ir' new = Some encoding)
    | None => ir' = ir
    end.
Proof.
  unfold convertOperandTo. intros Hrun Hop. rewrite Hop in Hrun. simpl in Hrun.
  destruct (opOperands op !! n) as [operand|] eqn:Hoperand; simpl in Hrun; [|done].
  destruct (choose ir op operand n) as [[encoding|]| |] eqn:Hchoose; simpl in Hrun; try done.
  - destruct (getValueAs ir layouts rewriteMapping operand encoding) as [[ir1 new]| |] eqn:Hcall;
      simpl in Hrun; try done.
    injection Hrun as <-. split.
    + eapply evolves_trans; [by eapply getValueAs_evolves|apply setOperand_evolves].
    + exists operand, (Some encoding). split_and!; [done|done|]. exists new. split.
      * rewrite getOp_setOperand, (getValueAs_keeps_ops _ _ _ _ _ _ _ _ _ Hcall Hop). simpl.
        apply getOp_elem in Hop as [_ Hid]. by rewrite bool_decide_eq_true_2.
      * intros Htensor. change (getValueEncoding ir1 new = Some encoding).
        by eapply getValueAs_tensor.
  - injection Hrun as <-. split; [apply evolves_refl|]. by exists operand, None.
Qed.

(** The whole loop, for operand numbers without repetition: a number the
    loop does not visit keeps its operand; a visited number [n] is handled
    in some intermediate program, by which only additions and changes to
    other operands have happened, and ends up holding a value in the
    encoding chosen there. *)
Lemma forEachIndex_convert layouts rewriteMapping choose id numbers :
  NoDup numbers ->
  forall ir ir' op,
    forEachIndex (convertOperandTo layouts rewriteMapping choose id) ir numbers
    = Finished ir' ->
    getOp ir id = Some op ->
    evolves id ir ir' ∧
    exists operands',
      getOp ir' id = Some (withOperands op operands') ∧
      (forall m, m ∉ numbers -> operands' !! m = opOperands op !! m) ∧
      forall n, n ∈ numbers ->
        exists ir1 operands1 operand wanted,
          evolves id ir ir1 ∧ evolves id ir1 ir' ∧
          getOp ir1 id = Some (withOperands op operands1) ∧
          opOperands op !! n = Some operand ∧
          choose ir1 (withOperands op operands1) operand n = Finished wanted ∧
          match wanted with
          | Some encoding =>
              exists new,
                operands' !! n = Some new ∧
                (isRankedTensor ir operand = true ->
                 getValueEncoding ir' new = Some encoding)
          | None => operands' !! n = Some operand
          end.
Proof.
  induction 1 as [|n0 rest Hfresh Hnd IH]; intros ir ir' op; simpl.
  - intros [= <-] Hop. split; [apply evolves_refl|]. exists (opOperands op).
    rewrite withOperands_same. split_and!; [done|done|].
    intros n Hn. by apply elem_of_nil in Hn.
  - destruct (convertOperandTo layouts rewriteMapping choose id ir n0) as [ir0| |] eqn:Hstep;
      simpl; try done.
    intros Hrest Hop.
    destruct (convertOperandTo_step _ _ _ _ _ _ _ _ Hstep Hop)
      as (Hev0 & operand0 & wanted0 & Hoperand0 & Hchoose0 & Hwanted0).
    destruct Hev0 as (Ht0 & Ho0 & Hs0). destruct (Hs0 op Hop) as (operands0 & Hop0 & Hlen0).
    assert (evolves id ir ir0) as Hev0 by (split_and!; done).
    assert (forall m, m ≠ n0 -> operands0 !! m = opOperands op !! m) as Hothers.
    { intros m Hm. destruct wanted0 as [encoding|].
      - destruct Hwanted0 as (new & Hnew & _). rewrite Hop0 in Hnew.
        injection Hnew as ->. by rewrite list_lookup_insert_ne.
      - subst ir0. rewrite Hop in Hop0. injection Hop0 as Heq.
        by rewrite Heq. }
    destruct (IH ir0 ir' _ Hrest Hop0) as (Hev & operands' & Hop' & Hkeep & Hvisited).
    split; [by eapply evolves_trans|].
    exists operands'. rewrite withOperands_twice in Hop'. split_and!; [done| |].
    + intros m Hm. rewrite not_elem_of_cons in Hm. destruct Hm as [Hm0 Hm].
      rewrite (Hkeep m Hm). simpl. by apply Hothers.
    + intros n [->|Hn]%elem_of_cons.
      * exists ir, (opOperands op), operand0, wanted0.
        rewrite withOperands_same.
        split_and!; [apply evolves_refl|by eapply evolves_trans|done|done|done|].
        rewrite (Hkeep n0 Hfresh). simpl. destruct wanted0 as [encoding|].
        -- destruct Hwanted0 as (new & Hnew & Henc).
           rewrite Hop0 in Hnew. injection Hnew as ->. exists new. split.
           ++ apply list_lookup_insert_eq. by eapply lookup_lt_Some.
           ++ intros Htensor. eapply evolves_encoding; [exact Hev|by apply Henc].
        -- subst ir0. rewrite Hop in Hop0. injection Hop0 as Heq.
           apply (f_equal opOperands) in Heq. simpl in Heq. by rewrite <- Heq.
      * destruct (Hvisited n Hn)
          as (ir1 & operands1 & operand & wanted & Hev1 & Hev1' & Hop1 & Hoperand & Hchoose & Hw).
        rewrite withOperands_twice in Hop1, Hchoose. simpl in Hoperand.
        assert (n ≠ n0) as Hne by (intros ->; done).
        rewrite (Hothers n Hne) in Hoperand.
        exists ir1, operands1, operand, wanted.
        split_and!; [by eapply evolves_trans|done|done|done|done|].
        destruct wanted as [encoding|]; [|done].
        destruct Hw as (new & Hnew & Henc). exists new. split; [done|].
        intros Htensor. apply Henc. by eapply evolves_tensor.
Qed.

Lemma forEachIndex_ext (body body' : IR -> nat -> Outcome IR) ir numbers :
  (forall ir n, body ir n = body' ir n) ->
  forEachIndex body ir numbers = forEachIndex body' ir numbers.
Proof.
  intros Hext. revert ir. induction numbers as [|n rest IH]; intros ir; simpl; [done|].
  rewrite Hext. destruct (body' ir n); simpl; [apply IH|done..].
Qed.

Lemma rewriteYieldOperand_convert layouts rewriteMapping id ir n :
  rewriteYieldOperand layouts rewriteMapping id ir n =
  convertOperandTo layouts rewriteMapping chooseYield id ir n.
Proof.
  unfold rewriteYieldOperand, convertOperandTo, chooseYield.
  destruct (getOp ir id) as [op|]; simpl; [|done].
  destruct (opOperands op !! n) as [operand|]; simpl; [|done].
  destruct (getParentOp ir op) as [parentOp|]; simpl; [|done].
  destruct (yieldType ir parentOp operand n) as [[[shape elt enc|]|]| |]; simpl; done.
Qed.

Lemma rewriteConditionOperand_convert layouts rewriteMapping id ir n :
  rewriteConditionOperand layouts rewriteMapping id ir n =
  convertOperandTo layouts rewriteMapping chooseCondition id ir n.
Proof.
  unfold rewriteConditionOperand, convertOperandTo, chooseCondition.
  destruct (getOp ir id) as [op|]; simpl; [|done].
  destruct (opOperands op !! n) as [operand|]; simpl; [|done].
  destruct (getParentOp ir op) as [whileOp|]; simpl; [|done].
  destruct (opResults whileOp !! (n - 1)) as [result|]; simpl; [|done].
  destruct (getType ir result) as [[shape elt enc|]|]; simpl; done.
Qed.

Lemma rewriteReduceOperand_convert layouts rewriteMapping encoding id ir n :
  rewriteReduceOperand layouts rewriteMapping encoding id ir n =
  convertOperandTo layouts rewriteMapping (chooseFixed encoding) id ir n.
Proof. done. Qed.

(** The parent of the rewritten terminator stays what it was. *)
Lemma evolves_parent id ir ir1 op operands parentOp :
  evolves id ir ir1 ->
  getParentOp ir op = Some parentOp -> opId parentOp ≠ id ->
  getParentOp ir1 (withOperands op operands) = Some parentOp.
Proof.
  intros (_ & Hothers & _). unfold getParentOp. simpl.
  destruct (opParent op) as [pid|]; simpl; [|done]. intros Hp Hne.
  apply Hothers; [|done]. apply getOp_elem in Hp as [_ <-]. done.
Qed.

Lemma yieldType_evolves id ir ir1 parentOp operand n ty :
  evolves id ir ir1 ->
  yieldType ir parentOp operand n = Finished (Some ty) ->
  yieldType ir1 parentOp operand n = Finished (Some ty).
Proof.
  intros (Ht & _). unfold yieldType.
  destruct (opKind parentOp);
    repeat match goal with
           | |- context [assertSome ?o] => destruct o; simpl; try done
           end;
    intros [= Hty]; by rewrite (Ht _ _ Hty).
Qed.

(** X13. After [rewriteYieldOp], an operand of the yield whose wanted type (the
    type of the parent's result, or of the "before" argument of a
    [scf.while]) is a tensor type holds, if it was a tensor, a value in the
    encoding of that type; an operand whose wanted type is no tensor type is
    left alone. *)
Theorem rewriteYieldOp_encodings ir layouts rewriteMapping yieldOp parentOp ir' n operand ty :
  getOp ir (opId yieldOp) = Some yieldOp ->
  getParentOp ir yieldOp = Some parentOp ->
  opId parentOp ≠ opId yieldOp ->
  rewriteYieldOp ir layouts rewriteMapping yieldOp = Finished ir' ->
  opOperands yieldOp !! n = Some operand ->
  yieldType ir parentOp operand n = Finished (Some ty) ->
  exists yieldOp' operand',
    getOp ir' (opId yieldOp) = Some yieldOp' ∧
    opOperands yieldOp' !! n = Some operand' ∧
    match getEncoding ty with
    | Some encoding =>
        isRankedTensor ir operand = true -> getValueEncoding ir' operand' = Some encoding
    | None => operand' = operand
    end.
Proof.
  intros Hop Hparent Hne Hrun Hoperand Hwanted. unfold rewriteYieldOp in Hrun.
  rewrite (forEachIndex_ext _ (convertOperandTo layouts rewriteMapping chooseYield
                                   (opId yieldOp))) in Hrun
    by apply rewriteYieldOperand_convert.
  destruct (forEachIndex_convert _ _ _ _ _ (NoDup_seq 0 _) _ _ _ Hrun Hop)
    as (_ & operands' & Hop' & _ & Hvisited).
  destruct (Hvisited n)
    as (ir1 & operands1 & operand1 & wanted & Hev1 & _ & _ & Hoperand1 & Hchoose & Hw).
  { apply elem_of_seq. apply lookup_lt_Some in Hoperand. lia. }
  assert (operand1 = operand) as -> by congruence.
  unfold chooseYield in Hchoose.
  rewrite (evolves_parent _ _ _ _ _ _ Hev1 Hparent Hne) in Hchoose. simpl in Hchoose.
  rewrite (yieldType_evolves _ _ _ _ _ _ _ Hev1 Hwanted) in Hchoose. simpl in Hchoose.
  injection Hchoose as <-.
  destruct ty as [shape elt encoding|tag]; simpl in *.
  - destruct Hw as (new & Hnew & Henc). by exists (withOperands yieldOp operands'), new.
  - by exists (withOperands yieldOp operands'), operand.
Qed.

(** X14. After [rewriteConditionOp], operand 0 of the [scf.condition] is what it
    was, and a forwarded operand [i] whose [scf.while] result [i - 1] has a
    tensor type holds, if it was a tensor, a value in the encoding of that
    type; the parent is a [scf.while], or the rewrite would have tripped
    its cast. *)
Theorem rewriteConditionOp_encodings ir layouts rewriteMapping conditionOp whileOp ir' :
  getOp ir (opId conditionOp) = Some conditionOp ->
  getParentOp ir conditionOp = Some whileOp ->
  opId whileOp ≠ opId conditionOp ->
  rewriteConditionOp ir layouts rewriteMapping conditionOp = Finished ir' ->
  opKind whileOp = WhileOp ∧
  exists conditionOp',
    getOp ir' (opId conditionOp) = Some conditionOp' ∧
    opOperands conditionOp' !! 0 = opOperands conditionOp !! 0 ∧
    forall i operand result ty,
      0 < i ->
      opOperands conditionOp !! i = Some operand ->
      opResults whileOp !! (i - 1) = Some result ->
      getType ir result = Some ty ->
      exists operand',
        opOperands conditionOp' !! i = Some operand' ∧
        match getEncoding ty with
        | Some encoding =>
            isRankedTensor ir operand = true -> getValueEncoding ir' operand' = Some encoding
        | None => operand' = operand
        end.
Proof.
  intros Hop Hparent Hne Hrun. unfold rewriteConditionOp in Hrun.
  rewrite Hparent in Hrun. simpl in Hrun.
  case_bool_decide as Hkind; simpl in Hrun; [|done]. split; [done|].
  rewrite (forEachIndex_ext _ (convertOperandTo layouts rewriteMapping chooseCondition
                                   (opId conditionOp))) in Hrun
    by apply rewriteConditionOperand_convert.
  destruct (forEachIndex_convert _ _ _ _ _ (NoDup_seq 1 _) _ _ _ Hrun Hop)
    as (_ & operands' & Hop' & Hkeep & Hvisited).
  exists (withOperands conditionOp operands'). split_and!; [done| |].
  - simpl. apply Hkeep. rewrite elem_of_seq. lia.
  - intros i operand result ty Hi Hoperand Hresult Hty.
    destruct (Hvisited i)
      as (ir1 & operands1 & operand1 & wanted & Hev1 & _ & _ & Hoperand1 & Hchoose & Hw).
    { apply elem_of_seq. apply lookup_lt_Some in Hoperand. lia. }
    assert (operand1 = operand) as -> by congruence.
    unfold chooseCondition in Hchoose.
    rewrite (evolves_parent _ _ _ _ _ _ Hev1 Hparent Hne) in Hchoose. simpl in Hchoose.
    rewrite Hresult in Hchoose. simpl in Hchoose.
    rewrite (proj1 Hev1 _ _ Hty) in Hchoose. injection Hchoose as <-.
    destruct ty as [shape elt encoding|tag]; simpl in *.
    + destruct Hw as (new & Hnew & Henc). by exists new.
    + by exists operand.
Qed.

Lemma firstMappedEncoding_inv layouts operands wanted :
  firstMappedEncoding layouts operands = Finished wanted ->
  match wanted with
  | Some encoding =>
      exists k mapped info,
        operands !! k = Some mapped ∧
        (forall j operand, j < k -> operands !! j = Some operand ->
                           layouts_find operand layouts = None) ∧
        layouts_find mapped layouts = Some info ∧
        encodings info !! 0 = Some encoding
  | None => forall operand, operand ∈ operands -> layouts_find operand layouts = None
  end.
Proof.
  induction operands as [|operand rest IH]; simpl.
  - intros [= <-] operand Hin. by apply elem_of_nil in Hin.
  - destruct (layouts_find operand layouts) as [info|] eqn:Hfind.
    + destruct (encodings info !! 0) as [encoding|] eqn:Hfirst; simpl; [|done].
      intros [= <-]. exists 0, operand, info. split_and!; try done. intros j x Hj. lia.
    + intros Hrest. specialize (IH Hrest). destruct wanted as [encoding|].
      * destruct IH as (k & mapped & info & Hk & Hbefore & Hmapped & Henc).
        exists (S k), mapped, info. split_and!; [exact Hk| |exact Hmapped|exact Henc].
        intros [|j] x Hj Hx; simpl in Hx.
        -- by injection Hx as <-.
        -- apply (Hbefore j); [lia|done].
      * intros x [->|Hin]%elem_of_cons; [done|by apply IH].
Qed.

(** X15. [rewriteReduceToScalar] either finds no operand of the reduction in the
    map and leaves the program as it is, or brings every tensor operand to
    one and the same encoding: the first candidate of the first operand, in
    the order of the operands, that has an entry. *)
Theorem rewriteReduceToScalar_encodings ir layouts rewriteMapping reduceOp ir' :
  getOp ir (opId reduceOp) = Some reduceOp ->
  rewriteReduceToScalar ir layouts rewriteMapping reduceOp = Finished ir' ->
  ((forall operand, operand ∈ opOperands reduceOp -> layouts_find operand layouts = None) ∧
   ir' = ir) ∨
  (exists k mapped info encoding reduceOp',
     opOperands reduceOp !! k = Some mapped ∧
     (forall j operand, j < k -> opOperands reduceOp !! j = Some operand ->
                        layouts_find operand layouts = None) ∧
     layouts_find mapped layouts = Some info ∧
     encodings info !! 0 = Some encoding ∧
     getOp ir' (opId reduceOp) = Some reduceOp' ∧
     forall n operand,
       opOperands reduceOp !! n = Some operand ->
       exists operand',
         opOperands reduceOp' !! n = Some operand' ∧
         (isRankedTensor ir operand = true ->
          getValueEncoding ir' operand' = Some encoding)).
Proof.
  intros Hop Hrun. unfold rewriteReduceToScalar in Hrun.
  destruct (firstMappedEncoding layouts (opOperands reduceOp)) as [wanted| |] eqn:Hfirst;
    simpl in Hrun; try done.
  apply firstMappedEncoding_inv in Hfirst. destruct wanted as [encoding|].
  - right. destruct Hfirst as (k & mapped & info & Hk & Hbefore & Hfind & Henc).
    change (forEachIndex (convertOperandTo layouts rewriteMapping (chooseFixed encoding)
                              (opId reduceOp)) ir (seq 0 (length (opOperands reduceOp)))
            = Finished ir') in Hrun.
    destruct (forEachIndex_convert _ _ _ _ _ (NoDup_seq 0 _) _ _ _ Hrun Hop)
      as (_ & operands' & Hop' & _ & Hvisited).
    exists k, mapped, info, encoding, (withOperands reduceOp operands').
    split_and!; try done. intros n operand Hoperand.
    destruct (Hvisited n)
      as (ir1 & operands1 & operand1 & wanted & _ & _ & _ & Hoperand1 & Hchoose & Hw).
    { apply elem_of_seq. apply lookup_lt_Some in Hoperand. lia. }
    assert (operand1 = operand) as -> by congruence.
    injection Hchoose as <-. done.
  - left. injection Hrun as <-. done.
Qed.

(** ** Conflict resolution, once more *)

Lemma resolveEntry_idempotent ir entry :
  resolveEntry ir (resolveEntry ir entry) = resolveEntry ir entry.
Proof.
  destruct entry as [v [encs]]. unfold resolveEntry. simpl.
  destruct (Nat.leb_spec (length encs) 1) as [Hle|Hlt]; simpl.
  - by destruct (Nat.leb_spec (length encs) 1); [|lia].
  - by destruct encs.
Qed.

(** X16. [resolveConflicts] keeps the keys of the map in their order, and
    resolving a resolved map changes nothing. *)
Theorem resolveConflicts_idempotent ir layouts :
  (resolveConflicts ir layouts).*1 = layouts.*1 ∧
  resolveConflicts ir (resolveConflicts ir layouts) = resolveConflicts ir layouts.
Proof.
  unfold resolveConflicts. split.
  - induction layouts as [|entry rest IH]; [done|]. csimpl.
    by rewrite resolveEntry_key, IH.
  - rewrite map_map. apply map_ext. intros entry. apply resolveEntry_idempotent.
Qed.

(** ** The look-ahead of the anchor search ends *)

Lemma searchLoop_more_fuel fuel fuel' verdict ir queue slice seen :
  fuel <= fuel' ->
  searchLoop fuel verdict ir queue slice seen ≠ OutOfFuel ->
  searchLoop fuel' verdict ir queue slice seen = searchLoop fuel verdict ir queue slice seen.
Proof.
  revert fuel' queue slice seen.
  induction fuel as [|fuel IH]; intros fuel' queue slice seen Hle;
    destruct queue as [|cur queue]; cbn [searchLoop]; try done.
  - by destruct fuel'.
  - by destruct fuel'.
  - destruct fuel' as [|fuel']; [lia|]. cbn [searchLoop].
    match goal with
    | |- context [scanSlice ?a ?b ?c ?d ?e ?f] =>
        destruct (scanSlice a b c d e f) as [[b'|queue' seen']|]; try done
    end.
    apply IH. lia.
Qed.

(** X17. The work list of [hasConvertToMMATransisitiveUse] always runs dry: the
    search answers or trips an assertion, whatever the program and the
    forward slices, within as many turns as the program defines values (plus
    two), and more turns do not change its answer. *)
Theorem hasConvertToMMATransisitiveUse_terminates ir op encoding :
  hasConvertToMMATransisitiveUse ir op encoding ≠ OutOfFuel ∧
  forall fuel result,
    opResults op !! 0 = Some result ->
    searchFuel ir <= fuel ->
    searchLoop fuel (convertVerdict ir encoding) ir [result] [] ∅
    = hasConvertToMMATransisitiveUse ir op encoding.
Proof.
  assert (forall result,
    searchLoop (searchFuel ir) (convertVerdict ir encoding) ir [result] [] ∅ ≠ OutOfFuel)
    as Hends.
  { intros result. apply searchLoop_enough_fuel. unfold searchMeasure, searchFuel.
    cbn [length].
    assert (size (definedValues ir ∖ ∅) <= size (definedValues ir)); [|lia].
    apply subseteq_size. intros x. rewrite elem_of_difference. by intros [? _]. }
  unfold hasConvertToMMATransisitiveUse. split.
  - destruct (opResults op !! 0) as [result|]; [|done]. apply Hends.
  - intros fuel result -> Hfuel. apply searchLoop_more_fuel; [done|apply Hends].
Qed.

(** ** Hoisting *)

Lemma hoistScan_no_extension ir st members :
  (forall v op, v ∈ members -> getDefiningOp ir v = Some op -> isExtOrBroadcastOp op = false) ->
  hoistScan ir st members = Finished (Some st).
Proof.
  induction members as [|v rest IH]; intros Hnone; simpl; [done|].
  assert (hoistScanStep ir st v = Finished (Some st)) as ->.
  { unfold hoistScanStep. destruct st as [[slice layout] ext].
    destruct (getDefiningOp ir v) as [op|] eqn:Hdef; [|done].
    by rewrite (Hnone v op); [|left|]. }
  simpl. apply IH. intros v' op Hin. apply Hnone. by right.
Qed.

(** X19. Without an extension or broadcast in the slice there is nothing to
    hoist above: when no member of the backward slice of the conversion is
    defined by an [arith] extension, a [tt.broadcast] or a
    [tt.expand_dims], the program is left as it is. *)
Theorem hoistConvertOnTopOfExtOrBroadcast_needs_extension ir convertOp result src
    targetEncoding :
  opResults convertOp !! 0 = Some result ->
  opOperands convertOp !! 0 = Some src ->
  getValueEncoding ir result = Some targetEncoding ->
  (forall v op,
     v ∈ (getRematerializableSlice ir src targetEncoding (Some isExtOrBroadcastOp)).1.2 ->
     getDefiningOp ir v = Some op -> isExtOrBroadcastOp op = false) ->
  hoistConvertOnTopOfExtOrBroadcast ir convertOp = Finished ir.
Proof.
  intros Hresult Hsrc Henc Hnone. unfold hoistConvertOnTopOfExtOrBroadcast.
  rewrite Hresult, Hsrc. simpl.
  destruct (hasSharedEncoding ir result || hasSharedEncoding ir src); [done|].
  rewrite Henc. simpl. destruct (isaDotOperandEncodingAttr targetEncoding); [done|].
  destruct (getRematerializableSlice ir src targetEncoding _) as [[r slice] layout].
  simpl in Hnone. destruct (failed r); [done|].
  by rewrite hoistScan_no_extension.
Qed.

(** ** The clone of an elementwise operation *)

Lemma allocValues_types ir tys ir' vs :
  allocValues ir tys = (ir', vs) ->
  irOps ir' = irOps ir ∧ irArgs ir' = irArgs ir ∧
  forall v t, getType ir v = Some t -> getType ir' v = Some t.
Proof.
  revert ir ir' vs. induction tys as [|ty rest IH]; intros ir ir' vs; simpl.
  - by intros [= <- <-].
  - destruct (allocValues _ rest) as [ir1 vs1] eqn:Hrest. intros [= <- <-].
    destruct (IH _ _ _ Hrest) as (Hops & Hargs & Htypes). split_and!; [done|done|].
    intros v t Hv. apply Htypes. unfold getType. simpl. by apply getType_fresh_insert.
Qed.

Lemma cloneRegionsArgs_types st regions ir' mapping' newss :
  cloneRegionsArgs st regions = Some (ir', mapping', newss) ->
  forall v t, getType st.1 v = Some t -> getType ir' v = Some t.
Proof.
  revert st ir' mapping' newss.
  induction regions as [|args rest IH]; intros [ir0 mapping0] ir' mapping' newss; simpl.
  - by intros [= <- <- <-].
  - unfold cloneRegionArgs.
    cbn [fst snd]. destruct (mapM (getType ir0) args) as [tys|]; simpl; [|done].
    destruct (allocValues ir0 tys) as [ir1 news] eqn:Halloc. simpl.
    destruct (cloneRegionsArgs _ rest) as [[[ir2 mapping2] newss2]|] eqn:Hrest;
      simpl; [|done].
    intros [= <- <- <-] v t Hv. apply (IH _ _ _ _ Hrest). simpl.
    by apply (allocValues_types _ _ _ _ Halloc).
Qed.

Lemma cloneOne_inv root block base st op st' :
  cloneOne root block base st op = Some st' ->
  (forall v t, getType (csIR st) v = Some t -> getType (csIR st') v = Some t) ∧
  exists new,
    csOps st' = csOps st ++ [new] ∧
    opId new = base + length (csOps st) ∧
    opKind new = opKind op ∧
    opOperands new = lookupOrDefault (csMapping st) <$> opOperands op.
Proof.
  unfold cloneOne.
  destruct (mapM (getType (csIR st)) (opResults op)) as [tys|]; simpl; [|done].
  destruct (allocValues (csIR st) tys) as [ir1 results] eqn:Halloc.
  destruct (cloneRegionsArgs _ _) as [[[ir2 mapping2] regionArgs]|] eqn:Hregions;
    simpl; [|done].
  match goal with |- context [mbind _ ?p] => destruct p as [parent|]; simpl; [|done] end.
  intros [= <-]. simpl. split.
  - intros v t Hv. apply (cloneRegionsArgs_types _ _ _ _ _ Hregions). simpl.
    by apply (allocValues_types _ _ _ _ Halloc).
  - eexists. split_and!; reflexivity.
Qed.

Lemma cloneAll_inv root block base st ops st' :
  cloneAll root block base st ops = Some st' ->
  (forall v t, getType (csIR st) v = Some t -> getType (csIR st') v = Some t) ∧
  exists more, csOps st' = csOps st ++ more.
Proof.
  revert st. induction ops as [|op rest IH]; intros st; simpl.
  - intros [= <-]. split; [done|]. exists []. by rewrite app_nil_r.
  - destruct (cloneOne root block base st op) as [st1|] eqn:Hone; simpl; [|done].
    intros Hrest. destruct (cloneOne_inv _ _ _ _ _ _ Hone) as (Ht1 & new & Hops1 & _).
    destruct (IH _ Hrest) as (Ht & more & Hops). split.
    + intros v t Hv. by apply Ht, Ht1.
    + exists (new :: more). by rewrite Hops, Hops1, <- app_assoc.
Qed.

Lemma getOp_app_fresh l1 l2 types args id :
  (forall op, op ∈ l1 -> opId op ≠ id) ->
  getOp (mkIR (l1 ++ l2) types args) id = getOp (mkIR l2 types args) id.
Proof.
  induction l1 as [|op rest IH]; intros Hfresh; [done|]. simpl.
  rewrite getOp_cons, bool_decide_eq_false_2 by (apply Hfresh; left).
  apply IH. intros op' Hin. apply Hfresh. by right.
Qed.

(** The clone at the root of a [cloneOp]: it can be found by its id, is of
    the kind of the original and uses the original's operands through the
    mapping; every typed value keeps its type. *)
Lemma cloneOp_root ir point op mapping ir1 newOp mapping' :
  cloneOp ir point op mapping = Finished (ir1, newOp, mapping') ->
  getOp ir1 (opId newOp) = Some newOp ∧
  opKind newOp = opKind op ∧
  opOperands newOp = lookupOrDefault mapping <$> opOperands op ∧
  forall v t, getType ir v = Some t -> getType ir1 v = Some t.
Proof.
  unfold cloneOp. destruct (blockOfPoint ir point) as [block|]; simpl; [|done].
  destruct (cloneOne op block (freshOpId ir) (mkCloneState ir mapping ∅ []) op)
    as [st1|] eqn:Hone; simpl; [|done].
  match goal with
  | |- context [cloneAll ?a ?b ?c ?d ?e] =>
      destruct (cloneAll a b c d e) as [st|] eqn:Hall; simpl; [|done]
  end.
  destruct (head (csOps st)) as [new|] eqn:Hhead; simpl; [|done].
  destruct (insertAt ir point (csOps st)) as [ops|] eqn:Hins; simpl; [|done].
  intros [= <- <- <-].
  destruct (cloneOne_inv _ _ _ _ _ _ Hone) as (Ht1 & root & Hops1 & Hid & Hkind & Hoperands).
  destruct (cloneAll_inv _ _ _ _ _ _ Hall) as (Ht & more & Hops).
  simpl in *. rewrite Hops, Hops1 in Hhead. injection Hhead as <-.
  split_and!; [|done|done|].
  - apply insertAt_split in Hins as (l1 & l2 & Hir & ->).
    rewrite Hops, Hops1. simpl. rewrite getOp_app_fresh.
    + by rewrite getOp_cons, bool_decide_eq_true_2.
    + intros op' Hin. rewrite Hid, Nat.add_0_r.
      apply freshOpId_fresh. rewrite Hir. apply elem_of_app. by left.
  - intros v t Hv. unfold getType. simpl. by apply Ht, Ht1.
Qed.

Lemma lookupOrDefault_empty (operands : list Value) :
  lookupOrDefault ∅ <$> operands = operands.
Proof.
  induction operands as [|v rest IH]; [done|]. csimpl. rewrite IH.
  unfold lookupOrDefault, IRMapping. by rewrite lookup_empty.
Qed.

(** The first loop of [cloneElementwise] is a loop that converts the
    operands of the clone, as long as the operands it has not reached are
    those of the original. *)
Lemma cloneElementwiseOperand_convert layouts rewriteMapping encoding op newId numbers :
  NoDup numbers ->
  forall ir cur,
    getOp ir newId = Some cur ->
    (forall n, n ∈ numbers -> opOperands cur !! n = opOperands op !! n) ->
    forEachIndex (cloneElementwiseOperand layouts rewriteMapping (Some encoding) op newId)
      ir numbers =
    forEachIndex (convertOperandTo layouts rewriteMapping (chooseFixed encoding) newId)
      ir numbers.
Proof.
  induction 1 as [|n rest Hfresh Hnd IH]; intros ir cur Hcur Hsame; [done|].
  cbn [forEachIndex].
  assert (cloneElementwiseOperand layouts rewriteMapping (Some encoding) op newId ir n =
          convertOperandTo layouts rewriteMapping (chooseFixed encoding) newId ir n) as ->.
  { unfold cloneElementwiseOperand, convertOperandTo. rewrite Hcur. simpl.
    rewrite (Hsame n) by left. by destruct (opOperands op !! n). }
  destruct (convertOperandTo layouts rewriteMapping (chooseFixed encoding) newId ir n)
    as [ir1| |] eqn:Hstep; simpl; try done.
  destruct (convertOperandTo_step _ _ _ _ _ _ _ _ Hstep Hcur)
    as (_ & operand & wanted & _ & Hchoose & Hwanted).
  injection Hchoose as <-. destruct Hwanted as (new & Hnew & _).
  apply (IH _ _ Hnew). intros m Hm. simpl.
  rewrite list_lookup_insert_ne by (intros ->; done). apply Hsame. by right.
Qed.

Lemma setType_keeps_tensor ir new shape elementType encoding v :
  isRankedTensor ir v = true ->
  isRankedTensor (setType ir new (RankedTensorType shape elementType encoding)) v = true.
Proof.
  unfold isRankedTensor, getType, setType. simpl.
  destruct (decide (new = v)) as [->|Hne]; [by rewrite lookup_insert_eq|].
  by rewrite lookup_insert_ne.
Qed.

(** The second loop of [cloneElementwise]: it touches types only, those of
    results of the clone, and leaves every result of the clone that stands
    for a tensor result of the original in the new encoding. *)
Lemma retypeCloneResult_loop encoding op newOp numbers :
  forall ir ir',
    forEachIndex (retypeCloneResult encoding op newOp) ir numbers = Finished ir' ->
    irOps ir' = irOps ir ∧
    (forall v, isRankedTensor ir v = true -> isRankedTensor ir' v = true) ∧
    (forall v, v ∉ opResults newOp -> getType ir' v = getType ir v) ∧
    (forall v, v ∈ opResults newOp -> getValueEncoding ir v = Some encoding ->
               getValueEncoding ir' v = Some encoding) ∧
    (forall i old, i ∈ numbers -> opResults op !! i = Some old ->
                   isRankedTensor ir old = true ->
                   exists new, opResults newOp !! i = Some new ∧
                               getValueEncoding ir' new = Some encoding).
Proof.
  induction numbers as [|i rest IH]; intros ir ir'; simpl.
  - intros [= <-]. split_and!; try done. intros i old Hi. by apply elem_of_nil in Hi.
  - destruct (retypeCloneResult encoding op newOp ir i) as [ir1| |] eqn:Hstep;
      simpl; try done.
    intros Hrest. destruct (IH _ _ Hrest) as (Hops & Htensor & Hother & Hkeep & Hdone).
    unfold retypeCloneResult in Hstep.
    destruct (opResults op !! i) as [old|] eqn:Hold; simpl in Hstep; [|done].
    destruct (getType ir old) as [[shape elt enc0|tag]|] eqn:Hty; simpl in Hstep.
    + destruct (opResults newOp !! i) as [new|] eqn:Hnew; simpl in Hstep; [|done].
      injection Hstep as <-.
      assert (new ∈ opResults newOp) as Hin by by eapply list_elem_of_lookup_2.
      split_and!.
      * by rewrite Hops.
      * intros v Hv. by apply Htensor, setType_keeps_tensor.
      * intros v Hv. rewrite (Hother v Hv). unfold getType, setType. simpl.
        apply lookup_insert_ne. by intros ->.
      * intros v Hv Henc. apply (Hkeep v Hv).
        unfold getValueEncoding, getType, setType in *. simpl.
        destruct (decide (new = v)) as [->|Hne]; [by rewrite lookup_insert_eq|].
        by rewrite lookup_insert_ne.
      * intros j old' [->|Hj]%elem_of_cons Hold' Htens.
        -- exists new. split; [done|]. apply (Hkeep new Hin).
           unfold getValueEncoding, getType, setType. simpl. by rewrite lookup_insert_eq.
        -- apply (Hdone j old' Hj Hold'). by apply setType_keeps_tensor.
    + injection Hstep as <-. split_and!; try done.
      intros j old' [->|Hj]%elem_of_cons Hold' Htens; [|by apply (Hdone j old')].
      rewrite Hold in Hold'. injection Hold' as <-.
      unfold isRankedTensor in Htens. by rewrite Hty in Htens.
    + injection Hstep as <-. split_and!; try done.
      intros j old' [->|Hj]%elem_of_cons Hold' Htens; [|by apply (Hdone j old')].
      rewrite Hold in Hold'. injection Hold' as <-.
      unfold isRankedTensor in Htens. by rewrite Hty in Htens.
Qed.

Lemma getOp_same_ops ir ir' id : irOps ir' = irOps ir -> getOp ir' id = getOp ir id.
Proof. unfold getOp. by intros ->. Qed.

(** X20. The contract of [cloneElementwise]: the clone is of the kind of the
    original; each of its operands stands for the operand of the original
    and, unless it is a result of the clone itself, carries the encoding
    inferred for the operands when the original operand is a tensor; and
    each result that stands for a tensor result of the original carries the
    new encoding. *)
Theorem cloneElementwise_contract ir layouts rewriteMapping point op encoding ir' newOp :
  cloneElementwise ir layouts rewriteMapping point op encoding = Finished (ir', newOp) ->
  opKind newOp = opKind op ∧
  getOp ir' (opId newOp) = Some newOp ∧
  (forall n operand,
     opOperands op !! n = Some operand ->
     exists operandEnc operand',
       inferSrcEncoding op encoding = Some operandEnc ∧
       opOperands newOp !! n = Some operand' ∧
       (isRankedTensor ir operand = true -> ¬ (operand' ∈ opResults newOp) ->
        getValueEncoding ir' operand' = Some operandEnc)) ∧
  (forall i old,
     opResults op !! i = Some old -> isRankedTensor ir old = true ->
     exists new,
       opResults newOp !! i = Some new ∧ getValueEncoding ir' new = Some encoding).
Proof.
  unfold cloneElementwise.
  destruct (cloneOp ir point op ∅) as [[[ir1 clone] mapping']| |] eqn:Hclone;
    simpl; try done.
  destruct (cloneOp_root _ _ _ _ _ _ _ Hclone) as (Hfound & Hkind & Hoperands & Htypes).
  rewrite lookupOrDefault_empty in Hoperands.
  assert (forall v, isRankedTensor ir v = true -> isRankedTensor ir1 v = true) as Htensor1.
  { intros v. unfold isRankedTensor. destruct (getType ir v) as [t|] eqn:Hv; [|done].
    by rewrite (Htypes _ _ Hv). }
  destruct (0 <? length (opOperands op)) eqn:Hsome.
  - destruct (inferSrcEncoding op encoding) as [operandEnc|] eqn:Hinfer; simpl; [|done].
    rewrite (cloneElementwiseOperand_convert _ _ _ _ _ _ (NoDup_seq 0 _) _ _ Hfound)
      by (intros n _; by rewrite Hoperands).
    destruct (forEachIndex (convertOperandTo _ _ _ _) ir1 _) as [ir2| |] eqn:Hloop1;
      simpl; try done.
    destruct (forEachIndex_convert _ _ _ _ _ (NoDup_seq 0 _) _ _ _ Hloop1 Hfound)
      as (Hev & operands' & Hfound2 & _ & Hvisited).
    destruct (forEachIndex (retypeCloneResult _ _ _) ir2 _) as [ir3| |] eqn:Hloop2;
      simpl; try done.
    destruct (retypeCloneResult_loop _ _ _ _ _ _ Hloop2)
      as (Hops & Htensor & Hother & _ & Hdone).
    rewrite (getOp_same_ops _ _ _ Hops), Hfound2. simpl. intros [= <- <-]. simpl.
    split_and!; [done|by rewrite (getOp_same_ops _ _ _ Hops)| |].
    + intros n operand Hoperand.
      destruct (Hvisited n)
        as (irn & operandsn & operand1 & wanted & _ & _ & _ & Hoperand1 & Hchoose & Hw).
      { apply elem_of_seq. apply lookup_lt_Some in Hoperand. lia. }
      rewrite Hoperands, Hoperand in Hoperand1. injection Hoperand1 as <-.
      injection Hchoose as <-. destruct Hw as (new & Hnew & Henc).
      exists operandEnc, new. split_and!; [done|done|].
      intros Htens Hnot. unfold getValueEncoding. rewrite (Hother new Hnot).
      apply Henc. by apply Htensor1.
    + intros i old Hold Htens. apply (Hdone i old); [|done|].
      * apply elem_of_seq. apply lookup_lt_Some in Hold. lia.
      * by eapply evolves_tensor; [exact Hev|apply Htensor1].
  - simpl. apply Nat.ltb_ge in Hsome.
    assert (opOperands op = []) as Hnil by (destruct (opOperands op); [done|simpl in Hsome; lia]).
    rewrite Hnil. simpl.
    destruct (forEachIndex (retypeCloneResult _ _ _) ir1 _) as [ir3| |] eqn:Hloop2;
      simpl; try done.
    destruct (retypeCloneResult_loop _ _ _ _ _ _ Hloop2)
      as (Hops & Htensor & _ & _ & Hdone).
    rewrite (getOp_same_ops _ _ _ Hops), Hfound. simpl. intros [= <- <-].
    split_and!; [done|by rewrite (getOp_same_ops _ _ _ Hops)| |].
    + intros n operand Hoperand. by rewrite lookup_nil in Hoperand.
    + intros i old Hold Htens. apply (Hdone i old); [|done|by apply Htensor1].
      apply elem_of_seq. apply lookup_lt_Some in Hold. lia.
Qed.

(** ** What [changed] reports *)

Lemma insertEncoding_new v e (layouts : Layouts) :
  (insertEncoding v e layouts).1 = true ->
  candidates (insertEncoding v e layouts).2 v = candidates layouts v ++ [e].
Proof.
  unfold candidates. destruct (layouts_find v layouts) as [info|] eqn:Hfind.
  - rewrite (insertEncoding_found _ _ _ _ Hfind). simpl.
    rewrite layouts_set_find, bool_decide_eq_true_2, Hfind by done. simpl.
    unfold SetVector_insert. by case_bool_decide.
  - rewrite (insertEncoding_fresh _ _ _ Hfind). simpl. intros _.
    rewrite layouts_find_app, Hfind. simpl. by rewrite bool_decide_eq_true_2.
Qed.

Lemma setEncodingSteps_grows op value encs b layouts :
  candidates layouts value `prefix_of`
    candidates (fold_left (setEncodingStep op value) encs (b, layouts)).2 value ∧
  ((fold_left (setEncodingStep op value) encs (b, layouts)).1 = true ->
   b = true ∨
   length (candidates layouts value) <
   length (candidates (fold_left (setEncodingStep op value) encs (b, layouts)).2 value)).
Proof.
  revert b layouts. induction encs as [|e rest IH]; intros b layouts; simpl.
  - split; [done|]. intros ->. by left.
  - destruct (dstEncodingOf op e) as [d|]; [|apply IH].
    destruct (insertEncoding value d layouts) as [isNew layouts1] eqn:Hins.
    assert (layouts1 = (insertEncoding value d layouts).2) as HL1 by by rewrite Hins.
    assert (isNew = (insertEncoding value d layouts).1) as HisNew by by rewrite Hins.
    destruct (IH (b || isNew) layouts1) as (Hprefix & Hstrict).
    pose proof (insertEncoding_prefix value d layouts value) as Hfirst.
    rewrite <- HL1 in Hfirst. split; [by etrans|].
    intros Htrue. destruct (Hstrict Htrue) as [Hb|Hlt].
    + apply orb_true_iff in Hb as [?|Hnew]; [by left|]. right.
      rewrite Hnew in HisNew. symmetry in HisNew.
      apply insertEncoding_new in HisNew. rewrite <- HL1 in HisNew.
      apply prefix_length in Hprefix. rewrite HisNew, length_app in Hprefix.
      simpl in Hprefix. lia.
    + right. apply prefix_length in Hfirst. lia.
Qed.

Lemma grows_refl st : grows st st.
Proof.
  split; [done|]. exists []. split; [by rewrite app_nil_r|].
  intros v Hv. by apply elem_of_nil in Hv.
Qed.

Lemma grows_trans st1 st2 st3 : grows st1 st2 -> grows st2 st3 -> grows st1 st3.
Proof.
  intros (Hp1 & ex1 & Hc1 & Hs1) (Hp2 & ex2 & Hc2 & Hs2). split.
  - intros v. etrans; [apply Hp1|apply Hp2].
  - exists (ex1 ++ ex2). split; [by rewrite Hc2, Hc1, app_assoc|].
    intros v [Hv|Hv]%elem_of_app.
    + specialize (Hs1 v Hv). pose proof (prefix_length _ _ (Hp2 v)). lia.
    + specialize (Hs2 v Hv). pose proof (prefix_length _ _ (Hp1 v)). lia.
Qed.

Lemma setEncodingValue_grows ir info op st value :
  grows st (setEncodingValue ir info op st value).
Proof.
  unfold setEncodingValue. destruct (isRankedTensor ir value); simpl; [|apply grows_refl].
  destruct (setEncodingSteps_grows op value (encodings info) false st.1) as (Hprefix & Hstrict).
  destruct (setEncodingSteps_tracks op value (encodings info) false st.1) as (Hother & _).
  destruct (fold_left _ _ _) as [hasChanged layouts'] eqn:Hfold. simpl in *. split.
  - intros v. simpl. destruct (decide (v = value)) as [->|Hne]; [done|].
    by rewrite (proj1 (Hother v Hne)).
  - simpl. destruct hasChanged.
    + exists [value]. split; [done|]. intros v ->%list_elem_of_singleton.
      by destruct (Hstrict eq_refl).
    + exists []. split; [by rewrite app_nil_r|]. intros v Hv. by apply elem_of_nil in Hv.
Qed.

Lemma setEncoding_grows ir values info st op :
  grows st (setEncoding ir values info st op).
Proof.
  unfold setEncoding. revert st. induction values as [|value rest IH]; intros st; simpl.
  - apply grows_refl.
  - eapply grows_trans; [apply setEncodingValue_grows|apply IH].
Qed.

Lemma propagateToUses_grows ir info uses st st' :
  propagateToUses ir info uses st = Some st' -> grows st st'.
Proof.
  revert st. induction uses as [|use rest IH]; intros st; simpl.
  - intros [= <-]. apply grows_refl.
  - rewrite propagateToUse_useTargets.
    destruct (useTargets ir use) as [targets|]; simpl; [|done].
    intros Hrest. eapply grows_trans; [apply setEncoding_grows|by apply IH].
Qed.

(** X21. [changed] reports exactly the values that gained a candidate: after
    [propagateToUsers], a value is in [changed] if and only if its
    candidates are no longer what they were, and what they were is a prefix
    of what they are. *)
Theorem propagateToUsers_changed ir value info layouts layouts' changed v :
  propagateToUsers ir value info layouts = Some (layouts', changed) ->
  (v ∈ changed <-> candidates layouts' v ≠ candidates layouts v) ∧
  candidates layouts v `prefix_of` candidates layouts' v.
Proof.
  intros Hp. unfold propagateToUsers in Hp.
  destruct (propagateToUses_grows _ _ _ _ _ Hp) as (Hprefix & extra & Hextra & Hstrict).
  destruct (propagateToUses_tracks _ _ _ _ _ Hp) as (extra' & Hextra' & Hsame).
  simpl in *. subst extra extra'. split; [|apply Hprefix]. split.
  - intros Hv Heq. specialize (Hstrict v Hv). rewrite Heq in Hstrict. lia.
  - intros Hne. destruct (decide (v ∈ changed)) as [?|Hnot]; [done|].
    by destruct (Hsame v Hnot).
Qed.

(** ** The map the rewrite phase receives *)

(** X22. On the map that [initAnchorLayout] seeds and [propagateLayout]
    completes, no value has two entries, every value with an entry has a
    tensor type, as the casts of the rewrite phase take for granted, and
    every entry holds at least one candidate and none twice. *)
Theorem propagateLayout_map_wellformed ir fuel layouts0 layouts' :
  initAnchorLayout ir = Finished layouts0 ->
  propagateLayout fuel ir layouts0 = Finished layouts' ->
  NoDup layouts'.*1 ∧
  Forall (fun entry => isRankedTensor ir entry.1 = true ∧
                       encodings entry.2 ≠ [] ∧ NoDup (encodings entry.2)) layouts'.
Proof.
  intros Hinit Hprop.
  assert (stateOk (fun _ => True) ir ([], layouts')) as (_ & Hkeys & Htensor & Hall).
  { eapply propagateLoop_stateOk; [by intros ? ? ? ? ?| |exact Hprop].
    apply anchorsOk_stateOk; [by eapply initAnchorLayout_anchorsOk|done]. }
  split; [done|]. apply Forall_forall. intros [v info] Hin. simpl.
  destruct (proj1 (Forall_forall _ _) Hall _ Hin) as (Hnd & Hne & _). split_and!; try done.
  apply Htensor. simpl. apply list_elem_of_fmap. by exists (v, info).
Qed.

(** ** The rewrite of an operation *)

Lemma sameOperation_refl op : sameOperation op op.
Proof. by split_and!. Qed.

Lemma sameOperation_trans op1 op2 op3 :
  sameOperation op1 op2 -> sameOperation op2 op3 -> sameOperation op1 op3.
Proof. intros (? & ? & ? & ?) (? & ? & ? & ?). split_and!; congruence. Qed.

Lemma keeps_refl ir : keeps ir ir.
Proof. split; [done|]. intros op Hop. exists op. split; [done|apply sameOperation_refl]. Qed.

Lemma keeps_trans ir1 ir2 ir3 : keeps ir1 ir2 -> keeps ir2 ir3 -> keeps ir1 ir3.
Proof.
  intros (Ht1 & Ho1) (Ht2 & Ho2). split.
  - intros v t Hv. by apply Ht2, Ht1.
  - intros op Hop. destruct (Ho1 op Hop) as (op1 & Hop1 & Hsame1).
    destruct (Ho2 op1 Hop1) as (op2 & Hop2 & Hsame2).
    exists op2. split; [done|by eapply sameOperation_trans].
Qed.

Lemma keeps_encoding ir ir' v e :
  keeps ir ir' -> getValueEncoding ir v = Some e -> getValueEncoding ir' v = Some e.
Proof.
  intros (Ht & _) Hv. unfold getValueEncoding in *.
  destruct (getType ir v) as [t|] eqn:Hty; [|done]. by rewrite (Ht _ _ Hty).
Qed.

Lemma keeps_tensor ir ir' v :
  keeps ir ir' -> isRankedTensor ir v = true -> isRankedTensor ir' v = true.
Proof.
  intros (Ht & _). unfold isRankedTensor.
  destruct (getType ir v) as [t|] eqn:Hty; [|done]. by rewrite (Ht _ _ Hty).
Qed.

Lemma keeps_recorded ir ir' rewriteMapping v e :
  keeps ir ir' -> recorded ir rewriteMapping v e -> recorded ir' rewriteMapping v e.
Proof.
  intros Hkeeps (new & Hnew & Henc). exists new. split; [done|by eapply keeps_encoding].
Qed.

Lemma keeps_fresh ir ir' op :
  keeps ir ir' -> op ∈ irOps ir -> opId op ≠ freshOpId ir'.
Proof.
  intros (_ & Hops) Hop. destruct (Hops op Hop) as (op' & Hop' & Hid & _).
  rewrite <- Hid. by apply freshOpId_fresh.
Qed.

(** Operations inserted somewhere, values typed that had no type. *)
Lemma keeps_insert ir ir' l1 l2 added :
  irOps ir = l1 ++ l2 -> irOps ir' = l1 ++ added ++ l2 ->
  (forall v t, getType ir v = Some t -> getType ir' v = Some t) ->
  keeps ir ir'.
Proof.
  intros Hops Hops' Htypes. split; [done|]. intros op Hop. exists op.
  split; [|apply sameOperation_refl]. rewrite Hops'. rewrite Hops in Hop.
  rewrite !elem_of_app. apply elem_of_app in Hop as [?|?]; auto.
Qed.

Lemma getValueAs_keeps ir layouts rewriteMapping value encoding ir' returned :
  getValueAs ir layouts rewriteMapping value encoding = Finished (ir', returned) ->
  keeps ir ir'.
Proof.
  intros [->|Hcvt]%getValueAs_inv; [apply keeps_refl|].
  destruct Hcvt as (shape & elt & venc & rv & renc & cvt & _ & _ & _ & _ & Hcreate & _).
  apply createOp_one in Hcreate as (block & l1 & l2 & _ & _ & Hops & _ & ->).
  apply (keeps_insert _ _ l1 l2 [cvt]); [done|done|].
  intros v t Hv. by apply getType_fresh_insert.
Qed.

(** The values [allocValues] hands out had no type, and have the types asked
    for. *)
Lemma allocValues_typed ir tys ir' vs :
  allocValues ir tys = (ir', vs) ->
  length vs = length tys ∧
  (forall v, v ∈ vs -> getType ir v = None) ∧
  (forall i v ty, vs !! i = Some v -> tys !! i = Some ty -> getType ir' v = Some ty).
Proof.
  revert ir ir' vs. induction tys as [|ty rest IH]; intros ir ir' vs; simpl.
  - intros [= <- <-]. split_and!; [done| |done]. intros v Hv. by apply elem_of_nil in Hv.
  - destruct (allocValues _ rest) as [ir1 vs1] eqn:Hrest. intros [= <- <-].
    destruct (IH _ _ _ Hrest) as (Hlen & Hfresh & Htyped).
    destruct (allocValues_types _ _ _ _ Hrest) as (_ & _ & Hkept).
    split_and!.
    + simpl. by rewrite Hlen.
    + intros v [->|Hv]%elem_of_cons; [apply freshValue_untyped|].
      specialize (Hfresh v Hv). unfold getType in *. simpl in Hfresh.
      by apply lookup_insert_None in Hfresh as [? _].
    + intros [|i] v ty'; simpl.
      * intros [= <-] [= <-]. apply Hkept. unfold getType. simpl.
        by rewrite lookup_insert_eq.
      * apply Htyped.
Qed.

Lemma allocRegions_inv ir regions ir' argss :
  allocRegions ir regions = (ir', argss) ->
  irOps ir' = irOps ir ∧
  (forall v t, getType ir v = Some t -> getType ir' v = Some t) ∧
  (forall r args tys i v ty,
     argss !! r = Some args -> regions !! r = Some tys ->
     args !! i = Some v -> tys !! i = Some ty -> getType ir' v = Some ty).
Proof.
  revert ir ir' argss. induction regions as [|tys rest IH]; intros ir ir' argss; simpl.
  - intros [= <- <-]. split_and!; [done|done|]. intros r args tys i v ty Hr.
    by rewrite lookup_nil in Hr.
  - destruct (allocValues ir tys) as [ir1 args] eqn:Halloc.
    destruct (allocRegions ir1 rest) as [ir2 argss2] eqn:Hrest. intros [= <- <-].
    destruct (allocValues_types _ _ _ _ Halloc) as (Hops1 & _ & Hkept1).
    destruct (allocValues_typed _ _ _ _ Halloc) as (_ & _ & Htyped1).
    destruct (IH _ _ _ Hrest) as (Hops2 & Hkept2 & Htyped2).
    split_and!.
    + by rewrite Hops2.
    + intros v t Hv. by apply Hkept2, Hkept1.
    + intros [|r] args0 tys0 i v ty; simpl.
      * intros [= <-] [= <-] Hv Hty. apply Hkept2. by eapply Htyped1.
      * apply Htyped2.
Qed.

(** What the creation of an operation with regions leaves. *)
Lemma createOpWithRegions_inv ir point kind operands resultTypes regionArgTypes attrs ir' op :
  createOpWithRegions ir point kind operands resultTypes regionArgTypes attrs
  = Finished (ir', op) ->
  keeps ir ir' ∧
  getOp ir' (opId op) = Some op ∧
  opId op = freshOpId ir ∧ opKind op = kind ∧ opOperands op = operands ∧
  length (opResults op) = length resultTypes ∧
  (forall i v ty, opResults op !! i = Some v -> resultTypes !! i = Some ty ->
                  getType ir' v = Some ty) ∧
  (forall r args tys i v ty,
     opRegionArgs op !! r = Some args -> regionArgTypes !! r = Some tys ->
     args !! i = Some v -> tys !! i = Some ty -> getType ir' v = Some ty).
Proof.
  unfold createOpWithRegions.
  destruct (blockOfPoint ir point) as [block|]; simpl; [|done].
  destruct (allocValues ir resultTypes) as [ir1 results] eqn:Hresults.
  destruct (allocRegions ir1 regionArgTypes) as [ir2 regionArgs] eqn:Hregions.
  destruct (insertAt ir point _) as [ops|] eqn:Hins; simpl; [|done].
  intros [= <- <-]. apply insertAt_split in Hins as (l1 & l2 & Hops & ->).
  destruct (allocValues_types _ _ _ _ Hresults) as (_ & _ & Hkept1).
  destruct (allocValues_typed _ _ _ _ Hresults) as (Hlen & _ & Htyped1).
  destruct (allocRegions_inv _ _ _ _ Hregions) as (_ & Hkept2 & Htyped2).
  simpl. split_and!; try done.
  - eapply (keeps_insert _ _ l1 l2 [_]); [exact Hops|reflexivity|].
    intros v t Hv. by apply Hkept2, Hkept1.
  - rewrite getOp_app_fresh.
    + simpl. by rewrite getOp_cons, bool_decide_eq_true_2.
    + intros op' Hin. simpl. apply freshOpId_fresh. rewrite Hops. apply elem_of_app. by left.
  - intros i v ty Hv Hty. apply Hkept2. by eapply Htyped1.
Qed.

Lemma spliceBodies_inv ir from to ops ops' :
  spliceBodies ir from to ops = Some ops' ->
  (forall op, op ∈ ops -> exists op', op' ∈ ops' ∧ sameOperation op op') ∧
  snd <$> list_find (fun op => opId op = to) ops' =
  snd <$> list_find (fun op => opId op = to) ops.
Proof.
  revert ops'. induction ops as [|new rest IH]; intros ops'; simpl; [done|].
  case_bool_decide as Hto.
  - pose proof (span_app (isInside ir to) rest) as Hown.
    destruct (span (isInside ir to) rest) as [own rest1]. simpl in Hown.
    destruct rest1 as [|old rest2]; [done|]. case_bool_decide; [|done].
    pose proof (span_app (isInside ir from) rest2) as Hnested.
    destruct (span (isInside ir from) rest2) as [nested outer]. simpl in Hnested.
    intros [= <-]. split.
    + intros op Hop. rewrite Hown, Hnested in Hop.
      rewrite elem_of_cons, elem_of_app, elem_of_cons, elem_of_app in Hop.
      destruct Hop as [->|[Hop|[->|[Hop|Hop]]]].
      * exists new. split; [left|apply sameOperation_refl].
      * exists op. split; [|apply sameOperation_refl].
        rewrite elem_of_cons, !elem_of_app. auto.
      * exists old. split; [|apply sameOperation_refl].
        rewrite elem_of_cons, !elem_of_app, elem_of_cons. auto.
      * eexists. split.
        -- rewrite elem_of_cons, elem_of_app. right. left.
           apply list_elem_of_fmap. by exists op.
        -- case_bool_decide; by split_and!.
      * exists op. split; [|apply sameOperation_refl].
        rewrite elem_of_cons, !elem_of_app, elem_of_cons. auto.
    + simpl. by rewrite !decide_True.
  - destruct (spliceBodies ir from to rest) as [ops1|]; simpl; [|done].
    intros [= <-]. destruct (IH _ eq_refl) as (Hmem & Hfind). split.
    + intros op [->|Hop]%elem_of_cons.
      * exists new. split; [left|apply sameOperation_refl].
      * destruct (Hmem op Hop) as (op' & Hop' & Hsame). exists op'. split; [by right|done].
    + simpl. rewrite !decide_False by done.
      destruct (list_find _ ops1) as [[? ?]|], (list_find _ rest) as [[? ?]|];
        simpl in *; congruence.
Qed.

Lemma takeBodies_inv ir from to ir' :
  takeBodies ir from to = Finished ir' ->
  keeps ir ir' ∧ irTypes ir' = irTypes ir ∧ getOp ir' to = getOp ir to.
Proof.
  unfold takeBodies.
  destruct (spliceBodies ir from to (irOps ir)) as [ops|] eqn:Hsplice; simpl; [|done].
  intros [= <-]. destruct (spliceBodies_inv _ _ _ _ _ Hsplice) as (Hmem & Hfind).
  split_and!; [|done|exact Hfind]. by split.
Qed.

Lemma ensureTerminator_inv ir forOp ir' :
  ensureTerminator ir forOp = Finished ir' ->
  keeps ir ir' ∧ irTypes ir' = irTypes ir ∧
  forall id, id ≠ freshOpId ir -> getOp ir' id = getOp ir id.
Proof.
  unfold ensureTerminator.
  destruct (insertAfterOp ir (opId forOp) _ (irOps ir)) as [ops|] eqn:Hins; simpl; [|done].
  intros [= <-]. apply insertAfterOp_split in Hins as (l1 & l2 & Hops & ->).
  split_and!; [|done|].
  - by eapply (keeps_insert _ _ l1 l2 [_]).
  - intros id Hid. destruct ir as [ops types args]. simpl in *. subst ops.
    by apply getOp_insert.
Qed.

Lemma replaceAllUsesWith_elem ir old new op :
  op ∈ irOps ir ->
  exists op', op' ∈ irOps (replaceAllUsesWith ir old new) ∧ sameOperation op op'.
Proof.
  unfold replaceAllUsesWith. simpl. induction (irOps ir) as [|op0 rest IH]; simpl.
  - intros Hop. by apply elem_of_nil in Hop.
  - intros [->|Hop]%elem_of_cons.
    + eexists. split; [left|]. by split_and!.
    + destruct (IH Hop) as (op' & Hop' & Hsame). exists op'. split; [by right|done].
Qed.

Lemma replaceAllUsesWith_getOp ir old new id op :
  getOp ir id = Some op ->
  exists op', getOp (replaceAllUsesWith ir old new) id = Some op' ∧ sameOperation op op'.
Proof.
  destruct ir as [ops types args]. unfold replaceAllUsesWith. simpl.
  induction ops as [|op0 rest IH]; [done|]. simpl. rewrite !getOp_cons. simpl.
  case_bool_decide.
  - intros [= <-]. eexists. split; [done|]. by split_and!.
  - apply IH.
Qed.

Lemma replaceAllUsesWith_keeps ir old new : keeps ir (replaceAllUsesWith ir old new).
Proof. split; [done|]. intros op. apply replaceAllUsesWith_elem. Qed.

Lemma map_recorded ir rewriteMapping old newV rewriteMapping' :
  LayoutPropagation_map ir rewriteMapping old newV = Finished rewriteMapping' ->
  (exists encoding, getValueEncoding ir newV = Some encoding ∧
                    recorded ir rewriteMapping' old encoding) ∧
  forall v e, recorded ir rewriteMapping v e -> recorded ir rewriteMapping' v e.
Proof.
  unfold LayoutPropagation_map.
  destruct (getValueEncoding ir newV) as [encoding|] eqn:Henc; simpl; [|done].
  intros [= <-]. unfold recorded, RewriteMapping in *. split.
  - exists encoding. split; [done|]. exists newV. by rewrite lookup_insert_eq.
  - intros v e (new & Hnew & Hnewenc).
    destruct (decide ((old, encoding) = (v, e))) as [[= <- <-]|Hne].
    + exists newV. by rewrite lookup_insert_eq.
    + exists new. by rewrite lookup_insert_ne.
Qed.

(** What [remapArg] over a zip leaves: types as they were, operations up to
    their operands, what was recorded still recorded, and for every pair
    whose types differ the new value recorded for the old one. *)
Lemma remapArgs_inv olds : forall news ir rewriteMapping ir' rewriteMapping',
  remapArgs (ir, rewriteMapping) olds news = Finished (ir', rewriteMapping') ->
  irTypes ir' = irTypes ir ∧ keeps ir ir' ∧
  (forall id op, getOp ir id = Some op ->
     exists op', getOp ir' id = Some op' ∧ sameOperation op op') ∧
  (forall v e, recorded ir rewriteMapping v e -> recorded ir' rewriteMapping' v e) ∧
  (forall i old new,
     olds !! i = Some old -> news !! i = Some new -> getType ir old ≠ getType ir new ->
     exists encoding,
       getValueEncoding ir new = Some encoding ∧ recorded ir' rewriteMapping' old encoding).
Proof.
  assert (forall ir ir' rm v e, irTypes ir' = irTypes ir ->
            recorded ir rm v e -> recorded ir' rm v e) as Hsametypes.
  { intros ir ir' rm v e Ht (new & Hnew & Henc). exists new. split; [done|].
    unfold getValueEncoding, getType in *. by rewrite Ht. }
  induction olds as [|old olds IH]; intros news ir rm ir' rm'.
  - simpl. intros [= <- <-]. split_and!; [done|apply keeps_refl| |done|].
    + intros id op Hop. exists op. split; [done|apply sameOperation_refl].
    + intros i old new Hold. by rewrite lookup_nil in Hold.
  - destruct news as [|new news].
    + simpl. intros [= <- <-]. split_and!; [done|apply keeps_refl| |done|].
      * intros id op Hop. exists op. split; [done|apply sameOperation_refl].
      * intros i old0 new0 _ Hnew. by rewrite lookup_nil in Hnew.
    + cbn [remapArgs]. unfold remapArg at 1. cbn [fst snd].
      case_bool_decide as Hty.
      * simpl. intros Hrest.
        destruct (IH _ _ _ _ _ Hrest) as (Htypes & Hkeeps & Hops & Hrec & Hnewrec).
        split_and!.
        -- by rewrite Htypes.
        -- eapply keeps_trans; [apply replaceAllUsesWith_keeps|done].
        -- intros id op Hop.
           destruct (replaceAllUsesWith_getOp ir old new id op Hop) as (op1 & Hop1 & Hsame1).
           destruct (Hops id op1 Hop1) as (op2 & Hop2 & Hsame2).
           exists op2. split; [done|by eapply sameOperation_trans].
        -- intros v e Hve. apply Hrec. by eapply Hsametypes; [|exact Hve].
        -- intros [|i] old0 new0; simpl.
           ++ by intros [= <-] [= <-].
           ++ apply Hnewrec.
      * destruct (LayoutPropagation_map ir rm old new) as [rm1| |] eqn:Hmap; simpl; try done.
        intros Hrest. destruct (map_recorded _ _ _ _ _ Hmap) as ((enc & Henc & Hnow) & Hstay).
        destruct (IH _ _ _ _ _ Hrest) as (Htypes & Hkeeps & Hops & Hrec & Hnewrec).
        split_and!; [done|done|done| |].
        -- intros v e Hve. by apply Hrec, Hstay.
        -- intros [|i] old0 new0; simpl.
           ++ intros [= <-] [= <-] _. exists enc. split; [done|by apply Hrec].
           ++ apply Hnewrec.
Qed.

Lemma convertTiedOperands_inv layouts rewriteMapping operands :
  forall tied ir ir' converted,
    convertTiedOperands ir layouts rewriteMapping operands tied = Finished (ir', converted) ->
    keeps ir ir' ∧
    forall i operand value info encoding,
      operands !! i = Some operand -> tied !! i = Some value ->
      layouts_find value layouts = Some info -> head (encodings info) = Some encoding ->
      isRankedTensor ir operand = true ->
      exists convertedOperand,
        converted !! i = Some convertedOperand ∧
        getValueEncoding ir' convertedOperand = Some encoding.
Proof.
  induction operands as [|operand operands IH]; intros tied ir ir' converted.
  - simpl. intros [= <- <-]. split; [apply keeps_refl|].
    intros i operand value info encoding Hi. by rewrite lookup_nil in Hi.
  - destruct tied as [|value tied].
    + simpl. intros [= <- <-]. split; [apply keeps_refl|].
      intros i operand0 value info encoding _ Hi. by rewrite lookup_nil in Hi.
    + cbn [convertTiedOperands].
      destruct (match layouts_find value layouts with
                | Some info => _
                | None => _
                end) as [[ir1 convertedOperand]| |] eqn:Hfirst; simpl; try done.
      destruct (convertTiedOperands ir1 layouts rewriteMapping operands tied)
        as [[ir2 rest]| |] eqn:Hrest; simpl; try done.
      intros [= <- <-]. destruct (IH _ _ _ _ Hrest) as (Hkeeps2 & Hconverted).
      assert (keeps ir ir1) as Hkeeps1.
      { destruct (layouts_find value layouts) as [info|].
        - destruct (head (encodings info)) as [encoding|]; simpl in Hfirst; [|done].
          by eapply getValueAs_keeps.
        - injection Hfirst as <- <-. apply keeps_refl. }
      split; [by eapply keeps_trans|].
      intros [|i] operand0 value0 info encoding; simpl.
      * intros [= <-] [= <-] Hinfo Hhead Htensor. rewrite Hinfo, Hhead in Hfirst.
        simpl in Hfirst. exists convertedOperand. split; [done|].
        eapply keeps_encoding; [exact Hkeeps2|]. by eapply getValueAs_tensor.
      * intros Hoperand Hvalue Hinfo Hhead Htensor.
        apply (Hconverted i operand0 value0 info encoding); try done.
        by eapply keeps_tensor.
Qed.

Lemma rewrittenResultTypes_inv ir layouts results :
  forall tys,
    rewrittenResultTypes ir layouts results = Finished tys ->
    length tys = length results ∧
    forall i result,
      results !! i = Some result ->
      exists ty, tys !! i = Some ty ∧ rewrittenResultType ir layouts result = Finished ty.
Proof.
  induction results as [|result results IH]; intros tys; simpl.
  - intros [= <-]. split; [done|]. intros i result Hi. by rewrite lookup_nil in Hi.
  - destruct (rewrittenResultType ir layouts result) as [ty| |] eqn:Hty; simpl; try done.
    destruct (rewrittenResultTypes ir layouts results) as [tys1| |]; simpl; try done.
    intros [= <-]. destruct (IH _ eq_refl) as (Hlen & Hrest). split; [simpl; by rewrite Hlen|].
    intros [|i] result0; simpl; [|apply Hrest]. intros [= <-]. by exists ty.
Qed.

(** The type a mapped tensor result gets has the first encoding of its
    entry. *)
Lemma rewrittenResultType_mapped ir layouts result info picked ty :
  rewrittenResultType ir layouts result = Finished ty ->
  layouts_find result layouts = Some info -> head (encodings info) = Some picked ->
  getEncoding ty = Some picked.
Proof.
  unfold rewrittenResultType. intros Hty Hinfo Hhead.
  destruct (getType ir result) as [origType|]; simpl in Hty; [|done].
  rewrite Hinfo, Hhead in Hty. simpl in Hty.
  destruct origType as [shape elt enc|tag]; simpl in Hty; [|done].
  by injection Hty as <-.
Qed.

(** A new result whose type has the picked encoding, remapped against an old
    one that has another, is recorded. *)
Lemma remapArgs_records olds news ir rewriteMapping ir' rewriteMapping' i old new ty own picked :
  remapArgs (ir, rewriteMapping) olds news = Finished (ir', rewriteMapping') ->
  olds !! i = Some old -> news !! i = Some new ->
  getType ir new = Some ty -> getEncoding ty = Some picked ->
  getValueEncoding ir old = Some own -> own ≠ picked ->
  recorded ir' rewriteMapping' old picked.
Proof.
  intros Hremap Hold Hnew Hty Henc Hown Hne.
  destruct (remapArgs_inv _ _ _ _ _ _ Hremap) as (_ & _ & _ & _ & Hrec).
  destruct (Hrec i old new Hold Hnew) as (encoding & Hencoding & Hrecorded).
  - intros Heq. unfold getValueEncoding in Hown. rewrite Heq, Hty in Hown. simpl in Hown.
    congruence.
  - unfold getValueEncoding in Hencoding. rewrite Hty in Hencoding. simpl in Hencoding.
    congruence.
Qed.

Lemma mapM_getType_lookup ir (values : list Value) tys i v :
  mapM (getType ir) values = Some tys -> values !! i = Some v ->
  exists ty, tys !! i = Some ty ∧ getType ir v = Some ty.
Proof.
  intros Hall%mapM_Some Hv.
  destruct (Forall2_lookup_l _ _ _ _ _ Hall Hv) as (ty & Hty & Hget). by exists ty.
Qed.

Lemma rewriteForOp_inv layouts st forOp st' newForOp :
  rewriteForOp layouts st forOp = Finished (st', newForOp) ->
  builtBeside st st' newForOp ∧ opKind newForOp = ForOp ∧
  forall i init result info picked own,
    getInitArgs forOp !! i = Some init -> isRankedTensor (rpIR st) init = true ->
    opResults forOp !! i = Some result ->
    layouts_find result layouts = Some info -> head (encodings info) = Some picked ->
    getValueEncoding (rpIR st) result = Some own -> own ≠ picked ->
    recorded (rpIR st') (rpMapping st') result picked.
Proof.
  unfold rewriteForOp.
  destruct (convertTiedOperands _ _ _ _ _) as [[ir1 operands]| |] eqn:Hconv; simpl; try done.
  destruct (opOperands forOp !! 0) as [lowerBound|]; simpl; [|done].
  destruct (opOperands forOp !! 1) as [upperBound|]; simpl; [|done].
  destruct (opOperands forOp !! 2) as [step|]; simpl; [|done].
  destruct (getType ir1 lowerBound) as [boundType|]; simpl; [|done].
  destruct (mapM (getType ir1) operands) as [types|] eqn:Htypes; simpl; [|done].
  destruct (createOpWithRegions _ _ _ _ _ _ _) as [[ir2 new]| |] eqn:Hcreate; simpl; try done.
  destruct (if bool_decide (operands = []) then ensureTerminator ir2 new else Finished ir2)
    as [ir3| |] eqn:Hterm; simpl; try done.
  destruct (takeBodies ir3 (opId forOp) (opId new)) as [ir4| |] eqn:Htake; simpl; try done.
  destruct (remapArgs (ir4, rpMapping st) _ _) as [[ir5 rm5]| |] eqn:H5; simpl; try done.
  destruct (remapArgs (ir5, rm5) _ _) as [[ir6 rm6]| |] eqn:H6; simpl; try done.
  destruct (getOp ir6 (opId new)) as [new'|] eqn:Hget; simpl; [|done].
  intros [= <- <-]. simpl.
  destruct (convertTiedOperands_inv _ _ _ _ _ _ _ Hconv) as (Hk1 & Hconverted).
  destruct (createOpWithRegions_inv _ _ _ _ _ _ _ _ _ Hcreate)
    as (Hk2 & Hnew2 & Hid & Hkind & _ & Hlen & Hresults & _).
  assert (keeps ir2 ir3 ∧ getOp ir3 (opId new) = Some new) as (Hk3 & Hnew3).
  { case_bool_decide.
    - destruct (ensureTerminator_inv _ _ _ Hterm) as (Hk & _ & Hsame). split; [done|].
      rewrite Hsame; [done|]. apply freshOpId_fresh. by apply getOp_elem in Hnew2 as [? _].
    - injection Hterm as <-. split; [apply keeps_refl|done]. }
  destruct (takeBodies_inv _ _ _ _ Htake) as (Hk4 & _ & Hnew4). rewrite Hnew3 in Hnew4.
  destruct (remapArgs_inv _ _ _ _ _ _ H5) as (_ & Hk5 & Hops5 & Hrec5 & _).
  destruct (remapArgs_inv _ _ _ _ _ _ H6) as (_ & Hk6 & Hops6 & Hrec6 & _).
  destruct (Hops5 _ _ Hnew4) as (new5 & Hnew5 & Hsame5).
  destruct (Hops6 _ _ Hnew5) as (new6 & Hnew6 & Hsame6).
  rewrite Hget in Hnew6. injection Hnew6 as <-.
  pose proof (sameOperation_trans _ _ _ Hsame5 Hsame6) as (Hid' & Hkind' & _).
  assert (keeps (rpIR st) ir4) as Hk04 by (repeat (eapply keeps_trans; [|eassumption]); apply keeps_refl).
  split_and!.
  - split_and!.
    + repeat (eapply keeps_trans; [|eassumption]). apply keeps_refl.
    + done.
    + by apply getOp_elem in Hget as [? _].
    + intros old Hold. rewrite Hid', Hid. by eapply keeps_fresh.
    + intros v e Hve. apply Hrec6, Hrec5. by eapply keeps_recorded.
  - congruence.
  - intros i init result info picked own Hinit Htensor Hresult Hinfo Hhead Hown Hne.
    destruct (Hconverted i init result info picked Hinit Hresult Hinfo Hhead Htensor)
      as (converted & Hconv_i & Hconv_enc).
    destruct (mapM_getType_lookup _ _ _ _ _ Htypes Hconv_i) as (ty & Hty & Hconv_ty).
    destruct (lookup_lt_is_Some_2 (opResults new) i) as [newResult HnewResult].
    { rewrite Hlen. by eapply lookup_lt_Some. }
    apply Hrec6.
    apply (remapArgs_records _ _ _ _ _ _ i result newResult ty own picked H5);
      try done.
    + destruct Hk4 as (Ht4 & _). destruct Hk3 as (Ht3 & _).
      apply Ht4, Ht3. by eapply Hresults.
    + unfold getValueEncoding in Hconv_enc. by rewrite Hconv_ty in Hconv_enc.
    + by eapply keeps_encoding.
Qed.

Lemma rewriteWhileOp_inv layouts st whileOp st' newWhileOp :
  rewriteWhileOp layouts st whileOp = Finished (st', newWhileOp) ->
  builtBeside st st' newWhileOp ∧ opKind newWhileOp = WhileOp ∧
  forall i result info picked own,
    opResults whileOp !! i = Some result ->
    layouts_find result layouts = Some info -> head (encodings info) = Some picked ->
    getValueEncoding (rpIR st) result = Some own -> own ≠ picked ->
    recorded (rpIR st') (rpMapping st') result picked.
Proof.
  unfold rewriteWhileOp.
  destruct (convertTiedOperands _ _ _ _ _) as [[ir1 operands]| |] eqn:Hconv; simpl; try done.
  destruct (rewrittenResultTypes ir1 layouts _) as [returnTypes| |] eqn:Hret; simpl; try done.
  destruct (mapM (getType ir1) operands) as [argsTypesBefore|]; simpl; [|done].
  destruct (createOpWithRegions _ _ _ _ _ _ _) as [[ir2 new]| |] eqn:Hcreate; simpl; try done.
  destruct (takeBodies ir2 (opId whileOp) (opId new)) as [ir3| |] eqn:Htake; simpl; try done.
  destruct (remapArgs (ir3, rpMapping st) _ _) as [[ir4 rm4]| |] eqn:H4; simpl; try done.
  destruct (remapArgs (ir4, rm4) _ _) as [[ir5 rm5]| |] eqn:H5; simpl; try done.
  destruct (remapArgs (ir5, rm5) _ _) as [[ir6 rm6]| |] eqn:H6; simpl; try done.
  destruct (getOp ir6 (opId new)) as [new'|] eqn:Hget; simpl; [|done].
  intros [= <- <-]. simpl.
  destruct (convertTiedOperands_inv _ _ _ _ _ _ _ Hconv) as (Hk1 & _).
  destruct (rewrittenResultTypes_inv _ _ _ _ Hret) as (Hlenret & Hreturn).
  destruct (createOpWithRegions_inv _ _ _ _ _ _ _ _ _ Hcreate)
    as (Hk2 & Hnew2 & Hid & Hkind & _ & Hlen & Hresults & _).
  destruct (takeBodies_inv _ _ _ _ Htake) as (Hk3 & _ & Hnew3). rewrite Hnew2 in Hnew3.
  destruct (remapArgs_inv _ _ _ _ _ _ H4) as (_ & Hk4 & Hops4 & Hrec4 & _).
  destruct (remapArgs_inv _ _ _ _ _ _ H5) as (_ & Hk5 & Hops5 & Hrec5 & _).
  destruct (remapArgs_inv _ _ _ _ _ _ H6) as (_ & Hk6 & Hops6 & Hrec6 & _).
  destruct (Hops4 _ _ Hnew3) as (new4 & Hnew4 & Hsame4).
  destruct (Hops5 _ _ Hnew4) as (new5 & Hnew5 & Hsame5).
  destruct (Hops6 _ _ Hnew5) as (new6 & Hnew6 & Hsame6).
  rewrite Hget in Hnew6. injection Hnew6 as <-.
  pose proof (sameOperation_trans _ _ _ (sameOperation_trans _ _ _ Hsame4 Hsame5) Hsame6)
    as (Hid' & Hkind' & _).
  assert (keeps (rpIR st) ir3) as Hk03 by (repeat (eapply keeps_trans; [|eassumption]); apply keeps_refl).
  split_and!.
  - split_and!.
    + repeat (eapply keeps_trans; [|eassumption]). apply keeps_refl.
    + done.
    + by apply getOp_elem in Hget as [? _].
    + intros old Hold. rewrite Hid', Hid. by eapply keeps_fresh.
    + intros v e Hve. apply Hrec6, Hrec5, Hrec4. by eapply keeps_recorded.
  - congruence.
  - intros i result info picked own Hresult Hinfo Hhead Hown Hne.
    destruct (Hreturn i result Hresult) as (ty & Hty & Hrewritten).
    destruct (lookup_lt_is_Some_2 (opResults new) i) as [newResult HnewResult].
    { rewrite Hlen. by eapply lookup_lt_Some. }
    apply Hrec6, Hrec5.
    apply (remapArgs_records _ _ _ _ _ _ i result newResult ty own picked H4);
      try done.
    + destruct Hk3 as (Ht3 & _). apply Ht3. by eapply Hresults.
    + by eapply rewrittenResultType_mapped.
    + by eapply keeps_encoding.
Qed.

Lemma rewriteIfOp_inv layouts st ifOp st' newIfOp :
  rewriteIfOp layouts st ifOp = Finished (st', newIfOp) ->
  builtBeside st st' newIfOp ∧ opKind newIfOp = IfOp ∧
  forall i result info picked own,
    opResults ifOp !! i = Some result ->
    layouts_find result layouts = Some info -> head (encodings info) = Some picked ->
    getValueEncoding (rpIR st) result = Some own -> own ≠ picked ->
    recorded (rpIR st') (rpMapping st') result picked.
Proof.
  unfold rewriteIfOp.
  destruct (rewrittenResultTypes (rpIR st) layouts _) as [newResultTypes| |] eqn:Hret;
    simpl; try done.
  destruct (opOperands ifOp !! 0) as [condition|]; simpl; [|done].
  destruct (createOpWithRegions _ _ _ _ _ _ _) as [[ir1 new]| |] eqn:Hcreate; simpl; try done.
  destruct (takeBodies ir1 (opId ifOp) (opId new)) as [ir2| |] eqn:Htake; simpl; try done.
  destruct (remapArgs (ir2, rpMapping st) _ _) as [[ir3 rm3]| |] eqn:H3; simpl; try done.
  destruct (getOp ir3 (opId new)) as [new'|] eqn:Hget; simpl; [|done].
  intros [= <- <-]. simpl.
  destruct (rewrittenResultTypes_inv _ _ _ _ Hret) as (Hlenret & Hreturn).
  destruct (createOpWithRegions_inv _ _ _ _ _ _ _ _ _ Hcreate)
    as (Hk1 & Hnew1 & Hid & Hkind & _ & Hlen & Hresults & _).
  destruct (takeBodies_inv _ _ _ _ Htake) as (Hk2 & _ & Hnew2). rewrite Hnew1 in Hnew2.
  destruct (remapArgs_inv _ _ _ _ _ _ H3) as (_ & Hk3 & Hops3 & Hrec3 & _).
  destruct (Hops3 _ _ Hnew2) as (new3 & Hnew3 & (Hid' & Hkind' & _)).
  rewrite Hget in Hnew3. injection Hnew3 as <-.
  assert (keeps (rpIR st) ir2) as Hk02 by (by eapply keeps_trans).
  split_and!.
  - split_and!.
    + by eapply keeps_trans.
    + done.
    + by apply getOp_elem in Hget as [? _].
    + intros old Hold. rewrite Hid', Hid. by apply freshOpId_fresh.
    + intros v e Hve. apply Hrec3. by eapply keeps_recorded.
  - congruence.
  - intros i result info picked own Hresult Hinfo Hhead Hown Hne.
    destruct (Hreturn i result Hresult) as (ty & Hty & Hrewritten).
    destruct (lookup_lt_is_Some_2 (opResults new) i) as [newResult HnewResult].
    { rewrite Hlen. by eapply lookup_lt_Some. }
    apply (remapArgs_records _ _ _ _ _ _ i result newResult ty own picked H3);
      try done.
    + destruct Hk2 as (Ht2 & _). apply Ht2. by eapply Hresults.
    + by eapply rewrittenResultType_mapped.
    + by eapply keeps_encoding.
Qed.

Lemma builtBeside_after ir0 st st' newOp :
  keeps ir0 (rpIR st) -> builtBeside st st' newOp ->
  builtBeside (mkRewritePhase ir0 (rpMapping st) (rpToDelete st)) st' newOp.
Proof.
  intros Hk0 (Hk & Hdel & Hin & Hfresh & Hrec). split_and!; simpl.
  - by eapply keeps_trans.
  - done.
  - done.
  - intros old Hold. destruct Hk0 as (_ & Hops).
    destruct (Hops old Hold) as (old' & Hold' & Hid & _). rewrite <- Hid. by apply Hfresh.
  - intros v e Hve. apply Hrec. by eapply keeps_recorded.
Qed.

Lemma convertAndMap_inv st op result src encoding st' cvt :
  convertAndMap st op result src encoding = Finished (st', cvt) ->
  builtBeside st st' cvt ∧ opKind cvt = ConvertLayoutOp ∧
  recorded (rpIR st') (rpMapping st') result encoding.
Proof.
  unfold convertAndMap.
  destruct (getType (rpIR st) result) as [tensorType|]; simpl; [|done].
  destruct (withEncoding tensorType encoding) as [newType|] eqn:HnewType; simpl; [|done].
  destruct (createOp _ _ _ _ _ _ _) as [[ir1 new]| |] eqn:Hcreate; simpl; try done.
  destruct (opResults new !! 0) as [cvtResult|] eqn:HcvtResult; simpl; [|done].
  destruct (LayoutPropagation_map ir1 (rpMapping st) result cvtResult)
    as [rewriteMapping| |] eqn:Hmap; simpl; try done.
  intros [= <- <-]. simpl.
  apply createOp_one in Hcreate as (block & l1 & l2 & _ & Hnew & Hops & _ & Hir1).
  assert (keeps (rpIR st) ir1) as Hk.
  { apply (keeps_insert _ _ l1 l2 [new]); [done|by rewrite Hir1|].
    intros v t Hv. rewrite Hir1. by apply getType_fresh_insert. }
  destruct (map_recorded _ _ _ _ _ Hmap) as ((enc & Henc & Hnow) & Hstay).
  assert (enc = encoding) as ->.
  { rewrite Hnew in HcvtResult. injection HcvtResult as <-.
    rewrite Hir1 in Henc. unfold getValueEncoding, getType in Henc. simpl in Henc.
    rewrite lookup_insert_eq in Henc. simpl in Henc.
    destruct tensorType; simpl in HnewType; [|done]. injection HnewType as <-.
    simpl in Henc. congruence. }
  split_and!; [split_and!| |done].
  - done.
  - done.
  - rewrite Hir1. simpl. rewrite elem_of_app, elem_of_cons. auto.
  - intros old Hold. rewrite Hnew. simpl. by apply freshOpId_fresh.
  - intros v e Hve. apply Hstay. by eapply keeps_recorded.
  - by rewrite Hnew.
Qed.

(** The results of a clone are values that had no type. *)
Lemma cloneOne_fresh_results root block base st op st' :
  cloneOne root block base st op = Some st' ->
  exists new,
    csOps st' = csOps st ++ [new] ∧
    forall v, v ∈ opResults new -> getType (csIR st) v = None.
Proof.
  unfold cloneOne.
  destruct (mapM (getType (csIR st)) (opResults op)) as [tys|]; simpl; [|done].
  destruct (allocValues (csIR st) tys) as [ir1 results] eqn:Halloc.
  destruct (cloneRegionsArgs _ _) as [[[ir2 mapping2] regionArgs]|] eqn:Hregions;
    simpl; [|done].
  match goal with |- context [mbind _ ?p] => destruct p as [parent|]; simpl; [|done] end.
  intros [= <-]. simpl. eexists. split; [done|]. simpl.
  by destruct (allocValues_typed _ _ _ _ Halloc) as (_ & Hfresh & _).
Qed.

Lemma cloneOp_keeps ir point op mapping ir1 newOp mapping' :
  cloneOp ir point op mapping = Finished (ir1, newOp, mapping') ->
  keeps ir ir1 ∧
  (forall old, old ∈ irOps ir -> opId old ≠ opId newOp) ∧
  (forall v, v ∈ opResults newOp -> getType ir v = None).
Proof.
  intros Hclone.
  destruct (cloneOp_root _ _ _ _ _ _ _ Hclone) as (_ & _ & _ & Htypes).
  unfold cloneOp in Hclone.
  destruct (blockOfPoint ir point) as [block|]; simpl in Hclone; [|done].
  destruct (cloneOne op block (freshOpId ir) (mkCloneState ir mapping ∅ []) op)
    as [st1|] eqn:Hone; simpl in Hclone; [|done].
  match type of Hclone with
  | context [cloneAll ?a ?b ?c ?d ?e] =>
      destruct (cloneAll a b c d e) as [st|] eqn:Hall; simpl in Hclone; [|done]
  end.
  destruct (head (csOps st)) as [new|] eqn:Hhead; simpl in Hclone; [|done].
  destruct (insertAt ir point (csOps st)) as [ops|] eqn:Hins; simpl in Hclone; [|done].
  injection Hclone as <- <- <-.
  destruct (cloneOne_inv _ _ _ _ _ _ Hone) as (_ & root & Hops1 & Hid & _).
  destruct (cloneOne_fresh_results _ _ _ _ _ _ Hone) as (root' & Hops1' & Hfresh).
  destruct (cloneAll_inv _ _ _ _ _ _ Hall) as (_ & more & Hops).
  simpl in *. rewrite Hops1 in Hops1'. injection Hops1' as <-.
  rewrite Hops, Hops1 in Hhead. injection Hhead as <-.
  apply insertAt_split in Hins as (l1 & l2 & Hir & ->).
  split_and!.
  - by apply (keeps_insert _ _ l1 l2 (csOps st)).
  - intros old Hold. rewrite Hid, Nat.add_0_r. by apply freshOpId_fresh.
  - done.
Qed.

(** ** Hoisting a conversion above an extension or broadcast *)

Lemma cloneOp_ops ir point op mapping ir1 newOp mapping' :
  cloneOp ir point op mapping = Finished (ir1, newOp, mapping') ->
  exists more, insertAt ir point (newOp :: more) = Some (irOps ir1).
Proof.
  unfold cloneOp. destruct (blockOfPoint ir point) as [block|]; simpl; [|done].
  destruct (cloneOne op block (freshOpId ir) (mkCloneState ir mapping ∅ []) op)
    as [st1|]; simpl; [|done].
  match goal with
  | |- context [cloneAll ?a ?b ?c ?d ?e] =>
      destruct (cloneAll a b c d e) as [st|]; simpl; [|done]
  end.
  destruct (csOps st) as [|new more] eqn:Hops; simpl; [done|].
  destruct (insertAt ir point (new :: more)) as [ops|] eqn:Hins; simpl; [|done].
  intros [= <- <- <-]. by exists more.
Qed.

Lemma fmap_unchanged {A} (f : A -> A) (l : list A) :
  (forall x, x ∈ l -> f x = x) -> f <$> l = l.
Proof.
  induction l as [|x rest IH]; intros Hall; [done|]. csimpl.
  rewrite Hall; [|left]. rewrite IH; [done|]. intros y Hy. apply Hall. by right.
Qed.

(** The extension [hoistScan] hands back is one, and defines a member. *)
Lemma hoistScanStep_ext ir st v st' ext :
  hoistScanStep ir st v = Finished (Some st') -> st'.2 = Some ext ->
  st.2 = Some ext ∨ (isExtOrBroadcastOp ext = true ∧ ext ∈ irOps ir).
Proof.
  unfold hoistScanStep. destruct st as [[slice layout] found].
  destruct (getDefiningOp ir v) as [op|] eqn:Hdef; [|intros [= <-]; by left].
  destruct (isExtOrBroadcastOp op) eqn:Hext; [|intros [= <-]; by left].
  destruct (layout !! v) as [encoding|]; simpl; [|done].
  destruct (inferSrcEncoding op encoding) as [srcEncoding|]; [|done].
  destruct (opOperands op !! 0) as [operand|]; simpl; [|done].
  destruct (getRematerializableSlice ir operand srcEncoding None) as [[r tempSlice] tempLayout].
  destruct (negb (failed r)); [intros [= <-]; by left|].
  destruct found as [other|]; [done|]. intros [= <-]. simpl. intros [= <-].
  right. split; [done|]. by apply getDefiningOp_Some in Hdef as [? _].
Qed.

Lemma hoistScan_ext ir st members st' ext :
  hoistScan ir st members = Finished (Some st') -> st'.2 = Some ext ->
  st.2 = Some ext ∨ (isExtOrBroadcastOp ext = true ∧ ext ∈ irOps ir).
Proof.
  revert st. induction members as [|v rest IH]; intros st; simpl.
  - intros [= <-]. by left.
  - destruct (hoistScanStep ir st v) as [[st1|]| |] eqn:Hstep; simpl; try done.
    intros Hrest Hext. destruct (IH _ Hrest Hext) as [Hkept|?]; [|by right].
    by eapply hoistScanStep_ext.
Qed.

(** What a [hoistRewrite] that finishes has done. *)
Lemma hoistRewrite_inv ir slice layout convertOp extOrBroadcatOp srcEncoding dstEncoding ir' :
  hoistRewrite ir slice layout convertOp extOrBroadcatOp srcEncoding dstEncoding
  = Finished ir' ->
  exists oldResult newResult ir4,
    opResults extOrBroadcatOp !! 0 = Some oldResult ∧
    hoistedAbove ir extOrBroadcatOp srcEncoding dstEncoding ir4 newResult ∧
    eliminatedBySlice ir4 (filter (fun v => v ≠ oldResult) slice) layout convertOp
      {[oldResult := newResult]} ir' ∧
    getOp ir' (opId convertOp) = None.
Proof.
  unfold hoistRewrite.
  destruct (opOperands extOrBroadcatOp !! 0) as [operand|] eqn:Hoperand; simpl; [|done].
  destruct (getType ir operand) as [tensorType|] eqn:Htensor; simpl; [|done].
  destruct (withEncoding tensorType srcEncoding) as [newType|] eqn:HnewType; simpl; [|done].
  destruct (createOp ir _ ConvertLayoutOp [operand] [newType] false [])
    as [[ir1 newConvertOp]| |] eqn:Hcreate; simpl; try done.
  destruct (cloneOp ir1 _ extOrBroadcatOp ∅) as [[[ir2 newExt] mapping2]| |] eqn:Hclone;
    simpl; try done.
  destruct (opResults newConvertOp !! 0) as [converted|] eqn:Hconverted; simpl; [|done].
  destruct (opResults extOrBroadcatOp !! 0) as [oldResult|] eqn:Hold; simpl; [|done].
  destruct (getType _ oldResult) as [oldType|] eqn:HoldType; simpl; [|done].
  destruct (withEncoding oldType dstEncoding) as [newExtType|] eqn:HnewExtType;
    simpl; [|done].
  destruct (opResults newExt !! 0) as [newResult|] eqn:HnewResult; simpl; [|done].
  intros Hrewrite. exists oldResult, newResult. eexists. split; [done|].
  split; [|split; [by apply rewriteSlice_inv|by eapply rewriteSlice_erases]].
  clear Hrewrite.
  destruct (createOp_one _ _ _ _ _ _ _ _ _ Hcreate)
    as (block & k1 & k2 & _ & HnewConvertOp & _ & Hins & Hir1).
  simpl in Hins. apply insertBeforeOp_first in Hins
    as (l1 & next & l2 & Hops & Hnext & Hl1 & Hsplit).
  assert (irOps ir1 = (l1 ++ [newConvertOp]) ++ next :: l2) as Hops1.
  { rewrite Hir1. simpl. simpl in Hsplit. rewrite Hsplit. by rewrite <- app_assoc. }
  clear Hsplit.
  assert (opId newConvertOp = freshOpId ir) as HnewId by (by rewrite HnewConvertOp).
  assert (converted = freshValue ir) as ->.
  { rewrite HnewConvertOp in Hconverted. by injection Hconverted as <-. }
  destruct (cloneOp_ops _ _ _ _ _ _ _ Hclone) as (more & Hins2).
  assert (forall op, op ∈ l1 ++ [newConvertOp] -> opId op ≠ opId extOrBroadcatOp) as Hl1'.
  { intros op [Hop|Hop%list_elem_of_singleton]%elem_of_app; [by apply Hl1|].
    subst op. rewrite HnewId, <- Hnext. intros Heq. symmetry in Heq. revert Heq.
    apply freshOpId_fresh. rewrite Hops, elem_of_app. right. left. }
  simpl in Hins2. rewrite Hops1, (insertBeforeOp_app _ _ _ _ _ Hl1' Hnext) in Hins2.
  injection Hins2 as Hops2.
  destruct (cloneOp_root _ _ _ _ _ _ _ Hclone) as (_ & Hkind & Hoperands & Htypes2).
  destruct (cloneOp_keeps _ _ _ _ _ _ _ Hclone) as (_ & Hfresh2 & Huntyped2).
  rewrite lookupOrDefault_empty in Hoperands.
  assert (getType ir1 (freshValue ir) = Some newType) as Hty1.
  { rewrite Hir1. unfold getType. simpl. apply lookup_insert_eq. }
  assert (newResult ≠ freshValue ir) as Hdistinct.
  { intros ->. rewrite Huntyped2 in Hty1; [done|]. by eapply list_elem_of_lookup_2. }
  assert (forall v t, getType ir v = Some t -> getType ir1 v = Some t) as Htypes1.
  { intros v t Hv. rewrite Hir1. unfold getType. simpl. by apply getType_fresh_insert. }
  set (retarget := fun op : Operation =>
         if bool_decide (opId op = opId newExt)
         then withOperands op (<[0 := freshValue ir]> (opOperands op)) else op).
  assert (forall op, op ∈ irOps ir1 -> retarget op = op) as Hsame.
  { intros op Hop. unfold retarget. rewrite bool_decide_eq_false_2; [done|].
    by apply Hfresh2. }
  exists l1, next, l2, operand, newConvertOp, (freshValue ir), (retarget newExt),
    (retarget <$> more).
  split_and!; try done.
  - change (irOps (setType (setOperand ir2 (opId newExt) 0 (freshValue ir))
                     newResult newExtType)) with (retarget <$> irOps ir2).
    rewrite <- Hops2. repeat first [rewrite fmap_app | rewrite fmap_cons].
    rewrite fmap_nil.
    rewrite (fmap_unchanged retarget l1), (Hsame newConvertOp), (Hsame next),
      (fmap_unchanged retarget l2); [by rewrite <- app_assoc|..].
    + intros op Hop. apply Hsame. rewrite Hops1, !elem_of_app. right. by right.
    + rewrite Hops1, !elem_of_app. right. left.
    + rewrite Hops1, !elem_of_app. left. right. left.
    + intros op Hop. apply Hsame. rewrite Hops1, !elem_of_app. left. by left.
  - by rewrite HnewConvertOp.
  - by rewrite HnewConvertOp.
  - by rewrite HnewConvertOp.
  - unfold getValueEncoding, getType. simpl. rewrite lookup_insert_ne; [|done].
    apply Htypes2 in Hty1. unfold getType in Hty1. rewrite Hty1. simpl.
    destruct tensorType; [|done]. by injection HnewType as <-.
  - unfold retarget. by rewrite bool_decide_eq_true_2.
  - unfold retarget. rewrite bool_decide_eq_true_2; [|done]. simpl. by rewrite Hoperands.
  - unfold retarget. by rewrite bool_decide_eq_true_2.
  - unfold getValueEncoding, getType. simpl. rewrite lookup_insert_eq. simpl.
    destruct oldType; [|done]. by injection HnewExtType as <-.
  - intros v t Hv. unfold getType. simpl. rewrite lookup_insert_ne.
    + by apply Htypes2, Htypes1.
    + intros <-. apply Htypes1 in Hv. rewrite Huntyped2 in Hv; [done|].
      by eapply list_elem_of_lookup_2.
Qed.

(** X18. [hoistConvertOnTopOfExtOrBroadcast] is all or nothing: whenever it
    finishes, the program is the one it was given, every [return] of the
    source coming before the first change, or the conversion has been
    hoisted: right before one extension or broadcast of the program stand a
    new conversion of its operand to the inferred source encoding and a
    clone of it on that conversion, in the encoding the slice gives its
    result; the rest of the slice has been rewritten from that clone, the
    uses of the old conversion redirected to the rewritten source and the
    old conversion erased. *)
Theorem hoistConvertOnTopOfExtOrBroadcast_all_or_nothing ir convertOp ir' :
  hoistConvertOnTopOfExtOrBroadcast ir convertOp = Finished ir' ->
  ir' = ir ∨
  exists extOrBroadcatOp slice layout srcEncoding dstEncoding oldResult newResult ir4,
    extOrBroadcatOp ∈ irOps ir ∧ isExtOrBroadcastOp extOrBroadcatOp = true ∧
    opResults extOrBroadcatOp !! 0 = Some oldResult ∧
    layout !! oldResult = Some dstEncoding ∧
    inferSrcEncoding extOrBroadcatOp dstEncoding = Some srcEncoding ∧
    hoistedAbove ir extOrBroadcatOp srcEncoding dstEncoding ir4 newResult ∧
    eliminatedBySlice ir4 (filter (fun v => v ≠ oldResult) slice) layout convertOp
      {[oldResult := newResult]} ir' ∧
    getOp ir' (opId convertOp) = None.
Proof.
  unfold hoistConvertOnTopOfExtOrBroadcast.
  destruct (opResults convertOp !! 0) as [result|]; simpl; [|done].
  destruct (opOperands convertOp !! 0) as [src|]; simpl; [|done].
  destruct (hasSharedEncoding ir result || hasSharedEncoding ir src);
    [intros [= <-]; by left|].
  destruct (getValueEncoding ir result) as [enc|]; simpl; [|done].
  destruct (isaDotOperandEncodingAttr enc); [intros [= <-]; by left|].
  destruct (getRematerializableSlice ir src enc _) as [[r slice] layout].
  destruct (failed r); [intros [= <-]; by left|].
  destruct (hoistScan ir (slice, layout, None) slice) as [[[[slice' layout'] [ext|]]|]| |]
    eqn:Hscan; simpl; try done; try (intros [= <-]; by left).
  destruct (opResults ext !! 0) as [oldResult|] eqn:Hold; simpl; [|done].
  destruct (layout' !! oldResult) as [dstEncoding|] eqn:Hdst; simpl; [|done].
  destruct (inferSrcEncoding ext dstEncoding) as [srcEncoding|] eqn:Hsrc;
    [|intros [= <-]; by left].
  intros Hrewrite. right.
  destruct (hoistScan_ext _ _ _ _ ext Hscan eq_refl) as [?|[Hext Hin]]; [done|].
  destruct (hoistRewrite_inv _ _ _ _ _ _ _ _ Hrewrite)
    as (oldResult' & newResult & ir4 & Hold' & Hhoisted & Hdone & Hgone).
  rewrite Hold in Hold'. injection Hold' as <-.
  exists ext, slice', layout', srcEncoding, dstEncoding, oldResult, newResult, ir4.
  by split_and!.
Qed.

Lemma setOperand_keeps ir id n v : keeps ir (setOperand ir id n v).
Proof.
  split; [done|]. intros op Hop. eexists. split.
  - unfold setOperand. simpl. apply list_elem_of_fmap. by exists op.
  - case_bool_decide; by split_and!.
Qed.

Lemma convertOperandTo_keeps layouts rewriteMapping choose id ir n ir' :
  convertOperandTo layouts rewriteMapping choose id ir n = Finished ir' -> keeps ir ir'.
Proof.
  unfold convertOperandTo.
  destruct (getOp ir id) as [op|]; simpl; [|done].
  destruct (opOperands op !! n) as [operand|]; simpl; [|done].
  destruct (choose ir op operand n) as [[encoding|]| |]; simpl; try done.
  - destruct (getValueAs ir layouts rewriteMapping operand encoding) as [[ir1 new]| |] eqn:Hcall;
      simpl; try done.
    intros [= <-]. eapply keeps_trans; [by eapply getValueAs_keeps|apply setOperand_keeps].
  - intros [= <-]. apply keeps_refl.
Qed.

Lemma forEachIndex_keeps (body : IR -> nat -> Outcome IR) numbers :
  (forall ir n ir', body ir n = Finished ir' -> keeps ir ir') ->
  forall ir ir', forEachIndex body ir numbers = Finished ir' -> keeps ir ir'.
Proof.
  intros Hbody. induction numbers as [|n rest IH]; intros ir ir'; simpl.
  - intros [= <-]. apply keeps_refl.
  - destruct (body ir n) as [ir1| |] eqn:Hstep; simpl; try done.
    intros Hrest. eapply keeps_trans; [by eapply Hbody|by apply IH].
Qed.

Lemma mapEachResult_inv ir olds : forall news rewriteMapping rewriteMapping',
  mapEachResult ir rewriteMapping olds news = Finished rewriteMapping' ->
  (forall v e, recorded ir rewriteMapping v e -> recorded ir rewriteMapping' v e) ∧
  forall i old new,
    olds !! i = Some old -> news !! i = Some new ->
    exists encoding,
      getValueEncoding ir new = Some encoding ∧ recorded ir rewriteMapping' old encoding.
Proof.
  induction olds as [|old olds IH]; intros news rm rm'.
  - simpl. intros [= <-]. split; [done|]. intros i old new Hold.
    by rewrite lookup_nil in Hold.
  - destruct news as [|new news].
    + simpl. intros [= <-]. split; [done|]. intros i old0 new0 _ Hnew.
      by rewrite lookup_nil in Hnew.
    + cbn [mapEachResult].
      destruct (LayoutPropagation_map ir rm old new) as [rm1| |] eqn:Hmap; simpl; try done.
      intros Hrest. destruct (map_recorded _ _ _ _ _ Hmap) as ((enc & Henc & Hnow) & Hstay).
      destruct (IH _ _ _ Hrest) as (Hrec & Hnewrec). split.
      * intros v e Hve. by apply Hrec, Hstay.
      * intros [|i] old0 new0; simpl; [|apply Hnewrec].
        intros [= <-] [= <-]. exists enc. split; [done|by apply Hrec].
Qed.

(** What [cloneElementwise] leaves besides the contract of the clone: the
    program keeps what it had and the clone has an id no operation had. *)
Lemma cloneElementwise_keeps ir layouts rewriteMapping point op encoding ir' newOp :
  cloneElementwise ir layouts rewriteMapping point op encoding = Finished (ir', newOp) ->
  keeps ir ir' ∧ newOp ∈ irOps ir' ∧
  (forall old, old ∈ irOps ir -> opId old ≠ opId newOp) ∧
  opKind newOp = opKind op ∧
  (forall i old,
     opResults op !! i = Some old -> isRankedTensor ir old = true ->
     exists new,
       opResults newOp !! i = Some new ∧ getValueEncoding ir' new = Some encoding).
Proof.
  unfold cloneElementwise.
  destruct (cloneOp ir point op ∅) as [[[ir1 clone] mapping']| |] eqn:Hclone;
    simpl; try done.
  destruct (cloneOp_root _ _ _ _ _ _ _ Hclone) as (Hfound & Hkind & Hoperands & _).
  destruct (cloneOp_keeps _ _ _ _ _ _ _ Hclone) as (Hk1 & Hfresh & Huntyped).
  rewrite lookupOrDefault_empty in Hoperands.
  assert (forall ir2 ir3 operands',
            keeps ir1 ir2 -> getOp ir2 (opId clone) = Some (withOperands clone operands') ->
            forEachIndex (retypeCloneResult encoding op clone) ir2
              (seq 0 (length (opResults op))) = Finished ir3 ->
            keeps ir ir3 ∧ getOp ir3 (opId clone) = Some (withOperands clone operands') ∧
            forall i old,
              opResults op !! i = Some old -> isRankedTensor ir old = true ->
              exists new,
                opResults clone !! i = Some new ∧ getValueEncoding ir3 new = Some encoding)
    as Hsecond.
  { intros ir2 ir3 operands' Hk2 Hfound2 Hloop2.
    destruct (retypeCloneResult_loop _ _ _ _ _ _ Hloop2)
      as (Hops & _ & Hother & _ & Hdone).
    pose proof (keeps_trans _ _ _ Hk1 Hk2) as (Ht02 & Ho02).
    split_and!.
    - split.
      + intros v t Hv. rewrite Hother; [by apply Ht02|].
        intros Hin. by rewrite (Huntyped v Hin) in Hv.
      + intros old Hold. rewrite Hops. by apply Ho02.
    - by rewrite (getOp_same_ops _ _ _ Hops).
    - intros i old Hold Htens. apply (Hdone i old); [|done|].
      + apply elem_of_seq. apply lookup_lt_Some in Hold. lia.
      + eapply keeps_tensor; [|exact Htens]. by eapply keeps_trans. }
  destruct (0 <? length (opOperands op)) eqn:Hsome.
  - destruct (inferSrcEncoding op encoding) as [operandEnc|] eqn:Hinfer; simpl; [|done].
    rewrite (cloneElementwiseOperand_convert _ _ _ _ _ _ (NoDup_seq 0 _) _ _ Hfound)
      by (intros n _; by rewrite Hoperands).
    destruct (forEachIndex (convertOperandTo _ _ _ _) ir1 _) as [ir2| |] eqn:Hloop1;
      simpl; try done.
    destruct (forEachIndex_convert _ _ _ _ _ (NoDup_seq 0 _) _ _ _ Hloop1 Hfound)
      as (_ & operands' & Hfound2 & _ & _).
    pose proof (forEachIndex_keeps _ _
                  (convertOperandTo_keeps layouts rewriteMapping _ (opId clone)) _ _ Hloop1)
      as Hk2.
    destruct (forEachIndex (retypeCloneResult _ _ _) ir2 _) as [ir3| |] eqn:Hloop2;
      simpl; try done.
    destruct (Hsecond _ _ _ Hk2 Hfound2 Hloop2) as (Hk & Hfound3 & Hresults).
    rewrite Hfound3. simpl. intros [= <- <-]. simpl.
    split_and!; [done| |done|done|done].
    by apply getOp_elem in Hfound3 as [? _].
  - simpl. apply Nat.ltb_ge in Hsome.
    assert (opOperands op = []) as Hnil by (destruct (opOperands op); [done|simpl in Hsome; lia]).
    rewrite Hnil. simpl.
    destruct (forEachIndex (retypeCloneResult _ _ _) ir1 _) as [ir3| |] eqn:Hloop2;
      simpl; try done.
    rewrite <- (withOperands_same clone) in Hfound.
    destruct (Hsecond _ _ _ (keeps_refl ir1) Hfound Hloop2) as (Hk & Hfound3 & Hresults).
    rewrite Hfound3. simpl. intros [= <- <-]. simpl.
    split_and!; [done| |done|done|done].
    by apply getOp_elem in Hfound3 as [? _].
Qed.

(** Every way [rewriteOp] has of finishing. *)
Lemma rewriteOp_inv layouts st op st' newOp :
  rewriteOp layouts st op = Finished (st', newOp) ->
  builtBeside (mkRewritePhase (rpIR st) (rpMapping st)
                 (SetVector_insert (opId op) (rpToDelete st)).2) st' newOp ∧
  (opKind newOp = opKind op ∨ opKind newOp = ConvertLayoutOp) ∧
  (opKind op ∈ [ForOp; WhileOp; IfOp] ∨
   exists result info encoding,
     opResults op !! 0 = Some result ∧ layouts_find result layouts = Some info ∧
     head (encodings info) = Some encoding ∧
     (canFoldIntoConversion (rpIR st) op encoding = true ∨ propagatesThrough op = true)) ∧
  forall i result info picked own,
    opResults op !! i = Some result ->
    layouts_find result layouts = Some info -> head (encodings info) = Some picked ->
    getValueEncoding (rpIR st) result = Some own -> own ≠ picked ->
    i = 0 ∨ opKind op ∈ [ForOp; WhileOp; IfOp] ->
    (opKind op = ForOp ->
     exists init, getInitArgs op !! i = Some init ∧ isRankedTensor (rpIR st) init = true) ->
    recorded (rpIR st') (rpMapping st') result picked.
Proof.
  unfold rewriteOp.
  set (marked := mkRewritePhase (rpIR st) (rpMapping st)
                   (SetVector_insert (opId op) (rpToDelete st)).2).
  case_bool_decide as Hfor; [|case_bool_decide as Hwhile; [|case_bool_decide as Hif]].
  - intros (Hbuilt & Hkind & Hrec)%rewriteForOp_inv.
    split_and!; [done|left; congruence|left; rewrite Hfor, !elem_of_cons; auto|].
    intros i result info picked own Hresult Hinfo Hhead Hown Hne _ Hinit.
    destruct (Hinit Hfor) as (init & Hinit_i & Htensor).
    by apply (Hrec i init result info picked own).
  - intros (Hbuilt & Hkind & Hrec)%rewriteWhileOp_inv.
    split_and!; [done|left; congruence|left; rewrite Hwhile, !elem_of_cons; auto|].
    intros i result info picked own Hresult Hinfo Hhead Hown Hne _ _.
    by apply (Hrec i result info picked own).
  - intros (Hbuilt & Hkind & Hrec)%rewriteIfOp_inv.
    split_and!; [done|left; congruence|left; rewrite Hif, !elem_of_cons; auto|].
    intros i result info picked own Hresult Hinfo Hhead Hown Hne _ _.
    by apply (Hrec i result info picked own).
  - assert (forall i, i = 0 ∨ opKind op ∈ [ForOp; WhileOp; IfOp] -> i = 0) as Hzero.
    { intros i [?|Hin]; [done|]. rewrite !elem_of_cons in Hin.
      destruct Hin as [?|[?|[?|Hnil]]]; try done. by apply elem_of_nil in Hnil. }
    destruct (opResults op !! 0) as [result0|] eqn:Hresult0; simpl; [|done].
    destruct (layouts_find result0 layouts) as [info0|] eqn:Hinfo0; simpl; [|done].
    destruct (head (encodings info0)) as [encoding|] eqn:Hhead0; simpl; [|done].
    assert (forall ir' rm' : _,
              recorded ir' rm' result0 encoding ->
              forall i result info picked own,
                opResults op !! i = Some result ->
                layouts_find result layouts = Some info -> head (encodings info) = Some picked ->
                getValueEncoding (rpIR st) result = Some own -> own ≠ picked ->
                i = 0 ∨ opKind op ∈ [ForOp; WhileOp; IfOp] ->
                (opKind op = ForOp ->
                 exists init, getInitArgs op !! i = Some init ∧
                              isRankedTensor (rpIR st) init = true) ->
                recorded ir' rm' result picked) as Hfirst.
    { intros ir' rm' Hrecorded i result info picked own Hresult Hinfo Hhead _ _ Hi _.
      rewrite (Hzero i Hi) in Hresult. congruence. }
    case_bool_decide as Hcvt; [|destruct (canFoldIntoConversion _ _ _) eqn:Hfold;
                                 [|destruct (propagatesThrough op) eqn:Hthrough; [|done]]].
    + destruct (opOperands op !! 0) as [convertSrc|]; simpl; [|done].
      destruct (getValueEncoding (rpIR st) convertSrc) as [ownEncoding|]; simpl; [|done].
      match goal with
      | |- context [mbind _ ?m] => destruct m as [srcEncoding| |]; simpl; try done
      end.
      destruct (getValueAs _ _ _ _ _) as [[ir1 src]| |] eqn:Hcall; simpl; try done.
      intros (Hbuilt & Hkind & Hrecorded)%convertAndMap_inv.
      split_and!.
      * apply (builtBeside_after (rpIR st)) in Hbuilt; [done|]. by eapply getValueAs_keeps.
      * by right.
      * right. exists result0, info0, encoding. split_and!; try done. right.
        unfold propagatesThrough. rewrite Hcvt. by rewrite orb_true_r.
      * by apply Hfirst.
    + destruct (cloneOp _ _ _ _) as [[[ir1 clone] mapping']| |] eqn:Hclone; simpl; try done.
      destruct (opResults clone !! 0) as [newResult|]; simpl; [|done].
      intros (Hbuilt & Hkind & Hrecorded)%convertAndMap_inv.
      destruct (cloneOp_keeps _ _ _ _ _ _ _ Hclone) as (Hk1 & _).
      split_and!.
      * by apply (builtBeside_after (rpIR st)) in Hbuilt.
      * by right.
      * right. exists result0, info0, encoding. split_and!; try done. by left.
      * by apply Hfirst.
    + destruct (cloneElementwise _ _ _ _ _ _) as [[ir1 clone]| |] eqn:Hclone; simpl; try done.
      destruct (mapEachResult ir1 _ _ _) as [rewriteMapping| |] eqn:Hmap; simpl; try done.
      intros [= <- <-].
      destruct (cloneElementwise_keeps _ _ _ _ _ _ _ _ Hclone)
        as (Hk1 & Hin & Hfresh & Hkind & Hresults).
      destruct (mapEachResult_inv _ _ _ _ _ Hmap) as (Hstay & Hnow).
      split_and!.
      * split_and!; simpl; try done. intros v e Hve. apply Hstay. by eapply keeps_recorded.
      * by left.
      * right. exists result0, info0, encoding. split_and!; try done. by right.
      * simpl. intros i result info picked own Hresult Hinfo Hhead Hown Hne Hi Hinit.
        rewrite (Hzero i Hi) in Hresult.
        assert (result = result0) as -> by congruence.
        assert (picked = encoding) as -> by congruence.
        destruct (Hresults 0 result0 Hresult0) as (new & Hnew & Hnewenc).
        { by eapply getValueEncoding_isRankedTensor. }
        destruct (Hnow 0 result0 new Hresult0 Hnew) as (e & He & Hrecorded).
        congruence.
Qed.

Lemma getValueAs_recorded ir layouts rewriteMapping value picked own :
  getValueEncoding ir value = Some own -> own ≠ picked ->
  layouts_find value layouts = Some (mkLayoutInfo [picked]) ->
  recorded ir rewriteMapping value picked ->
  exists new,
    getValueEncoding ir new = Some picked ∧
    getValueAs ir layouts rewriteMapping value picked = Finished (ir, new).
Proof.
  intros Hown Hne Hinfo (new & Hnew & Henc). exists new. split; [done|].
  unfold getValueAs, getRewrittenValue. unfold getValueEncoding in Hown.
  destruct (getType ir value) as [[shape elt venc|tag]|]; simpl in Hown; try done.
  injection Hown as ->. rewrite Hinfo. simpl.
  rewrite bool_decide_eq_false_2 by congruence. rewrite Hnew. simpl. rewrite Henc. simpl.
  by rewrite bool_decide_eq_true_2.
Qed.

(** X23. After [rewriteOp], the users of a result that had to change find its
    rewritten form: for result 0 of the operation, and for every result of a
    [scf.for] (whose init is a tensor), [scf.while] or [scf.if], when the
    encoding picked for the result is not the one it has, [getValueAs] hands
    out for the picked encoding a value that carries it, and inserts
    nothing. *)
Theorem rewriteOp_records_result layouts st op st' newOp i result picked own :
  rewriteOp layouts st op = Finished (st', newOp) ->
  opResults op !! i = Some result ->
  layouts_find result layouts = Some (mkLayoutInfo [picked]) ->
  getValueEncoding (rpIR st) result = Some own -> own ≠ picked ->
  i = 0 ∨ opKind op ∈ [ForOp; WhileOp; IfOp] ->
  (opKind op = ForOp ->
   exists init, getInitArgs op !! i = Some init ∧ isRankedTensor (rpIR st) init = true) ->
  exists new,
    getValueEncoding (rpIR st') new = Some picked ∧
    getValueAs (rpIR st') layouts (rpMapping st') result picked = Finished (rpIR st', new).
Proof.
  intros Hrun Hresult Hinfo Hown Hne Hi Hinit.
  destruct (rewriteOp_inv _ _ _ _ _ Hrun) as ((Hk & _) & _ & _ & Hrec).
  apply (getValueAs_recorded _ _ _ _ _ own); try done.
  - by eapply keeps_encoding.
  - by apply (Hrec i result (mkLayoutInfo [picked]) picked own).
Qed.

(** X24. [rewriteOp] builds beside the operation and deletes nothing: when it
    finishes, the operation is noted for deletion and the operation returned
    is in the program under an id no operation had, of the kind of the
    original or a layout conversion; the program keeps every typed value
    with its type and every operation with its id, kind, results and block
    arguments; and what the rewrite mapping recorded stays recorded.  An
    operation that is neither a [scf.for], [scf.while] or [scf.if], nor
    foldable into a conversion, nor one that lets layouts through, is a
    fatal error. *)
Theorem rewriteOp_builds_beside layouts st op st' newOp :
  rewriteOp layouts st op = Finished (st', newOp) ->
  rpToDelete st' = (SetVector_insert (opId op) (rpToDelete st)).2 ∧
  newOp ∈ irOps (rpIR st') ∧
  (forall old, old ∈ irOps (rpIR st) -> opId old ≠ opId newOp) ∧
  (opKind newOp = opKind op ∨ opKind newOp = ConvertLayoutOp) ∧
  keeps (rpIR st) (rpIR st') ∧
  (forall v e, recorded (rpIR st) (rpMapping st) v e ->
               recorded (rpIR st') (rpMapping st') v e) ∧
  (opKind op ∈ [ForOp; WhileOp; IfOp] ∨ propagatesThrough op = true ∨
   exists encoding, canFoldIntoConversion (rpIR st) op encoding = true).
Proof.
  intros Hrun.
  destruct (rewriteOp_inv _ _ _ _ _ Hrun)
    as ((Hk & Hdel & Hin & Hfresh & Hrec) & Hkind & Hwhich & _).
  split_and!; try done.
  destruct Hwhich as [?|(result & info & encoding & _ & _ & _ & [?|?])]; eauto.
Qed.

(** ** The walk of the rewrite phase *)

Lemma remapOperand_convert layouts rewriteMapping id ir n :
  remapOperand layouts rewriteMapping id ir n =
  convertOperandTo layouts rewriteMapping (chooseOwn layouts) id ir n.
Proof.
  unfold remapOperand, convertOperandTo, chooseOwn.
  destruct (getOp ir id) as [op|]; simpl; [|done].
  destruct (opOperands op !! n) as [operand|]; simpl; [|done].
  destruct (layouts_find operand layouts); simpl; [|done].
  by destruct (getValueEncoding ir operand).
Qed.

(** X25. An operation that is not rewritten keeps seeing what it saw: when none
    of its results asks for a rewrite and it is neither a [scf.yield], a
    [scf.condition] nor a reduction to a scalar, [rewriteRegion] leaves it in
    place with its kind, results and block arguments, every operand
    without an entry in the map as it is, and every tensor operand replaced
    by a value in the encoding the operand has; its regions are queued and
    nothing is recorded or noted for deletion. *)
Theorem rewriteRegionOp_keeps_operand_encodings layouts st queue op st' queue' :
  getOp (rpIR st) (opId op) = Some op ->
  needRewrite (rpIR st) layouts (opResults op) = Finished false ->
  opKind op ≠ YieldOp -> opKind op ≠ ConditionOp ->
  reduceToScalar (rpIR st) op = Finished false ->
  rewriteRegionOp layouts st queue op = Finished (st', queue') ->
  rpMapping st' = rpMapping st ∧ rpToDelete st' = rpToDelete st ∧
  queue' = reverse (getRegions op) ++ queue ∧
  exists op',
    getOp (rpIR st') (opId op) = Some op' ∧ sameOperation op op' ∧
    forall n operand,
      opOperands op !! n = Some operand ->
      exists operand',
        opOperands op' !! n = Some operand' ∧
        (layouts_find operand layouts = None -> operand' = operand) ∧
        forall encoding,
          getValueEncoding (rpIR st) operand = Some encoding ->
          getValueEncoding (rpIR st') operand' = Some encoding.
Proof.
  intros Hop Hneed Hyield Hcondition Hscalar. unfold rewriteRegionOp.
  rewrite Hneed. simpl. rewrite !bool_decide_eq_false_2 by done. rewrite Hscalar. simpl.
  rewrite (forEachIndex_ext _ (convertOperandTo layouts (rpMapping st) (chooseOwn layouts)
                                   (opId op)))
    by apply remapOperand_convert.
  destruct (forEachIndex _ (rpIR st) _) as [ir'| |] eqn:Hrun; simpl; try done.
  intros [= <- <-]. simpl. split_and!; try done.
  destruct (forEachIndex_convert _ _ _ _ _ (NoDup_seq 0 _) _ _ _ Hrun Hop)
    as (Hev & operands' & Hop' & _ & Hvisited).
  exists (withOperands op operands'). split_and!; [done|by split_and!|].
  intros n operand Hoperand.
  destruct (Hvisited n)
    as (ir1 & operands1 & operand1 & wanted & Hev1 & _ & _ & Hoperand1 & Hchoose & Hw).
  { apply elem_of_seq. apply lookup_lt_Some in Hoperand. lia. }
  assert (operand1 = operand) as -> by congruence.
  unfold chooseOwn in Hchoose.
  destruct (layouts_find operand layouts) as [info|] eqn:Hinfo.
  - destruct (getValueEncoding ir1 operand) as [own|] eqn:Hown; simpl in Hchoose; [|done].
    injection Hchoose as <-. destruct Hw as (new & Hnew & Henc).
    exists new. split_and!; [done|done|].
    intros encoding Hencoding.
    rewrite (evolves_encoding _ _ _ _ _ Hev1 Hencoding) in Hown. injection Hown as <-.
    apply Henc. by eapply getValueEncoding_isRankedTensor.
  - injection Hchoose as <-. exists operand. split_and!; [done|done|].
    intros encoding Hencoding. by eapply evolves_encoding.
Qed.

(** ** The walk on an empty map *)

Lemma forallb_elem_of {A} (f : A -> bool) (l : list A) x :
  forallb f l = true -> x ∈ l -> f x = true.
Proof.
  induction l as [|y rest IH]; simpl.
  - intros _ Hx. by apply elem_of_nil in Hx.
  - intros [Hy Hrest]%andb_true_iff [->|Hx]%elem_of_cons; [done|by apply IH].
Qed.

Lemma getOp_NoDup ir op :
  NoDup (opId <$> irOps ir) -> op ∈ irOps ir -> getOp ir (opId op) = Some op.
Proof.
  destruct ir as [ops types args]. simpl. induction ops as [|op0 rest IH]; csimpl.
  - intros _ Hop. by apply elem_of_nil in Hop.
  - intros [Hfresh Hnodup]%NoDup_cons [->|Hop]%elem_of_cons; rewrite getOp_cons.
    + by rewrite bool_decide_eq_true_2.
    + rewrite bool_decide_eq_false_2; [by apply IH|].
      intros Heq. apply Hfresh. rewrite Heq. by apply list_elem_of_fmap_2.
Qed.

Lemma setOperand_same ir op n v :
  NoDup (opId <$> irOps ir) -> op ∈ irOps ir -> opOperands op !! n = Some v ->
  setOperand ir (opId op) n v = ir.
Proof.
  intros Hnodup Hop Hv. unfold setOperand. destruct ir as [ops types args]. simpl in *.
  f_equal. rewrite <- (list_fmap_id ops) at 2. apply list_fmap_ext.
  intros i op' Hop'. simpl. case_bool_decide as Hid; [|done].
  assert (op' = op) as ->.
  { pose proof (getOp_NoDup (mkIR ops types args) op' Hnodup) as H1.
    pose proof (getOp_NoDup (mkIR ops types args) op Hnodup Hop) as H2.
    rewrite Hid, H2 in H1. simpl in H1.
    assert (Some op = Some op') as [= ->]; [|done].
    apply H1. by eapply list_elem_of_lookup_2. }
  rewrite list_insert_id by done. apply withOperands_same.
Qed.

Lemma getValueAs_agrees ir rewriteMapping operand shape elementType encoding :
  operandAgrees ir operand (Some (RankedTensorType shape elementType encoding)) = true ->
  getValueAs ir [] rewriteMapping operand encoding = Finished (ir, operand).
Proof.
  unfold operandAgrees, getValueAs, getValueEncoding.
  destruct (getType ir operand) as [[shape0 elt0 own|tag]|] eqn:Hty; try done.
  intros ->%bool_decide_eq_true. simpl. rewrite Hty. simpl.
  by rewrite bool_decide_eq_true_2.
Qed.

Lemma forEachIndex_same (body : IR -> nat -> Outcome IR) ir numbers :
  (forall n, n ∈ numbers -> body ir n = Finished ir) ->
  forEachIndex body ir numbers = Finished ir.
Proof.
  induction numbers as [|n rest IH]; intros Hbody; [done|]. simpl.
  rewrite Hbody by left. simpl. apply IH. intros m Hm. apply Hbody. by right.
Qed.

Lemma rewriteYieldOp_verified ir rewriteMapping op :
  NoDup (opId <$> irOps ir) -> op ∈ irOps ir ->
  opKind op = YieldOp -> terminatorVerified ir op = true ->
  rewriteYieldOp ir [] rewriteMapping op = Finished ir.
Proof.
  intros Hnodup Hop Hkind. unfold terminatorVerified, rewriteYieldOp. rewrite Hkind.
  destruct (getParentOp ir op) as [parentOp|] eqn:Hparent; [|done].
  intros Hall. apply forEachIndex_same. intros n Hn.
  pose proof (forallb_elem_of _ _ _ Hall Hn) as Hagrees. simpl in Hagrees.
  apply elem_of_seq in Hn as [_ Hn]. simpl in Hn.
  apply lookup_lt_is_Some_2 in Hn as [operand Hoperand]. rewrite Hoperand in Hagrees.
  unfold rewriteYieldOperand. rewrite (getOp_NoDup _ _ Hnodup Hop). simpl.
  rewrite Hoperand. simpl. rewrite Hparent. simpl.
  destruct (yieldType ir parentOp operand n) as [[[shape elt encoding|tag]|]| |];
    simpl; try done.
  rewrite (getValueAs_agrees _ _ _ _ _ _ Hagrees). simpl.
  by rewrite setOperand_same.
Qed.

Lemma rewriteConditionOp_verified ir rewriteMapping op :
  NoDup (opId <$> irOps ir) -> op ∈ irOps ir ->
  opKind op = ConditionOp -> terminatorVerified ir op = true ->
  rewriteConditionOp ir [] rewriteMapping op = Finished ir.
Proof.
  intros Hnodup Hop Hkind. unfold terminatorVerified, rewriteConditionOp. rewrite Hkind.
  destruct (getParentOp ir op) as [whileOp|] eqn:Hparent; [|done]. simpl.
  intros [Hwhile Hall]%andb_true_iff. rewrite Hwhile. simpl.
  apply forEachIndex_same. intros i Hi.
  pose proof (forallb_elem_of _ _ _ Hall Hi) as Hagrees. simpl in Hagrees.
  unfold rewriteConditionOperand. rewrite (getOp_NoDup _ _ Hnodup Hop). simpl.
  destruct (opOperands op !! i) as [operand|] eqn:Hoperand; [|done]. simpl.
  rewrite Hparent. simpl.
  destruct (opResults whileOp !! (i - 1)) as [result|]; [|done]. simpl.
  destruct (getType ir result) as [[shape elt encoding|tag]|] eqn:Hty; try done.
  rewrite (getValueAs_agrees _ _ _ _ _ _ Hagrees). simpl.
  by rewrite setOperand_same.
Qed.

Lemma needRewrite_empty ir results : needRewrite ir [] results = Finished false.
Proof. induction results as [|result rest IH]; [done|]. simpl. apply IH. Qed.

Lemma firstMappedEncoding_empty operands : firstMappedEncoding [] operands = Finished None.
Proof. induction operands as [|operand rest IH]; [done|]. simpl. apply IH. Qed.

(** On an empty map the body of the walk changes nothing in a verified
    program, and queues the regions of the operation or nothing. *)
Lemma rewriteRegionOp_empty ir rewriteMapping toDelete queue op :
  NoDup (opId <$> irOps ir) -> op ∈ irOps ir -> terminatorVerified ir op = true ->
  exists pushed,
    (pushed = [] ∨ pushed = getRegions op) ∧
    rewriteRegionOp [] (mkRewritePhase ir rewriteMapping toDelete) queue op
    = Finished (mkRewritePhase ir rewriteMapping toDelete, reverse pushed ++ queue).
Proof.
  intros Hnodup Hop Hverified. unfold rewriteRegionOp. simpl.
  rewrite needRewrite_empty. simpl.
  case_bool_decide as Hyield.
  { rewrite rewriteYieldOp_verified by done. simpl. exists []. split; [by left|done]. }
  case_bool_decide as Hcondition.
  { rewrite rewriteConditionOp_verified by done. simpl. exists []. split; [by left|done]. }
  assert (forEachIndex (remapOperand [] rewriteMapping (opId op)) ir
            (seq 0 (length (opOperands op))) = Finished ir) as Hremap.
  { apply forEachIndex_same. intros n Hn. unfold remapOperand.
    rewrite (getOp_NoDup _ _ Hnodup Hop). simpl.
    apply elem_of_seq in Hn as [_ Hn]. simpl in Hn.
    apply lookup_lt_is_Some_2 in Hn as [operand ->]. done. }
  unfold reduceToScalar. case_bool_decide as Hreduce.
  - unfold terminatorVerified in Hverified. rewrite Hreduce in Hverified.
    apply bool_decide_eq_true in Hverified as [result Hresult]. rewrite Hresult. simpl.
    destruct (isRankedTensor ir result); simpl.
    + rewrite Hremap. simpl. exists (getRegions op). split; [by right|done].
    + unfold rewriteReduceToScalar. rewrite firstMappedEncoding_empty. simpl.
      exists []. split; [by left|done].
  - simpl. rewrite Hremap. simpl. exists (getRegions op). split; [by right|done].
Qed.

Lemma sum_list_append (l1 l2 : list nat) : sum_list (l1 ++ l2) = sum_list l1 + sum_list l2.
Proof. induction l1 as [|x rest IH]; [done|]. simpl. rewrite IH. lia. Qed.

Lemma regionWeight_app l1 l2 region :
  regionWeight (l1 ++ l2) region = regionWeight l1 region + regionWeight l2 region.
Proof. unfold regionWeight. by rewrite filter_app, fmap_app, sum_list_append. Qed.

Lemma regionWeight_outside (weighted : list (Operation * nat)) region :
  (forall ow, ow ∈ weighted -> inRegion region ow.1 = false) ->
  regionWeight weighted region = 0.
Proof.
  unfold regionWeight. induction weighted as [|ow rest IH]; intros Hout; [done|].
  rewrite filter_cons, decide_False.
  - apply IH. intros ow' Hin. apply Hout. by right.
  - rewrite (Hout ow) by left. done.
Qed.

Lemma weigh_fst ops : (weigh ops).*1 = ops.
Proof. induction ops as [|op rest IH]; [done|]. csimpl. by rewrite IH. Qed.

(** The weight of the operation at position [i]: one turn for itself and,
    for each of its regions, what the operations after it weigh there. *)
Lemma weigh_lookup ops : forall i op,
  ops !! i = Some op ->
  drop i (weigh ops) =
  (op, 1 + sum_list ((fun region => 1 + regionWeight (drop (S i) (weigh ops)) region)
                       <$> getRegions op))
  :: drop (S i) (weigh ops).
Proof.
  induction ops as [|op0 rest IH]; intros i op; [done|].
  destruct i as [|i]; simpl.
  - intros [= <-]. by rewrite drop_0.
  - intros Hop. by apply IH.
Qed.

Lemma parentsFirst_spec ops : forall before i op,
  parentsFirst before ops = true -> ops !! i = Some op ->
  (forall o, o ∈ before -> opParent o ≠ Some (opId op)) ∧
  (forall o, o ∈ take (S i) ops -> opParent o ≠ Some (opId op)).
Proof.
  induction ops as [|op0 rest IH]; intros before i op; [done|]. cbn [parentsFirst].
  intros [Hhere Hrest]%andb_true_iff. destruct i as [|i]; simpl.
  - intros [= <-].
    assert (forall o, o ∈ op0 :: before -> opParent o ≠ Some (opId op0)) as Hall.
    { intros o Ho. pose proof (forallb_elem_of _ _ _ Hhere Ho) as Hneg. simpl in Hneg.
      apply negb_true_iff in Hneg. by apply bool_decide_eq_false in Hneg. }
    split.
    + intros o Ho. apply Hall. by right.
    + rewrite take_0. intros o ->%list_elem_of_singleton. apply Hall. by left.
  - intros Hop. destruct (IH _ _ _ Hrest Hop) as (Hbefore & Htake). split.
    + intros o Ho. apply Hbefore. by right.
    + intros o [->|Ho]%elem_of_cons; [apply Hbefore; by left|by apply Htake].
Qed.

(** The regions of an operation hold only operations that come after it. *)
Lemma regionWeight_nested ops i op region :
  parentsFirst [] ops = true -> ops !! i = Some op -> region ∈ getRegions op ->
  regionWeight (weigh ops) region = regionWeight (drop (S i) (weigh ops)) region.
Proof.
  intros Hfirst Hop Hregion.
  rewrite <- (take_drop (S i) (weigh ops)) at 1. rewrite regionWeight_app.
  rewrite regionWeight_outside; [done|].
  intros [o w] Hin. simpl.
  destruct (parentsFirst_spec _ _ _ _ Hfirst Hop) as (_ & Htake).
  unfold getRegions in Hregion. apply list_elem_of_fmap in Hregion as (r & -> & _).
  unfold inRegion. simpl. apply andb_false_iff. left. apply bool_decide_eq_false.
  apply Htake. rewrite <- (weigh_fst ops), <- fmap_take.
  apply list_elem_of_fmap. by exists (o, w).
Qed.

Lemma sum_list_reverse (l : list nat) : sum_list (reverse l) = sum_list l.
Proof.
  induction l as [|x rest IH]; [done|].
  rewrite reverse_cons, sum_list_append, IH. simpl. lia.
Qed.

(** What is left of a region from the first operation found in it. *)
Lemma regionWeight_find (weighted : list (Operation * nat)) region :
  match list_find (fun op => inRegion region op = true) weighted.*1 with
  | Some (k, op) =>
      weighted.*1 !! k = Some op ∧ (opParent op, opRegion op) = region ∧
      regionWeight weighted region = regionWeight (drop k weighted) region
  | None => regionWeight weighted region = 0
  end.
Proof.
  destruct (list_find _ _) as [[k op]|] eqn:Hfind.
  - apply list_find_Some in Hfind as (Hk & Hin & Hbefore). split_and!; [done| |].
    + unfold inRegion in Hin. apply andb_true_iff in Hin as [H1 H2].
      apply bool_decide_eq_true in H1, H2. destruct region. simpl in *. congruence.
    + rewrite <- (take_drop k weighted) at 1. rewrite regionWeight_app.
      rewrite regionWeight_outside; [done|].
      intros ow Hin'. apply list_elem_of_lookup in Hin' as [j Hj].
      apply lookup_take_Some in Hj as [Hj Hlt].
      apply not_true_is_false. apply (Hbefore j); [|lia].
      by rewrite list_lookup_fmap, Hj.
  - apply list_find_None in Hfind. apply regionWeight_outside.
    intros ow Hin. apply not_true_is_false.
    rewrite Forall_forall in Hfind. apply Hfind. by apply list_elem_of_fmap_2.
Qed.

Lemma list_find_id_NoDup (ops : list Operation) i op :
  NoDup (opId <$> ops) -> ops !! i = Some op ->
  list_find (fun o => opId o = opId op) ops = Some (i, op).
Proof.
  intros Hnodup Hop. apply list_find_Some. split_and!; [done|done|].
  intros j o Ho Hlt Hid.
  assert (j = i); [|lia].
  apply (NoDup_lookup _ j i (opId op) Hnodup).
  - by rewrite list_lookup_fmap, Ho, <- Hid.
  - by rewrite list_lookup_fmap, Hop.
Qed.

Lemma queueWeight_cons weighted region queue :
  queueWeight weighted (region :: queue) =
  1 + regionWeight weighted region + queueWeight weighted queue.
Proof. done. Qed.

Lemma queueWeight_push weighted pushed queue :
  queueWeight weighted (reverse pushed ++ queue) =
  queueWeight weighted pushed + queueWeight weighted queue.
Proof.
  unfold queueWeight. by rewrite fmap_app, sum_list_append, fmap_reverse, sum_list_reverse.
Qed.

(** The walk on an empty map: from any point of a verified program, with
    fuel for what the work list and the rest of the region at hand weigh,
    it ends and has changed nothing. *)
Lemma rewriteRegionLoop_empty ir rewriteMapping toDelete :
  verified ir = true ->
  forall fuel queue current,
    match current with
    | None => queueWeight (weigh (irOps ir)) queue < fuel
    | Some op =>
        exists i,
          irOps ir !! i = Some op ∧
          queueWeight (weigh (irOps ir)) queue +
          regionWeight (drop i (weigh (irOps ir))) (opParent op, opRegion op) < fuel
    end ->
    rewriteRegionLoop fuel [] (mkRewritePhase ir rewriteMapping toDelete) queue current
    = Finished (mkRewritePhase ir rewriteMapping toDelete).
Proof.
  unfold verified.
  intros [[Hnodup%bool_decide_eq_true Hfirst]%andb_true_iff Hterm]%andb_true_iff.
  set (W := weigh (irOps ir)).
  induction fuel as [|fuel IH]; intros queue current Hbound.
  { destruct current; [destruct Hbound as (i & _ & Hlt)|]; lia. }
  cbn [rewriteRegionLoop]. destruct current as [op|].
  - destruct Hbound as (i & Hop & Hlt).
    assert (op ∈ irOps ir) as Hin by by eapply list_elem_of_lookup_2.
    destruct (rewriteRegionOp_empty ir rewriteMapping toDelete queue op Hnodup Hin
                (forallb_elem_of _ _ _ Hterm Hin)) as (pushed & Hpushed & ->).
    simpl. apply IH. unfold nextOpAfter.
    rewrite (list_find_id_NoDup _ _ _ Hnodup Hop). simpl.
    pose proof (weigh_lookup _ _ _ Hop) as Hdrop. fold W in Hdrop.
    assert (regionWeight (drop i W) (opParent op, opRegion op) =
            1 + sum_list ((fun region => 1 + regionWeight (drop (S i) W) region)
                            <$> getRegions op) +
            regionWeight (drop (S i) W) (opParent op, opRegion op)) as Hhere.
    { rewrite Hdrop. unfold regionWeight at 1. rewrite filter_cons, decide_True.
      - csimpl. unfold regionWeight. lia.
      - simpl. unfold inRegion. simpl. by rewrite !bool_decide_eq_true_2. }
    assert (queueWeight W pushed <=
            sum_list ((fun region => 1 + regionWeight (drop (S i) W) region)
                        <$> getRegions op)) as Hpush.
    { destruct Hpushed as [->| ->]; [unfold queueWeight; simpl; lia|].
      unfold queueWeight. apply Nat.eq_le_incl. f_equal.
      apply list_fmap_ext. intros j region Hregion.
      f_equal. apply (regionWeight_nested _ i op); [done|done|].
      by eapply list_elem_of_lookup_2. }
    rewrite queueWeight_push.
    pose proof (regionWeight_find (drop (S i) W) (opParent op, opRegion op)) as Hfind.
    unfold W in Hfind. rewrite fmap_drop, weigh_fst in Hfind. fold W in Hfind.
    destruct (list_find _ (drop (S i) (irOps ir))) as [[k next]|]; simpl.
    + destruct Hfind as (Hk & Hregion & Hweight). exists (S i + k). split.
      * by rewrite lookup_drop in Hk.
      * rewrite Hregion. rewrite drop_drop in Hweight. lia.
    + lia.
  - destruct queue as [|region queue]; [done|].
    rewrite queueWeight_cons in Hbound. apply IH. unfold firstOpOf. simpl.
    pose proof (regionWeight_find W region) as Hfind.
    unfold W in Hfind. rewrite weigh_fst in Hfind. fold W in Hfind.
    destruct (list_find _ (irOps ir)) as [[k next]|]; simpl.
    + destruct Hfind as (Hk & Hregion & Hweight). exists k. split; [done|].
      rewrite Hregion. lia.
    + lia.
Qed.

(** X26. A function without anything to change is left alone: on a verified
    program (the ids of the operations are distinct, operations precede
    what is nested in them, terminators are typed like what they feed and
    reductions have a result), [rewrite] with an empty map ends within
    [rewriteFuel] turns and returns the program as it is; so does the whole
    forward propagation when [initAnchorLayout] finds no anchor. *)
Theorem propagateLayoutsForward_without_anchor ir fuel rewriteTurns :
  verified ir = true ->
  rewriteFuel ir <= rewriteTurns ->
  LayoutPropagation_rewrite rewriteTurns ir [] = Finished ir ∧
  (initAnchorLayout ir = Finished [] ->
   propagateLayoutsForward fuel rewriteTurns ir = Finished ir).
Proof.
  intros Hverified Hfuel.
  assert (LayoutPropagation_rewrite rewriteTurns ir [] = Finished ir) as Hrewrite.
  { unfold LayoutPropagation_rewrite, rewriteRegion.
    rewrite (rewriteRegionLoop_empty ir ∅ [] Hverified); [done|].
    unfold rewriteFuel in Hfuel. unfold queueWeight. simpl. lia. }
  split; [done|]. intros Hanchors. unfold propagateLayoutsForward.
  rewrite Hanchors. simpl. unfold propagateLayout. destruct fuel; simpl; exact Hrewrite.
Qed.

(** ** The loop a rewrite builds *)

Lemma convertTiedOperands_lookup layouts rewriteMapping operands :
  forall tied ir ir' converted i operand value,
    convertTiedOperands ir layouts rewriteMapping operands tied = Finished (ir', converted) ->
    operands !! i = Some operand -> tied !! i = Some value ->
    is_Some (converted !! i).
Proof.
  induction operands as [|operand0 operands IH]; intros tied ir ir' converted i operand value.
  - intros _ Hi. by rewrite lookup_nil in Hi.
  - destruct tied as [|value0 tied]; [intros _ _ Hi; by rewrite lookup_nil in Hi|].
    cbn [convertTiedOperands].
    destruct (match layouts_find value0 layouts with
              | Some info => _
              | None => _
              end) as [[ir1 convertedOperand]| |]; simpl; try done.
    destruct (convertTiedOperands ir1 layouts rewriteMapping operands tied)
      as [[ir2 rest]| |] eqn:Hrest; simpl; try done.
    intros [= <- <-]. destruct i as [|i]; simpl; [by eauto|].
    intros Hoperand Hvalue. by eapply IH.
Qed.

(** [remapArg] over a zip changes an operand only for a value of the same
    type. *)
Lemma remapArgs_operand_types olds : forall news ir rewriteMapping ir' rewriteMapping' id op,
  remapArgs (ir, rewriteMapping) olds news = Finished (ir', rewriteMapping') ->
  getOp ir id = Some op ->
  exists op',
    getOp ir' id = Some op' ∧ sameOperation op op' ∧
    forall n v, opOperands op !! n = Some v ->
                exists v', opOperands op' !! n = Some v' ∧ getType ir' v' = getType ir v.
Proof.
  induction olds as [|old olds IH]; intros news ir rm ir' rm' id op.
  - simpl. intros [= <- <-] Hop. exists op. split_and!; [done|apply sameOperation_refl|].
    intros n v Hv. by exists v.
  - destruct news as [|new news].
    + simpl. intros [= <- <-] Hop. exists op. split_and!; [done|apply sameOperation_refl|].
      intros n v Hv. by exists v.
    + cbn [remapArgs]. unfold remapArg at 1. cbn [fst snd].
      case_bool_decide as Hty.
      * simpl. intros Hrest Hop.
        assert (getOp (replaceAllUsesWith ir old new) id =
                Some (withOperands op (replaceValue old new <$> opOperands op))) as Hop1.
        { clear -Hop. destruct ir as [ops types args]. unfold replaceAllUsesWith. simpl.
          induction ops as [|op0 rest IH]; [done|]. simpl. rewrite getOp_cons in Hop.
          rewrite getOp_cons. simpl. case_bool_decide; [|by apply IH].
          by injection Hop as <-. }
        destruct (IH _ _ _ _ _ _ _ Hrest Hop1) as (op' & Hop' & Hsame & Hoperands).
        exists op'. split_and!; [done| |].
        -- destruct Hsame as (? & ? & ? & ?). by split_and!.
        -- intros n v Hv.
           destruct (Hoperands n (replaceValue old new v)) as (v' & Hv' & Hty').
           { simpl. by rewrite list_lookup_fmap, Hv. }
           exists v'. split; [done|]. rewrite Hty'. unfold replaceValue, getType. simpl.
           case_bool_decide; [subst; by symmetry|done].
      * destruct (LayoutPropagation_map ir rm old new) as [rm1| |]; simpl; try done.
        apply IH.
Qed.

Lemma allocRegions_lengths ir regions ir' argss :
  allocRegions ir regions = (ir', argss) ->
  Forall2 (fun (args : list Value) (tys : list Ty) => length args = length tys) argss regions.
Proof.
  revert ir ir' argss. induction regions as [|tys rest IH]; intros ir ir' argss; simpl.
  - intros [= <- <-]. constructor.
  - destruct (allocValues ir tys) as [ir1 args] eqn:Halloc.
    destruct (allocRegions ir1 rest) as [ir2 argss2] eqn:Hrest. intros [= <- <-].
    constructor; [|by eapply IH].
    by destruct (allocValues_typed _ _ _ _ Halloc) as (? & _).
Qed.

Lemma createOpWithRegions_regions ir point kind operands resultTypes regionArgTypes attrs
    ir' op :
  createOpWithRegions ir point kind operands resultTypes regionArgTypes attrs
  = Finished (ir', op) ->
  Forall2 (fun (args : list Value) (tys : list Ty) => length args = length tys)
    (opRegionArgs op) regionArgTypes.
Proof.
  unfold createOpWithRegions.
  destruct (blockOfPoint ir point) as [block|]; simpl; [|done].
  destruct (allocValues ir resultTypes) as [ir1 results] eqn:Hresults.
  destruct (allocRegions ir1 regionArgTypes) as [ir2 regionArgs] eqn:Hregions.
  destruct (insertAt ir point _) as [ops|]; simpl; [|done].
  intros [= <- <-]. simpl. by eapply allocRegions_lengths.
Qed.

(** X27. The loop [rewriteForOp] builds is typed like a loop: for every init of
    the old loop that has a result, the new loop has an init, a result and
    an iteration argument of one and the same type, which carries the first
    encoding of the entry of the old result when that result has an entry
    and the old init is a tensor. *)
Theorem rewriteForOp_loop_carried_types layouts st forOp st' newForOp i init result :
  rewriteForOp layouts st forOp = Finished (st', newForOp) ->
  getInitArgs forOp !! i = Some init -> opResults forOp !! i = Some result ->
  exists newInit newResult newArg ty,
    getInitArgs newForOp !! i = Some newInit ∧
    opResults newForOp !! i = Some newResult ∧
    getRegionIterArg newForOp i = Some newArg ∧
    getType (rpIR st') newInit = Some ty ∧
    getType (rpIR st') newResult = Some ty ∧
    getType (rpIR st') newArg = Some ty ∧
    forall info picked,
      layouts_find result layouts = Some info -> head (encodings info) = Some picked ->
      isRankedTensor (rpIR st) init = true ->
      getEncoding ty = Some picked.
Proof.
  unfold rewriteForOp. intros Hrun Hinit Hresult.
  destruct (convertTiedOperands _ _ _ _ _) as [[ir1 operands]| |] eqn:Hconv;
    simpl in Hrun; try done.
  destruct (opOperands forOp !! 0) as [lowerBound|]; simpl in Hrun; [|done].
  destruct (opOperands forOp !! 1) as [upperBound|]; simpl in Hrun; [|done].
  destruct (opOperands forOp !! 2) as [step|]; simpl in Hrun; [|done].
  destruct (getType ir1 lowerBound) as [boundType|]; simpl in Hrun; [|done].
  destruct (mapM (getType ir1) operands) as [types|] eqn:Htypes; simpl in Hrun; [|done].
  destruct (createOpWithRegions _ _ _ _ _ _ _) as [[ir2 new]| |] eqn:Hcreate;
    simpl in Hrun; try done.
  destruct (if bool_decide (operands = []) then ensureTerminator ir2 new else Finished ir2)
    as [ir3| |] eqn:Hterm; simpl in Hrun; try done.
  destruct (takeBodies ir3 (opId forOp) (opId new)) as [ir4| |] eqn:Htake;
    simpl in Hrun; try done.
  destruct (remapArgs (ir4, rpMapping st) _ _) as [[ir5 rm5]| |] eqn:H5;
    simpl in Hrun; try done.
  destruct (remapArgs (ir5, rm5) _ _) as [[ir6 rm6]| |] eqn:H6; simpl in Hrun; try done.
  destruct (getOp ir6 (opId new)) as [new'|] eqn:Hget; simpl in Hrun; [|done].
  injection Hrun as <- <-. simpl.
  destruct (convertTiedOperands_inv _ _ _ _ _ _ _ Hconv) as (Hk1 & Hconverted).
  destruct (convertTiedOperands_lookup _ _ _ _ _ _ _ _ _ _ Hconv Hinit Hresult)
    as [converted Hconverted_i].
  destruct (mapM_getType_lookup _ _ _ _ _ Htypes Hconverted_i) as (ty & Hty & Hconverted_ty).
  destruct (createOpWithRegions_inv _ _ _ _ _ _ _ _ _ Hcreate)
    as (Hk2 & Hnew2 & Hid & Hkind & Hoperands & Hlen & Hresults & Hargs).
  assert (keeps ir2 ir3 ∧ getOp ir3 (opId new) = Some new) as (Hk3 & Hnew3).
  { case_bool_decide.
    - destruct (ensureTerminator_inv _ _ _ Hterm) as (Hk & _ & Hsame). split; [done|].
      rewrite Hsame; [done|]. apply freshOpId_fresh. by apply getOp_elem in Hnew2 as [? _].
    - injection Hterm as <-. split; [apply keeps_refl|done]. }
  destruct (takeBodies_inv _ _ _ _ Htake) as (Hk4 & _ & Hnew4). rewrite Hnew3 in Hnew4.
  destruct (remapArgs_inv _ _ _ _ _ _ H5) as (Ht5 & Hk5 & _).
  destruct (remapArgs_inv _ _ _ _ _ _ H6) as (Ht6 & Hk6 & _).
  destruct (remapArgs_operand_types _ _ _ _ _ _ _ _ H5 Hnew4)
    as (new5 & Hnew5 & (_ & _ & Hres5 & Hargs5) & Hoperands5).
  destruct (remapArgs_operand_types _ _ _ _ _ _ _ _ H6 Hnew5)
    as (new6 & Hnew6 & (_ & _ & Hres6 & Hargs6) & Hoperands6).
  rewrite Hget in Hnew6. injection Hnew6 as <-.
  assert (forall v t, getType ir2 v = Some t -> getType ir6 v = Some t) as Hkept.
  { intros v t Hv. destruct Hk3 as (Ht3 & _). destruct Hk4 as (Ht4 & _).
    destruct Hk5 as (Ht5' & _). destruct Hk6 as (Ht6' & _). by apply Ht6', Ht5', Ht4, Ht3. }
  assert (opOperands new !! (numControlOperands + i) = Some converted) as Hconverted_new.
  { rewrite Hoperands. unfold numControlOperands. simpl. exact Hconverted_i. }
  destruct (Hoperands5 _ _ Hconverted_new) as (init5 & Hinit5 & Hinit5_ty).
  destruct (Hoperands6 _ _ Hinit5) as (init6 & Hinit6 & Hinit6_ty).
  destruct (lookup_lt_is_Some_2 (opResults new) i) as [newResult HnewResult].
  { rewrite Hlen. by eapply lookup_lt_Some. }
  pose proof (createOpWithRegions_regions _ _ _ _ _ _ _ _ _ Hcreate) as Hregions.
  apply Forall2_cons_inv_r in Hregions as (newArgs & others & Hlenargs & _ & HnewArgs).
  destruct (lookup_lt_is_Some_2 newArgs (numInductionVars + i)) as [newArg HnewArg].
  { rewrite Hlenargs. unfold numInductionVars. simpl.
    apply lookup_lt_Some in Hty. lia. }
  exists init6, newResult, newArg, ty. split_and!.
  - unfold getInitArgs. by rewrite lookup_drop.
  - by rewrite Hres6, Hres5.
  - unfold getRegionIterArg, getRegionIterArgs. rewrite Hargs6, Hargs5, HnewArgs. simpl.
    by rewrite lookup_drop.
  - rewrite Hinit6_ty, Hinit5_ty. destruct Hk4 as (Ht4 & _). destruct Hk3 as (Ht3 & _).
    destruct Hk2 as (Ht2 & _). by apply Ht4, Ht3, Ht2.
  - apply Hkept. by eapply Hresults.
  - apply Hkept. apply (Hargs 0 newArgs (boundType :: types) (numInductionVars + i));
      [by rewrite HnewArgs|done|done|done].
  - intros info picked Hinfo Hhead Htensor.
    destruct (Hconverted i init result info picked Hinit Hresult Hinfo Hhead Htensor)
      as (converted' & Hconverted' & Henc).
    rewrite Hconverted_i in Hconverted'. injection Hconverted' as <-.
    unfold getValueEncoding in Henc. by rewrite Hconverted_ty in Henc.
Qed.

End Pass.

(** * Termination of the propagation *)


(** * The claims on the worked programs *)

Lemma loopProgram_anchors :
  initAnchorLayout alwaysExpensive walkForwardSlice loopProgram = Finished loopAnchors.
Proof. vm_compute. reflexivity. Qed.

Lemma loopProgram_propagated :
  propagateLayout sameEncoding 50 loopProgram loopAnchors = Finished loopLayouts.
Proof. vm_compute. reflexivity. Qed.

(** C1 on the loop program: after resolution every entry holds one
    encoding. *)
Lemma resolveConflicts_single_layout_loop :
  Forall (fun entry => length (encodings entry.2) = 1)
    (resolveConflicts loopProgram loopLayouts).
Proof.
  apply (resolveConflicts_single_layout sameEncoding alwaysExpensive walkForwardSlice
           loopProgram 50 loopAnchors loopLayouts).
  - vm_compute. reflexivity.
  - vm_compute. reflexivity.
Defined.


(** C4 on a value a load defines: the first blocked candidate is kept, though
    an MMA candidate comes first. *)
Lemma resolveConflicts_follows_spec_rule_load :
  exists e,
    specResolvedEncoding (isLoadOrStore loopProgram 5)
      [NvidiaMmaEncodingAttr 2 0; BlockedEncodingAttr 0; BlockedEncodingAttr 1] = Some e ∧
    layouts_find 5 (resolveConflicts loopProgram conflictLayouts) = Some (mkLayoutInfo [e]).
Proof.
  apply (resolveConflicts_follows_spec_rule loopProgram conflictLayouts 5
           (mkLayoutInfo [NvidiaMmaEncodingAttr 2 0; BlockedEncodingAttr 0;
                          BlockedEncodingAttr 1])).
  - vm_compute. reflexivity.
  - simpl. lia.
Defined.

(** C10 on a value an elementwise operation defines: the MMA candidate is
    kept, and it was a candidate. *)
Lemma resolveConflicts_keeps_a_candidate_elementwise :
  exists e,
    layouts_find 32 (resolveConflicts loopProgram conflictLayouts) = Some (mkLayoutInfo [e]) ∧
    e ∈ [BlockedEncodingAttr 1; NvidiaMmaEncodingAttr 2 0; BlockedEncodingAttr 0].
Proof.
  apply (resolveConflicts_keeps_a_candidate loopProgram conflictLayouts 32
           (mkLayoutInfo [BlockedEncodingAttr 1; NvidiaMmaEncodingAttr 2 0;
                          BlockedEncodingAttr 0])).
  - vm_compute. reflexivity.
  - simpl. lia.
Defined.

(** C6 on the loop program: the argument [%0] is an init of the loop, and
    its encoding reaches both the iteration argument [%31] and the loop
    result [%20]. *)
Lemma propagateToUsers_for_init_loop :
  exists arg result,
    getTiedLoopRegionIterArg
      (mkOperation 11 ForOp [1; 2; 3; 0] [20] [[30; 31]] None 0 false false false []) 3
    = Some arg ∧
    getTiedLoopResult
      (mkOperation 11 ForOp [1; 2; 3; 0] [20] [[30; 31]] None 0 false false false []) 3
    = Some result ∧
    forall e d,
      e ∈ [BlockedEncodingAttr 0] ->
      sameEncoding
        (mkOperation 11 ForOp [1; 2; 3; 0] [20] [[30; 31]] None 0 false false false []) e
      = Some d ->
      (isRankedTensor loopProgram arg = true ->
       d ∈ candidates
             [ (0, mkLayoutInfo [BlockedEncodingAttr 0]);
               (5, mkLayoutInfo [BlockedEncodingAttr 1]);
               (31, mkLayoutInfo [BlockedEncodingAttr 0]);
               (20, mkLayoutInfo [BlockedEncodingAttr 0]) ] arg) ∧
      (isRankedTensor loopProgram result = true ->
       d ∈ candidates
             [ (0, mkLayoutInfo [BlockedEncodingAttr 0]);
               (5, mkLayoutInfo [BlockedEncodingAttr 1]);
               (31, mkLayoutInfo [BlockedEncodingAttr 0]);
               (20, mkLayoutInfo [BlockedEncodingAttr 0]) ] result).
Proof.
  apply (propagateToUsers_for_init sameEncoding loopProgram 0
           (mkLayoutInfo [BlockedEncodingAttr 0]) loopAnchors _ [31; 20]).
  - vm_compute. reflexivity.
  - vm_compute. left.
  - reflexivity.
Defined.

(** C5, as the code has it, on the loop program, for the result [%5] of the
    expensive load: it is seeded, being a tensor result of an anchor
    operation with a blocked encoding. *)
Lemma initAnchorLayout_seeds_loop :
  (5 ∈ loopAnchors.*1 <->
   exists encoding,
     getValueEncoding loopProgram 5 = Some encoding ∧
     (5 ∈ irArgs loopProgram ∨
      exists op, op ∈ irOps loopProgram ∧
                 isLayoutAnchor alwaysExpensive loopProgram op = true ∧
                 5 ∈ opResults op) ∧
     (isaNvidiaMmaEncodingAttr encoding = true ->
      forall def, getDefiningOp loopProgram 5 = Some def ->
                  hasConvertToMMATransisitiveUse walkForwardSlice loopProgram def encoding
                  = Finished true)) ∧
  (forall info, layouts_find 5 loopAnchors = Some info ->
                exists encoding, encodings info = [encoding] ∧
                                 getValueEncoding loopProgram 5 = Some encoding).
Proof.
  apply (initAnchorLayout_seeds alwaysExpensive walkForwardSlice loopProgram loopAnchors).
  vm_compute. reflexivity.
Defined.

(** C5 as the spec words it fails on the dot whose result is only converted
    to a dot-operand encoding: no conversion into the MMA family is in reach
    of [%3], so the spec's rule skips it, and yet [initAnchorLayout] seeds
    it, since the MMA encoding has major version 2. *)
Lemma initAnchorLayout_seeds_without_mma_conversion :
  exists layouts,
    initAnchorLayout alwaysExpensive walkForwardSlice dotOperandProgram = Finished layouts ∧
    3 ∈ layouts.*1 ∧
    specIsSeeded alwaysExpensive walkForwardSlice dotOperandProgram 3 = Finished false.
Proof.
  eexists. split_and!.
  - vm_compute. reflexivity.
  - vm_compute. do 3 right. left.
  - vm_compute. reflexivity.
Qed.

(** C2 as the spec words it fails on the loop program: asking twice for
    [%5] in the encoding of the argument inserts two conversions. *)
Lemma getValueAs_second_call_converts :
  match loopProgramOnce with
  | Finished (ir1, converted) =>
      match getValueAs ir1 [] ∅ 5 (BlockedEncodingAttr 0) with
      | Finished (ir2, converted') =>
          length (convertOps loopProgram) = 1 ∧
          length (convertOps ir1) = 2 ∧
          length (convertOps ir2) = 3 ∧
          converted = 33 ∧ converted' = 34
      | _ => False
      end
  | _ => False
  end.
Proof. vm_compute. repeat split. Qed.

(** C2, as the code has it, on the loop program. *)
Lemma getValueAs_converts_again_loop :
  exists ir1 converted ir2 converted',
    loopProgramOnce = Finished (ir1, converted) ∧
    getValueAs ir1 [] ∅ 5 (BlockedEncodingAttr 0) = Finished (ir2, converted') ∧
    length (convertOps ir2) = S (length (convertOps ir1)) ∧
    converted' ≠ converted.
Proof.
  destruct loopProgramOnce as [[ir1 converted]| |] eqn:Hfirst;
    [|vm_compute in Hfirst; discriminate Hfirst..].
  assert (length (convertOps ir1) = S (length (convertOps loopProgram))) as Hcount.
  { vm_compute in Hfirst. injection Hfirst as <- <-. vm_compute. reflexivity. }
  destruct (getValueAs_converts_again loopProgram [] ∅ 5 (BlockedEncodingAttr 0)
              ir1 converted Hfirst Hcount) as (ir2 & converted' & Hsecond & Hmore & Hne).
  exists ir1, converted, ir2, converted'. split_and!; done.
Defined.

(** C7 on the constant program: the accepted slice holds the constant, which
    may be rematerialized. *)
Lemma getRematerializableSlice_sound_constant :
  getRematerializableSlice alwaysExpensive rootOnlySlice
    (constantProgram (BlockedEncodingAttr 1)) 1 (BlockedEncodingAttr 1) None
  = (success, [1], {[1 := BlockedEncodingAttr 1]}) ∧
  forall v op,
    v ∈ [1] -> getDefiningOp (constantProgram (BlockedEncodingAttr 1)) v = Some op ->
    canBeRemat alwaysExpensive (constantProgram (BlockedEncodingAttr 1)) op = true ∧
    ¬ (opKind op ∈ neverRematerialized) ∧
    (isaLoadOrStore op = true ->
     alwaysExpensive (constantProgram (BlockedEncodingAttr 1)) op = false).
Proof.
  split; [vm_compute; reflexivity|].
  apply (getRematerializableSlice_sound alwaysExpensive rootOnlySlice
           (constantProgram (BlockedEncodingAttr 1)) 1 (BlockedEncodingAttr 1) None
           [1] {[1 := BlockedEncodingAttr 1]}).
  vm_compute. reflexivity.
Defined.

(** C8 on the constant program: the conversion to another blocked layout is
    rematerialized away, the constant cloned and converted in its place and
    the store redirected to it; the conversion to a shared layout is left
    alone. *)
Lemma backwardRematerialization_constant :
  (exists ir',
     backwardRematerialization alwaysExpensive rootOnlySlice keepOrder noLoopResignature
       sharedByType
       (constantProgram (BlockedEncodingAttr 1)) constantConvert = Finished ir' ∧
     ir' ≠ constantProgram (BlockedEncodingAttr 1) ∧
     eliminatedBySlice keepOrder noLoopResignature (constantProgram (BlockedEncodingAttr 1))
       [1] {[1 := BlockedEncodingAttr 1]} constantConvert ∅ ir' ∧
     getOp ir' 11 = None ∧
     (fun op => (opKind op, opOperands op, opResults op)) <$> irOps ir' =
     [ (ConstantOp, [], [3]); (ConvertLayoutOp, [3], [4]); (ConstantOp, [], [1]);
       (StoreOp, [0; 4], []) ] ∧
     getValueEncoding ir' 4 = Some (BlockedEncodingAttr 1)) ∧
  backwardRematerialization alwaysExpensive rootOnlySlice keepOrder noLoopResignature
       sharedByType
    (constantProgram (SharedEncodingAttr 0)) constantConvert
  = Finished (constantProgram (SharedEncodingAttr 0)).
Proof.
  split.
  - destruct (backwardRematerialization alwaysExpensive rootOnlySlice keepOrder
                noLoopResignature sharedByType (constantProgram (BlockedEncodingAttr 1)) constantConvert)
      as [ir'| |] eqn:Hrun; [|vm_compute in Hrun; discriminate Hrun..].
    exists ir'. split; [reflexivity|].
    assert (ir' ≠ constantProgram (BlockedEncodingAttr 1)) as Hne.
    { vm_compute in Hrun. injection Hrun as <-. intros Heq.
      apply (f_equal (fun ir => length (irOps ir))) in Heq. vm_compute in Heq.
      discriminate Heq. }
    split; [exact Hne|].
    destruct (proj2 (backwardRematerialization_all_or_nothing alwaysExpensive rootOnlySlice
                       keepOrder noLoopResignature sharedByType
                       (constantProgram (BlockedEncodingAttr 1)) constantConvert) ir' Hrun)
      as [Hsame|(result & src & enc & slice & layout & Hresult & Hsrc & Henc & Hslice &
                 Hdone & Hgone)]; [by destruct Hne|].
    injection Hresult as <-. injection Hsrc as <-. injection Henc as <-.
    injection Hslice as <- <-.
    split; [exact Hdone|]. split; [exact Hgone|].
    vm_compute in Hrun. injection Hrun as <-. split; vm_compute; reflexivity.
  - apply (proj1 (backwardRematerialization_all_or_nothing alwaysExpensive rootOnlySlice
                    keepOrder noLoopResignature sharedByType
                    (constantProgram (SharedEncodingAttr 0)) constantConvert) 2 1).
    + reflexivity.
    + reflexivity.
    + left. vm_compute. reflexivity.
Defined.

(** The shape the spec lists is there whatever the type of the
    conversion's result. *)
Lemma accumulatorProgram_shape resultEncoding :
  dotConvertShape (fun user => length (getUsers (accumulatorProgram resultEncoding) user))
    (accumulatorProgram resultEncoding) accumulatorConvert 3.
Proof.
  exists 5, (plainOp 12 DotOp [0; 1; 4] [5] None), 4,
    (plainOp 11 ConvertLayoutOp [3] [4] None), (plainOp 10 LoadOp [2] [3] None).
  split_and!; reflexivity.
Qed.

(** C9 as the spec words it fails on three counts.  On the accumulator
    program, when the conversion produces another encoding than the load,
    every condition the spec lists holds and the pattern fails.  On the
    doubled program, where the one user of the conversion uses it twice,
    every condition the spec lists holds, the types agree, and the pattern
    fails.  And where the pattern fires, the addition takes a conversion of
    the new dot and the load, and no conversion follows the addition. *)
Lemma matchAndRewrite_fails_on_type_mismatch :
  (specDotConvertMatches (accumulatorProgram (BlockedEncodingAttr 1)) accumulatorConvert ∧
   matchAndRewrite (accumulatorProgram (BlockedEncodingAttr 1)) accumulatorConvert
   = Finished (failure, accumulatorProgram (BlockedEncodingAttr 1))) ∧
  (specDotConvertMatches doubledProgram accumulatorConvert ∧
   getType doubledProgram 6 = getType doubledProgram 3 ∧
   length (getUsers doubledProgram accumulatorConvert) = 1 ∧
   numUsers doubledProgram accumulatorConvert = 2 ∧
   matchAndRewrite doubledProgram accumulatorConvert = Finished (failure, doubledProgram)) ∧
  (exists ir',
     matchAndRewrite (accumulatorProgram (BlockedEncodingAttr 0)) accumulatorConvert
     = Finished (success, ir') ∧
     (fun op => (opKind op, opOperands op, opResults op)) <$> irOps ir' =
     [ (LoadOp, [2], [3]); (ConvertLayoutOp, [3], [4]); (DotOp, [0; 1; 4], [5]);
       (ConstantOp, [], [7]); (SplatOp, [7], [8]); (DotOp, [0; 1; 8], [9]);
       (ConvertLayoutOp, [9], [10]); (AddFOp, [10; 3], [11]); (StoreOp, [2; 11], []) ] ∧
     ¬ exists cvt, cvt ∈ irOps ir' ∧ opKind cvt = ConvertLayoutOp ∧ 11 ∈ opOperands cvt).
Proof.
  split_and!.
  - exists 3. apply accumulatorProgram_shape.
  - vm_compute. reflexivity.
  - exists 3, 5, (plainOp 12 DotOp [0; 1; 4] [5] None), 4,
      (plainOp 11 ConvertLayoutOp [3] [4] None), (plainOp 10 LoadOp [2] [3] None).
    split_and!; reflexivity.
  - reflexivity.
  - reflexivity.
  - reflexivity.
  - vm_compute. reflexivity.
  - eexists. split; [vm_compute; reflexivity|]. split; [vm_compute; reflexivity|].
    intros (cvt & Hin & Hkind & Huse). vm_compute in Hin.
    repeat (apply elem_of_cons in Hin as [->|Hin];
            [try discriminate Hkind;
             apply list_elem_of_singleton in Huse; discriminate Huse|]).
    by apply elem_of_nil in Hin.
Qed.

(** C9, as the code has it, on the accumulator program when the conversion
    produces the type of the load: the pattern fires, and the store takes
    the addition of the converted new dot and the load. *)
Lemma matchAndRewrite_exact_accumulator :
  exists ir',
    matchAndRewrite (accumulatorProgram (BlockedEncodingAttr 0)) accumulatorConvert
    = Finished (success, ir') ∧
    dotConvertMatches (accumulatorProgram (BlockedEncodingAttr 0)) accumulatorConvert ∧
    rewrittenToAdd (accumulatorProgram (BlockedEncodingAttr 0)) accumulatorConvert
      (plainOp 12 DotOp [0; 1; 4] [5] None) 3 (tensorOf (BlockedEncodingAttr 0)) ir' ∧
    getOp ir' 13 = None ∧
    (forall op', op' ∈ irOps ir' -> 6 ∉ opOperands op') ∧
    (fun op => (opKind op, opOperands op, opResults op)) <$> irOps ir' =
    [ (LoadOp, [2], [3]); (ConvertLayoutOp, [3], [4]); (DotOp, [0; 1; 4], [5]);
      (ConstantOp, [], [7]); (SplatOp, [7], [8]); (DotOp, [0; 1; 8], [9]);
      (ConvertLayoutOp, [9], [10]); (AddFOp, [10; 3], [11]); (StoreOp, [2; 11], []) ].
Proof.
  destruct (matchAndRewrite (accumulatorProgram (BlockedEncodingAttr 0)) accumulatorConvert)
    as [[r ir']| |] eqn:Hrun; [|vm_compute in Hrun; discriminate Hrun..].
  assert (r = success) as ->.
  { vm_compute in Hrun. by injection Hrun as <- _. }
  exists ir'. split; [reflexivity|].
  destruct (matchAndRewrite_exact (accumulatorProgram (BlockedEncodingAttr 0))
              accumulatorConvert success ir' Hrun) as (Hiff & _ & Hbuilt).
  destruct (Hbuilt eq_refl)
    as (src & dotOp & acc & cvtOp & loaded & dst & dstTy & Hsrc & Hdot & Hacc & Hcvt &
        Hloaded & Hdst & HdstTy & Hadd & Hgone & Hunused).
  injection Hsrc as <-. vm_compute in Hdot. injection Hdot as <-.
  injection Hacc as <-. vm_compute in Hcvt. injection Hcvt as <-.
  injection Hloaded as <-. injection Hdst as <-. vm_compute in HdstTy.
  injection HdstTy as <-.
  split_and!; [by apply Hiff|exact Hadd|exact Hgone|exact Hunused|].
  vm_compute in Hrun. injection Hrun as <-. vm_compute. reflexivity.
Defined.

(** * The further properties on the worked programs *)

Lemma atomicProgram_anchors :
  initAnchorLayout alwaysExpensive walkForwardSlice atomicProgram = Finished atomicAnchors.
Proof. vm_compute. reflexivity. Qed.

Lemma atomicProgram_propagated :
  propagateLayout sameEncoding 50 atomicProgram atomicAnchors = Finished atomicLayouts.
Proof. vm_compute. reflexivity. Qed.

(** On the atomic: the result's own layout stays first while the layouts of
    the operands are appended. *)
Lemma propagateLayout_appends_atomic :
  candidates atomicAnchors 2 `prefix_of` candidates atomicLayouts 2.
Proof.
  apply (propagateLayout_appends sameEncoding atomicProgram 50 atomicAnchors atomicLayouts 2).
  vm_compute. reflexivity.
Defined.

(** On the atomic: the result keeps its blocked layout, though an MMA
    layout and another blocked layout reached it. *)
Lemma anchor_keeps_preferred_encoding_atomic :
  layouts_find 2 (resolveConflicts atomicProgram atomicLayouts)
  = Some (mkLayoutInfo [BlockedEncodingAttr 0]).
Proof.
  apply (anchor_keeps_preferred_encoding sameEncoding alwaysExpensive walkForwardSlice
           atomicProgram 50 atomicAnchors atomicLayouts 2 (BlockedEncodingAttr 0)).
  - vm_compute. reflexivity.
  - vm_compute. reflexivity.
  - vm_compute. right. right. left.
  - reflexivity.
  - reflexivity.
Defined.

(** On the loop program: the final map is stable under one more
    propagation from the iteration argument [%31]. *)
Lemma propagateLayout_fixpoint_loop :
  propagateToUsers sameEncoding loopProgram 31
    (mkLayoutInfo [BlockedEncodingAttr 1; BlockedEncodingAttr 0]) loopLayouts
  = Some (loopLayouts, []).
Proof.
  apply (propagateLayout_fixpoint sameEncoding loopProgram 50 loopAnchors loopLayouts 31).
  - vm_compute. reflexivity.
  - reflexivity.
Defined.

(** On the loop program: the candidate of the loop result [%20] reaches the
    result [%21] of the conversion although the inference derives
    nothing. *)
Lemma propagateToUsers_through_convert_loop :
  BlockedEncodingAttr 1 ∈ candidates [(21, mkLayoutInfo [BlockedEncodingAttr 1])] 21.
Proof.
  apply (propagateToUsers_through_convert noInference loopProgram 20
           (mkLayoutInfo [BlockedEncodingAttr 1]) [] _ [21]
           (plainOp 14 ConvertLayoutOp [20] [21] None) 0 21 (BlockedEncodingAttr 1)).
  - vm_compute. reflexivity.
  - vm_compute. left.
  - reflexivity.
  - left.
  - reflexivity.
  - left.
Defined.

(** On the accumulator program: the converted value [%6] is only stored,
    and nothing is propagated from it. *)
Lemma propagateToUsers_stops_store :
  propagateToUsers sameEncoding (accumulatorProgram (BlockedEncodingAttr 0)) 6
    (mkLayoutInfo [BlockedEncodingAttr 1]) []
  = Some ([], []).
Proof.
  apply (propagateToUsers_stops sameEncoding (accumulatorProgram (BlockedEncodingAttr 0)) 6).
  intros user n Huse. vm_compute in Huse.
  apply list_elem_of_singleton in Huse. injection Huse as -> ->.
  split; [reflexivity|]. vm_compute. intros Hin.
  repeat (apply elem_of_cons in Hin as [Hin|Hin]; [discriminate Hin|]).
  by apply elem_of_nil in Hin.
Defined.

(** On the while program: the layout of the yielded value [%41] reaches the
    "before" argument [%30]. *)
Lemma propagateToUsers_yield_while :
  BlockedEncodingAttr 1 ∈
  candidates [ (30, mkLayoutInfo [BlockedEncodingAttr 1]);
               (0, mkLayoutInfo [BlockedEncodingAttr 1]) ] 30.
Proof.
  apply (propagateToUsers_yield sameEncoding
           (whileProgram (BlockedEncodingAttr 0) (BlockedEncodingAttr 0)) 41
           (mkLayoutInfo [BlockedEncodingAttr 1]) [] _ [30; 0] whileYield 0 whileLoop 30
           (BlockedEncodingAttr 1) (BlockedEncodingAttr 1)).
  - vm_compute. reflexivity.
  - vm_compute. left.
  - reflexivity.
  - reflexivity.
  - right. right. split; [reflexivity|]. left. reflexivity.
  - reflexivity.
  - left.
  - reflexivity.
Defined.

(** On the while program: the layout of the forwarded value [%30], operand 1
    of the condition, reaches result 0 of the loop. *)
Lemma propagateToUsers_condition_while :
  0 < 1 ∧ opKind whileLoop = WhileOp ∧
  BlockedEncodingAttr 1 ∈
  candidates [ (40, mkLayoutInfo [BlockedEncodingAttr 1]);
               (20, mkLayoutInfo [BlockedEncodingAttr 1]) ] 20.
Proof.
  apply (propagateToUsers_condition sameEncoding
           (whileProgram (BlockedEncodingAttr 0) (BlockedEncodingAttr 0)) 30
           (mkLayoutInfo [BlockedEncodingAttr 1]) [] _ [40; 20] whileCondition 1 whileLoop 20
           (BlockedEncodingAttr 1) (BlockedEncodingAttr 1)).
  - vm_compute. reflexivity.
  - vm_compute. left.
  - reflexivity.
  - reflexivity.
  - right. reflexivity.
  - reflexivity.
  - left.
  - reflexivity.
Defined.

(** On the while program: the layout of the operand [%0] reaches the
    "before" argument [%30]. *)
Lemma propagateToUsers_while_init_while :
  exists arg,
    getBeforeArguments whileLoop !! 0 = Some arg ∧
    forall e d,
      isRankedTensor (whileProgram (BlockedEncodingAttr 0) (BlockedEncodingAttr 0)) arg = true ->
      e ∈ [BlockedEncodingAttr 1] -> sameEncoding whileLoop e = Some d ->
      d ∈ candidates [(30, mkLayoutInfo [BlockedEncodingAttr 1])] arg.
Proof.
  apply (propagateToUsers_while_init sameEncoding
           (whileProgram (BlockedEncodingAttr 0) (BlockedEncodingAttr 0)) 0
           (mkLayoutInfo [BlockedEncodingAttr 1]) [] _ [30] whileLoop 0).
  - vm_compute. reflexivity.
  - vm_compute. left.
  - reflexivity.
Defined.
(** On the loop program: the load result [%5] asked for in the layout of
    the argument comes back in that layout. *)
Lemma getValueAs_encoding_loop :
  exists ir' returned,
    loopProgramOnce = Finished (ir', returned) ∧
    getValueEncoding ir' returned = Some (BlockedEncodingAttr 0).
Proof.
  destruct loopProgramOnce as [[ir' returned]| |] eqn:Hcall;
    [|vm_compute in Hcall; discriminate Hcall..].
  exists ir', returned. split; [reflexivity|].
  exact (getValueAs_encoding loopProgram [] ∅ 5 (BlockedEncodingAttr 0) ir' returned Hcall).
Defined.

(** On the loop program: the call adds one conversion, of [%5], and
    nothing else changes. *)
Lemma getValueAs_only_adds_loop :
  exists ir' returned,
    loopProgramOnce = Finished (ir', returned) ∧
    (exists l1 added l2,
       irOps loopProgram = l1 ++ l2 ∧ irOps ir' = l1 ++ added ++ l2 ∧
       (added = [] ∨
        exists cvt source shape elementType valueEncoding,
          added = [cvt] ∧ opKind cvt = ConvertLayoutOp ∧
          opOperands cvt = [source] ∧ opResults cvt = [returned] ∧
          getType loopProgram returned = None ∧
          getType loopProgram 5 = Some (RankedTensorType shape elementType valueEncoding) ∧
          getRewrittenValue [] ∅ 5 valueEncoding = Finished source ∧
          getType ir' returned
          = Some (RankedTensorType shape elementType (BlockedEncodingAttr 0)))) ∧
    irArgs ir' = irArgs loopProgram ∧
    (forall v t, getType loopProgram v = Some t -> getType ir' v = Some t).
Proof.
  destruct loopProgramOnce as [[ir' returned]| |] eqn:Hcall;
    [|vm_compute in Hcall; discriminate Hcall..].
  exists ir', returned. split; [reflexivity|].
  exact (getValueAs_only_adds loopProgram [] ∅ 5 (BlockedEncodingAttr 0) ir' returned Hcall).
Defined.

(** On the loop program with the unresolved map: [%5] still has three
    candidates, and the call aborts. *)
Lemma getValueAs_asserts_conflict :
  getValueAs loopProgram conflictLayouts ∅ 5 (BlockedEncodingAttr 0) = Aborted.
Proof.
  apply (getValueAs_asserts loopProgram conflictLayouts ∅ 5 (BlockedEncodingAttr 0)
           (mkLayoutInfo [NvidiaMmaEncodingAttr 2 0; BlockedEncodingAttr 0;
                          BlockedEncodingAttr 1])).
  - reflexivity.
  - reflexivity.
  - left. simpl. lia.
Defined.

(** On the loop program: once [%0] is mapped as the form of [%5] in the
    layout picked for it, asking for [%5] in that layout gives [%0]. *)
Lemma getValueAs_after_map_loop :
  getValueAs loopProgram [(5, mkLayoutInfo [BlockedEncodingAttr 0])]
    {[ (5, BlockedEncodingAttr 0) := 0 ]} 5 (BlockedEncodingAttr 0)
  = Finished (loopProgram, 0).
Proof.
  apply (getValueAs_after_map loopProgram [(5, mkLayoutInfo [BlockedEncodingAttr 0])] ∅ 5 0
           (BlockedEncodingAttr 0) {[ (5, BlockedEncodingAttr 0) := 0 ]}).
  - reflexivity.
  - reflexivity.
  - vm_compute. intros Heq. discriminate Heq.
  - reflexivity.
  - vm_compute. reflexivity.
Defined.

(** On the while program whose "before" argument was given the layout
    [#blocked1]: the yielded value is converted to it. *)
Lemma rewriteYieldOp_encodings_while :
  exists ir' yieldOp' operand',
    rewriteYieldOp (whileProgram (BlockedEncodingAttr 1) (BlockedEncodingAttr 0)) [] ∅ whileYield
    = Finished ir' ∧
    getOp ir' 14 = Some yieldOp' ∧
    opOperands yieldOp' !! 0 = Some operand' ∧
    getValueEncoding ir' operand' = Some (BlockedEncodingAttr 1).
Proof.
  destruct (rewriteYieldOp (whileProgram (BlockedEncodingAttr 1) (BlockedEncodingAttr 0))
              [] ∅ whileYield) as [ir'| |] eqn:Hrun; [|vm_compute in Hrun; discriminate Hrun..].
  destruct (rewriteYieldOp_encodings
              (whileProgram (BlockedEncodingAttr 1) (BlockedEncodingAttr 0)) [] ∅
              whileYield whileLoop ir' 0 41 (tensorOf (BlockedEncodingAttr 1)))
    as (yieldOp' & operand' & Hop & Hoperand & Henc).
  - reflexivity.
  - reflexivity.
  - simpl. lia.
  - exact Hrun.
  - reflexivity.
  - reflexivity.
  - exists ir', yieldOp', operand'. split_and!; [reflexivity|exact Hop|exact Hoperand|].
    apply Henc. reflexivity.
Defined.

(** On the while program whose results were given the layout [#blocked1]:
    the forwarded operand of the condition is converted to it, the condition
    itself stays. *)
Lemma rewriteConditionOp_encodings_while :
  exists ir' conditionOp' operand',
    rewriteConditionOp (whileProgram (BlockedEncodingAttr 0) (BlockedEncodingAttr 1)) [] ∅
      whileCondition = Finished ir' ∧
    getOp ir' 12 = Some conditionOp' ∧
    opOperands conditionOp' !! 0 = Some 31 ∧
    opOperands conditionOp' !! 1 = Some operand' ∧
    getValueEncoding ir' operand' = Some (BlockedEncodingAttr 1).
Proof.
  destruct (rewriteConditionOp (whileProgram (BlockedEncodingAttr 0) (BlockedEncodingAttr 1))
              [] ∅ whileCondition) as [ir'| |] eqn:Hrun;
    [|vm_compute in Hrun; discriminate Hrun..].
  destruct (rewriteConditionOp_encodings
              (whileProgram (BlockedEncodingAttr 0) (BlockedEncodingAttr 1)) [] ∅
              whileCondition whileLoop ir')
    as (_ & conditionOp' & Hop & Hzero & Hrest).
  - reflexivity.
  - reflexivity.
  - simpl. lia.
  - exact Hrun.
  - destruct (Hrest 1 30 20 (tensorOf (BlockedEncodingAttr 1)))
      as (operand' & Hoperand & Henc); [lia|reflexivity|reflexivity|reflexivity|].
    exists ir', conditionOp', operand'.
    split_and!; [reflexivity|exact Hop|exact Hzero|exact Hoperand|].
    apply Henc. reflexivity.
Defined.

(** On the reduction with both operands mapped: the encoding is the one
    picked for [%0], the first operand, although [%1] comes first in the map
    and is the last mapped operand; [%0] becomes its rewritten form [%4] and
    [%1] a conversion of its rewritten form, both in [#blocked1]. *)
Lemma rewriteReduceToScalar_encodings_reduce :
  exists ir' reduceOp' second,
    rewriteReduceToScalar reduceProgram reduceLayouts reduceMapping scalarReduce
    = Finished ir' ∧
    getOp ir' 10 = Some reduceOp' ∧
    opOperands reduceOp' = [4; second] ∧
    getValueEncoding ir' 4 = Some (BlockedEncodingAttr 1) ∧
    getValueEncoding ir' second = Some (BlockedEncodingAttr 1) ∧
    getDefiningOpOfKind ir' second ConvertLayoutOp
    = Some (plainOp 11 ConvertLayoutOp [3] [second] None).
Proof.
  destruct (rewriteReduceToScalar reduceProgram reduceLayouts reduceMapping scalarReduce)
    as [ir'| |] eqn:Hrun; [|vm_compute in Hrun; discriminate Hrun..].
  destruct (rewriteReduceToScalar_encodings reduceProgram reduceLayouts reduceMapping
              scalarReduce ir' eq_refl Hrun)
    as [[Hnone _]|(k & mapped & info & encoding & reduceOp' & Hk & Hbefore & Hfind &
                   Henc & Hop & Hall)].
  - specialize (Hnone 1). vm_compute in Hnone.
    assert (Some (mkLayoutInfo [NvidiaMmaEncodingAttr 2 0]) = None) as Habs
      by (apply Hnone; right; left).
    discriminate Habs.
  - assert (k = 0) as ->.
    { destruct k as [|k]; [done|]. specialize (Hbefore 0 0). vm_compute in Hbefore.
      assert (Some (mkLayoutInfo [BlockedEncodingAttr 1]) = None) as Habs
        by (apply Hbefore; [lia|reflexivity]).
      discriminate Habs. }
    injection Hk as <-. vm_compute in Hfind. injection Hfind as <-.
    injection Henc as <-.
    destruct (Hall 0 0 eq_refl) as (first' & Hfirst' & Hfirst).
    destruct (Hall 1 1 eq_refl) as (second' & Hsecond' & Hsecond).
    specialize (Hfirst eq_refl). specialize (Hsecond eq_refl).
    pose proof Hrun as Hir. vm_compute in Hir. injection Hir as Hir.
    rewrite <- Hir in Hop. vm_compute in Hop. injection Hop as <-.
    injection Hfirst' as <-. injection Hsecond' as <-.
    exists ir', (plainOp 10 ReduceOp [4; 5] [2] None), 5.
    split_and!; [reflexivity|by rewrite <- Hir|reflexivity|exact Hfirst|exact Hsecond|].
    rewrite <- Hir. vm_compute. reflexivity.
Defined.

(** On the hoisting program, whose load cannot be rematerialized: the
    conversion goes above the extension, which is cloned onto it in the
    target layout, and the store takes the clone's result. *)
Lemma hoistConvertOnTopOfExtOrBroadcast_all_or_nothing_ext :
  exists ir',
    hoistConvertOnTopOfExtOrBroadcast alwaysExpensive chainSlice keepOrder noLoopResignature
      sharedByType sameEncoding hoistProgram hoistConvert = Finished ir' ∧
    ir' ≠ hoistProgram ∧ getOp ir' 12 = None ∧
    (fun op => (opKind op, opOperands op, opResults op)) <$> irOps ir' =
    [ (LoadOp, [0], [1]); (ConvertLayoutOp, [1], [4]); (ExtFOp, [4], [5]);
      (ExtFOp, [1], [2]); (StoreOp, [0; 5], []) ] ∧
    getValueEncoding ir' 4 = Some (BlockedEncodingAttr 1) ∧
    getValueEncoding ir' 5 = Some (BlockedEncodingAttr 1).
Proof.
  destruct (hoistConvertOnTopOfExtOrBroadcast alwaysExpensive chainSlice keepOrder
              noLoopResignature sharedByType sameEncoding hoistProgram hoistConvert)
    as [ir'| |] eqn:Hrun; [|vm_compute in Hrun; discriminate Hrun..].
  exists ir'. split; [reflexivity|].
  assert (ir' ≠ hoistProgram) as Hne.
  { vm_compute in Hrun. injection Hrun as <-. intros Heq.
    apply (f_equal (fun ir => length (irOps ir))) in Heq. vm_compute in Heq.
    discriminate Heq. }
  split; [exact Hne|].
  destruct (hoistConvertOnTopOfExtOrBroadcast_all_or_nothing alwaysExpensive chainSlice
              keepOrder noLoopResignature sharedByType sameEncoding hoistProgram hoistConvert
              ir' Hrun)
    as [Hsame|(ext & slice & layout & srcEncoding & dstEncoding & oldResult & newResult &
               ir4 & _ & _ & _ & _ & _ & _ & _ & Hgone)]; [by destruct Hne|].
  split; [exact Hgone|].
  vm_compute in Hrun. injection Hrun as <-. split_and!; vm_compute; reflexivity.
Defined.

(** On the constant program: the slice holds a constant and no extension,
    and the program is left as it is. *)
Lemma hoistConvertOnTopOfExtOrBroadcast_needs_extension_constant :
  hoistConvertOnTopOfExtOrBroadcast alwaysExpensive chainSlice keepOrder noLoopResignature
    sharedByType sameEncoding (constantProgram (BlockedEncodingAttr 1)) constantConvert
  = Finished (constantProgram (BlockedEncodingAttr 1)).
Proof.
  apply (hoistConvertOnTopOfExtOrBroadcast_needs_extension alwaysExpensive chainSlice
           keepOrder noLoopResignature sharedByType sameEncoding
           (constantProgram (BlockedEncodingAttr 1)) constantConvert 2 1
           (BlockedEncodingAttr 1)).
  - reflexivity.
  - reflexivity.
  - reflexivity.
  - intros v op Hv Hdef. vm_compute in Hv.
    apply list_elem_of_singleton in Hv as ->. vm_compute in Hdef.
    injection Hdef as <-. reflexivity.
Defined.

(** On the extension program: the elementwise operation [%3] cloned for the
    layout [#blocked1] uses a conversion of [%2] and yields a value in that
    layout. *)
Lemma cloneElementwise_contract_ext :
  exists ir' newOp operand' new,
    cloneElementwise sameEncoding extProgram [] ∅ (BeforeOp 12)
      (mkOperation 12 (OtherOp 0) [2] [3] [] None 0 false false true [])
      (BlockedEncodingAttr 1) = Finished (ir', newOp) ∧
    opOperands newOp !! 0 = Some operand' ∧
    getValueEncoding ir' operand' = Some (BlockedEncodingAttr 1) ∧
    opResults newOp !! 0 = Some new ∧
    getValueEncoding ir' new = Some (BlockedEncodingAttr 1).
Proof.
  destruct (cloneElementwise sameEncoding extProgram [] ∅ (BeforeOp 12)
              (mkOperation 12 (OtherOp 0) [2] [3] [] None 0 false false true [])
              (BlockedEncodingAttr 1)) as [[ir' newOp]| |] eqn:Hrun;
    [|vm_compute in Hrun; discriminate Hrun..].
  destruct (cloneElementwise_contract sameEncoding extProgram [] ∅ (BeforeOp 12) _ _
              ir' newOp Hrun) as (_ & _ & Hoperands & Hresults).
  destruct (Hoperands 0 2 eq_refl) as (operandEnc & operand' & Hinfer & Hoperand & Henc).
  injection Hinfer as <-.
  destruct (Hresults 0 3 eq_refl eq_refl) as (new & Hnew & Hnewenc).
  exists ir', newOp, operand', new. split_and!; try done.
  apply Henc; [reflexivity|].
  vm_compute in Hrun. injection Hrun as <- <-. vm_compute in Hoperand.
  injection Hoperand as <-. vm_compute. intros Hin.
  apply list_elem_of_singleton in Hin. discriminate Hin.
Defined.

(** On the atomic: propagating from the operand [%1] gives the result [%2]
    a candidate, and [%2] is what is reported changed. *)
Lemma propagateToUsers_changed_atomic :
  (2 ∈ [2] <->
   candidates [ (0, mkLayoutInfo [BlockedEncodingAttr 1]);
                (1, mkLayoutInfo [NvidiaMmaEncodingAttr 2 0]);
                (2, mkLayoutInfo [BlockedEncodingAttr 0; NvidiaMmaEncodingAttr 2 0]) ] 2
   ≠ candidates atomicAnchors 2) ∧
  candidates atomicAnchors 2 `prefix_of`
  candidates [ (0, mkLayoutInfo [BlockedEncodingAttr 1]);
               (1, mkLayoutInfo [NvidiaMmaEncodingAttr 2 0]);
               (2, mkLayoutInfo [BlockedEncodingAttr 0; NvidiaMmaEncodingAttr 2 0]) ] 2.
Proof.
  apply (propagateToUsers_changed sameEncoding atomicProgram 1
           (mkLayoutInfo [NvidiaMmaEncodingAttr 2 0]) atomicAnchors _ [2] 2).
  vm_compute. reflexivity.
Defined.

(** On the loop program: the completed map is well formed. *)
Lemma propagateLayout_map_wellformed_loop :
  NoDup loopLayouts.*1 ∧
  Forall (fun entry => isRankedTensor loopProgram entry.1 = true ∧
                       encodings entry.2 ≠ [] ∧ NoDup (encodings entry.2)) loopLayouts.
Proof.
  apply (propagateLayout_map_wellformed sameEncoding alwaysExpensive walkForwardSlice
           loopProgram 50 loopAnchors loopLayouts).
  - vm_compute. reflexivity.
  - vm_compute. reflexivity.
Defined.

(** On the loop program, with the map resolved to [#blocked1] for the loop:
    once the loop is rewritten, its result [%20] is handed out in
    [#blocked1] without a conversion. *)
Lemma rewriteOp_records_result_loop :
  exists st' newOp new,
    rewriteOp sameEncoding neverFolds loopResolved (mkRewritePhase loopProgram ∅ []) loopFor
    = Finished (st', newOp) ∧
    getValueEncoding (rpIR st') new = Some (BlockedEncodingAttr 1) ∧
    getValueAs (rpIR st') loopResolved (rpMapping st') 20 (BlockedEncodingAttr 1)
    = Finished (rpIR st', new).
Proof.
  destruct (rewriteOp sameEncoding neverFolds loopResolved (mkRewritePhase loopProgram ∅ [])
              loopFor) as [[st' newOp]| |] eqn:Hrun;
    [|vm_compute in Hrun; discriminate Hrun..].
  destruct (rewriteOp_records_result sameEncoding neverFolds loopResolved
              (mkRewritePhase loopProgram ∅ []) loopFor st' newOp 0 20
              (BlockedEncodingAttr 1) (BlockedEncodingAttr 0) Hrun)
    as (new & Henc & Hcall).
  - reflexivity.
  - reflexivity.
  - reflexivity.
  - discriminate.
  - by left.
  - intros _. exists 0. split; reflexivity.
  - by exists st', newOp, new.
Defined.

(** On the loop program: the rewritten loop is a new [scf.for], the old one
    is noted for deletion and still there. *)
Lemma rewriteOp_builds_beside_loop :
  exists st' newOp,
    rewriteOp sameEncoding neverFolds loopResolved (mkRewritePhase loopProgram ∅ []) loopFor
    = Finished (st', newOp) ∧
    rpToDelete st' = [11] ∧ opKind newOp = ForOp ∧ opId newOp ≠ 11 ∧
    keeps loopProgram (rpIR st').
Proof.
  destruct (rewriteOp sameEncoding neverFolds loopResolved (mkRewritePhase loopProgram ∅ [])
              loopFor) as [[st' newOp]| |] eqn:Hrun;
    [|vm_compute in Hrun; discriminate Hrun..].
  destruct (rewriteOp_builds_beside sameEncoding neverFolds loopResolved
              (mkRewritePhase loopProgram ∅ []) loopFor st' newOp Hrun)
    as (Hdel & _ & Hfresh & Hkind & Hkeeps & _).
  exists st', newOp. split_and!; [reflexivity|exact Hdel| | |exact Hkeeps].
  - destruct Hkind as [Hkind|Hkind]; [exact Hkind|].
    vm_compute in Hrun. injection Hrun as _ <-. discriminate Hkind.
  - intros Heq. apply (Hfresh loopFor); [|by rewrite Heq].
    unfold loopProgram, loopFor. simpl. rewrite !elem_of_cons. auto.
Defined.

(** On the loop program, with [%0] recorded as the rewritten form of the
    load result [%5]: the body of the loop, which is not rewritten, gets
    its operand [%5] back in [#blocked1] through a conversion. *)
Lemma rewriteRegionOp_keeps_operand_encodings_loop :
  exists st' queue' op' operand',
    rewriteRegionOp sameEncoding neverFolds [(5, mkLayoutInfo [BlockedEncodingAttr 0])]
      (mkRewritePhase loopProgram {[ (5, BlockedEncodingAttr 0) := 0 ]} []) [] loopBody
    = Finished (st', queue') ∧
    getOp (rpIR st') 12 = Some op' ∧ opOperands op' !! 1 = Some operand' ∧
    operand' ≠ 5 ∧
    getValueEncoding (rpIR st') operand' = Some (BlockedEncodingAttr 1).
Proof.
  destruct (rewriteRegionOp sameEncoding neverFolds [(5, mkLayoutInfo [BlockedEncodingAttr 0])]
              (mkRewritePhase loopProgram {[ (5, BlockedEncodingAttr 0) := 0 ]} []) []
              loopBody) as [[st' queue']| |] eqn:Hrun;
    [|vm_compute in Hrun; discriminate Hrun..].
  destruct (rewriteRegionOp_keeps_operand_encodings sameEncoding neverFolds
              [(5, mkLayoutInfo [BlockedEncodingAttr 0])]
              (mkRewritePhase loopProgram {[ (5, BlockedEncodingAttr 0) := 0 ]} []) []
              loopBody st' queue')
    as (_ & _ & _ & op' & Hop' & _ & Hoperands); try reflexivity; try discriminate.
  - exact Hrun.
  - destruct (Hoperands 1 5 eq_refl) as (operand' & Hoperand' & _ & Henc).
    exists st', queue', op', operand'. split_and!; [reflexivity|exact Hop'|exact Hoperand'| |
                                                    by apply Henc].
    vm_compute in Hrun. injection Hrun as <- _. vm_compute in Hop'. injection Hop' as <-.
    vm_compute in Hoperand'. injection Hoperand' as <-. discriminate.
Defined.

(** On the function without anchors: the forward propagation finds nothing
    to do and returns it as it is, within the turns its five operations and
    two regions ask for. *)
Lemma propagateLayoutsForward_without_anchor_select :
  rewriteFuel selectProgram = 9 ∧
  LayoutPropagation_rewrite sameEncoding neverFolds 9 selectProgram [] =
  Finished selectProgram ∧
  propagateLayoutsForward sameEncoding alwaysExpensive walkForwardSlice sameEncoding
    neverFolds 0 9 selectProgram = Finished selectProgram.
Proof.
  destruct (propagateLayoutsForward_without_anchor sameEncoding alwaysExpensive
              walkForwardSlice sameEncoding neverFolds selectProgram 0 9)
    as [Hrewrite Hforward].
  - vm_compute. reflexivity.
  - vm_compute. lia.
  - split_and!; [reflexivity|exact Hrewrite|]. apply Hforward. vm_compute. reflexivity.
Defined.

(** On the loop program: the new loop carries [#blocked1], the encoding
    picked for the result of the old one, in its init, its result and its
    iteration argument. *)
Lemma rewriteForOp_loop_carried_types_loop :
  exists st' newForOp newInit newResult newArg,
    rewriteForOp loopResolved (mkRewritePhase loopProgram ∅ []) loopFor
    = Finished (st', newForOp) ∧
    getInitArgs newForOp !! 0 = Some newInit ∧
    opResults newForOp !! 0 = Some newResult ∧
    getRegionIterArg newForOp 0 = Some newArg ∧
    getType (rpIR st') newInit = Some (tensorOf (BlockedEncodingAttr 1)) ∧
    getType (rpIR st') newResult = Some (tensorOf (BlockedEncodingAttr 1)) ∧
    getType (rpIR st') newArg = Some (tensorOf (BlockedEncodingAttr 1)).
Proof.
  destruct (rewriteForOp loopResolved (mkRewritePhase loopProgram ∅ []) loopFor)
    as [[st' newForOp]| |] eqn:Hrun; [|vm_compute in Hrun; discriminate Hrun..].
  destruct (rewriteForOp_loop_carried_types loopResolved (mkRewritePhase loopProgram ∅ [])
              loopFor st' newForOp 0 0 20 Hrun eq_refl eq_refl)
    as (newInit & newResult & newArg & ty & Hinit & Hresult & Harg & Hty1 & Hty2 & Hty3 & Henc).
  assert (ty = tensorOf (BlockedEncodingAttr 1)) as ->.
  { specialize (Henc (mkLayoutInfo [BlockedEncodingAttr 1]) (BlockedEncodingAttr 1)
                  eq_refl eq_refl eq_refl).
    vm_compute in Hrun. injection Hrun as <- <-.
    vm_compute in Hresult. injection Hresult as <-.
    vm_compute in Hty2. by injection Hty2 as <-. }
  by exists st', newForOp, newInit, newResult, newArg.
Defined.
